(** * PyDTNN [BestOf]: runtime selection of the fastest alternative

    A shallow embedding of [pydtnn/utils/best_of.py] (classes
    [_BestOfExecution] and [BestOf]) and the properties of its dispatch,
    sampling, pruning and blocking logic.

    Python objects are records kept in a store ([World]); every dictionary
    of the source is a [gmap]; a [defaultdict] is a [gmap] whose reads
    insert the default, as Python's do; Python integers are [Z].  A float
    is the rational it denotes, or NaN ([None]); every operation of the
    code on floats gives the exact result rounded by the arithmetic of the
    machine, a parameter ([Arithmetic]) that [Binary64] provides: IEEE 754
    double precision, round to nearest, ties to even.  The range of the
    exponents is not bounded above: no operation overflows to an infinity,
    which no elapsed time comes near.  What [print] writes is appended to
    the [stdout] of the store.  The alternatives are references to
    callables, run by a parameter [invoke] that gives their output and the
    time they take; [__call__] is split at that run into
    [before_alternative] and [after_alternative]. *)

From Stdlib Require Import ZArith QArith Qround Qpower Qabs Lia Lqa.
From stdpp Require Import base option list gmap strings pretty.

Local Open Scope Z_scope.

(** ** Python sequences *)

Module Py.

(** [l[i]] for a Python list: negative indices count from the end, anything
    outside [-len, len) raises IndexError (here: [None]). *)
Definition index {A} (l : list A) (i : Z) : option A :=
  let n := Z.of_nat (length l) in
  if bool_decide (0 <= i) then l !! Z.to_nat i
  else if bool_decide (- n <= i) then l !! Z.to_nat (n + i)
  else None.

(** [l[i] = x] for a Python list, same index discipline. *)
Definition set_index {A} (l : list A) (i : Z) (x : A) : option (list A) :=
  let n := Z.of_nat (length l) in
  let k := if bool_decide (0 <= i) then Z.to_nat i else Z.to_nat (n + i) in
  if bool_decide (- n <= i < n) then Some (<[k := x]> l) else None.

(** [a % b] on Python integers: the result has the sign of [b], as
    [Z.modulo]; [b = 0] raises ZeroDivisionError. *)
Definition mod_ (a b : Z) : option Z :=
  if bool_decide (b = 0) then None else Some (a mod b).

(** [[x] * n]: an empty list when [n <= 0]. *)
Definition repeat_ {A} (x : A) (n : Z) : list A := replicate (Z.to_nat n) x.

End Py.

(** ** The arithmetic of floats

    What the machine makes of the exact result of an operation.  The
    result is handed over in lowest terms. *)

Class Arithmetic := rnd : Q -> Q.

(** IEEE 754 binary64. *)

Module Binary64.

(** The integer nearest to [x], the even one of two equally near. *)
Definition nearest_even (x : Q) : Z :=
  let f := Qfloor x in
  match (x - inject_Z f ?= 1 # 2)%Q with
  | Lt => f
  | Gt => f + 1
  | Eq => if Z.even f then f else f + 1
  end.

(** [floor (log2 x)] for [0 < x]. *)
Definition floor_log2 (x : Q) : Z :=
  if Qle_bool 1 x then Z.log2 (Qfloor x)
  else - Z.log2_up (Qceiling (/ x)).

(** The exponent of the unit in the last place of the binary64 numbers
    around [x <> 0]: 53 bits of precision, subnormals below [2^-1022]. *)
Definition ulp_exp (x : Q) : Z :=
  Z.max (floor_log2 (Qabs x) - 52) (-1074).

(** Rounding to the nearest binary64 number, ties to even. *)
Definition round (x : Q) : Q :=
  if Qeq_bool x 0 then 0%Q
  else let u := (2 ^ ulp_exp x)%Q in
       Qred (inject_Z (nearest_even (x / u)) * u).

End Binary64.

(** ** Floats and the NumPy calls

    A float is [Some q] or NaN ([None]).  Every comparison with NaN is
    false; the comparisons of numbers are exact, their arithmetic is
    rounded. *)

Module Float.

Section Operations.

Context {arith : Arithmetic}.

Definition t := option Q.

(** The float an exact result becomes. *)
Definition round (x : Q) : Q := rnd (Qred x).

(** A number that is a float, and whose double is one (it is, unless it
    overflows). *)
Definition is_float (x : Q) : Prop :=
  (round x == x)%Q /\ (round (2 * x) == 2 * x)%Q.

Definition lt (a b : t) : bool :=
  match a, b with Some x, Some y => negb (Qle_bool y x) | _, _ => false end.

Definition le (a b : t) : bool :=
  match a, b with Some x, Some y => Qle_bool x y | _, _ => false end.

(** [a * s] for a float [a] and the number [s]. *)
Definition mul (a : t) (s : Q) : t := (fun x => round (x * s)) <$> a.

(** Insertion sort of the samples, the order [np.median] sorts them in. *)
Fixpoint insert_sorted (x : Q) (l : list Q) : list Q :=
  match l with
  | [] => [x]
  | y :: l' => if Qle_bool x y then x :: l else y :: insert_sorted x l'
  end.

Definition sort (l : list Q) : list Q := foldr insert_sorted [] l.

(** [np.median(x)]: the middle sample; for an even count the mean of the
    two middle ones, which NumPy adds and then halves; NaN for no
    sample. *)
Definition median (l : list Q) : t :=
  let s := sort l in
  let n := length s in
  match n with
  | O => None
  | _ =>
    if Nat.even n
    then match s !! (n / 2 - 1)%nat, s !! (n / 2)%nat with
         | Some a, Some b => Some (round (round (a + b) / 2))
         | _, _ => None
         end
    else s !! (n / 2)%nat
  end.

(** [a + b]. *)
Definition add (a b : Q) : Q := round (a + b).

(** The additions of NumPy's pairwise summation.  Up to 128 numbers, 8 or
    more: 8 partial sums [r] take the numbers of [l] in turn, block after
    block of 8 ([k] blocks). *)
Fixpoint sum_lanes (r l : list Q) (k : nat) : list Q * list Q :=
  match k with
  | O => (r, l)
  | S k' => sum_lanes (zip_with add r (take 8 l)) (drop 8 l) k'
  end.

(** The partial sums are added in pairs, and the numbers left over (fewer
    than 8) one after the other. *)
Definition sum_block (l : list Q) : Q :=
  let '(r, rest) := sum_lanes (take 8 l) (drop 8 l) (length l / 8 - 1) in
  match r with
  | [r0; r1; r2; r3; r4; r5; r6; r7] =>
      foldl add
        (add (add (add r0 r1) (add r2 r3)) (add (add r4 r5) (add r6 r7)))
        rest
  | _ => 0%Q
  end.

(** Fewer than 8 numbers are added from the left, starting from 0; more
    than 128 are split in two parts, the first of a multiple of 8
    numbers. *)
Fixpoint sum_pairwise (fuel : nat) (l : list Q) : Q :=
  let n := length l in
  if (n <? 8)%nat then foldl add 0%Q l
  else if (n <=? 128)%nat then sum_block l
  else
    match fuel with
    | O => sum_block l
    | S fuel' =>
        let n2 := (n / 2 - (n / 2) mod 8)%nat in
        add (sum_pairwise fuel' (take n2 l)) (sum_pairwise fuel' (drop n2 l))
    end.

(** [np.sum(x)] over a stage buffer that holds no [None]: the pairwise
    sum, added to the initial 0. *)
Definition sum (l : list Q) : Q := add 0 (sum_pairwise (length l) l).

(** Python's [min(xs)]: keeps the first element and replaces it by each
    later one that compares strictly smaller; ValueError on an empty
    list. *)
Definition min_ (l : list t) : option t :=
  match l with
  | [] => None
  | x :: l' => Some (foldl (fun m y => if lt y m then y else m) x l')
  end.

(** The float equality of [list.index].  Two NaNs compare equal here:
    [list.index] tests identity first, and when [min] returns NaN it
    returns the object at position 0, which [index] then finds at 0. *)
Definition eqb (a b : t) : bool :=
  match a, b with
  | Some x, Some y => Qeq_bool x y
  | None, None => true
  | _, _ => false
  end.

(** [xs.index(m)]: position of the first element equal to [m]. *)
Fixpoint index_of (m : t) (l : list t) : option nat :=
  match l with
  | [] => None
  | x :: l' => if eqb x m then Some O else S <$> index_of m l'
  end.

End Operations.

End Float.

(** The rounding keeps the order of the exact results, as every rounding
    of IEEE 754 does. *)
Definition monotone_rounding `{Arithmetic} : Prop :=
  forall x y, (x <= y)%Q -> (rnd x <= rnd y)%Q.

(** ** The values of a speedup

    The medians are NumPy floats and so is their quotient: a zero divisor
    gives an infinity, or NaN for [0 / 0], where Python's own floats would
    raise ZeroDivisionError. *)

Module Speedup.

Section Operations.

Context {arith : Arithmetic}.

Inductive t :=
  | NaN
  | Inf (negative : bool)
  | Fin (q : Q).

(** Python's [max(xs)]: keeps the first element and replaces it by each
    later one that compares strictly greater; ValueError (here: [None]) on
    an empty list. *)
Definition max_ (l : list Float.t) : option Float.t :=
  match l with
  | [] => None
  | x :: l' => Some (foldl (fun m y => if Float.lt m y then y else m) x l')
  end.

(** [a / b]. *)
Definition div (a b : Float.t) : t :=
  match a, b with
  | Some x, Some y =>
      if Qeq_bool y 0 then
        if Qeq_bool x 0 then NaN else Inf (negb (Qle_bool 0 x))
      else Fin (Float.round (x / y))
  | _, _ => NaN
  end.

(** [a + b]: opposite infinities give NaN. *)
Definition add (a b : t) : t :=
  match a, b with
  | Fin x, Fin y => Fin (Float.round (x + y))
  | Inf s, Fin _ | Fin _, Inf s => Inf s
  | Inf s, Inf s' => if Bool.eqb s s' then Inf s else NaN
  | _, _ => NaN
  end.

(** The float of a Python integer. *)
Definition of_int (n : Z) : Q := Float.round (inject_Z n).

(** [a * n] for a Python integer [n]: [inf * 0] is NaN. *)
Definition scale (a : t) (n : Z) : t :=
  match a with
  | Fin x => Fin (Float.round (x * of_int n))
  | Inf s =>
      if bool_decide (n = 0) then NaN
      else Inf (if bool_decide (0 < n) then s else negb s)
  | NaN => NaN
  end.

(** [a / n] for a Python integer [n]: as NumPy divides, with an infinity
    or NaN for [n = 0]. *)
Definition div_int (a : t) (n : Z) : t :=
  match a with
  | Fin x =>
      if bool_decide (n = 0) then
        if Qeq_bool x 0 then NaN else Inf (negb (Qle_bool 0 x))
      else Fin (Float.round (x / of_int n))
  | Inf s => Inf (if bool_decide (0 <= n) then s else negb s)
  | NaN => NaN
  end.

End Operations.

End Speedup.

(** ** Exceptions and the state monad of the embedding *)

Inductive Exception :=
  | AssertionError | IndexError | TypeError | ValueError | ZeroDivisionError
  | AttributeError
  | AlternativeFailure   (* whatever an alternative itself raises *)
  | NoSuchObject.        (* a reference the store does not hold; no Python
                            run produces one *)

Inductive Result (A : Type) :=
  | Return (a : A)
  | Raise (e : Exception).
Arguments Return {A} a.
Arguments Raise {A} e.

(** A computation over a mutable state [S]: the state it leaves behind is
    kept when it raises, as the attributes of a Python object are. *)
Definition St (S A : Type) : Type := S -> S * Result A.

#[global] Instance St_ret {S} : MRet (St S) := fun A a s => (s, Return a).
#[global] Instance St_bind {S} : MBind (St S) := fun A B k m s =>
  match m s with
  | (s', Return a) => k a s'
  | (s', Raise e) => (s', Raise e)
  end.

Definition raise {S A} (e : Exception) : St S A := fun s => (s, Raise e).
Definition get {S} : St S S := fun s => (s, Return s).
Definition modify {S} (f : S -> S) : St S unit := fun s => (f s, Return tt).
Definition of_option {S A} (o : option A) (e : Exception) : St S A :=
  match o with Some a => mret a | None => raise e end.
Definition of_result {S A} (r : Result A) : St S A := fun s => (s, r).

(** Every run of [m], returning or raising, takes a state to one related
    to it by [R]. *)
Definition st_rel {S A} (R : S -> S -> Prop) (m : St S A) : Prop :=
  forall s s' r, m s = (s', r) -> R s s'.

(** Two results that are both values, related by [RA], or both the same
    exception. *)
Definition alike_results {A} (RA : A -> A -> Prop) (r1 r2 : Result A)
  : Prop :=
  match r1, r2 with
  | Return a1, Return a2 => RA a1 a2
  | Raise e1, Raise e2 => e1 = e2
  | _, _ => False
  end.

(** The runs of [m1] and [m2] from two states related by [RS] leave states
    related by [RS] and give results alike up to [RA]. *)
Definition sim {S A} (RS : S -> S -> Prop) (RA : A -> A -> Prop)
    (m1 m2 : St S A) : Prop :=
  forall s1 s2,
    RS s1 s2 ->
    RS (m1 s1).1 (m2 s2).1 /\ alike_results RA (m1 s1).2 (m2 s2).2.

(** Reading [d[k]] on a [defaultdict]: a missing key is first bound to the
    default. *)
Definition dd_get `{Countable K} {V} (dflt : V) (k : K) (d : gmap K V)
  : V * gmap K V :=
  match d !! k with
  | Some v => (v, d)
  | None => (dflt, <[k := dflt]> d)
  end.

(** The value a [defaultdict] shows for [k], without the insertion. *)
Definition dd_peek `{Countable K} {V} (dflt : V) (k : K) (d : gmap K V) : V :=
  default dflt (d !! k).

(** ** The objects *)

(** Objects live in a store and are named by their allocation order. *)
Abbreviation NodeId := nat.
Abbreviation RegId := nat.

Section Engine.

(** Problem sizes and execution ids are hashable values; callables are
    references to function objects; arguments and outputs are opaque. *)
Context {PS ExecId Callable Args Output : Type}.
Context {arith : Arithmetic}.
Context `{Countable PS} `{Countable ExecId}.

(** The second component of an alternative: a function in single-stage
    mode, a list of functions (one per stage) in pipeline mode. *)
Inductive Impl :=
  | Method (m : Callable)
  | Pipeline (ms : list Callable).

(** Class [_BestOfExecution].  [ex_name] is its attribute [name]. *)
Record Execution := {
  best_of : option RegId;
  execution_id : option ExecId;
  parent : option NodeId;
  children : list NodeId;
  problem_sizes : gmap PS Z;
  ex_name : string;
  _blocked_by : gmap (option PS) (gmap NodeId bool);
  _current_problem_size : option PS;
}.

Definition set_children (v : list NodeId) (x : Execution) : Execution :=
  {| best_of := best_of x; execution_id := execution_id x;
     parent := parent x; children := v; problem_sizes := problem_sizes x;
     ex_name := ex_name x; _blocked_by := _blocked_by x;
     _current_problem_size := _current_problem_size x |}.

Definition set_problem_sizes (v : gmap PS Z) (x : Execution) : Execution :=
  {| best_of := best_of x; execution_id := execution_id x;
     parent := parent x; children := children x; problem_sizes := v;
     ex_name := ex_name x; _blocked_by := _blocked_by x;
     _current_problem_size := _current_problem_size x |}.

Definition set_blocked_by (v : gmap (option PS) (gmap NodeId bool))
    (x : Execution) : Execution :=
  {| best_of := best_of x; execution_id := execution_id x;
     parent := parent x; children := children x;
     problem_sizes := problem_sizes x; ex_name := ex_name x;
     _blocked_by := v; _current_problem_size := _current_problem_size x |}.

Definition set_current_problem_size (v : option PS) (x : Execution)
  : Execution :=
  {| best_of := best_of x; execution_id := execution_id x;
     parent := parent x; children := children x;
     problem_sizes := problem_sizes x; ex_name := ex_name x;
     _blocked_by := _blocked_by x; _current_problem_size := v |}.

(** Class [BestOf], instance attributes.  The first seven are assigned
    once by [__init__]; the others are the learned state. *)
Record BestOf := {
  name : string;
  alternatives : list (string * Impl);
  get_problem_size : Args -> PS;
  total_rounds : Z;
  stages : Z;
  prune_after_round : Z;
  pruning_speedup : Q;
  best_idx : gmap PS Z;
  best_name : gmap PS string;
  best_method : gmap PS (option Impl);
  best_pipeline : gmap PS (option Impl);
  _current_round : gmap PS Z;
  _current_alternative : gmap PS Z;
  _total_alternatives : Z;
  _times : gmap PS (list (list Q));
  _stages_times : gmap PS (list (list (option Q)));
  _executions : gmap ExecId NodeId;
}.

(** The learned state of one [BestOf], as a tuple, for the setters. *)
Definition with_state (o : BestOf)
    (bi : gmap PS Z) (bn : gmap PS string)
    (bm bp : gmap PS (option Impl)) (cr ca : gmap PS Z)
    (ts : gmap PS (list (list Q)))
    (sts : gmap PS (list (list (option Q))))
    (ex : gmap ExecId NodeId) : BestOf :=
  {| name := name o; alternatives := alternatives o;
     get_problem_size := get_problem_size o; total_rounds := total_rounds o;
     stages := stages o; prune_after_round := prune_after_round o;
     pruning_speedup := pruning_speedup o;
     best_idx := bi; best_name := bn; best_method := bm; best_pipeline := bp;
     _current_round := cr; _current_alternative := ca;
     _total_alternatives := _total_alternatives o;
     _times := ts; _stages_times := sts; _executions := ex |}.

Definition set_best_idx v (o : BestOf) : BestOf :=
  with_state o v (best_name o) (best_method o) (best_pipeline o)
    (_current_round o) (_current_alternative o) (_times o)
    (_stages_times o) (_executions o).
Definition set_best_name v (o : BestOf) : BestOf :=
  with_state o (best_idx o) v (best_method o) (best_pipeline o)
    (_current_round o) (_current_alternative o) (_times o)
    (_stages_times o) (_executions o).
Definition set_best_method v (o : BestOf) : BestOf :=
  with_state o (best_idx o) (best_name o) v (best_pipeline o)
    (_current_round o) (_current_alternative o) (_times o)
    (_stages_times o) (_executions o).
Definition set_best_pipeline v (o : BestOf) : BestOf :=
  with_state o (best_idx o) (best_name o) (best_method o) v
    (_current_round o) (_current_alternative o) (_times o)
    (_stages_times o) (_executions o).
Definition set_current_round v (o : BestOf) : BestOf :=
  with_state o (best_idx o) (best_name o) (best_method o) (best_pipeline o)
    v (_current_alternative o) (_times o) (_stages_times o) (_executions o).
Definition set_current_alternative v (o : BestOf) : BestOf :=
  with_state o (best_idx o) (best_name o) (best_method o) (best_pipeline o)
    (_current_round o) v (_times o) (_stages_times o) (_executions o).
Definition set_times v (o : BestOf) : BestOf :=
  with_state o (best_idx o) (best_name o) (best_method o) (best_pipeline o)
    (_current_round o) (_current_alternative o) v (_stages_times o)
    (_executions o).
Definition set_stages_times v (o : BestOf) : BestOf :=
  with_state o (best_idx o) (best_name o) (best_method o) (best_pipeline o)
    (_current_round o) (_current_alternative o) (_times o) v (_executions o).
Definition set_executions v (o : BestOf) : BestOf :=
  with_state o (best_idx o) (best_name o) (best_method o) (best_pipeline o)
    (_current_round o) (_current_alternative o) (_times o)
    (_stages_times o) v.

(** The process: the class attributes of [BestOf] and [_BestOfExecution],
    the store of both kinds of objects, and what [print] has written.
    [BestOf._root] is node 0 of [nodes]. *)
Record World := {
  _use_first_alternative : bool;
  _current_parents : list NodeId;
  _names : gmap string Z;
  nodes : list Execution;
  instances : list BestOf;
  stdout : list (Z * Z * PS);
}.

Definition _root : NodeId := 0%nat.

Definition set_use_first_alternative v (w : World) : World :=
  {| _use_first_alternative := v; _current_parents := _current_parents w;
     _names := _names w; nodes := nodes w; instances := instances w;
     stdout := stdout w |}.
Definition set_current_parents v (w : World) : World :=
  {| _use_first_alternative := _use_first_alternative w;
     _current_parents := v; _names := _names w; nodes := nodes w;
     instances := instances w; stdout := stdout w |}.
Definition set_names v (w : World) : World :=
  {| _use_first_alternative := _use_first_alternative w;
     _current_parents := _current_parents w; _names := v; nodes := nodes w;
     instances := instances w; stdout := stdout w |}.
Definition set_nodes v (w : World) : World :=
  {| _use_first_alternative := _use_first_alternative w;
     _current_parents := _current_parents w; _names := _names w; nodes := v;
     instances := instances w; stdout := stdout w |}.
Definition set_instances v (w : World) : World :=
  {| _use_first_alternative := _use_first_alternative w;
     _current_parents := _current_parents w; _names := _names w;
     nodes := nodes w; instances := v; stdout := stdout w |}.
Definition set_stdout v (w : World) : World :=
  {| _use_first_alternative := _use_first_alternative w;
     _current_parents := _current_parents w; _names := _names w;
     nodes := nodes w; instances := instances w; stdout := v |}.

(** A computation of the engine. *)
Abbreviation M := (St World).

Definition get_node (n : NodeId) : M Execution := fun w =>
  match nodes w !! n with
  | Some x => (w, Return x)
  | None => (w, Raise NoSuchObject)
  end.

Definition put_node (n : NodeId) (x : Execution) : M unit :=
  modify (fun w => set_nodes (<[n := x]> (nodes w)) w).

Definition get_self (self : RegId) : M BestOf := fun w =>
  match instances w !! self with
  | Some o => (w, Return o)
  | None => (w, Raise NoSuchObject)
  end.

(** Runs a computation on the attributes of the instance [self]. *)
Definition on_self {A} (self : RegId) (m : St BestOf A) : M A := fun w =>
  match instances w !! self with
  | Some o =>
      let '(o', r) := m o in
      (set_instances (<[self := o']> (instances w)) w, r)
  | None => (w, Raise NoSuchObject)
  end.

(** *** [_BestOfExecution] *)

(** [f"{index:02d}"] for the positive counters of [_names]. *)
Definition format_02d (index : Z) : string :=
  if bool_decide (0 <= index < 10) then "0" +:+ pretty index
  else pretty index.

(** [_BestOfExecution.__init__] for a node of a [BestOf] (the root is
    built once, with the class; see [initial_world]). *)
Definition new_execution (self_best_of : RegId) (eid : ExecId)
    (parent_ : NodeId) : M NodeId :=
  o ← get_self self_best_of;
  w ← get;
  let index := dd_peek 0 (name o) (_names w) + 1 in
  let this := length (nodes w) in
  let node :=
    {| best_of := Some self_best_of; execution_id := Some eid;
       parent := Some parent_; children := [];
       problem_sizes := ∅;
       ex_name := name o +:+ " " +:+ format_02d index;
       _blocked_by := ∅; _current_problem_size := None |} in
  modify (fun w => set_names (<[name o := index]> (_names w)) w);;
  p ← get_node parent_;
  put_node parent_ (set_children (children p ++ [this]) p);;
  modify (fun w => set_nodes (nodes w ++ [node]) w);;
  mret this.

Definition _is_root (x : Execution) : bool :=
  bool_decide (parent x = None).

(** [block_parent]: marks this node in the parent's [_blocked_by], under
    the parent's current problem size; nothing when the parent is the
    root. *)
Definition block_parent (self : NodeId) : M unit :=
  me ← get_node self;
  p ← of_option (parent me) AttributeError;
  pn ← get_node p;
  if _is_root pn then mret tt
  else
    let '(inner, bb) := dd_get ∅ (_current_problem_size pn) (_blocked_by pn) in
    put_node p
      (set_blocked_by (<[_current_problem_size pn := <[self := true]> inner]> bb)
         pn).

(** [unblock_parent]: removes that mark; a missing mark (KeyError) is
    suppressed. *)
Definition unblock_parent (self : NodeId) : M unit :=
  me ← get_node self;
  p ← of_option (parent me) AttributeError;
  pn ← get_node p;
  if _is_root pn then mret tt
  else
    let '(inner, bb) := dd_get ∅ (_current_problem_size pn) (_blocked_by pn) in
    put_node p
      (set_blocked_by (<[_current_problem_size pn := delete self inner]> bb)
         pn).

(** Whether some child is marked under the node's current problem size. *)
Definition blocked (x : Execution) : bool :=
  bool_decide
    (map_Exists (fun _ v => v = true)
       (dd_peek ∅ (_current_problem_size x) (_blocked_by x))).

(** The property [is_blocked]; its read of [_blocked_by] binds a missing
    key. *)
Definition is_blocked (self : NodeId) : M bool :=
  me ← get_node self;
  let '(_, bb) := dd_get ∅ (_current_problem_size me) (_blocked_by me) in
  put_node self (set_blocked_by bb me);;
  mret (blocked me).

Definition set_problem_size (self : NodeId) (problem_size : PS) : M unit :=
  me ← get_node self;
  let '(count, sizes) := dd_get 0 problem_size (problem_sizes me) in
  put_node self
    (set_problem_sizes (<[problem_size := count + 1]> sizes)
       (set_current_problem_size (Some problem_size) me)).

(** *** [BestOf] *)

Definition _times_arrays (o : BestOf) : list (list Q) :=
  replicate (Z.to_nat (_total_alternatives o)) [].

Definition _stages_times_arrays (o : BestOf) : list (list (option Q)) :=
  replicate (Z.to_nat (_total_alternatives o)) (Py.repeat_ None (stages o)).

(** The type assertions of [__init__] on one alternative. *)
Definition alternative_ok (stages_ : Z) (a : string * Impl) : bool :=
  match a.2 with
  | Method _ => bool_decide (stages_ = 1)
  | Pipeline ms =>
      bool_decide (stages_ ≠ 1) && bool_decide (Z.of_nat (length ms) = stages_)
  end.

(** [BestOf.__init__]: the assertions, then the initial attributes. *)
Definition __init__ (name_ : string) (alternatives_ : list (string * Impl))
    (get_problem_size_ : Args -> PS) (rounds : Z) (pruning_speedup_ : Q)
    (prune_after_round_ : Z) (stages_ : Z) : Result BestOf :=
  if negb (bool_decide (1 <= stages_)) then Raise AssertionError
  else if negb (bool_decide (1 <= rounds)) then Raise AssertionError
  else if Qle_bool pruning_speedup_ 1 then Raise AssertionError
  else if negb (forallb (alternative_ok stages_) alternatives_)
  then Raise AssertionError
  else Return
    {| name := name_; alternatives := alternatives_;
       get_problem_size := get_problem_size_; total_rounds := rounds;
       stages := stages_; prune_after_round := prune_after_round_;
       pruning_speedup := pruning_speedup_;
       best_idx := ∅; best_name := ∅; best_method := ∅; best_pipeline := ∅;
       _current_round := ∅; _current_alternative := ∅;
       _total_alternatives := Z.of_nat (length alternatives_);
       _times := ∅; _stages_times := ∅; _executions := ∅ |}.

(** The process before any [BestOf] exists: the root node, no parent on
    the stack, the override off. *)
Definition initial_world : World :=
  {| _use_first_alternative := false; _current_parents := [];
     _names := ∅;
     nodes := [ {| best_of := None; execution_id := None; parent := None;
                   children := []; problem_sizes := ∅;
                   ex_name := "Execution root"; _blocked_by := ∅;
                   _current_problem_size := None |} ];
     instances := []; stdout := [] |}.

(** [BestOf(...)]: a constructed instance enters the store. *)
Definition new_BestOf (name_ : string) (alternatives_ : list (string * Impl))
    (get_problem_size_ : Args -> PS) (rounds : Z) (pruning_speedup_ : Q)
    (prune_after_round_ : Z) (stages_ : Z) : M RegId :=
  o ← of_result (__init__ name_ alternatives_ get_problem_size_ rounds
                   pruning_speedup_ prune_after_round_ stages_);
  w ← get;
  modify (fun w => set_instances (instances w ++ [o]) w);;
  mret (length (instances w)).

Definition _register (self : RegId) (eid : ExecId) : M NodeId :=
  o ← get_self self;
  match _executions o !! eid with
  | Some current_execution => mret current_execution
  | None =>
      w ← get;
      let current_root := default _root (last (_current_parents w)) in
      current_execution ← new_execution self eid current_root;
      on_self self
        (modify (fun o => set_executions
                            (<[eid := current_execution]> (_executions o)) o));;
      mret current_execution
  end.

Definition use_always_the_first_alternative : M unit :=
  modify (set_use_first_alternative true).

(** What is called for an alternative's second component [impl]: [impl]
    itself when [stages == 1], [impl[stage]] otherwise. *)
Definition callable_of (stages_ : Z) (impl : Impl) (stage : Z)
  : Result Callable :=
  if bool_decide (stages_ = 1) then
    match impl with
    | Method m => Return m
    | Pipeline _ => Raise TypeError
    end
  else
    match impl with
    | Method _ => Raise TypeError
    | Pipeline ms =>
        match Py.index ms stage with
        | Some m => Return m
        | None => Raise IndexError
        end
    end.

(** Reads of the [defaultdict] attributes. *)
Definition read_best (ps : PS) : St BestOf (option Impl) := fun o =>
  if bool_decide (stages o = 1) then
    let '(v, d) := dd_get None ps (best_method o) in
    (set_best_method d o, Return v)
  else
    let '(v, d) := dd_get None ps (best_pipeline o) in
    (set_best_pipeline d o, Return v).

Definition read_current_alternative (ps : PS) : St BestOf Z := fun o =>
  let '(v, d) := dd_get 0 ps (_current_alternative o) in
  (set_current_alternative d o, Return v).

Definition read_current_round (ps : PS) : St BestOf Z := fun o =>
  let '(v, d) := dd_get 0 ps (_current_round o) in
  (set_current_round d o, Return v).

Definition read_times (ps : PS) : St BestOf (list (list Q)) := fun o =>
  let '(v, d) := dd_get (_times_arrays o) ps (_times o) in
  (set_times d o, Return v).

Definition read_stages_times (ps : PS)
  : St BestOf (list (list (option Q))) := fun o =>
  let '(v, d) := dd_get (_stages_times_arrays o) ps (_stages_times o) in
  (set_stages_times d o, Return v).

(** How [__call__] reaches the alternative it runs. *)
Inductive Dispatch :=
  | Direct (c : Callable)
      (* the override or the cached selection: run and return *)
  | Evaluate (current_execution : NodeId) (problem_size : PS)
      (current_alternative : Z) (c : Callable).
      (* the alternative under evaluation, to be timed *)

(** [__call__] up to the call of the alternative (lines 286-323).  In
    single-stage mode the call has no stage argument and [stage_arg] is not
    read. *)
Definition before_alternative (self : RegId) (eid : ExecId) (stage_arg : Z)
    (args : Args) : M (Z * Dispatch) :=
  current_execution ← _register self eid;
  o ← get_self self;
  let stage := if bool_decide (1 < stages o) then stage_arg else 0 in
  if negb (bool_decide (stage < stages o)) then raise AssertionError else
  w ← get;
  if _use_first_alternative w then
    a ← of_option (Py.index (alternatives o) 0) IndexError;
    c ← of_result (callable_of (stages o) a.2 stage);
    mret (stage, Direct c)
  else
    let problem_size := get_problem_size o args in
    set_problem_size current_execution problem_size;;
    best ← on_self self (read_best problem_size);
    match best with
    | Some impl =>
        c ← of_result (callable_of (stages o) impl stage);
        mret (stage, Direct c)
    | None =>
        block_parent current_execution;;
        current_alternative ←
          on_self self (read_current_alternative problem_size);
        modify (fun w => set_current_parents
                           (_current_parents w ++ [current_execution]) w);;
        a ← of_option (Py.index (alternatives o) current_alternative)
              IndexError;
        c ← of_result (callable_of (stages o) a.2 stage);
        modify (fun w => set_stdout
                  (stdout w ++ [(stage, current_alternative, problem_size)])
                  w);;
        mret (stage, Evaluate current_execution problem_size
                       current_alternative c)
    end.

(** The nested function [evolve] (lines 334-342). *)
Definition evolve (o : BestOf) (stage : Z) (_alternative _round : Z)
  : Result (Z * Z) :=
  if bool_decide (stages o = 1)
     || (bool_decide (1 < stages o) && bool_decide (stage = stages o - 1))
  then
    match Py.mod_ (_alternative + 1) (_total_alternatives o) with
    | None => Raise ZeroDivisionError
    | Some new_alternative =>
        if bool_decide (new_alternative = 0)
        then Return (new_alternative, _round + 1)
        else Return (new_alternative, _round)
    end
  else Return (_alternative, _round).

(** [self._times[problem_size][current_alternative].append(x)]. *)
Definition times_append (ps : PS) (ca : Z) (x : Q) : St BestOf unit :=
  ts ← read_times ps;
  series ← of_option (Py.index ts ca) IndexError;
  ts' ← of_option (Py.set_index ts ca (series ++ [x])) IndexError;
  modify (fun o => set_times (<[ps := ts']> (_times o)) o).

(** [self._stages_times[problem_size][current_alternative] = buf]. *)
Definition stages_times_store (ps : PS) (ca : Z) (buf : list (option Q))
  : St BestOf unit :=
  sts ← read_stages_times ps;
  sts' ← of_option (Py.set_index sts ca buf) IndexError;
  modify (fun o => set_stages_times (<[ps := sts']> (_stages_times o)) o).

(** [self._stages_times[problem_size][current_alternative]]. *)
Definition stages_times_load (ps : PS) (ca : Z)
  : St BestOf (list (option Q)) :=
  sts ← read_stages_times ps;
  of_option (Py.index sts ca) IndexError.

(** [None in buf]. *)
Definition none_in (buf : list (option Q)) : bool :=
  existsb (fun x => match x with None => true | Some _ => false end) buf.

(** "Record execution time and evolve current alternative and round"
    (lines 345-357); returns the local [current_alternative] and
    [current_round]. *)
Definition record_sample (ps : PS) (current_alternative stage : Z)
    (elapsed_time : Q) : St BestOf (Z * Z) :=
  current_round ← read_current_round ps;
  o ← get;
  if bool_decide (stages o = 1) then
    times_append ps current_alternative elapsed_time;;
    of_result (evolve o stage current_alternative current_round)
  else
    buf ← stages_times_load ps current_alternative;
    buf' ← of_option (Py.set_index buf stage (Some elapsed_time)) IndexError;
    stages_times_store ps current_alternative buf';;
    if bool_decide (stage = stages o - 1) then
      buf ← stages_times_load ps current_alternative;
      '(current_alternative', current_round') ←
        (if negb (none_in buf) then
           times_append ps current_alternative (Float.sum (omap id buf));;
           of_result (evolve o stage current_alternative current_round)
         else mret (current_alternative, current_round));
      stages_times_store ps current_alternative'
        (Py.repeat_ None (stages o));;
      mret (current_alternative', current_round')
    else mret (current_alternative, current_round).

(** The [for] loop of lines 377-380 over [range(i, len(best_times))],
    [l] being [best_times[i:]]: the first index whose median is within the
    limit, [dflt] when there is none. *)
Fixpoint next_live (limit : Float.t) (l : list Float.t) (i dflt : Z) : Z :=
  match l with
  | [] => dflt
  | x :: l' => if Float.le x limit then i else next_live limit l' (i + 1) dflt
  end.

(** "Select best method if enough results are available" (lines 360-380);
    returns the local [current_alternative] and whether the selection was
    made (the branch that goes on to [unblock_parent]). *)
Definition select_best (ps : PS) (current_alternative current_round : Z)
  : St BestOf (Z * bool) :=
  o ← get;
  if bool_decide (current_alternative = 0)
     && bool_decide (Z.min (prune_after_round o) (total_rounds o)
                     <= current_round)
  then
    ts ← read_times ps;
    let best_times := Float.median <$> ts in
    min_time ← of_option (Float.min_ best_times) ValueError;
    let limit := Float.mul min_time (pruning_speedup o) in
    let alternatives_below_pruning_speedup :=
      filter (fun x => Float.le x limit = true) best_times in
    if bool_decide (current_round = total_rounds o)
       || bool_decide (length alternatives_below_pruning_speedup = 1%nat)
    then
      idx ← of_option (Float.index_of min_time best_times) ValueError;
      modify (fun o => set_best_idx (<[ps := Z.of_nat idx]> (best_idx o)) o);;
      a ← of_option (Py.index (alternatives o) (Z.of_nat idx)) IndexError;
      modify (fun o => set_best_name (<[ps := a.1]> (best_name o)) o);;
      (if bool_decide (stages o = 1)
       then modify (fun o =>
              set_best_method (<[ps := Some a.2]> (best_method o)) o)
       else modify (fun o =>
              set_best_pipeline (<[ps := Some a.2]> (best_pipeline o)) o));;
      mret (current_alternative, true)
    else
      mret (next_live limit
              (drop (Z.to_nat current_alternative) best_times)
              current_alternative current_alternative,
            false)
  else mret (current_alternative, false).

(** "Update self._current_alternative and self._current_round"
    (lines 382-384). *)
Definition commit (ps : PS) (current_alternative current_round : Z)
  : St BestOf unit :=
  modify (fun o => set_current_alternative
                     (<[ps := current_alternative]> (_current_alternative o))
                     o);;
  modify (fun o => set_current_round
                     (<[ps := current_round]> (_current_round o)) o).

(** [BestOf._current_parents.pop()]. *)
Definition pop_parent : M unit :=
  w ← get;
  match _current_parents w with
  | [] => raise IndexError
  | l => modify (set_current_parents (removelast l))
  end.

(** [__call__] after the alternative under evaluation has returned
    (lines 326-384). *)
Definition after_alternative (self : RegId) (current_execution : NodeId)
    (ps : PS) (current_alternative stage : Z) (elapsed_time : Q) : M unit :=
  pop_parent;;
  b ← is_blocked current_execution;
  if (b : bool) then mret tt
  else
    '(current_alternative, current_round) ←
      on_self self (record_sample ps current_alternative stage elapsed_time);
    '(current_alternative, selected) ←
      on_self self (select_best ps current_alternative current_round);
    (if (selected : bool) then unblock_parent current_execution else mret tt);;
    on_self self (commit ps current_alternative current_round).

(** Running a callable: what it does to the process (it may itself call
    tuned operations), and on return its output and the wall time the two
    [timer()] readings around it are apart. *)
Variable invoke : Callable -> Args -> M (Output * Q).

(** [BestOf.__call__]. *)
Definition call (self : RegId) (eid : ExecId) (stage_arg : Z) (args : Args)
  : M Output :=
  '(stage, d) ← before_alternative self eid stage_arg args;
  match d with
  | Direct c =>
      '(output, _) ← invoke c args;
      mret output
  | Evaluate current_execution problem_size current_alternative c =>
      '(output, elapsed_time) ← invoke c args;
      after_alternative self current_execution problem_size
        current_alternative stage elapsed_time;;
      mret output
  end.

(** A sequence of calls on one [BestOf], each from its call path, with its
    stage argument and its arguments. *)
Fixpoint calls (self : RegId) (l : list (ExecId * Z * Args))
  : M (list Output) :=
  match l with
  | [] => mret []
  | (eid, stage_arg, args) :: l' =>
      output ← call self eid stage_arg args;
      outputs ← calls self l';
      mret (output :: outputs)
  end.

(** ** The reports *)

(** [best_method_has_been_found] (lines 389-391): whether the problem size
    of the arguments is a key of [best_idx]; the test binds nothing. *)
Definition best_method_has_been_found (o : BestOf) (args : Args) : bool :=
  bool_decide (is_Some (best_idx o !! get_problem_size o args)).

(** [medians] (lines 393-403): for every problem size with samples, the
    median of each alternative's series, NaN for an empty one. *)
Definition medians (o : BestOf) : gmap PS (list Float.t) :=
  (fun times : list (list Q) =>
     (fun alternative_times : list Q =>
        if bool_decide (length alternative_times ≠ 0%nat)
        then Float.median alternative_times
        else None) <$> times) <$> _times o.

Definition read_best_idx (ps : PS) : St BestOf Z := fun o =>
  let '(v, d) := dd_get (-1) ps (best_idx o) in
  (set_best_idx d o, Return v).

(** The loop of [speedups] (lines 408-411) over the keys of [_times].  The
    read of [best_idx] binds a missing key to -1.  [medians_] has every key
    of [_times]. *)
Fixpoint speedups_loop (medians_ : gmap PS (list Float.t)) (keys : list PS)
    (out : gmap PS Speedup.t) : St BestOf (gmap PS Speedup.t) :=
  match keys with
  | [] => mret out
  | problem_size :: keys' =>
      best_idx_ ← read_best_idx problem_size;
      if bool_decide (best_idx_ ≠ -1) then
        meds ← of_option (medians_ !! problem_size) NoSuchObject;
        top ← of_option (Speedup.max_ meds) ValueError;
        m ← of_option (Py.index meds best_idx_) IndexError;
        speedups_loop medians_ keys'
          (<[problem_size := Speedup.div top m]> out)
      else speedups_loop medians_ keys' out
  end.

(** [speedups] (lines 405-412): for every problem size with a selection,
    the largest median over the median of the selected alternative. *)
Definition speedups : St BestOf (gmap PS Speedup.t) :=
  o ← get;
  speedups_loop (medians o) (map_to_list (_times o)).*1 ∅.

(** [f"{n / d:.0f}"] for integers [0 <= n] and [0 < d]: the integer
    nearest to the quotient, the even one of two equally near. *)
Definition format_0f (n d : Z) : string :=
  let q := n / d in
  let r := n mod d in
  pretty (if bool_decide (2 * r < d) then q
          else if bool_decide (d < 2 * r) then q + 1
          else if Z.even q then q else q + 1).

(** [count[idx] += 1] for each [idx]; IndexError is [None]. *)
Fixpoint count_up (count : list Z) (idxs : list Z) : option (list Z) :=
  match idxs with
  | [] => Some count
  | idx :: idxs' =>
      c ← Py.index count idx;
      count' ← Py.set_index count idx (c + 1);
      count_up count' idxs'
  end.

(** The selections met by a node: [best_idx] on the problem sizes the
    node has seen (lines 90-91). *)
Definition summary_best_idx (me : Execution) (o : BestOf) : gmap PS Z :=
  filter (fun kv => is_Some (problem_sizes me !! kv.1)) (best_idx o).

(** The counts of [summary] (lines 88-95): how many of these selections
    fall on each alternative, and how many they are. *)
Definition summary_count (me : Execution) (o : BestOf)
  : option (list Z * Z) :=
  let best_idx_ := summary_best_idx me o in
  count ← count_up (Py.repeat_ 0 (Z.of_nat (length (alternatives o))))
                   (map_to_list best_idx_).*2;
  Some (count, Z.of_nat (size best_idx_)).

(** The text of [summary] (lines 94-101); [count] has one entry for each
    alternative. *)
Definition summary_text (o : BestOf) (count : list Z) (total : Z) : string :=
  String.concat " "
    (zip_with
       (fun (alternative : string * Impl) c =>
          if bool_decide (total = 0) then alternative.1 +:+ ": ---"
          else alternative.1 +:+ ": " +:+ format_0f (c * 100) total +:+ "%")
       (alternatives o) count)
  +:+ " of " +:+ pretty total +:+ " sizes".

(** The property [summary] of the node [self]. *)
Definition summary (self : NodeId) : M string :=
  me ← get_node self;
  r ← of_option (best_of me) AttributeError;
  o ← get_self r;
  '(count, total) ← of_option (summary_count me o) IndexError;
  mret (summary_text o count total).

(** The loop of [max_speedup] (lines 110-115) over the speedups of the
    problem sizes of the node; [speedup] starts as the integer 0. *)
Definition weigh (problem_sizes_ : gmap PS Z)
    (acc : Speedup.t * Z) (kv : PS * Speedup.t) : Speedup.t * Z :=
  let count := dd_peek 0 kv.1 problem_sizes_ in
  (Speedup.add acc.1 (Speedup.scale kv.2 count), acc.2 + count).

(** The property [max_speedup] of the node [self] (lines 103-116): [None]
    when no problem size of the node has a speedup, otherwise the mean of
    these speedups, each weighted by the count of its problem size.  The
    products are added in the order of the keys of the map, the code adds
    them in the order the node has met the problem sizes: with more than
    one problem size the two sums may differ in their rounding, and what
    is proved of the mean is proved for every order ([mean_in_order]). *)
Definition max_speedup (self : NodeId) : M (option Speedup.t) :=
  me ← get_node self;
  r ← of_option (best_of me) AttributeError;
  all_speedups ← on_self r speedups;
  let speedups_ :=
    filter (fun kv => is_Some (problem_sizes me !! kv.1)) all_speedups in
  if bool_decide (size speedups_ = 0%nat) then mret None
  else
    let '(speedup, total) :=
      foldl (weigh (problem_sizes me)) (Speedup.Fin 0, 0)
        (map_to_list speedups_) in
    mret (Some (Speedup.div_int speedup total)).

(** ** Vocabulary of the properties *)

(** What the engine has learned in one [BestOf]: everything but the
    construction parameters and the table of execution nodes. *)
Definition tuning (o : BestOf) :=
  (best_idx o, best_name o, best_method o, best_pipeline o,
   _current_round o, _current_alternative o, _times o, _stages_times o).

(** The parent a node created now would get. *)
Definition current_root (w : World) : NodeId :=
  default _root (last (_current_parents w)).

(** The stage a call runs: its leading argument in pipeline mode, 0
    otherwise (line 291). *)
Definition stage_of (o : BestOf) (stage_arg : Z) : Z :=
  if bool_decide (1 < stages o) then stage_arg else 0.

(** [__call__] returns the output of the callable and drops its timing. *)
Definition output_of (r : Result (Output * Q)) : Result Output :=
  match r with
  | Return (output, _) => Return output
  | Raise e => Raise e
  end.

(** The selection [__call__] finds cached for a problem size (lines
    300-307): [best_method] in single-stage mode, [best_pipeline]
    otherwise. *)
Definition cached (o : BestOf) (ps : PS) : option Impl :=
  if bool_decide (stages o = 1) then dd_peek None ps (best_method o)
  else dd_peek None ps (best_pipeline o).

(** Node [n] is in the store, with a parent that is in the store. *)
Definition node_ok (w : World) (n : NodeId) : Prop :=
  exists me p pn,
    nodes w !! n = Some me /\ parent me = Some p /\ nodes w !! p = Some pn.

(** Node [n] has a parent in the store that is not the root. *)
Definition has_parent (w : World) (n : NodeId) : bool :=
  match nodes w !! n with
  | Some me =>
      match parent me with
      | Some p =>
          match nodes w !! p with
          | Some pn => negb (_is_root pn)
          | None => false
          end
      | None => false
      end
  | None => false
  end.

(** Node [n] is marked as blocking its (non-root) parent, under the
    parent's current problem size. *)
Definition marks_parent (w : World) (n : NodeId) : bool :=
  match nodes w !! n with
  | Some me =>
      match parent me with
      | Some p =>
          match nodes w !! p with
          | Some pn =>
              negb (_is_root pn)
              && bool_decide
                   (dd_peek ∅ (_current_problem_size pn) (_blocked_by pn) !! n
                    = Some true)
          | None => false
          end
      | None => false
      end
  | None => false
  end.

(** The attributes [__init__] assigns once. *)
Definition config (o : BestOf) :=
  (name o, alternatives o, get_problem_size o, total_rounds o, stages o,
   prune_after_round o, pruning_speedup o, _total_alternatives o).

(** The cached selection of every problem size. *)
Definition selection (o : BestOf) :=
  (best_idx o, best_name o, best_method o, best_pipeline o).

(** [o'] has the construction parameters and the selections of [o]. *)
Definition keeps_selection (o o' : BestOf) : Prop :=
  config o' = config o /\ selection o' = selection o /\
  _executions o' = _executions o.

(** [m] is the smallest of the medians [meds]. *)
Definition is_smallest (m : Q) (meds : list Float.t) : Prop :=
  (exists j, meds !! j = Some (Some m)) /\
  forall j mj, meds !! j = Some (Some mj) -> (m <= mj)%Q.

(** A median within [pruning_speedup] times the smallest one [m]: the
    alternative is still live. *)
Definition within_limit (o : BestOf) (m : Q) (x : Float.t) : Prop :=
  exists q, x = Some q /\ (q <= Float.round (m * pruning_speedup o))%Q.

(** Exactly one position of [meds] is within the limit. *)
Definition one_within_limit (o : BestOf) (m : Q) (meds : list Float.t)
  : Prop :=
  exists j x,
    meds !! j = Some x /\ within_limit o m x /\
    forall j' x', meds !! j' = Some x' -> within_limit o m x' -> j' = j.

(** The test of line 360 on the cursor and round just computed. *)
Definition decision_due (o : BestOf) (cursor round : Z) : Prop :=
  cursor = 0 /\ Z.min (prune_after_round o) (total_rounds o) <= round.

(** The cached selection agrees with the registry: a stored index other
    than -1 is a position of [alternatives], and the stored name and
    callable (or stage list) are those registered at that position. *)
Definition selection_consistent (o : BestOf) : Prop :=
  forall ps i,
    best_idx o !! ps = Some i -> i <> -1 ->
    exists a,
      0 <= i < Z.of_nat (length (alternatives o)) /\
      Py.index (alternatives o) i = Some a /\
      best_name o !! ps = Some a.1 /\
      cached o ps = Some a.2.

(** What [__init__] establishes and every call keeps: the count of
    alternatives, one series of samples per alternative, and a consistent
    selection. *)
Definition well_formed (o : BestOf) : Prop :=
  _total_alternatives o = Z.of_nat (length (alternatives o)) /\
  (forall ps ts, _times o !! ps = Some ts ->
                 length ts = length (alternatives o)) /\
  selection_consistent o.

(** [o'] is well formed if [o] is. *)
Definition keeps_well_formed (o o' : BestOf) : Prop :=
  well_formed o -> well_formed o'.

(** Every [BestOf] of [w'] is well formed if every one of [w] is. *)
Definition keeps_all_well_formed (w w' : World) : Prop :=
  Forall well_formed (instances w) -> Forall well_formed (instances w').

(** [w'] has the [BestOf] instances of [w], untouched. *)
Definition same_instances (w w' : World) : Prop :=
  instances w' = instances w.

(** No child is marked in any [_blocked_by] entry of the node. *)
Definition unmarked (x : Execution) : Prop :=
  forall key inner child,
    _blocked_by x !! key = Some inner -> inner !! child <> Some true.

(** A node created by a call made outside every tuned alternative, and
    blocked by nothing. *)
Definition top_node (x : Execution) : Prop :=
  parent x = Some _root /\ unmarked x.

(** The override is off, the root is in place, and every node of the
    instance [self] is a [top_node]. *)
Definition calm (self : RegId) (w : World) : Prop :=
  _use_first_alternative w = false /\
  (exists r, nodes w !! _root = Some r /\ parent r = None) /\
  forall o eid n,
    instances w !! self = Some o -> _executions o !! eid = Some n ->
    exists me, nodes w !! n = Some me /\ top_node me.

(** No attribute of [o] has an entry for the problem size. *)
Definition never_seen (o : BestOf) (ps : PS) : Prop :=
  best_method o !! ps = None /\ best_pipeline o !! ps = None /\
  _current_alternative o !! ps = None /\ _current_round o !! ps = None /\
  _times o !! ps = None.

(** How many of the first [n] steps of the cycle over [K] alternatives
    fall on alternative [i]. *)
Definition visits (K : Z) (n i : nat) : nat :=
  length (filter (fun j => Z.of_nat j mod K = Z.of_nat i) (seq 0 n)).

(** What the engine shows of [o] in [o']: the construction parameters and,
    for every problem size, selection, cursor, round and samples. *)
Definition same_view (o o' : BestOf) : Prop :=
  config o' = config o /\
  (well_formed o -> well_formed o') /\
  forall ps,
    cached o' ps = cached o ps /\
    dd_peek 0 ps (_current_alternative o')
      = dd_peek 0 ps (_current_alternative o) /\
    dd_peek 0 ps (_current_round o') = dd_peek 0 ps (_current_round o) /\
    dd_peek (_times_arrays o) ps (_times o')
      = dd_peek (_times_arrays o) ps (_times o).

(** An elapsed time between [lo] and [hi]. *)
Definition within (lo hi : Q) (t : Q) : Prop := (lo <= t <= hi)%Q.

(** The state of the instance [self] after [n] samples of a problem size
    [ps] it had never seen, [o] being the instance at the start and [P]
    holding of every elapsed time: nothing selected, cursor and round at
    [n mod K] and [n / K], and each alternative sampled as often as the
    cycle has visited it. *)
Definition sampling (P : Q -> Prop) (self : RegId) (o : BestOf) (ps : PS)
    (n : nat) (w : World) : Prop :=
  let K := Z.of_nat (length (alternatives o)) in
  calm self w /\ _current_parents w = [] /\
  exists o',
    instances w !! self = Some o' /\ config o' = config o /\
    well_formed o' /\ cached o' ps = None /\
    dd_peek 0 ps (_current_alternative o') = Z.of_nat n mod K /\
    dd_peek 0 ps (_current_round o') = Z.of_nat n / K /\
    forall i series,
      dd_peek (_times_arrays o') ps (_times o') !! i = Some series ->
      length series = visits K n i /\ Forall P series.

(** The calls left before the cycle can end: those before the first round
    at which a decision is due; or, with two alternatives or more whose
    elapsed times ([P]) are floats that all lie between some [lo > 0] and
    [hi <= lo * pruning_speedup], so that no decision discards anything
    whatever a rounding that keeps the order makes of the medians and of
    the limit, those before [rounds] is exhausted. *)
Definition cycle_goes_on (P : Q -> Prop) (o : BestOf) (n : Z) : Prop :=
  let K := Z.of_nat (length (alternatives o)) in
  n < K * Z.max 1 (Z.min (prune_after_round o) (total_rounds o)) \/
  (2 <= K /\ n < K * total_rounds o /\
   monotone_rounding /\
   exists lo hi,
     (0 < lo)%Q /\ (hi <= lo * pruning_speedup o)%Q /\
     forall t, P t -> within lo hi t /\ Float.is_float t).

(** The dispatches [print]ed by calls number [n0], [n0 + 1], ... of a
    round-robin cycle over [K] single-stage alternatives. *)
Definition cycle_trace (K : Z) (ps : PS) (n0 len : nat)
  : list (Z * Z * PS) :=
  (fun j => (0, Z.of_nat j mod K, ps)) <$> seq n0 len.

(** Every [BestOf] of [w] is in [w'] and shows the same there. *)
Definition views_kept (w w' : World) : Prop :=
  forall self o,
    instances w !! self = Some o ->
    exists o', instances w' !! self = Some o' /\ same_view o o'.

(** What [speedups] stores for a problem size whose selection is [i]:
    [max(medians[ps]) / medians[ps][i]]. *)
Definition speedup_at (o : BestOf) (ps : PS) (i : Z) : option Speedup.t :=
  meds ← medians o !! ps;
  top ← Speedup.max_ meds;
  m ← Py.index meds i;
  Some (Speedup.div top m).


(** [best_idx] has an entry for exactly the problem sizes with a cached
    selection: [best_method_has_been_found] tells whether the call takes
    the fast path. *)
Definition found_is_cached (o : BestOf) : Prop :=
  forall ps, is_Some (best_idx o !! ps) <-> is_Some (cached o ps).

(** A well-formed [BestOf] whose [best_idx] has no entry but those of its
    selections. *)
Definition settled (o : BestOf) : Prop := well_formed o /\ found_is_cached o.

Definition keeps_settled (o o' : BestOf) : Prop := settled o -> settled o'.

Definition keeps_all_settled (w w' : World) : Prop :=
  Forall settled (instances w) -> Forall settled (instances w').


(** The index [idx] of a list of length [len] denotes position [i]: as it
    is, or counted from the end. *)
Definition denotes (len : nat) (i : nat) (idx : Z) : Prop :=
  idx = Z.of_nat i \/ idx = Z.of_nat i - Z.of_nat len.

(** The sum of the counts. *)
Definition total_of (count : list Z) : Z := foldr Z.add 0 count.

(** The calls a node has counted, over all its problem sizes. *)
Definition calls_counted (me : Execution) : Z :=
  map_fold (fun _ c acc => c + acc) 0 (problem_sizes me).

(** The mean of lines 110-116 with the speedups [l] taken in the order
    of the list. *)
Definition mean_in_order (problem_sizes_ : gmap PS Z)
    (l : list (PS * Speedup.t)) : Speedup.t :=
  let '(speedup, total) :=
    foldl (weigh problem_sizes_) (Speedup.Fin 0, 0) l in
  Speedup.div_int speedup total.


(** What places a node in the execution graph. *)
Definition links (x : Execution) :=
  (parent x, children x, best_of x, execution_id x).

(** The execution graph is a tree under the root: the root has no parent
    and no [BestOf]; every other node has a parent, created before it,
    that lists it among its children; the children of a node are distinct
    nodes that have it as parent; and every entry of the [_executions] of
    a [BestOf] is a node of that [BestOf] with that execution id. *)
Definition tree_ok (w : World) : Prop :=
  (exists r, nodes w !! _root = Some r /\ parent r = None /\
             best_of r = None) /\
  (forall n x,
     nodes w !! n = Some x -> n <> _root ->
     exists p px,
       parent x = Some p /\ (p < n)%nat /\ nodes w !! p = Some px /\
       n ∈ children px) /\
  (forall p px c,
     nodes w !! p = Some px -> c ∈ children px ->
     exists x, nodes w !! c = Some x /\ parent x = Some p) /\
  (forall p px, nodes w !! p = Some px -> NoDup (children px)) /\
  (forall self o eid n,
     instances w !! self = Some o -> _executions o !! eid = Some n ->
     exists x,
       nodes w !! n = Some x /\ best_of x = Some self /\
       execution_id x = Some eid).

Definition keeps_tree (w w' : World) : Prop := tree_ok w -> tree_ok w'.

(** [w'] has the nodes of [w] with the same links, and the same
    [_executions] in every [BestOf]. *)
Definition same_shape (w w' : World) : Prop :=
  links <$> nodes w' = links <$> nodes w /\
  _executions <$> instances w' = _executions <$> instances w.

Definition same_executions (o o' : BestOf) : Prop :=
  _executions o' = _executions o.


(** [w'] has the stack of parents of [w]. *)
Definition same_stack (w w' : World) : Prop :=
  _current_parents w' = _current_parents w.


(** The calls that may still be benchmarked for a problem size before a
    selection is made: none when one is cached; otherwise the steps the
    cursor has left up to the end of round [rounds]. *)
Definition budget (o : BestOf) (ps : PS) : Z :=
  match cached o ps with
  | Some _ => 0
  | None =>
      (total_rounds o - dd_peek 0 ps (_current_round o))
      * Z.of_nat (length (alternatives o))
      - dd_peek 0 ps (_current_alternative o)
  end.

(** Where the tuning of a problem size can be: an alternative is
    selected; or none is, the cursor is a position of [alternatives], the
    round is below [rounds], and the alternatives before the cursor (all
    of them from round 1 on) have a sample. *)
Definition tuning_ok (o : BestOf) (ps : PS) : Prop :=
  (exists a, a ∈ alternatives o /\ cached o ps = Some a.2) \/
  (cached o ps = None /\
   0 <= dd_peek 0 ps (_current_alternative o)
     < Z.of_nat (length (alternatives o)) /\
   0 <= dd_peek 0 ps (_current_round o) < total_rounds o /\
   forall i series,
     dd_peek (_times_arrays o) ps (_times o) !! i = Some series ->
     1 <= dd_peek 0 ps (_current_round o) \/
     Z.of_nat i < dd_peek 0 ps (_current_alternative o) ->
     series <> []).

(** The instance [self], with the parameters of [o], in a calm process
    outside every alternative: the tuning of [ps] has at most [b] calls
    left, and the dispatches printed so far and those left are [n] at
    most. *)
Definition converging (self : RegId) (o : BestOf) (ps : PS) (b n : Z)
    (w : World) : Prop :=
  calm self w /\ _current_parents w = [] /\
  exists o',
    instances w !! self = Some o' /\ config o' = config o /\
    well_formed o' /\ tuning_ok o' ps /\
    budget o' ps <= b /\
    Z.of_nat (length (stdout w)) + budget o' ps <= n.


(** If the override is set in [w], it is set in [w'] and every [BestOf] of
    [w'] has learned what it had in [w]. *)
Definition frozen (w w' : World) : Prop :=
  _use_first_alternative w = true ->
  _use_first_alternative w' = true /\
  tuning <$> instances w' = tuning <$> instances w.


(** A [BestOf] without its [best_idx]; two of them that differ in their
    [best_idx] at most; and two processes that differ in the [best_idx]
    of their instances at most. *)
Definition forget (o : BestOf) : BestOf := set_best_idx ∅ o.

Definition alike (o1 o2 : BestOf) : Prop := forget o1 = forget o2.

Definition same_but_best_idx (w1 w2 : World) : Prop :=
  set_instances (forget <$> instances w1) w1
  = set_instances (forget <$> instances w2) w2.

(** A computation that does not read [best_idx]: from two processes that
    differ in [best_idx] at most it gives the same result, returned or
    raised, and leaves two processes that differ in [best_idx] at most. *)
Definition ignores_best_idx {A} (m : M A) : Prop :=
  sim same_but_best_idx eq m m.


(** The samples and the stage buffers a problem size shows, a missing
    entry showing the default. *)
Definition samples (o : BestOf) (ps : PS) : list (list Q) :=
  dd_peek (_times_arrays o) ps (_times o).

Definition buffers (o : BestOf) (ps : PS) : list (list (option Q)) :=
  dd_peek (_stages_times_arrays o) ps (_stages_times o).

(** The stage buffers of a problem size are in shape: one for each
    alternative, each with one entry for each stage. *)
Definition buffers_ok (o : BestOf) (ps : PS) : Prop :=
  length (buffers o ps) = length (alternatives o) /\
  Forall (fun buf => Z.of_nat (length buf) = stages o) (buffers o ps).

(** The stage buffer of the cursor holds a timing for every stage below
    [s]. *)
Definition filled (o : BestOf) (ps : PS) (s : Z) : Prop :=
  forall buf j,
    buffers o ps !! Z.to_nat (dd_peek 0 ps (_current_alternative o))
      = Some buf ->
    (j < Z.to_nat s)%nat -> exists t, buf !! j = Some (Some t).

(** The instance [self], with the parameters of [o], in a calm process
    outside every alternative, when the call for stage [s] of a cycle of
    stages comes: an alternative is selected; or the stage buffers are
    in shape, the tuning of [ps] had at most [b] cycles left when the
    cycle began, and either it has fewer left by now, or the stages below
    [s] of the cursor's pipeline have been timed. *)
Definition piping (self : RegId) (o : BestOf) (ps : PS) (s b : Z)
    (w : World) : Prop :=
  calm self w /\ _current_parents w = [] /\
  exists o',
    instances w !! self = Some o' /\ config o' = config o /\
    well_formed o' /\ tuning_ok o' ps /\
    (cached o' ps = None ->
     buffers_ok o' ps /\
     (budget o' ps <= Z.max 0 (b - 1) \/
      (budget o' ps <= b /\ filled o' ps s))).

(** The calls of [l] come in cycles of stages, from stage [s] on: the
    call at position [i] is for stage [(s + i) mod stages], and all are
    for the problem size [ps]. *)
Definition in_stage_order (o : BestOf) (ps : PS) (s : Z)
    (l : list (ExecId * Z * Args)) : Prop :=
  forall i x,
    l !! i = Some x ->
    x.1.2 = (s + Z.of_nat i) mod stages o /\ get_problem_size o x.2 = ps.


(** What a [BestOf] holds for one problem size. *)
Definition tuning_at (o : BestOf) (ps : PS) :=
  (best_idx o !! ps, best_name o !! ps, best_method o !! ps,
   best_pipeline o !! ps, _current_round o !! ps,
   _current_alternative o !! ps, _times o !! ps, _stages_times o !! ps).

(** [o'] has the construction parameters of [o] and, for every problem
    size but [ps], what [o] holds. *)
Definition apart (ps : PS) (o o' : BestOf) : Prop :=
  config o' = config o /\
  forall ps', ps' <> ps -> tuning_at o' ps' = tuning_at o ps'.

(** Every [BestOf] of [w] is in [w'] with its construction parameters,
    and holds there what it held for every problem size, but the instance
    [self] for the problem size [ps]. *)
Definition touches_only (self : RegId) (ps : PS) (w w' : World) : Prop :=
  forall r o,
    instances w !! r = Some o ->
    exists o',
      instances w' !! r = Some o' /\ config o' = config o /\
      forall ps', r <> self \/ ps' <> ps -> tuning_at o' ps' = tuning_at o ps'.


(** The instance [o] with the classifier [g] for its own. *)
Definition with_classifier (g : Args -> PS) (o : BestOf) : BestOf :=
  {| name := name o; alternatives := alternatives o;
     get_problem_size := g; total_rounds := total_rounds o;
     stages := stages o; prune_after_round := prune_after_round o;
     pruning_speedup := pruning_speedup o;
     best_idx := best_idx o; best_name := best_name o;
     best_method := best_method o; best_pipeline := best_pipeline o;
     _current_round := _current_round o;
     _current_alternative := _current_alternative o;
     _total_alternatives := _total_alternatives o;
     _times := _times o; _stages_times := _stages_times o;
     _executions := _executions o |}.

(** The process [w] where the instance [self] has the classifier [g]. *)
Definition reclassified (self : RegId) (g : Args -> PS) (w : World)
  : World :=
  set_instances (alter (with_classifier g) self (instances w)) w.


(** The callables make no tuned call that is still evaluating: run in a
    calm process they return, in a time of which [P] holds, and leave the
    process calm, with the stack of parents, the output and the instance
    [self] as they were. *)
Definition quiet (P : Q -> Prop) (self : RegId) : Prop :=
  forall c a w,
    calm self w ->
    exists w' output elapsed,
      invoke c a w = (w', Return (output, elapsed)) /\
      P elapsed /\
      calm self w' /\
      _current_parents w' = _current_parents w /\
      stdout w' = stdout w /\
      instances w' !! self = instances w !! self.

End Engine.

Arguments Impl : clear implicits.
Arguments Execution PS ExecId {_ _}.
Arguments BestOf PS ExecId Callable Args {_ _ _ _}.
Arguments World PS ExecId Callable Args {_ _ _ _}.

(** * Concrete registries

    Problem sizes, call paths, callables, arguments and outputs are
    numbers; the classifier is the identity; a kernel [c] returns [c] and
    takes [timing c]. *)

Module Demo.

(** The arithmetic is that of the machine. *)
#[local] Instance binary64 : Arithmetic := Binary64.round.

Abbreviation W := (World nat nat nat nat).

Definition timing (c : nat) : Q :=
  inject_Z
    match c with
    | 0%nat => 1 | 1%nat => 2 | 2%nat => 50
    | 10%nat => 30 | 11%nat => 20
    | 20%nat => 1 | 21%nat => 1
    | 30%nat => 2 | 31%nat => 2
    | _ => 1
    end.

(** A kernel that calls no tuned operation. *)
Definition kernel (c : nat) (args : nat) : St W (nat * Q) :=
  fun w => (w, Return (c, timing c)).

(** A kernel whose timings are close: callable 0 takes 1, the others
    take 2. *)
Definition steady (c : nat) (args : nat) : St W (nat * Q) :=
  fun w => (w, Return (c, if bool_decide (c = 0%nat) then 1%Q else 2%Q)).

Definition classify (args : nat) : nat := args.

(** Three single-stage alternatives with medians 1, 2 and 50. *)
Definition three : list (string * Impl nat) :=
  [("A", Method 0%nat); ("B", Method 1%nat); ("C", Method 2%nat)].

(** Three two-stage pipelines with medians 50, 2 and 4. *)
Definition pipes : list (string * Impl nat) :=
  [("A", Pipeline [10; 11]%nat); ("B", Pipeline [20; 21]%nat);
   ("C", Pipeline [30; 31]%nat)].

(** [BestOf("op", three, classify, rounds=10, pruning_speedup=5,
    prune_after_round=1)] in a fresh process. *)
Definition single_world : W :=
  (new_BestOf "op" three classify 10 5 1 1 initial_world).1.

(** [single_world] after [BestOf.use_always_the_first_alternative()]. *)
Definition override_world : W :=
  (use_always_the_first_alternative single_world).1.

(** The same with [stages=2] and the pipelines. *)
Definition pipeline_world : W :=
  (new_BestOf "pipe" pipes classify 10 5 1 2 initial_world).1.

(** [n] calls of instance 0 from call path 7 with argument 3. *)
Definition same_call (n : nat) : list (nat * Z * nat) :=
  replicate n (7%nat, 0, 3%nat).

(** An outer operation whose two alternatives (callables 100 and 101) each
    call an inner tuned operation (instance 1, alternatives 0 and 1) and
    take 7. *)
Definition nested (c : nat) (args : nat) : St W (nat * Q) :=
  if bool_decide (100 <= c)%nat then
    fun w =>
      match call kernel 1%nat 8%nat 0 args w with
      | (w', Return output) => (w', Return (output, 7%Q))
      | (w', Raise e) => (w', Raise e)
      end
  else kernel c args.

Definition nested_world : W :=
  ((new_BestOf "outer" [("X", Method 100%nat); ("Y", Method 101%nat)]
      classify 10 5 1 1;;
    new_BestOf "inner" [("A", Method 0%nat); ("B", Method 1%nat)]
      classify 10 5 1 1) initial_world).1.

(** [three] with [pruning_speedup=3/2]: after one round only A is within
    the limit. *)
Definition quick_world : W :=
  (new_BestOf "quick" three classify 10 (3 # 2) 1 1 initial_world).1.

(** [quick_world] after the three calls of its first round, which select
    A for problem size 3. *)
Definition cached_world : W :=
  Eval vm_compute in (calls kernel 0%nat (same_call 3) quick_world).1.

(** The process while the first call of the outer operation of
    [nested_world] runs its alternative: the outer node is on the stack of
    parents. *)
Definition inside_outer : W :=
  Eval vm_compute in (before_alternative 0%nat 7%nat 0 3%nat nested_world).1.

(** The process when that alternative has returned: the inner operation
    has taken its first sample and has selected nothing yet. *)
Definition after_inner : W :=
  Eval vm_compute in (nested 100%nat 3%nat inside_outer).1.

(** Inside that alternative, the first call of the inner operation: the
    process when the inner alternative starts, and when the inner call
    has returned. *)
Definition inner_started : W :=
  Eval vm_compute in (before_alternative 1%nat 8%nat 0 3%nat inside_outer).1.

Definition inner_done : W :=
  Eval vm_compute in (call kernel 1%nat 8%nat 0 3%nat inside_outer).1.

(** The instance of [quick_world] in the third call for problem size 3,
    when the sample of C has just been appended: one sample for each of A,
    B and C. *)
Definition sampled_obj : BestOf nat nat nat nat :=
  {| name := "quick"; alternatives := three; get_problem_size := classify;
     total_rounds := 10; stages := 1; prune_after_round := 1;
     pruning_speedup := 3 # 2;
     best_idx := ∅; best_name := ∅; best_method := {[3%nat := None]};
     best_pipeline := ∅;
     _current_round := {[3%nat := 0]}; _current_alternative := {[3%nat := 2]};
     _total_alternatives := 3;
     _times := {[3%nat := [[1%Q]; [2%Q]; [50%Q]]]}; _stages_times := ∅;
     _executions := {[7%nat := 1%nat]} |}.

(** [n] two-stage cycles (stage 0, then stage 1) of instance 0 from call
    path 7 with argument 3. *)
Definition cycles (n : nat) : list (nat * Z * nat) :=
  concat (replicate n [(7%nat, 0, 3%nat); (7%nat, 1, 3%nat)]).

(** What instance 0 holds for problem size 3: samples, stage buffers,
    cursor, round and selected index. *)
Definition learned (w : W) :=
  (fun o => (_times o !! 3%nat, _stages_times o !! 3%nat,
             _current_alternative o !! 3%nat, _current_round o !! 3%nat,
             best_idx o !! 3%nat)) <$> instances w !! 0%nat.

(** The instance of [single_world], as [__init__] builds it. *)
Definition single_obj : BestOf nat nat nat nat :=
  {| name := "op"; alternatives := three; get_problem_size := classify;
     total_rounds := 10; stages := 1; prune_after_round := 1;
     pruning_speedup := 5;
     best_idx := ∅; best_name := ∅; best_method := ∅; best_pipeline := ∅;
     _current_round := ∅; _current_alternative := ∅;
     _total_alternatives := 3;
     _times := ∅; _stages_times := ∅; _executions := ∅ |}.

(** [sampled_obj] after the decision of that third call: A is selected
    for problem size 3. *)
Definition selected_obj : BestOf nat nat nat nat :=
  (select_best 3%nat 0 1 sampled_obj).1.

(** The node of call path 7 after three calls for problem size 3. *)
Definition caller : Execution nat nat :=
  {| best_of := Some 0%nat; execution_id := Some 7%nat;
     parent := Some 0%nat; children := [];
     problem_sizes := {[3%nat := 3]}; ex_name := "quick 01";
     _blocked_by := {[Some 3%nat := ∅]};
     _current_problem_size := Some 3%nat |}.


(** A kernel whose callables all raise. *)
Definition failing (c : nat) (args : nat) : St W (nat * Q) :=
  fun w => (w, Raise AlternativeFailure).

(** [single_world] when the alternative of its first call starts. *)
Definition first_started : W :=
  Eval vm_compute in (before_alternative 0%nat 7%nat 0 3%nat single_world).1.

(** [BestOf("none", [], classify, rounds=10, pruning_speedup=5,
    prune_after_round=1)] in a fresh process, and its instance. *)
Definition empty_world : W :=
  (new_BestOf "none" [] classify 10 5 1 1 initial_world).1.

Definition empty_obj : BestOf nat nat nat nat :=
  {| name := "none"; alternatives := []; get_problem_size := classify;
     total_rounds := 10; stages := 1; prune_after_round := 1;
     pruning_speedup := 5;
     best_idx := ∅; best_name := ∅; best_method := ∅; best_pipeline := ∅;
     _current_round := ∅; _current_alternative := ∅;
     _total_alternatives := 0;
     _times := ∅; _stages_times := ∅; _executions := ∅ |}.


(** A process whose instance 0 is [selected_obj] and whose node 1 is
    [caller], below the root. *)
Definition report_world : W :=
  set_instances [selected_obj]
    (set_nodes (nodes (initial_world : W) ++ [caller]) initial_world).


(** The instance of [pipeline_world], as [__init__] builds it. *)
Definition pipeline_obj : BestOf nat nat nat nat :=
  {| name := "pipe"; alternatives := pipes; get_problem_size := classify;
     total_rounds := 10; stages := 2; prune_after_round := 1;
     pruning_speedup := 5;
     best_idx := ∅; best_name := ∅; best_method := ∅; best_pipeline := ∅;
     _current_round := ∅; _current_alternative := ∅;
     _total_alternatives := 3;
     _times := ∅; _stages_times := ∅; _executions := ∅ |}.


(** The floats 0.1, 0.2, 0.15000000000000002, 0.30000000000000004 and
    1.9. *)
Definition tenth : Q := 3602879701896397 # 36028797018963968.
Definition fifth : Q := 3602879701896397 # 18014398509481984.
Definition above_0_15 : Q := 1351079888211149 # 9007199254740992.
Definition above_0_3 : Q := 1351079888211149 # 4503599627370496.
Definition near_1_9 : Q := 4278419646001971 # 2251799813685248.

(** Two alternatives after their first round, with the medians 0.1 and
    0.30000000000000004 and a pruning speedup of 3. *)
Definition close_obj : BestOf nat nat nat nat :=
  {| name := "close";
     alternatives := [("A", Method 0%nat); ("B", Method 1%nat)];
     get_problem_size := classify;
     total_rounds := 10; stages := 1; prune_after_round := 1;
     pruning_speedup := 3;
     best_idx := ∅; best_name := ∅; best_method := {[3%nat := None]};
     best_pipeline := ∅;
     _current_round := {[3%nat := 0]}; _current_alternative := {[3%nat := 1]};
     _total_alternatives := 2;
     _times := {[3%nat := [[tenth]; [above_0_3]]]}; _stages_times := ∅;
     _executions := {[7%nat := 1%nat]} |}.

(** Two alternatives at the end of their only round: A has the sample
    0.15000000000000002, B the samples 0.1 and 0.2. *)
Definition tied_obj : BestOf nat nat nat nat :=
  {| name := "tied";
     alternatives := [("A", Method 0%nat); ("B", Method 1%nat)];
     get_problem_size := classify;
     total_rounds := 1; stages := 1; prune_after_round := 1;
     pruning_speedup := 3;
     best_idx := ∅; best_name := ∅; best_method := {[3%nat := None]};
     best_pipeline := ∅;
     _current_round := {[3%nat := 0]}; _current_alternative := {[3%nat := 1]};
     _total_alternatives := 2;
     _times := {[3%nat := [[above_0_15]; [tenth; fifth]]]};
     _stages_times := ∅;
     _executions := {[7%nat := 1%nat]} |}.

(** Two single-stage alternatives, the second the faster: A takes 50 and
    B takes 1. *)
Definition slow_first : list (string * Impl nat) :=
  [("A", Method 2%nat); ("B", Method 0%nat)].

(** A process whose only instance, after the two calls of its first
    round, has selected B for problem size 3. *)
Definition late_world : W :=
  (calls kernel 0%nat (same_call 2)
     (new_BestOf "late" slow_first classify 10 5 1 1 initial_world).1).1.


End Demo.

(** * The binary64 rounding keeps the order *)

Module Binary64Facts.

Import Binary64.

Lemma nearest_even_spec x :
  (inject_Z (nearest_even x) - (1 # 2) <= x <= inject_Z (nearest_even x) + (1 # 2))%Q.
Proof.
  unfold nearest_even.
  pose proof (Qfloor_le x) as Hlo. pose proof (Qlt_floor x) as Hhi.
  rewrite inject_Z_plus in Hhi. change (inject_Z 1) with 1%Q in Hhi.
  destruct (Qcompare_spec (x - inject_Z (Qfloor x)) (1 # 2)) as [E|E|E].
  - destruct (Z.even (Qfloor x)); rewrite ?inject_Z_plus;
      change (inject_Z 1) with 1%Q; split; lra.
  - split; lra.
  - rewrite inject_Z_plus. change (inject_Z 1) with 1%Q. split; lra.
Qed.

#[local] Instance nearest_even_proper : Proper (Qeq ==> eq) nearest_even.
Proof.
  intros x y E. unfold nearest_even.
  rewrite (Qfloor_comp _ _ E).
  assert (E' : (x - inject_Z (Qfloor y) ?= 1 # 2)%Q
               = (y - inject_Z (Qfloor y) ?= 1 # 2)%Q).
  { apply Qcompare_comp; [rewrite E; reflexivity|reflexivity]. }
  rewrite E'. reflexivity.
Qed.

Lemma nearest_even_monotone x y :
  (x <= y)%Q -> nearest_even x <= nearest_even y.
Proof.
  intros Hxy.
  destruct (Z_le_gt_dec (nearest_even x) (nearest_even y)) as [H|H];
    [exact H|exfalso].
  pose proof (nearest_even_spec x) as [_ Hx].
  pose proof (nearest_even_spec y) as [Hy _].
  assert (Hz : (inject_Z (nearest_even y) + 1 <= inject_Z (nearest_even x))%Q).
  { change 1%Q with (inject_Z 1). rewrite <- inject_Z_plus, <- Zle_Qle. lia. }
  pose proof (nearest_even_spec x) as [Hx' _].
  pose proof (nearest_even_spec y) as [_ Hy'].
  assert (E : (x == y)%Q) by lra.
  rewrite (nearest_even_proper _ _ E) in H. lia.
Qed.

Lemma nearest_even_Z z : nearest_even (inject_Z z) = z.
Proof.
  unfold nearest_even. rewrite Qfloor_Z.
  destruct (Qcompare_spec (inject_Z z - inject_Z z) (1 # 2)) as [E|E|E];
    [exfalso; lra|reflexivity|exfalso; lra].
Qed.

(** ** The exponent *)

Lemma two_pow_pos e : (0 < 2 ^ e)%Q.
Proof. apply Qpower_0_lt. reflexivity. Qed.

Lemma two_pow_le e1 e2 : e1 <= e2 -> (2 ^ e1 <= 2 ^ e2)%Q.
Proof. intros H. apply Qpower_le_compat_l; [exact H|discriminate]. Qed.

Lemma two_pow_succ e : (2 ^ (e + 1) == 2 * 2 ^ e)%Q.
Proof. rewrite Qpower_plus by discriminate. change (2 ^ 1)%Q with 2%Q. ring. Qed.

Lemma two_pow_Z k : 0 <= k -> (inject_Z (2 ^ k) == 2 ^ k)%Q.
Proof. intros Hk. apply (Zpower_Qpower 2 k Hk). Qed.

Lemma floor_log2_spec x :
  (0 < x)%Q -> (2 ^ floor_log2 x <= x < 2 ^ (floor_log2 x + 1))%Q.
Proof.
  intros Hx. unfold floor_log2.
  destruct (Qle_bool 1 x) eqn:E.
  - apply Qle_bool_iff in E.
    assert (Hf : 1 <= Qfloor x).
    { rewrite <- (Qfloor_Z 1). apply Qfloor_resp_le. exact E. }
    pose proof (Z.log2_spec (Qfloor x) ltac:(lia)) as [H1 H2].
    pose proof (Z.log2_nonneg (Qfloor x)) as H0.
    pose proof (Qfloor_le x) as Hlo. pose proof (Qlt_floor x) as Hhi.
    rewrite <- !two_pow_Z by lia. split.
    + apply Qle_trans with (inject_Z (Qfloor x)); [|exact Hlo].
      rewrite <- Zle_Qle. exact H1.
    + apply Qlt_le_trans with (inject_Z (Qfloor x + 1)); [exact Hhi|].
      rewrite <- Zle_Qle. replace (Z.succ (Z.log2 (Qfloor x))) with (Z.log2 (Qfloor x) + 1) in H2 by lia. lia.
  - assert (Hx1 : (x < 1)%Q).
    { apply Qnot_le_lt. intros H. apply Qle_bool_iff in H. congruence. }
    set (c := Qceiling (/ x)).
    assert (Hinv : (1 < / x)%Q).
    { apply Qlt_shift_inv_l; [exact Hx|]. lra. }
    assert (Hc : 2 <= c).
    { assert (H : (1 < inject_Z c)%Q).
      { apply Qlt_le_trans with (/ x)%Q; [exact Hinv|apply Qle_ceiling]. }
      change 1%Q with (inject_Z 1) in H. rewrite <- Zlt_Qlt in H. lia. }
    pose proof (Z.log2_up_spec c ltac:(lia)) as [H1 H2].
    set (j := Z.log2_up c) in *.
    assert (Hj : 1 <= j).
    { pose proof (Z.log2_up_pos c ltac:(lia)). unfold j. lia. }
    pose proof (Qle_ceiling (/ x)) as Hup. fold c in Hup.
    pose proof (Qceiling_lt (/ x)) as Hdn. fold c in Hdn.
    assert (Ha : (/ x <= 2 ^ j)%Q).
    { rewrite <- two_pow_Z by lia.
      apply Qle_trans with (inject_Z c); [exact Hup|].
      rewrite <- Zle_Qle. exact H2. }
    assert (Hb : (2 ^ (j - 1) < / x)%Q).
    { rewrite <- two_pow_Z by lia.
      apply Qle_lt_trans with (inject_Z (c - 1)); [|exact Hdn].
      rewrite <- Zle_Qle. replace (Z.pred j) with (j - 1) in H1 by lia. lia. }
    pose proof (two_pow_pos j) as Pj. pose proof (two_pow_pos (j - 1)) as Pj1.
    split.
    + rewrite Qpower_opp.
      apply Qle_shift_inv_r; [exact Pj|].
      apply (Qmult_le_l _ _ (/ x)); [lra|].
      rewrite Qmult_1_r. 
      setoid_replace (/ x * (x * 2 ^ j))%Q with (2 ^ j)%Q
        using relation Qeq; [exact Ha|].
      field. lra.
    + replace (- j + 1) with (- (j - 1)) by lia. rewrite Qpower_opp.
      apply Qlt_shift_inv_l; [exact Pj1|].
      apply (Qmult_lt_l _ _ (/ x)); [lra|].
      setoid_replace (/ x * (x * 2 ^ (j - 1)))%Q with (2 ^ (j - 1))%Q
        using relation Qeq;
        [rewrite Qmult_1_r; exact Hb|].
      field. lra.
Qed.

Lemma floor_log2_unique x k :
  (0 < x)%Q -> (2 ^ k <= x < 2 ^ (k + 1))%Q -> floor_log2 x = k.
Proof.
  intros Hx [H1 H2]. destruct (floor_log2_spec x Hx) as [G1 G2].
  set (f := floor_log2 x) in *.
  destruct (Z_lt_ge_dec f k) as [L|L].
  - exfalso. pose proof (two_pow_le (f + 1) k ltac:(lia)). lra.
  - destruct (Z_lt_ge_dec k f) as [L'|L']; [|lia].
    exfalso. pose proof (two_pow_le (k + 1) f ltac:(lia)). lra.
Qed.

Lemma floor_log2_monotone x y :
  (0 < x)%Q -> (x <= y)%Q -> floor_log2 x <= floor_log2 y.
Proof.
  intros Hx Hxy.
  destruct (floor_log2_spec x Hx) as [G1 G2].
  destruct (floor_log2_spec y ltac:(lra)) as [K1 K2].
  destruct (Z_le_gt_dec (floor_log2 x) (floor_log2 y)) as [L|L]; [exact L|].
  exfalso.
  pose proof (two_pow_le (floor_log2 y + 1) (floor_log2 x) ltac:(lia)). lra.
Qed.

(** ** Rounding *)

#[local] Instance floor_log2_proper : Proper (Qeq ==> eq) floor_log2.
Proof.
  intros x y E. unfold floor_log2.
  assert (Hb : Qle_bool 1 x = Qle_bool 1 y).
  { destruct (Qle_bool 1 x) eqn:Ex, (Qle_bool 1 y) eqn:Ey; try reflexivity.
    - apply Qle_bool_iff in Ex. rewrite E in Ex. apply Qle_bool_iff in Ex.
      congruence.
    - apply Qle_bool_iff in Ey. rewrite <- E in Ey. apply Qle_bool_iff in Ey.
      congruence. }
  rewrite Hb, (Qfloor_comp _ _ E).
  assert (E' : (/ x == / y)%Q) by (rewrite E; reflexivity).
  rewrite (Qceiling_comp _ _ E'). reflexivity.
Qed.

#[local] Instance ulp_exp_proper : Proper (Qeq ==> eq) ulp_exp.
Proof.
  intros x y E. unfold ulp_exp.
  assert (E' : (Qabs x == Qabs y)%Q) by (rewrite E; reflexivity).
  rewrite (floor_log2_proper _ _ E'). reflexivity.
Qed.

#[local] Instance round_proper : Proper (Qeq ==> Qeq) round.
Proof.
  intros x y E. unfold round.
  assert (Hb : Qeq_bool x 0 = Qeq_bool y 0).
  { destruct (Qeq_bool x 0) eqn:Ex, (Qeq_bool y 0) eqn:Ey; try reflexivity.
    - apply Qeq_bool_iff in Ex. rewrite E in Ex. apply Qeq_bool_iff in Ex.
      congruence.
    - apply Qeq_bool_iff in Ey. rewrite <- E in Ey. apply Qeq_bool_iff in Ey.
      congruence. }
  rewrite Hb. destruct (Qeq_bool y 0); [reflexivity|].
  rewrite (ulp_exp_proper _ _ E). rewrite !Qred_correct.
  assert (E' : (x / 2 ^ ulp_exp y == y / 2 ^ ulp_exp y)%Q)
    by (rewrite E; reflexivity).
  rewrite (nearest_even_proper _ _ E'). reflexivity.
Qed.

(** The scaled value of [x <> 0] has at most 53 bits, and exactly 53
    above the subnormals. *)
Lemma scaled_bounds x :
  (0 < x)%Q ->
  (x / 2 ^ ulp_exp x < 2 ^ 53)%Q /\
  (-1074 < ulp_exp x -> (2 ^ 52 <= x / 2 ^ ulp_exp x)%Q).
Proof.
  intros Hx. unfold ulp_exp. rewrite (Qabs_pos x) by lra.
  destruct (floor_log2_spec x Hx) as [G1 G2].
  set (k := floor_log2 x) in *. set (e := Z.max (k - 52) (-1074)).
  pose proof (two_pow_pos e) as Pe. split.
  - apply Qlt_shift_div_r; [exact Pe|].
    rewrite <- Qpower_plus by discriminate.
    apply Qlt_le_trans with (2 ^ (k + 1))%Q; [exact G2|].
    apply two_pow_le. lia.
  - intros He. apply Qle_shift_div_l; [exact Pe|].
    rewrite <- Qpower_plus by discriminate.
    replace (52 + e) with k by lia. exact G1.
Qed.

Lemma round_pos x :
  (0 < x)%Q -> (round x == inject_Z (nearest_even (x / 2 ^ ulp_exp x)) * 2 ^ ulp_exp x)%Q.
Proof.
  intros Hx. unfold round.
  destruct (Qeq_bool x 0) eqn:E; [apply Qeq_bool_iff in E; lra|].
  apply Qred_correct.
Qed.

Lemma round_neg x :
  (x < 0)%Q -> (round x == inject_Z (nearest_even (x / 2 ^ ulp_exp x)) * 2 ^ ulp_exp x)%Q.
Proof.
  intros Hx. unfold round.
  destruct (Qeq_bool x 0) eqn:E; [apply Qeq_bool_iff in E; lra|].
  apply Qred_correct.
Qed.

Lemma round_zero x : (x == 0)%Q -> round x = 0%Q.
Proof.
  intros E. unfold round. apply Qeq_bool_iff in E. rewrite E. reflexivity.
Qed.

Lemma ulp_exp_opp x : ulp_exp (- x) = ulp_exp x.
Proof. unfold ulp_exp. rewrite Qabs_opp. reflexivity. Qed.

Lemma nearest_even_le_Z x z : (x <= inject_Z z)%Q -> nearest_even x <= z.
Proof.
  intros H. rewrite <- (nearest_even_Z z). apply nearest_even_monotone, H.
Qed.

Lemma nearest_even_ge_Z x z : (inject_Z z <= x)%Q -> z <= nearest_even x.
Proof.
  intros H. rewrite <- (nearest_even_Z z). apply nearest_even_monotone, H.
Qed.

Lemma round_nonneg x : (0 <= x)%Q -> (0 <= round x)%Q.
Proof.
  intros Hx. destruct (Qeq_dec x 0) as [E|E].
  - rewrite (round_zero x E). apply Qle_refl.
  - assert (Hp : (0 < x)%Q).
    { destruct (Qlt_le_dec 0 x) as [L|L]; [exact L|].
      exfalso. apply E. lra. }
    rewrite (round_pos x Hp). pose proof (two_pow_pos (ulp_exp x)) as Pe.
    apply Qmult_le_0_compat; [|lra].
    change 0%Q with (inject_Z 0). rewrite <- Zle_Qle.
    apply nearest_even_ge_Z. change (inject_Z 0) with 0%Q.
    apply Qle_shift_div_l; [exact Pe|]. lra.
Qed.

Lemma round_nonpos x : (x <= 0)%Q -> (round x <= 0)%Q.
Proof.
  intros Hx. destruct (Qeq_dec x 0) as [E|E].
  - rewrite (round_zero x E). apply Qle_refl.
  - assert (Hp : (x < 0)%Q).
    { destruct (Qlt_le_dec x 0) as [L|L]; [exact L|].
      exfalso. apply E. lra. }
    rewrite (round_neg x Hp). pose proof (two_pow_pos (ulp_exp x)) as Pe.
    assert (Hn : (inject_Z (nearest_even (x / 2 ^ ulp_exp x)) <= 0)%Q).
    { change 0%Q with (inject_Z 0). rewrite <- Zle_Qle.
      apply nearest_even_le_Z. change (inject_Z 0) with 0%Q.
      apply Qle_shift_div_r; [exact Pe|]. lra. }
    nra.
Qed.

Lemma round_monotone_pos x y :
  (0 < x)%Q -> (x <= y)%Q -> (round x <= round y)%Q.
Proof.
  intros Hx Hxy. assert (Hy : (0 < y)%Q) by lra.
  rewrite (round_pos x Hx), (round_pos y Hy).
  destruct (scaled_bounds x Hx) as [Bx _].
  destruct (scaled_bounds y Hy) as [_ By].
  assert (Le : ulp_exp x <= ulp_exp y).
  { unfold ulp_exp. rewrite !Qabs_pos by lra.
    pose proof (floor_log2_monotone x y Hx Hxy). lia. }
  set (ex := ulp_exp x) in *. set (ey := ulp_exp y) in *.
  pose proof (two_pow_pos ex) as Px. pose proof (two_pow_pos ey) as Py.
  destruct (Z.eq_dec ex ey) as [E|E].
  - rewrite E. apply Qmult_le_compat_r; [|lra].
    rewrite <- Zle_Qle. apply nearest_even_monotone.
    rewrite E in *. apply Qle_shift_div_l; [exact Py|].
    setoid_replace (x / 2 ^ ey * 2 ^ ey)%Q with x using relation Qeq
      by (field; lra).
    exact Hxy.
  - assert (Hlt : ex + 1 <= ey) by lia.
    assert (H1 : nearest_even (x / 2 ^ ex) <= 2 ^ 53).
    { apply nearest_even_le_Z. rewrite two_pow_Z by lia. lra. }
    assert (H2 : 2 ^ 52 <= nearest_even (y / 2 ^ ey)).
    { apply nearest_even_ge_Z. rewrite two_pow_Z by lia. apply By.
      unfold ex, ulp_exp in Hlt. lia. }
    rewrite Zle_Qle in H1, H2. rewrite two_pow_Z in H1, H2 by lia.
    pose proof (two_pow_le (ex + 1) ey Hlt) as Hp.
    rewrite two_pow_succ in Hp.
    change (2 ^ 53)%Q with (2 * 2 ^ 52)%Q in H1.
    pose proof (two_pow_pos 52) as P52.
    apply Qle_trans with (2 * 2 ^ 52 * 2 ^ ex)%Q; [nra|].
    apply Qle_trans with (2 ^ 52 * 2 ^ ey)%Q; [nra|nra].
Qed.

Lemma round_monotone_neg x y :
  (y < 0)%Q -> (x <= y)%Q -> (round x <= round y)%Q.
Proof.
  intros Hy Hxy. assert (Hx : (x < 0)%Q) by lra.
  rewrite (round_neg x Hx), (round_neg y Hy).
  destruct (scaled_bounds (- x) ltac:(lra)) as [_ Bx].
  destruct (scaled_bounds (- y) ltac:(lra)) as [By _].
  rewrite ulp_exp_opp in Bx, By.
  assert (Le : ulp_exp y <= ulp_exp x).
  { rewrite <- (ulp_exp_opp x), <- (ulp_exp_opp y).
    unfold ulp_exp. rewrite !Qabs_pos by lra.
    pose proof (floor_log2_monotone (- y) (- x) ltac:(lra) ltac:(lra)). lia. }
  set (ex := ulp_exp x) in *. set (ey := ulp_exp y) in *.
  pose proof (two_pow_pos ex) as Px. pose proof (two_pow_pos ey) as Py.
  destruct (Z.eq_dec ex ey) as [E|E].
  - rewrite E. apply Qmult_le_compat_r; [|lra].
    rewrite <- Zle_Qle. apply nearest_even_monotone.
    rewrite E in *. apply Qle_shift_div_l; [exact Py|].
    setoid_replace (x / 2 ^ ey * 2 ^ ey)%Q with x using relation Qeq
      by (field; lra).
    exact Hxy.
  - assert (Hlt : ey + 1 <= ex) by lia.
    assert (Ex : (- x / 2 ^ ex == - (x / 2 ^ ex))%Q) by (field; lra).
    assert (Ey : (- y / 2 ^ ey == - (y / 2 ^ ey))%Q) by (field; lra).
    rewrite Ex in Bx. rewrite Ey in By.
    assert (H1 : nearest_even (x / 2 ^ ex) <= - 2 ^ 52).
    { apply nearest_even_le_Z. rewrite inject_Z_opp, two_pow_Z by lia.
      specialize (Bx ltac:(unfold ey, ulp_exp in Hlt; lia)). lra. }
    assert (H2 : - 2 ^ 53 <= nearest_even (y / 2 ^ ey)).
    { apply nearest_even_ge_Z. rewrite inject_Z_opp, two_pow_Z by lia. lra. }
    rewrite Zle_Qle in H1, H2.
    rewrite inject_Z_opp, two_pow_Z in H1, H2 by lia.
    pose proof (two_pow_le (ey + 1) ex Hlt) as Hp.
    rewrite two_pow_succ in Hp.
    change (2 ^ 53)%Q with (2 * 2 ^ 52)%Q in H2.
    pose proof (two_pow_pos 52) as P52.
    apply Qle_trans with (- (2 ^ 52) * 2 ^ ex)%Q; [nra|].
    apply Qle_trans with (- (2 * 2 ^ 52) * 2 ^ ey)%Q; [nra|nra].
Qed.

Theorem round_monotone x y : (x <= y)%Q -> (round x <= round y)%Q.
Proof.
  intros Hxy.
  destruct (Qlt_le_dec 0 x) as [Hx|Hx].
  - apply round_monotone_pos; assumption.
  - destruct (Qlt_le_dec y 0) as [Hy|Hy].
    + apply round_monotone_neg; assumption.
    + apply Qle_trans with 0%Q; [apply round_nonpos|apply round_nonneg];
        assumption.
Qed.

End Binary64Facts.

(** * Properties *)

Section Properties.

Context {PS ExecId Callable Args Output : Type}.
Context {arith : Arithmetic}.
Context `{Countable PS} `{Countable ExecId}.

Abbreviation BestOf' := (BestOf PS ExecId Callable Args).
Abbreviation World' := (World PS ExecId Callable Args).
Abbreviation M := (St World').

Implicit Types (w : World') (o : BestOf') (ps : PS) (eid : ExecId).

(** ** Running the monad *)

Ltac st_unfold :=
  unfold mbind, St_bind, mret, St_ret, get, modify, raise, of_option,
    of_result in *.
Ltac st_red := st_unfold; cbn beta iota.
Ltac st_run := repeat (progress (st_unfold; cbn beta iota)).

Lemma run_bind {S A B} (m : St S A) (k : A -> St S B) s :
  (m ≫= k) s =
  match m s with
  | (s', Return a) => k a s'
  | (s', Raise e) => (s', Raise e)
  end.
Proof. reflexivity. Qed.

Lemma run_bind_return {S A B} (m : St S A) (k : A -> St S B) s s' a :
  m s = (s', Return a) -> (m ≫= k) s = k a s'.
Proof. intros E. rewrite run_bind, E. reflexivity. Qed.

Lemma run_bind_raise {S A B} (m : St S A) (k : A -> St S B) s s' e :
  m s = (s', Raise e) -> (m ≫= k) s = (s', Raise e).
Proof. intros E. rewrite run_bind, E. reflexivity. Qed.

Lemma run_get_self self w o :
  instances w !! self = Some o -> get_self self w = (w, Return o).
Proof. intros E. unfold get_self. rewrite E. reflexivity. Qed.

Lemma run_get_node n w x :
  nodes w !! n = Some x -> get_node n w = (w, Return x).
Proof. intros E. unfold get_node. rewrite E. reflexivity. Qed.

Lemma run_on_self {A} self (m : St BestOf' A) w o :
  instances w !! self = Some o ->
  on_self self m w =
  (set_instances (<[self := (m o).1]> (instances w)) w, (m o).2).
Proof. intros E. unfold on_self. rewrite E. destruct (m o). reflexivity. Qed.

(** ** Registration *)

Lemma register_known self eid w o n :
  instances w !! self = Some o ->
  _executions o !! eid = Some n ->
  _register self eid w = (w, Return n).
Proof.
  intros Ho He. unfold _register.
  rewrite (run_bind_return _ _ _ _ _ (run_get_self _ _ _ Ho)).
  rewrite He. reflexivity.
Qed.

Lemma register_fresh self eid w o p :
  instances w !! self = Some o ->
  _executions o !! eid = None ->
  nodes w !! current_root w = Some p ->
  exists w1 me,
    _register self eid w = (w1, Return (length (nodes w))) /\
    (instances w1 =
      <[self := set_executions (<[eid := length (nodes w)]> (_executions o)) o]>
        (instances w)) /\
    _use_first_alternative w1 = _use_first_alternative w /\
    _current_parents w1 = _current_parents w /\
    stdout w1 = stdout w /\
    parent me = Some (current_root w) /\
    _blocked_by me = ∅ /\
    nodes w1 =
      <[current_root w := set_children (children p ++ [length (nodes w)]) p]>
        (nodes w) ++ [me].
Proof.
  intros Ho He Hp. unfold _register, new_execution, current_root in *.
  st_unfold. rewrite (run_get_self _ _ _ Ho). rewrite He.
  rewrite (run_get_self _ _ _ Ho). cbn. unfold get_node. cbn. rewrite Hp. cbn.
  rewrite run_on_self with (o := o) by exact Ho.
  eexists _, _. split; [reflexivity|]. cbn.
  repeat split; reflexivity.
Qed.

Lemma set_executions_id o : set_executions (_executions o) o = o.
Proof. destruct o; reflexivity. Qed.

Lemma tuning_insert_executions self ex o (l : list BestOf') :
  l !! self = Some o ->
  tuning <$> <[self := set_executions ex o]> l = tuning <$> l.
Proof.
  intros Ho. rewrite list_fmap_insert. apply list_insert_id.
  rewrite list_lookup_fmap, Ho. reflexivity.
Qed.

(** Registration returns whenever the parent it would attach to exists;
    it leaves everything but the node table alone, and the node table too
    when the call path already has its node. *)
Lemma register_cases self eid w o :
  instances w !! self = Some o ->
  is_Some (nodes w !! current_root w) ->
  exists w1 n ex,
    _register self eid w = (w1, Return n) /\
    (instances w1 = <[self := set_executions ex o]> (instances w)) /\
    _use_first_alternative w1 = _use_first_alternative w /\
    _current_parents w1 = _current_parents w /\
    stdout w1 = stdout w /\
    (is_Some (_executions o !! eid) -> w1 = w) /\
    ((forall n', _executions o !! eid = Some n' -> node_ok w n') ->
     node_ok w1 n).
Proof.
  intros Ho [p Hp]. destruct (_executions o !! eid) as [n|] eqn:He.
  - exists w, n, (_executions o). rewrite set_executions_id.
    rewrite (list_insert_id _ _ _ Ho).
    split; [eapply register_known; eassumption|].
    repeat split; try reflexivity. intros Hok. apply Hok. reflexivity.
  - destruct (register_fresh self eid w o p Ho He Hp)
      as (w1 & me & Hr & Hi & Hu & Hcp & Hs & Hpar & _ & Hn).
    exists w1, (length (nodes w)), (<[eid := length (nodes w)]> (_executions o)).
    repeat split; try assumption.
    + intros [? ?]; discriminate.
    + intros _. exists me, (current_root w). eexists.
      assert (Hlt : (current_root w < length (nodes w))%nat)
        by (eapply lookup_lt_Some; eassumption).
      rewrite Hn. split; [|split; [exact Hpar|]].
      * rewrite lookup_app_r by (rewrite length_insert; lia).
        rewrite length_insert, Nat.sub_diag. reflexivity.
      * rewrite lookup_app_l by (rewrite length_insert; lia).
        apply list_lookup_insert_eq. exact Hlt.
Qed.

Lemma lookup_insert_self (l : list BestOf') self o o' :
  l !! self = Some o -> <[self := o']> l !! self = Some o'.
Proof.
  intros Ho. apply list_lookup_insert_eq. eapply lookup_lt_Some; eassumption.
Qed.

Variable invoke : Callable -> Args -> M (Output * Q).

Lemma call_direct self eid stage_arg args w w1 stage c :
  before_alternative self eid stage_arg args w
    = (w1, Return (stage, Direct c)) ->
  call invoke self eid stage_arg args w =
  ((invoke c args w1).1, output_of (invoke c args w1).2).
Proof.
  intros E. unfold call. rewrite (run_bind_return _ _ _ _ _ E).
  rewrite run_bind. destruct (invoke c args w1) as [w2 [[out t]|e]]; reflexivity.
Qed.

Lemma call_raise self eid stage_arg args w w1 e :
  before_alternative self eid stage_arg args w = (w1, Raise e) ->
  call invoke self eid stage_arg args w = (w1, Raise e).
Proof. intros E. unfold call. rewrite (run_bind_raise _ _ _ _ _ E). reflexivity. Qed.

(** ** The override *)

Lemma before_override self eid stage_arg args w o a c :
  _use_first_alternative w = true ->
  instances w !! self = Some o ->
  is_Some (nodes w !! current_root w) ->
  stage_of o stage_arg < stages o ->
  Py.index (alternatives o) 0 = Some a ->
  callable_of (stages o) a.2 (stage_of o stage_arg) = Return c ->
  exists w1 n,
    _register self eid w = (w1, Return n) /\
    before_alternative self eid stage_arg args w
      = (w1, Return (stage_of o stage_arg, Direct c)) /\
    tuning <$> instances w1 = tuning <$> instances w /\
    (is_Some (_executions o !! eid) -> w1 = w).
Proof.
  intros Hu Ho Hroot Hst Ha Hc.
  destruct (register_cases self eid w o Ho Hroot)
    as (w1 & n & ex & Hr & Hi & Hu1 & _ & _ & Hk & _).
  exists w1, n. split; [exact Hr|]. split; [|split].
  - unfold before_alternative. rewrite (run_bind_return _ _ _ _ _ Hr).
    assert (Ho1 : instances w1 !! self = Some (set_executions ex o)).
    { rewrite Hi. eapply lookup_insert_self; eassumption. }
    rewrite (run_bind_return _ _ _ _ _ (run_get_self _ _ _ Ho1)).
    cbn [stages set_executions with_state alternatives].
    fold (stage_of o stage_arg).
    rewrite bool_decide_eq_true_2 by exact Hst. cbn [negb].
    st_red. rewrite Hu1, Hu. st_red. rewrite Ha. st_red. rewrite Hc. reflexivity.
  - rewrite Hi. apply tuning_insert_executions. exact Ho.
  - exact Hk.
Qed.

Lemma reclassified_lookup self g w o :
  instances w !! self = Some o ->
  instances (reclassified self g w) !! self = Some (with_classifier g o).
Proof.
  intros Ho. unfold reclassified. cbn.
  rewrite list_lookup_alter_eq, Ho. reflexivity.
Qed.

Lemma alter_insert_self (f : BestOf' -> BestOf') self o (l : list BestOf') :
  alter f self (<[self := o]> l) = <[self := f o]> l.
Proof.
  revert self. induction l as [|x l IH]; intros [|self]; cbn;
    try reflexivity.
  f_equal. apply IH.
Qed.

Lemma alter_as_insert (f : BestOf' -> BestOf') self o (l : list BestOf') :
  l !! self = Some o -> alter f self l = <[self := f o]> l.
Proof.
  intros Ho. rewrite <- (list_insert_id l self o Ho) at 1.
  apply alter_insert_self.
Qed.

(** Registration does not look at the classifier. *)
Lemma register_reclassified self eid g w o w1 n :
  instances w !! self = Some o ->
  is_Some (nodes w !! current_root w) ->
  _register self eid w = (w1, Return n) ->
  _register self eid (reclassified self g w)
  = (reclassified self g w1, Return n).
Proof.
  intros Ho [p Hp] Hr.
  pose proof (reclassified_lookup self g w o Ho) as Hog.
  destruct (_executions o !! eid) as [n0|] eqn:He.
  - rewrite (register_known self eid w o n0 Ho He) in Hr.
    injection Hr as <- <-.
    apply (register_known self eid _ (with_classifier g o)); assumption.
  - revert Hr.
    unfold _register, new_execution, current_root in *.
    st_unfold. rewrite (run_get_self _ _ _ Ho), (run_get_self _ _ _ Hog).
    cbn [_executions with_classifier]. rewrite He.
    rewrite (run_get_self _ _ _ Ho), (run_get_self _ _ _ Hog).
    cbn. unfold get_node. cbn. rewrite Hp. cbn.
    rewrite run_on_self with (o := o) by exact Ho.
    rewrite run_on_self with (o := with_classifier g o) by exact Hog.
    cbn. intros Hr. injection Hr as <- <-.
    unfold reclassified. cbn.
    rewrite alter_insert_self, (alter_as_insert _ _ _ _ Ho).
    rewrite list_insert_insert_eq. reflexivity.
Qed.

(** C9 (amended): with the override set, a call with a stage below
    [stages], on an instance whose first-listed alternative [a] exists
    and has a callable [c] for that stage, registers its execution node,
    runs [c] on the state so obtained, and returns the result and the
    final state of [c]: no timing is kept, no problem size recorded, no
    block set, no selection cached.  Registration changes no learned
    state, and changes nothing at all when the call path already has its
    node.  The classifier is not invoked: with any classifier [g] in its
    place the call registers the same node and hands [c] the same state,
    but for [g]. *)
Theorem override_runs_first_alternative self eid stage_arg args w o a c :
  _use_first_alternative w = true ->
  instances w !! self = Some o ->
  is_Some (nodes w !! current_root w) ->
  stage_of o stage_arg < stages o ->
  Py.index (alternatives o) 0 = Some a ->
  callable_of (stages o) a.2 (stage_of o stage_arg) = Return c ->
  exists w1 n,
    _register self eid w = (w1, Return n) /\
    call invoke self eid stage_arg args w =
      ((invoke c args w1).1, output_of (invoke c args w1).2) /\
    tuning <$> instances w1 = tuning <$> instances w /\
    (is_Some (_executions o !! eid) -> w1 = w) /\
    forall g,
      let wg := reclassified self g w1 in
      _register self eid (reclassified self g w) = (wg, Return n) /\
      call invoke self eid stage_arg args (reclassified self g w) =
        ((invoke c args wg).1, output_of (invoke c args wg).2).
Proof.
  intros Hu Ho Hroot Hst Ha Hc.
  destruct (before_override self eid stage_arg args w o a c Hu Ho Hroot Hst Ha Hc)
    as (w1 & n & Hr & Hb & Ht & Hk).
  exists w1, n. repeat split; try assumption.
  - apply call_direct with (stage := stage_of o stage_arg). exact Hb.
  - apply (register_reclassified self eid g w o); assumption.
  - pose proof (register_reclassified self eid g w o w1 n Ho Hroot Hr)
      as Hrg.
    destruct (before_override self eid stage_arg args
                (reclassified self g w) (with_classifier g o) a c)
      as (w1' & n' & Hr' & Hb' & _); try assumption.
    { apply reclassified_lookup. exact Ho. }
    rewrite Hrg in Hr'. injection Hr' as <- <-.
    apply call_direct with (stage := stage_of o stage_arg). exact Hb'.
Qed.

(** ** The stage assertion *)

(** C8 (amended): in pipeline mode a call whose stage argument is
    [stages] or more raises the assertion error of line 292 to the caller.
    By then the call has registered its execution node: it has changed no
    learned state, and nothing at all when the call path already had its
    node. *)
Theorem stage_too_large_raises self eid stage_arg args w o :
  instances w !! self = Some o ->
  is_Some (nodes w !! current_root w) ->
  1 < stages o ->
  stages o <= stage_arg ->
  exists w1 n,
    _register self eid w = (w1, Return n) /\
    call invoke self eid stage_arg args w = (w1, Raise AssertionError) /\
    tuning <$> instances w1 = tuning <$> instances w /\
    (is_Some (_executions o !! eid) -> w1 = w).
Proof.
  intros Ho Hroot Hp Hst.
  destruct (register_cases self eid w o Ho Hroot)
    as (w1 & n & ex & Hr & Hi & _ & _ & _ & Hk & _).
  exists w1, n. split; [exact Hr|]. split; [|split].
  - apply call_raise. unfold before_alternative.
    rewrite (run_bind_return _ _ _ _ _ Hr).
    assert (Ho1 : instances w1 !! self = Some (set_executions ex o)).
    { rewrite Hi. eapply lookup_insert_self; eassumption. }
    rewrite (run_bind_return _ _ _ _ _ (run_get_self _ _ _ Ho1)).
    cbn [stages set_executions with_state].
    rewrite (bool_decide_eq_true_2 _ Hp).
    rewrite bool_decide_eq_false_2 by lia. reflexivity.
  - rewrite Hi. apply tuning_insert_executions. exact Ho.
  - exact Hk.
Qed.

(** ** The cached selection *)

Lemma run_set_problem_size n ps w me :
  nodes w !! n = Some me ->
  set_problem_size n ps w =
  (set_nodes
     (<[n := set_problem_sizes
               (<[ps := (dd_get 0 ps (problem_sizes me)).1 + 1]>
                  (dd_get 0 ps (problem_sizes me)).2)
               (set_current_problem_size (Some ps) me)]> (nodes w)) w,
   Return tt).
Proof.
  intros Hn. unfold set_problem_size.
  rewrite (run_bind_return _ _ _ _ _ (run_get_node _ _ _ Hn)).
  destruct (dd_get 0 ps (problem_sizes me)). reflexivity.
Qed.

Lemma set_best_method_id o : set_best_method (best_method o) o = o.
Proof. destruct o; reflexivity. Qed.

Lemma set_best_pipeline_id o : set_best_pipeline (best_pipeline o) o = o.
Proof. destruct o; reflexivity. Qed.

Lemma dd_get_present `{Countable K} {V} (dflt v : V) (k : K) (d : gmap K V) :
  d !! k = Some v -> dd_get dflt k d = (v, d).
Proof. intros E. unfold dd_get. rewrite E. reflexivity. Qed.

Lemma dd_get_peek `{Countable K} {V} (dflt : V) (k : K) (d : gmap K V) :
  (dd_get dflt k d).1 = dd_peek dflt k d.
Proof. unfold dd_get, dd_peek. destruct (d !! k); reflexivity. Qed.

Lemma dd_peek_get `{Countable K} {V} (dflt : V) (k k' : K) (d : gmap K V) :
  dd_peek dflt k' (dd_get dflt k d).2 = dd_peek dflt k' d.
Proof.
  unfold dd_get, dd_peek. destruct (d !! k) eqn:E; [reflexivity|]. cbn.
  destruct (decide (k = k')) as [->|Hne].
  - rewrite lookup_insert_eq, E. reflexivity.
  - rewrite lookup_insert_ne by exact Hne. reflexivity.
Qed.

Lemma read_best_cached ps o impl :
  cached o ps = Some impl -> read_best ps o = (o, Return (Some impl)).
Proof.
  unfold cached, read_best, dd_peek, dd_get. intros Hc.
  destruct (bool_decide (stages o = 1)).
  - destruct (best_method o !! ps) as [v|]; [|discriminate].
    cbn in Hc. subst v. rewrite set_best_method_id. reflexivity.
  - destruct (best_pipeline o !! ps) as [v|]; [|discriminate].
    cbn in Hc. subst v. rewrite set_best_pipeline_id. reflexivity.
Qed.

Lemma cached_set_executions ex o ps :
  cached (set_executions ex o) ps = cached o ps.
Proof. reflexivity. Qed.

Lemma before_cached self eid stage_arg args w o impl c :
  _use_first_alternative w = false ->
  instances w !! self = Some o ->
  is_Some (nodes w !! current_root w) ->
  (forall n, _executions o !! eid = Some n -> node_ok w n) ->
  stage_of o stage_arg < stages o ->
  cached o (get_problem_size o args) = Some impl ->
  callable_of (stages o) impl (stage_of o stage_arg) = Return c ->
  exists w1,
    before_alternative self eid stage_arg args w
      = (w1, Return (stage_of o stage_arg, Direct c)) /\
    tuning <$> instances w1 = tuning <$> instances w /\
    stdout w1 = stdout w /\
    _current_parents w1 = _current_parents w /\
    _use_first_alternative w1 = false.
Proof.
  intros Hu Ho Hroot Hreg Hst Hca Hc.
  destruct (register_cases self eid w o Ho Hroot)
    as (w1 & n & ex & Hr & Hi & Hu1 & Hp1 & Hs1 & _ & Hok).
  destruct (Hok Hreg) as (me & p & pn & Hme & _ & _).
  assert (Ho1 : instances w1 !! self = Some (set_executions ex o)).
  { rewrite Hi. eapply lookup_insert_self; eassumption. }
  eexists. split; [|split; [|split; [|split]]].
  - unfold before_alternative. rewrite (run_bind_return _ _ _ _ _ Hr).
    rewrite (run_bind_return _ _ _ _ _ (run_get_self _ _ _ Ho1)).
    cbn [stages set_executions with_state alternatives get_problem_size].
    fold (stage_of o stage_arg).
    rewrite bool_decide_eq_true_2 by exact Hst. cbn [negb].
    st_red. rewrite Hu1, Hu. st_red.
    rewrite (run_set_problem_size _ _ _ _ Hme). cbn beta iota.
    rewrite run_on_self with (o := set_executions ex o) by exact Ho1.
    rewrite (read_best_cached _ (set_executions ex o) impl) by exact Hca.
    cbn beta iota. cbn [fst snd]. rewrite Hc. reflexivity.
  - cbn. rewrite list_insert_id by exact Ho1. rewrite Hi.
    apply tuning_insert_executions. exact Ho.
  - cbn. exact Hs1.
  - cbn. exact Hp1.
  - cbn. rewrite Hu1. exact Hu.
Qed.

(** C5: when a selection is cached for the problem size of a call (and the
    override is off), the call records the problem size on its node, runs
    the cached alternative (its callable of the current stage in pipeline
    mode) and returns that alternative's result and final state.  The state
    the alternative starts from has the learned state of every [BestOf]
    (cursors, rounds, samples, stage buffers, selections) as it was before
    the call; nothing is dispatched for evaluation and no parent is on the
    stack. *)
Theorem cached_selection_is_fast_path self eid stage_arg args w o impl c :
  _use_first_alternative w = false ->
  instances w !! self = Some o ->
  is_Some (nodes w !! current_root w) ->
  (forall n, _executions o !! eid = Some n -> node_ok w n) ->
  stage_of o stage_arg < stages o ->
  cached o (get_problem_size o args) = Some impl ->
  callable_of (stages o) impl (stage_of o stage_arg) = Return c ->
  exists w1,
    call invoke self eid stage_arg args w =
      ((invoke c args w1).1, output_of (invoke c args w1).2) /\
    tuning <$> instances w1 = tuning <$> instances w /\
    stdout w1 = stdout w /\
    _current_parents w1 = _current_parents w.
Proof.
  intros Hu Ho Hroot Hreg Hst Hca Hc.
  destruct (before_cached self eid stage_arg args w o impl c
              Hu Ho Hroot Hreg Hst Hca Hc) as (w1 & Hb & Ht & Hs & Hp & _).
  exists w1. repeat split; try assumption.
  apply call_direct with (stage := stage_of o stage_arg). exact Hb.
Qed.

(** ** After the alternative: a blocked node *)

Lemma run_pop_parent w :
  _current_parents w <> [] ->
  pop_parent w =
  (set_current_parents (removelast (_current_parents w)) w, Return tt).
Proof.
  intros Hne. unfold pop_parent. st_red.
  destruct (_current_parents w); [congruence | reflexivity].
Qed.

Lemma run_is_blocked cur w me :
  nodes w !! cur = Some me ->
  is_blocked cur w =
  (set_nodes
     (<[cur := set_blocked_by
                 (dd_get ∅ (_current_problem_size me) (_blocked_by me)).2 me]>
        (nodes w)) w,
   Return (blocked me)).
Proof.
  intros Hn. unfold is_blocked.
  rewrite (run_bind_return _ _ _ _ _ (run_get_node _ _ _ Hn)).
  destruct (dd_get ∅ (_current_problem_size me) (_blocked_by me)).
  reflexivity.
Qed.

Lemma call_evaluate self eid stage_arg args w w1 w2 stage cur ps ca c out t :
  before_alternative self eid stage_arg args w
    = (w1, Return (stage, Evaluate cur ps ca c)) ->
  invoke c args w1 = (w2, Return (out, t)) ->
  call invoke self eid stage_arg args w =
  match after_alternative self cur ps ca stage t w2 with
  | (w3, Return _) => (w3, Return out)
  | (w3, Raise e) => (w3, Raise e)
  end.
Proof.
  intros Hb Hi. unfold call. rewrite (run_bind_return _ _ _ _ _ Hb).
  cbn beta iota. rewrite (run_bind_return _ _ _ _ _ Hi). cbn beta iota.
  rewrite run_bind.
  destruct (after_alternative self cur ps ca stage t w2) as [w3 [[]|e]];
    reflexivity.
Qed.

Lemma after_blocked self cur ps ca stage t w me :
  _current_parents w <> [] ->
  nodes w !! cur = Some me ->
  blocked me = true ->
  exists w3,
    after_alternative self cur ps ca stage t w = (w3, Return tt) /\
    instances w3 = instances w /\
    stdout w3 = stdout w /\
    _current_parents w3 = removelast (_current_parents w).
Proof.
  intros Hne Hn Hb. unfold after_alternative.
  rewrite (run_bind_return _ _ _ _ _ (run_pop_parent _ Hne)).
  rewrite run_bind, (run_is_blocked cur _ me) by exact Hn.
  rewrite Hb. eexists. split; [reflexivity|]. repeat split.
Qed.


(** ** Relational reasoning on computations *)

Section Rel.
Context {S : Type} (R : S -> S -> Prop).
Hypothesis R_refl : forall s, R s s.
Hypothesis R_trans : forall s1 s2 s3, R s1 s2 -> R s2 s3 -> R s1 s3.

Lemma st_rel_bind {A B} (m : St S A) (k : A -> St S B) :
  st_rel R m -> (forall a, st_rel R (k a)) -> st_rel R (m ≫= k).
Proof.
  intros Hm Hk s s' r. rewrite run_bind.
  destruct (m s) as [s1 [a|e]] eqn:E; intros Hr.
  - eapply R_trans; [eapply Hm; exact E | eapply Hk; exact Hr].
  - inversion Hr; subst. eapply Hm; exact E.
Qed.

Lemma st_rel_ret {A} (a : A) : st_rel R (mret a).
Proof. intros s s' r Hr. inversion Hr; subst. apply R_refl. Qed.

Lemma st_rel_raise {A} e : st_rel R (raise (A := A) e).
Proof. intros s s' r Hr. inversion Hr; subst. apply R_refl. Qed.

Lemma st_rel_get : st_rel R get.
Proof. intros s s' r Hr. inversion Hr; subst. apply R_refl. Qed.

Lemma st_rel_of_option {A} (x : option A) e : st_rel R (of_option x e).
Proof. destruct x; [apply st_rel_ret | apply st_rel_raise]. Qed.

Lemma st_rel_of_result {A} (x : Result A) : st_rel R (of_result x).
Proof. intros s s' r Hr. inversion Hr; subst. apply R_refl. Qed.

Lemma st_rel_modify (f : S -> S) : (forall s, R s (f s)) -> st_rel R (modify f).
Proof. intros Hf s s' r Hr. inversion Hr; subst. apply Hf. Qed.
End Rel.

Lemma keeps_selection_refl o : keeps_selection o o.
Proof. repeat split. Qed.

Lemma keeps_selection_trans o1 o2 o3 :
  keeps_selection o1 o2 -> keeps_selection o2 o3 -> keeps_selection o1 o3.
Proof.
  intros (A1 & B1 & C1) (A2 & B2 & C2).
  repeat split; congruence.
Qed.

(** Closes [st_rel R m] for a computation built from the primitives;
    [leaf] is tried first on every step. *)
Ltac st_rel_core leaf Hrefl Htrans :=
  repeat first
    [ leaf
    | apply (st_rel_bind _ Htrans); [|intros ?]
    | apply (st_rel_ret _ Hrefl)
    | apply (st_rel_raise _ Hrefl)
    | apply (st_rel_get _ Hrefl)
    | apply (st_rel_of_option _ Hrefl)
    | apply (st_rel_of_result _ Hrefl)
    | apply st_rel_modify; intros ?
    | match goal with
      | |- st_rel _ (if ?b then _ else _) => destruct b
      | |- st_rel _ (match ?x with _ => _ end) => destruct x
      end ].

Ltac st_rel_steps Hrefl Htrans := st_rel_core ltac:(fail) Hrefl Htrans.

Lemma read_dd_keeps ps :
  st_rel (S := BestOf') keeps_selection (read_current_round ps) /\
  st_rel (S := BestOf') keeps_selection (read_current_alternative ps) /\
  st_rel (S := BestOf') keeps_selection (read_times ps) /\
  st_rel (S := BestOf') keeps_selection (read_stages_times ps).
Proof.
  split; [|split; [|split]]; intros o o' r;
    unfold read_current_round, read_current_alternative, read_times,
      read_stages_times;
    match goal with |- context [dd_get ?d ?k ?m] => destruct (dd_get d k m) end;
    intros Hr; inversion Hr; subst; repeat split.
Qed.

Lemma times_append_keeps ps ca x :
  st_rel (S := BestOf') keeps_selection (times_append ps ca x).
Proof.
  unfold times_append.
  st_rel_steps keeps_selection_refl keeps_selection_trans;
    try apply read_dd_keeps; repeat split.
Qed.

Lemma stages_times_store_keeps ps ca buf :
  st_rel (S := BestOf') keeps_selection (stages_times_store ps ca buf).
Proof.
  unfold stages_times_store.
  st_rel_steps keeps_selection_refl keeps_selection_trans;
    try apply read_dd_keeps; repeat split.
Qed.

Lemma stages_times_load_keeps ps ca :
  st_rel (S := BestOf') keeps_selection (stages_times_load ps ca).
Proof.
  unfold stages_times_load.
  st_rel_steps keeps_selection_refl keeps_selection_trans;
    try apply read_dd_keeps; repeat split.
Qed.

Lemma record_sample_keeps ps ca stage t :
  st_rel (S := BestOf') keeps_selection (record_sample ps ca stage t).
Proof.
  unfold record_sample.
  st_rel_steps keeps_selection_refl keeps_selection_trans;
    first [ apply read_dd_keeps | apply times_append_keeps
          | apply stages_times_store_keeps | apply stages_times_load_keeps
          | repeat split ].
Qed.

Lemma commit_keeps ps ca r : st_rel (S := BestOf') keeps_selection (commit ps ca r).
Proof.
  unfold commit.
  st_rel_steps keeps_selection_refl keeps_selection_trans; repeat split.
Qed.

Lemma keeps_selection_cached o o' ps :
  keeps_selection o o' -> cached o' ps = cached o ps.
Proof.
  intros (Hc & Hs & _). unfold cached.
  injection Hc as _ _ _ _ -> _ _ _. injection Hs as _ _ -> ->. reflexivity.
Qed.

Lemma run_read_times ps o :
  read_times ps o =
  (set_times (dd_get (_times_arrays o) ps (_times o)).2 o,
   Return (dd_get (_times_arrays o) ps (_times o)).1).
Proof. unfold read_times. destruct (dd_get _ _ _). reflexivity. Qed.

(** What [select_best] does to the cached selection: it sets one exactly
    when it reports a selection. *)
Lemma select_best_cached ps ca r o o' ca' sel :
  select_best ps ca r o = (o', Return (ca', sel)) ->
  config o' = config o /\
  _executions o' = _executions o /\
  (sel = true -> is_Some (cached o' ps)) /\
  (sel = false -> selection o' = selection o).
Proof.
  unfold select_best. st_red.
  destruct (bool_decide (ca = 0) && _); [|intros Hr; inversion Hr; subst; easy].
  rewrite run_read_times. cbn beta iota.
  set (o1 := set_times _ o). set (ts := (dd_get _ _ _).1).
  destruct (Float.min_ (Float.median <$> ts)) as [min_time|];
    [|intros Hr; inversion Hr].
  st_red.
  destruct (bool_decide (r = total_rounds o) || _).
  - destruct (Float.index_of min_time (Float.median <$> ts)) as [idx|];
      [|intros Hr; inversion Hr].
    st_red.
    destruct (Py.index (alternatives o) (Z.of_nat idx)) as [a|];
      [|intros Hr; inversion Hr].
    st_red.
    destruct (bool_decide (stages o = 1)) eqn:Es;
      intros Hr; inversion Hr; subst; cbn;
      (split; [reflexivity|]); (split; [reflexivity|]);
      (split; [|discriminate]); intros _;
      unfold cached, dd_peek; cbn; rewrite Es, lookup_insert_eq; eexists;
      reflexivity.
  - intros Hr; inversion Hr; subst. cbn. repeat split. discriminate.
Qed.

(** ** Marks on the parent *)

Lemma on_self_frame {A} self (m : St BestOf' A) w w' r :
  on_self self m w = (w', r) ->
  nodes w' = nodes w /\ _current_parents w' = _current_parents w /\
  _use_first_alternative w' = _use_first_alternative w /\
  stdout w' = stdout w.
Proof.
  unfold on_self. destruct (instances w !! self) as [o|].
  - destruct (m o). intros Hr; inversion Hr; subst. repeat split.
  - intros Hr; inversion Hr; subst. repeat split.
Qed.

Lemma marks_parent_nodes w w' n :
  nodes w' = nodes w -> marks_parent w' n = marks_parent w n.
Proof. intros E. unfold marks_parent. rewrite E. reflexivity. Qed.

Lemma has_parent_nodes w w' n :
  nodes w' = nodes w -> has_parent w' n = has_parent w n.
Proof. intros E. unfold has_parent. rewrite E. reflexivity. Qed.

(** Replacing a node by one with the same parent, the same current problem
    size and the same marks changes no mark. *)
Lemma marks_parent_insert w w' k x x' n :
  nodes w !! k = Some x ->
  nodes w' = <[k := x']> (nodes w) ->
  parent x' = parent x ->
  _current_problem_size x' = _current_problem_size x ->
  (forall key, dd_peek ∅ key (_blocked_by x') = dd_peek ∅ key (_blocked_by x)) ->
  marks_parent w' n = marks_parent w n.
Proof.
  intros Hk Hn Hp Hc Hb. unfold marks_parent. rewrite Hn.
  assert (Hlt : (k < length (nodes w))%nat) by (eapply lookup_lt_Some; eauto).
  assert (Hl : forall j, exists y y',
             (nodes w !! j = None /\ <[k := x']> (nodes w) !! j = None) \/
             (nodes w !! j = Some y /\ <[k := x']> (nodes w) !! j = Some y' /\
              parent y' = parent y /\
              _current_problem_size y' = _current_problem_size y /\
              forall key, dd_peek ∅ key (_blocked_by y')
                          = dd_peek ∅ key (_blocked_by y))).
  { intros j. destruct (decide (j = k)) as [->|Hne].
    - exists x, x'. right. rewrite list_lookup_insert_eq by exact Hlt. auto.
    - rewrite list_lookup_insert_ne by congruence.
      destruct (nodes w !! j) as [y|].
      + exists y, y. right. auto.
      + exists x, x. left. auto. }
  destruct (Hl n) as (y & y' & [[-> ->]|(-> & -> & Hp1 & _ & _)]);
    [reflexivity|].
  rewrite Hp1. destruct (parent y) as [p|]; [|reflexivity].
  destruct (Hl p) as (z & z' & [[-> ->]|(-> & -> & Hp2 & Hc2 & Hb2)]);
    [reflexivity|].
  unfold _is_root. rewrite Hp2, Hc2, Hb2. reflexivity.
Qed.

Lemma is_blocked_frame cur w w' r n :
  is_blocked cur w = (w', r) ->
  marks_parent w' n = marks_parent w n /\
  instances w' = instances w /\
  _current_parents w' = _current_parents w /\
  stdout w' = stdout w /\
  _use_first_alternative w' = _use_first_alternative w.
Proof.
  destruct (nodes w !! cur) as [me|] eqn:Hme.
  - rewrite (run_is_blocked _ _ _ Hme). intros Hr; inversion Hr; subst.
    split; [|repeat split].
    eapply marks_parent_insert; [exact Hme|reflexivity|reflexivity|reflexivity|].
    intros key. cbn. apply dd_peek_get.
  - unfold is_blocked, get_node. st_red. rewrite Hme.
    intros Hr; inversion Hr; subst. repeat split.
Qed.

Lemma unblock_parent_unmarks cur w w' :
  unblock_parent cur w = (w', Return tt) ->
  marks_parent w' cur = false /\
  instances w' = instances w /\
  _current_parents w' = _current_parents w /\
  stdout w' = stdout w.
Proof.
  unfold unblock_parent, get_node. st_red.
  destruct (nodes w !! cur) as [me|] eqn:Hme; [|intros Hr; inversion Hr].
  destruct (parent me) as [p|] eqn:Hp; [|intros Hr; inversion Hr].
  st_red.
  destruct (nodes w !! p) as [pn|] eqn:Hpn; [|intros Hr; inversion Hr].
  destruct (_is_root pn) eqn:Hroot.
  - intros Hr; inversion Hr; subst. split; [|repeat split].
    unfold marks_parent. rewrite Hme, Hp, Hpn, Hroot. reflexivity.
  - destruct (dd_get ∅ (_current_problem_size pn) (_blocked_by pn))
      as [inner bb].
    unfold put_node, modify. intros Hr; inversion Hr; subst.
    split; [|repeat split].
    assert (Hlt : (p < length (nodes w))%nat) by (eapply lookup_lt_Some; eauto).
    unfold marks_parent. cbn [nodes set_nodes].
    assert (Hcur : exists y, <[p := set_blocked_by
              (<[_current_problem_size pn := delete cur inner]> bb) pn]>
              (nodes w) !! cur = Some y /\ parent y = Some p).
    { destruct (decide (cur = p)) as [->|Hne].
      - rewrite list_lookup_insert_eq by exact Hlt. eexists. split; [reflexivity|].
        cbn. congruence.
      - rewrite list_lookup_insert_ne by congruence. eauto. }
    destruct Hcur as (y & -> & ->).
    rewrite list_lookup_insert_eq by exact Hlt.
    cbn. unfold dd_peek. rewrite lookup_insert_eq. cbn.
    rewrite lookup_delete_eq. rewrite bool_decide_eq_false_2 by discriminate.
    apply andb_false_r.
Qed.

Lemma block_parent_marks cur w w' :
  block_parent cur w = (w', Return tt) ->
  (has_parent w' cur = true -> marks_parent w' cur = true) /\
  instances w' = instances w /\
  _current_parents w' = _current_parents w /\
  stdout w' = stdout w.
Proof.
  unfold block_parent, get_node. st_red.
  destruct (nodes w !! cur) as [me|] eqn:Hme; [|intros Hr; inversion Hr].
  destruct (parent me) as [p|] eqn:Hp; [|intros Hr; inversion Hr].
  st_red.
  destruct (nodes w !! p) as [pn|] eqn:Hpn; [|intros Hr; inversion Hr].
  destruct (_is_root pn) eqn:Hroot.
  - intros Hr; inversion Hr; subst. split; [|repeat split].
    unfold has_parent. rewrite Hme, Hp, Hpn, Hroot. discriminate.
  - destruct (dd_get ∅ (_current_problem_size pn) (_blocked_by pn))
      as [inner bb].
    unfold put_node, modify. intros Hr; inversion Hr; subst.
    split; [|repeat split]. intros _.
    assert (Hlt : (p < length (nodes w))%nat) by (eapply lookup_lt_Some; eauto).
    unfold marks_parent. cbn [nodes set_nodes].
    assert (Hcur : exists y, <[p := set_blocked_by
              (<[_current_problem_size pn := <[cur := true]> inner]> bb) pn]>
              (nodes w) !! cur = Some y /\ parent y = Some p).
    { destruct (decide (cur = p)) as [->|Hne].
      - rewrite list_lookup_insert_eq by exact Hlt. eexists. split; [reflexivity|].
        cbn. congruence.
      - rewrite list_lookup_insert_ne by congruence. eauto. }
    destruct Hcur as (y & -> & ->).
    rewrite list_lookup_insert_eq by exact Hlt.
    cbn. unfold dd_peek. rewrite lookup_insert_eq. cbn.
    rewrite lookup_insert_eq. rewrite bool_decide_eq_true_2 by reflexivity.
    unfold _is_root in *. cbn [parent set_blocked_by]. rewrite Hroot.
    reflexivity.
Qed.

Lemma pop_parent_frame w w' r :
  pop_parent w = (w', r) ->
  nodes w' = nodes w /\ instances w' = instances w /\ stdout w' = stdout w.
Proof.
  unfold pop_parent. st_red. destruct (_current_parents w);
    intros Hr; inversion Hr; subst; repeat split.
Qed.

Lemma run_commit ps ca r o :
  commit ps ca r o = ((commit ps ca r o).1, Return tt).
Proof. reflexivity. Qed.

(** After the alternative: the mark on the parent goes exactly when the
    call caches a selection. *)
Lemma after_alternative_mark self cur ps ca stage t w2 w3 o2 :
  after_alternative self cur ps ca stage t w2 = (w3, Return tt) ->
  marks_parent w2 cur = true ->
  instances w2 !! self = Some o2 ->
  cached o2 ps = None ->
  exists o3,
    instances w3 !! self = Some o3 /\
    marks_parent w3 cur = negb (bool_decide (is_Some (cached o3 ps))).
Proof.
  intros Hrun Hm Ho Hc. unfold after_alternative in Hrun.
  rewrite run_bind in Hrun.
  destruct (pop_parent w2) as [wa [[]|e]] eqn:Epop; [|inversion Hrun].
  apply pop_parent_frame in Epop as (Hna & Hia & _).
  rewrite run_bind in Hrun.
  destruct (is_blocked cur wa) as [wb [b|e]] eqn:Eb; [|inversion Hrun].
  apply (is_blocked_frame _ _ _ _ cur) in Eb as (Hmb & Hib & _).
  assert (Hmb' : marks_parent wb cur = true).
  { rewrite Hmb, (marks_parent_nodes _ _ _ Hna). exact Hm. }
  assert (Hob : instances wb !! self = Some o2) by (rewrite Hib, Hia; exact Ho).
  destruct b.
  - inversion Hrun; subst. exists o2. split; [exact Hob|].
    rewrite Hmb', Hc. reflexivity.
  - rewrite run_bind, (run_on_self _ _ _ _ Hob) in Hrun.
    destruct (record_sample ps ca stage t o2) as [oc [[ca1 r1]|e]] eqn:Erec;
      [|inversion Hrun].
    cbn [fst snd] in Hrun.
    pose proof (record_sample_keeps _ _ _ _ _ _ _ Erec) as Hkc.
    set (wc := set_instances (<[self := oc]> (instances wb)) wb) in Hrun.
    assert (Hoc : instances wc !! self = Some oc).
    { cbn. eapply lookup_insert_self; exact Hob. }
    rewrite run_bind, (run_on_self _ _ _ _ Hoc) in Hrun.
    destruct (select_best ps ca1 r1 oc) as [od [[ca2 sel]|e]] eqn:Esel;
      [|inversion Hrun].
    cbn [fst snd] in Hrun.
    apply select_best_cached in Esel as (Hcfg & Hex & Hsel1 & Hsel0).
    set (wd := set_instances (<[self := od]> (instances wc)) wc) in Hrun.
    assert (Hod : instances wd !! self = Some od).
    { cbn. eapply lookup_insert_self; exact Hoc. }
    rewrite run_bind in Hrun.
    destruct sel.
    + destruct (unblock_parent cur wd) as [we [[]|e]] eqn:Eu; [|inversion Hrun].
      apply unblock_parent_unmarks in Eu as (Hme & Hie & _).
      assert (Hoe : instances we !! self = Some od) by (rewrite Hie; exact Hod).
      rewrite (run_on_self _ _ _ _ Hoe) in Hrun. inversion Hrun; subst.
      eexists. split; [cbn; eapply lookup_insert_self; exact Hoe|].
      rewrite (marks_parent_nodes we) by reflexivity. rewrite Hme.
      rewrite (keeps_selection_cached od).
      * destruct (Hsel1 eq_refl) as [impl ->]. reflexivity.
      * eapply commit_keeps. apply run_commit.
    + st_red. rewrite (run_on_self _ _ _ _ Hod) in Hrun.
      inversion Hrun; subst.
      eexists. split; [cbn; eapply lookup_insert_self; exact Hod|].
      rewrite (marks_parent_nodes wb) by reflexivity. rewrite Hmb'.
      rewrite (keeps_selection_cached od) by (eapply commit_keeps, run_commit).
      rewrite (keeps_selection_cached oc) by (repeat split; auto).
      rewrite (keeps_selection_cached o2) by exact Hkc.
      rewrite Hc. reflexivity.
Qed.

(** On the way to an evaluation, [block_parent] has run, and nothing after
    it touches the nodes. *)
Lemma before_evaluate_blocks self eid stage_arg args w w1 stage cur ps ca c :
  before_alternative self eid stage_arg args w
    = (w1, Return (stage, Evaluate cur ps ca c)) ->
  exists wa wb : World',
    block_parent cur wa = (wb, Return tt) /\ nodes w1 = nodes wb.
Proof.
  unfold before_alternative. rewrite run_bind.
  destruct (_register self eid w) as [wr [n|e]]; [|intros Hr; inversion Hr].
  rewrite run_bind. unfold get_self at 1.
  destruct (instances wr !! self) as [o|]; [|intros Hr; inversion Hr].
  destruct (negb _); [intros Hr; inversion Hr|].
  st_red. destruct (_use_first_alternative wr).
  { destruct (Py.index (alternatives o) 0); [|intros Hr; inversion Hr].
    st_red. destruct (callable_of _ _ _); intros Hr; inversion Hr. }
  destruct (set_problem_size n (get_problem_size o args) wr)
    as [ws [[]|e]]; [|intros Hr; inversion Hr].
  destruct (on_self self (read_best (get_problem_size o args)) ws)
    as [wt [[impl|]|e]]; [| |intros Hr; inversion Hr].
  { st_red. destruct (callable_of _ _ _); intros Hr; inversion Hr. }
  destruct (block_parent n wt) as [wb [[]|e]] eqn:Eb; [|intros Hr; inversion Hr].
  destruct (on_self self _ wb) as [wc [ca0|e]] eqn:Ec;
    [|intros Hr; inversion Hr].
  apply on_self_frame in Ec as (Hnc & _).
  destruct (Py.index (alternatives o) ca0); [|intros Hr; inversion Hr].
  st_red. destruct (callable_of _ _ _); intros Hr; inversion Hr; subst.
  exists wt, wb. split; [exact Eb|]. cbn. exact Hnc.
Qed.

(** C7 (amended): in a call that evaluates an alternative, if the call's
    node has a parent other than the root, the node is marked as blocking
    that parent (under the parent's current problem size) in the state the
    alternative starts from.  When the alternative has returned with the
    mark in place and no selection cached for the problem size, the call
    removes the mark if and only if it caches a selection; otherwise the
    parent is still marked when the call returns. *)
Theorem block_is_kept_until_selection
    self eid stage_arg args w w1 w2 w3 stage cur ps ca c out t o2 :
  before_alternative self eid stage_arg args w
    = (w1, Return (stage, Evaluate cur ps ca c)) ->
  invoke c args w1 = (w2, Return (out, t)) ->
  call invoke self eid stage_arg args w = (w3, Return out) ->
  has_parent w1 cur = true ->
  marks_parent w2 cur = true ->
  instances w2 !! self = Some o2 ->
  cached o2 ps = None ->
  marks_parent w1 cur = true /\
  exists o3,
    instances w3 !! self = Some o3 /\
    marks_parent w3 cur = negb (bool_decide (is_Some (cached o3 ps))).
Proof.
  intros Hb Hi Hcall Hp Hm Ho Hc. split.
  - destruct (before_evaluate_blocks _ _ _ _ _ _ _ _ _ _ _ Hb)
      as (wa & wb & Hbp & Hn).
    apply block_parent_marks in Hbp as (Hmark & _).
    rewrite (marks_parent_nodes wb) by exact Hn. apply Hmark.
    rewrite <- (has_parent_nodes wb w1) by exact Hn. exact Hp.
  - rewrite (call_evaluate _ _ _ _ _ _ _ _ _ _ _ _ _ _ Hb Hi) in Hcall.
    destruct (after_alternative self cur ps ca stage t w2) as [w3' [[]|e]] eqn:Ea;
      inversion Hcall; subst.
    eapply after_alternative_mark; eassumption.
Qed.

(** ** Medians, minimum and first index *)

Lemma insert_sorted_length x l :
  length (Float.insert_sorted x l) = S (length l).
Proof.
  induction l as [|y l IH]; [reflexivity|]. cbn.
  destruct (Qle_bool x y); cbn; [reflexivity|]. rewrite IH. reflexivity.
Qed.

Lemma sort_length l : length (Float.sort l) = length l.
Proof.
  induction l as [|x l IH]; [reflexivity|]. cbn.
  change (foldr Float.insert_sorted [] l) with (Float.sort l).
  rewrite insert_sorted_length, IH. reflexivity.
Qed.

Lemma median_is_Some l : l <> [] -> is_Some (Float.median l).
Proof.
  intros Hne. unfold Float.median.
  pose proof (sort_length l) as Hl.
  destruct (length (Float.sort l)) as [|n] eqn:En.
  { destruct l; [congruence|discriminate]. }
  assert (Hdiv : (S n / 2 < S n)%nat) by (apply Nat.div_lt; lia).
  destruct (lookup_lt_is_Some_2 (Float.sort l) (S n / 2)%nat) as [b Hb];
    [lia|].
  destruct (lookup_lt_is_Some_2 (Float.sort l) (S n / 2 - 1)%nat) as [a Ha];
    [lia|].
  rewrite Ha, Hb. destruct (Nat.even (S n)); eauto.
Qed.

Lemma min_fold_spec (l : list Q) (x : Q) :
  exists m,
    foldl (fun m y => if Float.lt y m then y else m) (Some x) (Some <$> l)
      = Some m /\
    (m = x \/ m ∈ l) /\ (m <= x)%Q /\ (forall y, y ∈ l -> (m <= y)%Q).
Proof.
  revert x. induction l as [|y l IH]; intros x.
  - exists x. cbn. split; [reflexivity|]. split; [auto|].
    split; [apply Qle_refl|]. intros y Hy. inversion Hy.
  - cbn. destruct (Qle_bool x y) eqn:E; cbn.
    + apply Qle_bool_iff in E.
      destruct (IH x) as (m & Hm & Hin & Hx & Hall).
      exists m. split; [exact Hm|]. split.
      * destruct Hin; [auto|right; right; assumption].
      * split; [exact Hx|]. intros z Hz. inversion Hz; subst; [|auto].
        eapply Qle_trans; eassumption.
    + assert (Hlt : (y < x)%Q).
      { apply Qnot_le_lt. intros Hle. apply Qle_bool_iff in Hle. congruence. }
      destruct (IH y) as (m & Hm & Hin & Hy & Hall).
      exists m. split; [exact Hm|]. split.
      * right. destruct Hin as [->|Hin]; [left|right; assumption].
      * split.
        -- eapply Qle_trans; [exact Hy|]. apply Qlt_le_weak. exact Hlt.
        -- intros z Hz. inversion Hz; subst; auto.
Qed.

Lemma all_Some_fmap (meds : list Float.t) :
  Forall is_Some meds -> exists l : list Q, meds = Some <$> l.
Proof.
  induction 1 as [|x meds [q ->] _ [l ->]].
  - exists []. reflexivity.
  - exists (q :: l). reflexivity.
Qed.

Lemma lookup_fmap_Some (l : list Q) j m :
  (Some <$> l) !! j = Some (Some m) <-> l !! j = Some m.
Proof.
  rewrite list_lookup_fmap. destruct (l !! j); cbn; split; congruence.
Qed.

Lemma min_spec (meds : list Float.t) :
  Forall is_Some meds -> meds <> [] ->
  exists m, Float.min_ meds = Some (Some m) /\ is_smallest m meds.
Proof.
  intros Hall Hne. destruct (all_Some_fmap _ Hall) as [l ->].
  destruct l as [|x l]; [exfalso; apply Hne; reflexivity|]. cbn.
  destruct (min_fold_spec l x) as (m & Hm & Hin & Hx & Hl).
  exists m. rewrite Hm. split; [reflexivity|]. split.
  - destruct Hin as [->|Hin]; [exists 0%nat; reflexivity|].
    apply list_elem_of_lookup in Hin as [j Hj]. exists (S j).
    apply (lookup_fmap_Some l j m). exact Hj.
  - intros [|j] mj.
    + intros [= <-]. exact Hx.
    + intros Hj. apply (lookup_fmap_Some l j mj) in Hj.
      apply Hl. eapply list_elem_of_lookup_2; eassumption.
Qed.

Lemma index_of_spec (m : Q) (meds : list Float.t) :
  (exists j, meds !! j = Some (Some m)) ->
  exists idx mi,
    Float.index_of (Some m) meds = Some idx /\
    meds !! idx = Some (Some mi) /\ (mi == m)%Q /\
    forall j mj, (j < idx)%nat -> meds !! j = Some (Some mj) -> ~ (mj == m)%Q.
Proof.
  induction meds as [|x meds IH]; intros [j Hj]; [destruct j; discriminate|].
  cbn. destruct (Float.eqb x (Some m)) eqn:E.
  - destruct x as [q|]; [|discriminate]. cbn in E. apply Qeq_bool_iff in E.
    exists 0%nat, q. repeat split; auto. intros; lia.
  - destruct j as [|j].
    { cbn in Hj. injection Hj as ->. cbn in E.
      rewrite (proj2 (Qeq_bool_iff m m)) in E by reflexivity. discriminate. }
    destruct (IH (ex_intro _ j Hj)) as (idx & mi & Hi & Hl & Heq & Hlt).
    exists (S idx), mi. rewrite Hi. repeat split; auto.
    intros [|k] mk Hk; cbn.
    + intros [= ->]. cbn in E. intros Hq. apply Qeq_bool_iff in Hq. congruence.
    + apply Hlt. lia.
Qed.

Lemma filter_none (f : Float.t -> bool) (l : list Float.t) :
  (forall j x, l !! j = Some x -> f x = false) ->
  filter (fun x => f x = true) l = [].
Proof.
  induction l as [|y l IH]; intros Hl; [reflexivity|].
  rewrite filter_cons_False.
  - apply IH. intros j x Hj. apply (Hl (S j)). exact Hj.
  - rewrite (Hl 0%nat y) by reflexivity. discriminate.
Qed.

Lemma filter_one (f : Float.t -> bool) (l : list Float.t) j x :
  l !! j = Some x -> f x = true ->
  (forall j' x', l !! j' = Some x' -> f x' = true -> j' = j) ->
  length (filter (fun x => f x = true) l) = 1%nat.
Proof.
  revert j. induction l as [|y l IH]; intros j Hj Hx Huniq.
  { destruct j; discriminate. }
  destruct j as [|j].
  - injection Hj as ->. rewrite filter_cons_True by exact Hx.
    rewrite filter_none; [reflexivity|].
    intros k z Hk. destruct (f z) eqn:E; [|reflexivity].
    specialize (Huniq (S k) z Hk E). discriminate.
  - rewrite filter_cons_False.
    + apply (IH j Hj Hx). intros j' x' Hj' Hx'.
      specialize (Huniq (S j') x' Hj' Hx'). congruence.
    + intros Hy. specialize (Huniq 0%nat y eq_refl Hy). discriminate.
Qed.

Lemma smallest_unique m m' meds :
  is_smallest m meds -> is_smallest m' meds -> (m == m')%Q.
Proof.
  intros [[j Hj] Hm] [[j' Hj'] Hm'].
  apply Qle_antisym; [eapply Hm | eapply Hm']; eassumption.
Qed.

(** Equal numbers round to the same float. *)
Lemma round_eq (x y : Q) : (x == y)%Q -> Float.round x = Float.round y.
Proof.
  intros E. unfold Float.round. rewrite (Qred_complete _ _ E). reflexivity.
Qed.

Lemma le_limit_iff o (m m0 : Q) (x : Float.t) :
  (m == m0)%Q ->
  Float.le x (Float.mul (Some m0) (pruning_speedup o)) = true <->
  within_limit o m x.
Proof.
  intros Hm. unfold within_limit. destruct x as [q|]; cbn.
  - rewrite Qle_bool_iff.
    rewrite (round_eq (m0 * pruning_speedup o) (m * pruning_speedup o))
      by (rewrite Hm; reflexivity).
    split.
    + intros Hq. exists q. auto.
    + intros (q' & [= <-] & Hq). exact Hq.
  - split; [discriminate|]. intros (q & Hq & _). discriminate.
Qed.

Lemma Py_index_of_nat {A} (l : list A) (i : nat) :
  Py.index l (Z.of_nat i) = l !! i.
Proof.
  unfold Py.index. rewrite bool_decide_eq_true_2 by lia.
  rewrite Nat2Z.id. reflexivity.
Qed.

Lemma set_times_id o : set_times (_times o) o = o.
Proof. destruct o; reflexivity. Qed.

Lemma medians_defined (ts : list (list Q)) :
  Forall (fun s => s <> []) ts -> Forall is_Some (Float.median <$> ts).
Proof.
  intros Hts. apply Forall_fmap. eapply Forall_impl; [exact Hts|].
  intros s Hs. apply median_is_Some. exact Hs.
Qed.

(** ** The selection *)

(** C3: the decision of lines 360-380 is taken when the cursor just
    computed is 0 and the round just computed is at least
    [min(prune_after_round, rounds)]; otherwise nothing is selected and
    cursor and state stay as they are.  When it is taken on series that
    all hold a sample, and the round equals [rounds] or exactly one median
    is within [pruning_speedup] times the smallest, the selection is made:
    the selected index holds a smallest median, every earlier index holds
    a strictly larger one, and index, name and callable (or stage list) of
    that alternative are stored for the problem size. *)
Theorem selection_takes_smallest_median ps ca r o ts :
  (~ decision_due o ca r -> select_best ps ca r o = (o, Return (ca, false))) /\
  (decision_due o ca r ->
   _times o !! ps = Some ts ->
   ts <> [] ->
   Forall (fun s => s <> []) ts ->
   length (alternatives o) = length ts ->
   (r = total_rounds o \/
    exists m, is_smallest m (Float.median <$> ts) /\
              one_within_limit o m (Float.median <$> ts)) ->
   exists o' idx a mi,
     select_best ps ca r o = (o', Return (ca, true)) /\
     (Float.median <$> ts) !! idx = Some (Some mi) /\
     (forall j mj, (Float.median <$> ts) !! j = Some (Some mj) ->
                   (mi <= mj)%Q) /\
     (forall j mj, (j < idx)%nat ->
                   (Float.median <$> ts) !! j = Some (Some mj) ->
                   (mi < mj)%Q) /\
     alternatives o !! idx = Some a /\
     best_idx o' !! ps = Some (Z.of_nat idx) /\
     best_name o' !! ps = Some a.1 /\
     cached o' ps = Some a.2).
Proof.
  split.
  - intros Hnd. unfold select_best, decision_due in *. st_red.
    destruct (bool_decide (ca = 0)) eqn:E1; [|reflexivity].
    destruct (bool_decide (Z.min _ _ <= r)) eqn:E2; [|reflexivity].
    apply bool_decide_eq_true in E1, E2. tauto.
  - intros [Hca Hr] Hts Hne Hall Hlen Hcond.
    set (meds := Float.median <$> ts) in *.
    assert (Hsome : Forall is_Some meds) by (apply medians_defined; exact Hall).
    assert (Hmeds : meds <> []).
    { destruct ts; [congruence|discriminate]. }
    destruct (min_spec meds Hsome Hmeds) as (m0 & Hmin & Hsm).
    destruct (index_of_spec m0 meds (proj1 Hsm))
      as (idx & mi & Hidx & Hmi & Heq & Hfirst).
    assert (Hlt : (idx < length (alternatives o))%nat).
    { rewrite Hlen. apply lookup_lt_Some in Hmi.
      unfold meds in Hmi. rewrite length_fmap in Hmi. exact Hmi. }
    destruct (lookup_lt_is_Some_2 _ _ Hlt) as [a Ha].
    assert (Hgo : bool_decide (r = total_rounds o)
                  || bool_decide
                       (length (filter
                          (fun x => Float.le x
                             (Float.mul (Some m0) (pruning_speedup o)) = true)
                          meds) = 1%nat) = true).
    { destruct Hcond as [->|(m & Hm & j & x & Hj & Hx & Huniq)].
      - rewrite bool_decide_eq_true_2 by reflexivity. reflexivity.
      - pose proof (smallest_unique _ _ _ Hm Hsm) as Hmm.
        rewrite (bool_decide_eq_true_2 (length _ = 1%nat));
          [apply orb_true_r|].
        apply (filter_one _ meds j x Hj).
        + apply (le_limit_iff o m m0 x Hmm). exact Hx.
        + intros j' x' Hj' Hx'. apply (Huniq j' x' Hj').
          apply (le_limit_iff o m m0 x' Hmm). exact Hx'. }
    assert (Hmin' : forall j mj, meds !! j = Some (Some mj) -> (mi <= mj)%Q).
    { intros j mj Hj. rewrite Heq. eapply (proj2 Hsm); eassumption. }
    assert (Hfirst' : forall j mj, (j < idx)%nat ->
                        meds !! j = Some (Some mj) -> (mi < mj)%Q).
    { intros j mj Hjlt Hj. rewrite Heq.
      destruct (proj1 (Qle_lteq _ _) (proj2 Hsm j mj Hj)) as [Hs|Hs];
        [exact Hs|].
      exfalso. eapply Hfirst; [exact Hjlt|exact Hj|]. symmetry. exact Hs. }
    destruct (bool_decide (stages o = 1)) eqn:Es;
      eexists _, idx, a, mi;
      (split; [|split; [exact Hmi|split; [exact Hmin'|split; [exact Hfirst'|
                split; [exact Ha|]]]]]).
    + unfold select_best. st_red.
      rewrite (bool_decide_eq_true_2 _ Hca), (bool_decide_eq_true_2 _ Hr).
      cbn [andb]. rewrite run_read_times.
      rewrite (dd_get_present _ _ _ _ Hts). cbn [fst snd].
      rewrite set_times_id. fold meds. rewrite Hmin. st_red.
      rewrite Hgo. rewrite Hidx. st_red.
      rewrite Py_index_of_nat, Ha. st_red. rewrite Es. reflexivity.
    + unfold cached, dd_peek. cbn. rewrite Es.
      rewrite !lookup_insert_eq. repeat split.
    + unfold select_best. st_red.
      rewrite (bool_decide_eq_true_2 _ Hca), (bool_decide_eq_true_2 _ Hr).
      cbn [andb]. rewrite run_read_times.
      rewrite (dd_get_present _ _ _ _ Hts). cbn [fst snd].
      rewrite set_times_id. fold meds. rewrite Hmin. st_red.
      rewrite Hgo. rewrite Hidx. st_red.
      rewrite Py_index_of_nat, Ha. st_red. rewrite Es. reflexivity.
    + unfold cached, dd_peek. cbn. rewrite Es.
      rewrite !lookup_insert_eq. repeat split.
Qed.

(** ** Consistency of the cached selection *)

Lemma init_well_formed nm alts gps rounds speedup prune stg o :
  __init__ nm alts gps rounds speedup prune stg = Return o -> well_formed o.
Proof.
  unfold __init__.
  repeat match goal with |- context [if ?b then _ else _] => destruct b end;
    intros Hr; inversion Hr; subst.
  split; [reflexivity|]. split.
  - intros ps ts. cbn. rewrite lookup_empty. discriminate.
  - intros ps i. cbn. rewrite lookup_empty. discriminate.
Qed.

Lemma same_instances_refl w : same_instances w w.
Proof. reflexivity. Qed.

Lemma same_instances_trans w1 w2 w3 :
  same_instances w1 w2 -> same_instances w2 w3 -> same_instances w1 w3.
Proof. unfold same_instances. congruence. Qed.

Lemma keeps_all_refl w : keeps_all_well_formed w w.
Proof. intros Hw. exact Hw. Qed.

Lemma keeps_all_trans w1 w2 w3 :
  keeps_all_well_formed w1 w2 -> keeps_all_well_formed w2 w3 ->
  keeps_all_well_formed w1 w3.
Proof. unfold keeps_all_well_formed. auto. Qed.

Lemma keeps_wf_refl o : keeps_well_formed o o.
Proof. intros Hw. exact Hw. Qed.

Lemma keeps_wf_trans o1 o2 o3 :
  keeps_well_formed o1 o2 -> keeps_well_formed o2 o3 ->
  keeps_well_formed o1 o3.
Proof. unfold keeps_well_formed. auto. Qed.

Lemma st_rel_weaken {S A} (R R' : S -> S -> Prop) (m : St S A) :
  (forall s s', R s s' -> R' s s') -> st_rel R m -> st_rel R' m.
Proof. intros HR Hm s s' r Hr. apply HR. eapply Hm. exact Hr. Qed.

Lemma same_instances_keeps w w' :
  same_instances w w' -> keeps_all_well_formed w w'.
Proof. intros E Hw. rewrite E. exact Hw. Qed.

Lemma get_node_same n : st_rel (S := World') same_instances (get_node n).
Proof.
  intros w w' r. unfold get_node. destruct (nodes w !! n);
    intros Hr; inversion Hr; subst; reflexivity.
Qed.

Lemma get_self_same self : st_rel (S := World') same_instances (get_self self).
Proof.
  intros w w' r. unfold get_self. destruct (instances w !! self);
    intros Hr; inversion Hr; subst; reflexivity.
Qed.

Ltac same_steps :=
  st_rel_steps same_instances_refl same_instances_trans;
  first [ apply get_node_same | apply get_self_same | reflexivity ].

Lemma put_node_same n x : st_rel (S := World') same_instances (put_node n x).
Proof. unfold put_node. same_steps. Qed.

Lemma set_problem_size_same n ps :
  st_rel (S := World') same_instances (set_problem_size n ps).
Proof. unfold set_problem_size, put_node. same_steps. Qed.

Lemma block_parent_same n : st_rel (S := World') same_instances (block_parent n).
Proof. unfold block_parent, put_node. same_steps. Qed.

Lemma unblock_parent_same n :
  st_rel (S := World') same_instances (unblock_parent n).
Proof. unfold unblock_parent, put_node. same_steps. Qed.

Lemma is_blocked_same n : st_rel (S := World') same_instances (is_blocked n).
Proof. unfold is_blocked, put_node. same_steps. Qed.

Lemma pop_parent_same : st_rel (S := World') same_instances pop_parent.
Proof. unfold pop_parent. same_steps. Qed.

Lemma new_execution_same self eid p :
  st_rel (S := World') same_instances (new_execution self eid p).
Proof. unfold new_execution, put_node. same_steps. Qed.

Lemma on_self_keeps {A} self (m : St BestOf' A) :
  st_rel (S := BestOf') keeps_well_formed m ->
  st_rel (S := World') keeps_all_well_formed (on_self self m).
Proof.
  intros Hm w w' r. unfold on_self.
  destruct (instances w !! self) as [o|] eqn:Ho.
  - destruct (m o) as [o' r'] eqn:E. intros Hr; inversion Hr; subst.
    intros Hw. cbn. apply Forall_insert; [exact Hw|].
    eapply Hm; [exact E|]. eapply Forall_lookup_1; eassumption.
  - intros Hr; inversion Hr; subst. apply keeps_all_refl.
Qed.

Lemma well_formed_transfer o o' :
  alternatives o' = alternatives o ->
  _total_alternatives o' = _total_alternatives o ->
  (well_formed o ->
   forall ps ts, _times o' !! ps = Some ts ->
                 length ts = length (alternatives o)) ->
  best_idx o' = best_idx o ->
  best_name o' = best_name o ->
  (forall ps, cached o' ps = cached o ps) ->
  keeps_well_formed o o'.
Proof.
  intros Ha Ht Hts Hi Hn Hc Hw. pose proof Hw as (H1 & H2 & H3).
  split; [|split].
  - rewrite Ht, Ha. exact H1.
  - rewrite Ha. apply Hts. exact Hw.
  - intros ps i. rewrite Hi, Hn, Ha, Hc. apply H3.
Qed.

(** A change of attributes other than the samples and the selection. *)
Ltac wf_frame :=
  apply well_formed_transfer;
  [ reflexivity | reflexivity
  | intros (_ & Hts & _); exact Hts
  | reflexivity | reflexivity | intros ?; reflexivity ].

Lemma read_best_wf ps : st_rel (S := BestOf') keeps_well_formed (read_best ps).
Proof.
  intros o o' r. unfold read_best.
  destruct (bool_decide (stages o = 1)) eqn:Es.
  - destruct (dd_get None ps (best_method o)) as [v d] eqn:E.
    intros Hr; inversion Hr; subst.
    apply well_formed_transfer; try reflexivity.
    + intros (_ & Hts & _); exact Hts.
    + intros ps'. unfold cached. cbn. rewrite Es.
      replace d with (dd_get None ps (best_method o)).2 by (rewrite E; auto).
      apply dd_peek_get.
  - destruct (dd_get None ps (best_pipeline o)) as [v d] eqn:E.
    intros Hr; inversion Hr; subst.
    apply well_formed_transfer; try reflexivity.
    + intros (_ & Hts & _); exact Hts.
    + intros ps'. unfold cached. cbn. rewrite Es.
      replace d with (dd_get None ps (best_pipeline o)).2 by (rewrite E; auto).
      apply dd_peek_get.
Qed.

Lemma read_cursor_wf ps :
  st_rel (S := BestOf') keeps_well_formed (read_current_alternative ps) /\
  st_rel (S := BestOf') keeps_well_formed (read_current_round ps) /\
  st_rel (S := BestOf') keeps_well_formed (read_stages_times ps).
Proof.
  split; [|split]; intros o o' r;
    unfold read_current_round, read_current_alternative, read_stages_times;
    match goal with |- context [dd_get ?d ?k ?m] => destruct (dd_get d k m) end;
    intros Hr; inversion Hr; subst; wf_frame.
Qed.

Lemma times_arrays_length o :
  well_formed o -> length (_times_arrays o) = length (alternatives o).
Proof.
  intros (Ht & _). unfold _times_arrays. rewrite length_replicate, Ht.
  apply Nat2Z.id.
Qed.

Lemma dd_get_times_length o ps :
  well_formed o ->
  length (dd_get (_times_arrays o) ps (_times o)).1 = length (alternatives o) /\
  forall ps' ts,
    (dd_get (_times_arrays o) ps (_times o)).2 !! ps' = Some ts ->
    length ts = length (alternatives o).
Proof.
  intros Hw. pose proof Hw as (_ & Hts & _). unfold dd_get.
  destruct (_times o !! ps) as [ts0|] eqn:E; cbn.
  - split; [eapply Hts; exact E | exact Hts].
  - split; [apply times_arrays_length; exact Hw|].
    intros ps' ts. destruct (decide (ps = ps')) as [->|Hne].
    + rewrite lookup_insert_eq. intros [= <-].
      apply times_arrays_length; exact Hw.
    + rewrite lookup_insert_ne by exact Hne. apply Hts.
Qed.

Lemma read_times_wf ps : st_rel (S := BestOf') keeps_well_formed (read_times ps).
Proof.
  intros o o' r. rewrite run_read_times. intros Hr; inversion Hr; subst.
  apply well_formed_transfer; try reflexivity.
  intros Hw. apply dd_get_times_length. exact Hw.
Qed.

Lemma set_index_length {A} (l l' : list A) i x :
  Py.set_index l i x = Some l' -> length l' = length l.
Proof.
  unfold Py.set_index. destruct (bool_decide _); [|discriminate].
  intros [= <-]. apply length_insert.
Qed.

Lemma times_append_wf ps ca x :
  st_rel (S := BestOf') keeps_well_formed (times_append ps ca x).
Proof.
  intros o o' r. unfold times_append. rewrite run_bind, run_read_times.
  set (ts := (dd_get _ _ _).1). set (d := (dd_get _ _ _).2).
  assert (Hread : keeps_well_formed o (set_times d o)).
  { eapply read_times_wf. apply run_read_times. }
  st_red. destruct (Py.index ts ca) as [series|];
    [|intros Hr; inversion Hr; subst; exact Hread].
  st_red. destruct (Py.set_index ts ca (series ++ [x])) as [ts'|] eqn:Eset;
    [|intros Hr; inversion Hr; subst; exact Hread].
  st_red. intros Hr; inversion Hr; subst.
  apply well_formed_transfer; try reflexivity.
  intros Hw ps' ts0. cbn. destruct (decide (ps = ps')) as [->|Hne].
  - rewrite lookup_insert_eq. intros [= <-].
    rewrite (set_index_length _ _ _ _ Eset).
    apply dd_get_times_length. exact Hw.
  - rewrite lookup_insert_ne by exact Hne.
    apply dd_get_times_length. exact Hw.
Qed.

Ltac wf_steps :=
  st_rel_steps keeps_wf_refl keeps_wf_trans;
  first [ apply read_best_wf | apply read_cursor_wf | apply read_times_wf
        | apply times_append_wf | wf_frame ].

Lemma stages_times_store_wf ps ca buf :
  st_rel (S := BestOf') keeps_well_formed (stages_times_store ps ca buf).
Proof. unfold stages_times_store. wf_steps. Qed.

Lemma stages_times_load_wf ps ca :
  st_rel (S := BestOf') keeps_well_formed (stages_times_load ps ca).
Proof. unfold stages_times_load. wf_steps. Qed.

Lemma commit_wf ps ca r : st_rel (S := BestOf') keeps_well_formed (commit ps ca r).
Proof. unfold commit. wf_steps. Qed.

Lemma record_sample_wf ps ca stage t :
  st_rel (S := BestOf') keeps_well_formed (record_sample ps ca stage t).
Proof.
  unfold record_sample.
  st_rel_core
    ltac:(first [ apply read_cursor_wf | apply times_append_wf
                | apply stages_times_store_wf | apply stages_times_load_wf ])
    keeps_wf_refl keeps_wf_trans.
Qed.

Lemma index_of_lt m (l : list Float.t) idx :
  Float.index_of m l = Some idx -> (idx < length l)%nat.
Proof.
  revert idx. induction l as [|x l IH]; intros idx; [discriminate|].
  cbn. destruct (Float.eqb x m).
  - intros [= <-]. lia.
  - destruct (Float.index_of m l) as [k|]; [|discriminate].
    intros [= <-]. specialize (IH k eq_refl). lia.
Qed.

Lemma select_best_wf ps ca r :
  st_rel (S := BestOf') keeps_well_formed (select_best ps ca r).
Proof.
  intros o o' res Hrun Hw. unfold select_best in Hrun. st_red.
  destruct (bool_decide (ca = 0) && _); [|inversion Hrun; subst; exact Hw].
  rewrite run_read_times in Hrun. cbn beta iota in Hrun.
  pose proof (dd_get_times_length o ps Hw) as [Hlen Hd].
  assert (Hw1 : well_formed
                  (set_times (dd_get (_times_arrays o) ps (_times o)).2 o)).
  { eapply read_times_wf; [apply run_read_times | exact Hw]. }
  set (o1 := set_times _ o) in *. set (ts := (dd_get _ _ _).1) in *.
  destruct (Float.min_ (Float.median <$> ts)) as [min_time|];
    [|inversion Hrun; subst; exact Hw1].
  st_red.
  destruct (bool_decide (r = total_rounds o) || _);
    [|inversion Hrun; subst; exact Hw1].
  destruct (Float.index_of min_time (Float.median <$> ts)) as [idx|] eqn:Eidx;
    [|inversion Hrun; subst; exact Hw1].
  st_red.
  apply index_of_lt in Eidx. rewrite length_fmap, Hlen in Eidx.
  destruct (lookup_lt_is_Some_2 _ _ Eidx) as [a Ha].
  rewrite Py_index_of_nat, Ha in Hrun. st_red.
  pose proof Hw1 as (Ht1 & Hts1 & Hc1).
  assert (Hgoal : forall o2,
            alternatives o2 = alternatives o ->
            _total_alternatives o2 = _total_alternatives o ->
            _times o2 = _times o1 ->
            best_idx o2 = <[ps := Z.of_nat idx]> (best_idx o) ->
            best_name o2 = <[ps := a.1]> (best_name o) ->
            cached o2 ps = Some a.2 ->
            (forall ps', ps <> ps' -> cached o2 ps' = cached o ps') ->
            well_formed o2).
  { intros o2 E1 E2 E3 E4 E5 E6 E7. split; [|split].
    - rewrite E2, E1. apply Hw.
    - rewrite E1, E3. exact Hts1.
    - intros ps' i. rewrite E4, E5, E1.
      destruct (decide (ps = ps')) as [<-|Hne].
      + rewrite !lookup_insert_eq. intros [= <-] _. exists a.
        rewrite Py_index_of_nat. repeat split; auto; lia.
      + rewrite !lookup_insert_ne by exact Hne. rewrite (E7 _ Hne).
        apply Hw. }
  destruct (bool_decide (stages o = 1)) eqn:Es;
    inversion Hrun; subst; apply Hgoal; try reflexivity;
    unfold cached, dd_peek; cbn; rewrite Es.
  - rewrite lookup_insert_eq. reflexivity.
  - intros ps' Hne. rewrite lookup_insert_ne by exact Hne. reflexivity.
  - rewrite lookup_insert_eq. reflexivity.
  - intros ps' Hne. rewrite lookup_insert_ne by exact Hne. reflexivity.
Qed.

Lemma register_keeps self eid :
  st_rel (S := World') keeps_all_well_formed (_register self eid).
Proof.
  unfold _register.
  st_rel_core
    ltac:(first
      [ apply (st_rel_weaken _ _ _ same_instances_keeps);
        first [ apply get_self_same | apply new_execution_same ]
      | apply on_self_keeps ])
    keeps_all_refl keeps_all_trans.
  wf_steps.
Qed.

Lemma before_alternative_keeps self eid stage_arg args :
  st_rel (S := World') keeps_all_well_formed (before_alternative self eid stage_arg args).
Proof.
  unfold before_alternative.
  st_rel_core
    ltac:(first
      [ apply register_keeps
      | apply (st_rel_weaken _ _ _ same_instances_keeps);
        first [ apply get_self_same | apply set_problem_size_same
              | apply block_parent_same ]
      | apply on_self_keeps;
        first [ apply read_best_wf | apply read_cursor_wf ] ])
    keeps_all_refl keeps_all_trans;
    intros Hw; exact Hw.
Qed.

Lemma after_alternative_keeps self cur ps ca stage t :
  st_rel (S := World') keeps_all_well_formed (after_alternative self cur ps ca stage t).
Proof.
  unfold after_alternative.
  st_rel_core
    ltac:(first
      [ apply (st_rel_weaken _ _ _ same_instances_keeps);
        first [ apply pop_parent_same | apply is_blocked_same
              | apply unblock_parent_same ]
      | apply on_self_keeps;
        first [ apply record_sample_wf | apply select_best_wf
              | apply commit_wf ] ])
    keeps_all_refl keeps_all_trans.
Qed.

(** C10: [__init__] builds a well-formed [BestOf], and a call keeps every
    [BestOf] of the process well formed, provided the callables do (they
    touch the engine through calls only).  In a well-formed [BestOf], for
    every problem size whose [best_idx] is not -1, the stored index is a
    position of [alternatives], [best_name] is the name registered there,
    and the cached callable ([best_method] when [stages == 1],
    [best_pipeline] otherwise) is the callable or stage list registered
    there. *)
Theorem selection_cache_consistent :
  (forall nm alts gps rounds speedup prune stg o,
     __init__ nm alts gps rounds speedup prune stg = Return o ->
     well_formed o) /\
  ((forall c a, st_rel (S := World') keeps_all_well_formed (invoke c a)) ->
   forall self eid stage_arg args w w' r,
     Forall well_formed (instances w) ->
     call invoke self eid stage_arg args w = (w', r) ->
     Forall well_formed (instances w') /\
     forall o, o ∈ instances w' -> selection_consistent o).
Proof.
  split; [exact init_well_formed|].
  intros Hinv self eid stage_arg args w w' r Hw Hrun.
  assert (Hcall : st_rel (S := World') keeps_all_well_formed
                    (call invoke self eid stage_arg args)).
  { unfold call.
    st_rel_core
      ltac:(first [ apply before_alternative_keeps | apply Hinv
                  | apply after_alternative_keeps ])
      keeps_all_refl keeps_all_trans. }
  pose proof (Hcall _ _ _ Hrun Hw) as Hw'.
  split; [exact Hw'|]. intros o Ho.
  rewrite Forall_forall in Hw'. apply (Hw' o Ho).
Qed.

(** ** The round-robin cycle *)

Lemma succ_mod K n :
  0 < K -> 0 <= n -> (n mod K + 1) mod K = (n + 1) mod K.
Proof. intros HK Hn. rewrite Zplus_mod_idemp_l. reflexivity. Qed.

Lemma succ_div K n :
  0 < K -> 0 <= n ->
  (n + 1) / K = if bool_decide ((n + 1) mod K = 0) then n / K + 1 else n / K.
Proof.
  intros HK Hn.
  pose proof (Z.div_mod n K ltac:(lia)) as Hdm.
  pose proof (Z.mod_pos_bound n K HK) as Hb.
  destruct (decide (n mod K + 1 = K)) as [E|E].
  - assert (Hmod : (n + 1) mod K = 0).
    { symmetry. apply (Z.mod_unique_pos _ K (n / K + 1)); lia. }
    rewrite Hmod, bool_decide_eq_true_2 by reflexivity.
    symmetry. apply (Z.div_unique_pos (n + 1) K (n / K + 1) 0); lia.
  - assert (Hmod : (n + 1) mod K = n mod K + 1).
    { symmetry. apply (Z.mod_unique_pos _ K (n / K)); lia. }
    rewrite Hmod, bool_decide_eq_false_2 by lia.
    symmetry. apply (Z.div_unique_pos (n + 1) K (n / K) (n mod K + 1)); lia.
Qed.

Lemma visits_succ K n i :
  visits K (S n) i =
  (visits K n i
   + if bool_decide (Z.of_nat n mod K = Z.of_nat i)%Z then 1 else 0)%nat.
Proof.
  unfold visits. rewrite seq_S, filter_app, length_app. cbn [Nat.add].
  f_equal. case_bool_decide as E.
  - rewrite filter_cons_True by exact E. reflexivity.
  - rewrite filter_cons_False by exact E. reflexivity.
Qed.

(** Before the product of the number of alternatives and the first round
    at which a decision may be taken, no decision is due. *)
Lemma decision_not_due o K n :
  K = Z.of_nat (length (alternatives o)) -> 0 < K ->
  Z.of_nat n + 1
    < K * Z.max 1 (Z.min (prune_after_round o) (total_rounds o)) ->
  ~ decision_due o ((Z.of_nat n + 1) mod K) ((Z.of_nat n + 1) / K).
Proof.
  intros HK Hpos Hlt [Hm Hd].
  pose proof (Z.div_mod (Z.of_nat n + 1) K ltac:(lia)) as Hdm.
  rewrite Hm, Z.add_0_r in Hdm.
  set (q := (Z.of_nat n + 1) / K) in *.
  set (T := Z.min (prune_after_round o) (total_rounds o)) in *.
  assert (Hq : q < Z.max 1 T).
  { apply (Z.mul_lt_mono_pos_l K); lia. }
  assert (Hq1 : 1 <= q) by nia.
  lia.
Qed.

Lemma same_view_refl o : same_view o o.
Proof. split; [reflexivity|]. split; [auto|]. intros ps. repeat split. Qed.

Lemma config_times_arrays o o' :
  config o' = config o -> _times_arrays o' = _times_arrays o.
Proof.
  intros Hc. unfold _times_arrays.
  injection Hc as _ _ _ _ _ _ _ ->. reflexivity.
Qed.

Lemma same_view_trans o1 o2 o3 :
  same_view o1 o2 -> same_view o2 o3 -> same_view o1 o3.
Proof.
  intros (Hc1 & Hw1 & Hp1) (Hc2 & Hw2 & Hp2).
  split; [congruence|]. split; [auto|]. intros ps.
  destruct (Hp1 ps) as (A1 & B1 & C1 & D1).
  destruct (Hp2 ps) as (A2 & B2 & C2 & D2).
  rewrite (config_times_arrays _ _ Hc1) in D2.
  repeat split; congruence.
Qed.

Lemma set_executions_view ex o : same_view o (set_executions ex o).
Proof.
  split; [reflexivity|]. split.
  - apply well_formed_transfer; try reflexivity.
    intros (_ & Hts & _); exact Hts.
  - intros ps. repeat split.
Qed.

Lemma read_best_view ps : st_rel (S := BestOf') same_view (read_best ps).
Proof.
  intros o o' r Hrun. split; [|split].
  - unfold read_best in Hrun. destruct (bool_decide (stages o = 1));
      destruct (dd_get _ _ _); inversion Hrun; subst; reflexivity.
  - eapply read_best_wf. exact Hrun.
  - intros ps'. unfold read_best in Hrun.
    destruct (bool_decide (stages o = 1)) eqn:Es.
    + destruct (dd_get None ps (best_method o)) as [v d] eqn:E.
      inversion Hrun; subst. repeat split.
      unfold cached. cbn. rewrite Es.
      replace d with (dd_get None ps (best_method o)).2 by (rewrite E; auto).
      apply dd_peek_get.
    + destruct (dd_get None ps (best_pipeline o)) as [v d] eqn:E.
      inversion Hrun; subst. repeat split.
      unfold cached. cbn. rewrite Es.
      replace d with (dd_get None ps (best_pipeline o)).2 by (rewrite E; auto).
      apply dd_peek_get.
Qed.

Lemma run_read_best_none ps o :
  cached o ps = None -> (read_best ps o).2 = Return None.
Proof.
  unfold cached, read_best. intros Hc.
  destruct (bool_decide (stages o = 1)).
  - pose proof (dd_get_peek None ps (best_method o)) as Hp.
    destruct (dd_get None ps (best_method o)). cbn in *. congruence.
  - pose proof (dd_get_peek None ps (best_pipeline o)) as Hp.
    destruct (dd_get None ps (best_pipeline o)). cbn in *. congruence.
Qed.

Lemma run_read_current_alternative ps o :
  read_current_alternative ps o =
  (set_current_alternative (dd_get 0 ps (_current_alternative o)).2 o,
   Return (dd_peek 0 ps (_current_alternative o))).
Proof.
  unfold read_current_alternative. rewrite <- dd_get_peek.
  destruct (dd_get _ _ _). reflexivity.
Qed.

Lemma run_read_current_round ps o :
  read_current_round ps o =
  (set_current_round (dd_get 0 ps (_current_round o)).2 o,
   Return (dd_peek 0 ps (_current_round o))).
Proof.
  unfold read_current_round. rewrite <- dd_get_peek.
  destruct (dd_get _ _ _). reflexivity.
Qed.

Lemma read_current_alternative_view ps o :
  same_view o (set_current_alternative (dd_get 0 ps (_current_alternative o)).2 o).
Proof.
  split; [reflexivity|]. split.
  - apply well_formed_transfer; try reflexivity.
    intros (_ & Hts & _); exact Hts.
  - intros ps'. repeat split. cbn. apply dd_peek_get.
Qed.

Lemma read_current_round_view ps o :
  same_view o (set_current_round (dd_get 0 ps (_current_round o)).2 o).
Proof.
  split; [reflexivity|]. split.
  - apply well_formed_transfer; try reflexivity.
    intros (_ & Hts & _); exact Hts.
  - intros ps'. repeat split. cbn. apply dd_peek_get.
Qed.

Lemma select_best_not_due ps ca r o :
  ~ decision_due o ca r -> select_best ps ca r o = (o, Return (ca, false)).
Proof.
  intros Hnd. unfold select_best, decision_due in *. st_red.
  destruct (bool_decide (ca = 0)) eqn:E1; [|reflexivity].
  destruct (bool_decide (Z.min _ _ <= r)) eqn:E2; [|reflexivity].
  apply bool_decide_eq_true in E1, E2. tauto.
Qed.

Lemma Py_index_nonneg {A} (l : list A) (i : Z) :
  0 <= i -> Py.index l i = l !! Z.to_nat i.
Proof.
  intros Hi. unfold Py.index. rewrite bool_decide_eq_true_2 by exact Hi.
  reflexivity.
Qed.

Lemma Py_set_index_nonneg {A} (l : list A) (i : Z) (x y : A) :
  0 <= i -> l !! Z.to_nat i = Some y ->
  Py.set_index l i x = Some (<[Z.to_nat i := x]> l).
Proof.
  intros Hi Hl. apply lookup_lt_Some in Hl. unfold Py.set_index.
  rewrite (bool_decide_eq_true_2 (0 <= i)) by exact Hi.
  rewrite bool_decide_eq_true_2 by lia. reflexivity.
Qed.

(** One accepted sample in single-stage mode (lines 345-348): the sample
    goes to the series of the cursor, the cursor steps to the next index
    modulo the number of alternatives, and the round grows when the cursor
    is back at 0. *)
Lemma record_single ps c0 stage t o series :
  well_formed o -> stages o = 1 -> 0 <= c0 ->
  dd_peek (_times_arrays o) ps (_times o) !! Z.to_nat c0 = Some series ->
  exists oc,
    record_sample ps c0 stage t o =
      (oc,
       Return
         ((c0 + 1) mod Z.of_nat (length (alternatives o)),
          if bool_decide
               ((c0 + 1) mod Z.of_nat (length (alternatives o)) = 0)
          then dd_peek 0 ps (_current_round o) + 1
          else dd_peek 0 ps (_current_round o))) /\
    _times oc !! ps
      = Some (<[Z.to_nat c0 := series ++ [t]]>
                (dd_peek (_times_arrays o) ps (_times o))).
Proof.
  intros Hw Hst Hc0 Hser.
  pose proof Hw as (Htot & _).
  assert (HK : Z.of_nat (length (alternatives o)) <> 0).
  { pose proof (dd_get_times_length o ps Hw) as [Hlen _].
    rewrite dd_get_peek in Hlen. apply lookup_lt_Some in Hser. lia. }
  unfold record_sample. rewrite run_bind, run_read_current_round.
  cbn beta iota. st_red. cbn [stages set_current_round with_state].
  rewrite (bool_decide_eq_true_2 _ Hst).
  unfold times_append. st_red. rewrite run_read_times.
  cbn [_times set_current_round with_state fst snd].
  assert (Hta : forall d, _times_arrays (set_current_round d o) = _times_arrays o)
    by reflexivity.
  rewrite !Hta, dd_get_peek.
  rewrite (Py_index_nonneg _ _ Hc0), Hser. st_red.
  rewrite (Py_set_index_nonneg _ _ _ _ Hc0 Hser). st_red.
  unfold evolve. cbn [stages set_current_round with_state _total_alternatives].
  rewrite (bool_decide_eq_true_2 _ Hst). cbn [orb].
  unfold Py.mod_. rewrite Htot, bool_decide_eq_false_2 by exact HK.
  eexists. split.
  - destruct (bool_decide (_ = 0)); reflexivity.
  - cbn. rewrite lookup_insert_eq. reflexivity.
Qed.

Lemma decision_due_config o o' c r :
  config o' = config o -> decision_due o' c r -> decision_due o c r.
Proof.
  intros Hc. unfold decision_due.
  injection Hc as _ _ _ -> _ -> _ _. auto.
Qed.

Lemma keeps_selection_config o o' : keeps_selection o o' -> config o' = config o.
Proof. intros (Hc & _). exact Hc. Qed.

Lemma commit_peeks ps ca r o :
  dd_peek 0 ps (_current_alternative (commit ps ca r o).1) = ca /\
  dd_peek 0 ps (_current_round (commit ps ca r o).1) = r /\
  _times (commit ps ca r o).1 = _times o.
Proof.
  unfold commit. st_red. cbn. unfold dd_peek.
  rewrite !lookup_insert_eq. repeat split.
Qed.

(** After an alternative of a single-stage [BestOf] has returned to a node
    that nothing blocks, when the decision that follows (if one is due)
    selects nothing and leaves the cursor: the sample is recorded and the
    cursor and round step on. *)
Lemma after_recorded self cur ps stage t w o me series :
  _current_parents w = [cur] ->
  nodes w !! cur = Some me -> blocked me = false ->
  instances w !! self = Some o ->
  well_formed o -> stages o = 1 ->
  0 <= dd_peek 0 ps (_current_alternative o) ->
  dd_peek (_times_arrays o) ps (_times o)
    !! Z.to_nat (dd_peek 0 ps (_current_alternative o)) = Some series ->
  let K := Z.of_nat (length (alternatives o)) in
  let c1 := (dd_peek 0 ps (_current_alternative o) + 1) mod K in
  let r1 := if bool_decide (c1 = 0)
            then dd_peek 0 ps (_current_round o) + 1
            else dd_peek 0 ps (_current_round o) in
  let ts' := <[Z.to_nat (dd_peek 0 ps (_current_alternative o))
                 := series ++ [t]]>
               (dd_peek (_times_arrays o) ps (_times o)) in
  (forall oc : BestOf', config oc = config o -> _times oc !! ps = Some ts' ->
              select_best ps c1 r1 oc = (oc, Return (c1, false))) ->
  exists w3 o3,
    after_alternative self cur ps (dd_peek 0 ps (_current_alternative o))
      stage t w = (w3, Return tt) /\
    nodes w3 =
      <[cur := set_blocked_by
                 (dd_get ∅ (_current_problem_size me) (_blocked_by me)).2 me]>
        (nodes w) /\
    _current_parents w3 = [] /\
    stdout w3 = stdout w /\
    _use_first_alternative w3 = _use_first_alternative w /\
    instances w3 = <[self := o3]> (instances w) /\
    config o3 = config o /\ _executions o3 = _executions o /\
    well_formed o3 /\ cached o3 ps = cached o ps /\
    dd_peek 0 ps (_current_alternative o3) = c1 /\
    dd_peek 0 ps (_current_round o3) = r1 /\
    dd_peek (_times_arrays o) ps (_times o3) = ts'.
Proof.
  intros Hp Hme Hbl Ho Hw Hst Hc0 Hser K c1 r1 ts' Hcont.
  destruct (record_single ps _ stage t o series Hw Hst Hc0 Hser)
    as (oc & Hrec & Htimes).
  fold K c1 r1 ts' in Hrec, Htimes.
  pose proof (record_sample_keeps _ _ _ _ _ _ _ Hrec) as Hkc.
  pose proof (record_sample_wf _ _ _ _ _ _ _ Hrec Hw) as Hwc.
  pose proof (Hcont oc (keeps_selection_config _ _ Hkc) Htimes) as Hsel.
  set (o3 := (commit ps c1 r1 oc).1).
  pose proof (commit_keeps ps c1 r1 _ _ _ (run_commit ps c1 r1 oc)) as Hk3.
  pose proof (commit_wf ps c1 r1 _ _ _ (run_commit ps c1 r1 oc) Hwc) as Hw3.
  fold o3 in Hk3, Hw3.
  unfold after_alternative.
  rewrite (run_bind_return _ _ _ _ _ (run_pop_parent w ltac:(rewrite Hp; discriminate))).
  rewrite Hp. cbn [removelast].
  set (wa := set_current_parents [] w).
  assert (Hmea : nodes wa !! cur = Some me) by exact Hme.
  rewrite (run_bind_return _ _ _ _ _ (run_is_blocked cur wa me Hmea)).
  rewrite Hbl.
  set (wb := set_nodes _ wa).
  assert (Hob : instances wb !! self = Some o) by exact Ho.
  rewrite run_bind, (run_on_self _ _ _ _ Hob), Hrec. cbn [fst snd].
  set (wc := set_instances _ wb).
  assert (Hoc : instances wc !! self = Some oc).
  { cbn. eapply lookup_insert_self; exact Hob. }
  rewrite run_bind, (run_on_self _ _ _ _ Hoc), Hsel. cbn [fst snd].
  set (wd := set_instances _ wc).
  assert (Hod : instances wd !! self = Some oc).
  { cbn. eapply lookup_insert_self; exact Hoc. }
  rewrite run_bind. st_red. rewrite (run_on_self _ _ _ _ Hod).
  fold o3. exists (set_instances (<[self := o3]> (instances wd)) wd), o3.
  split; [reflexivity|]. cbn.
  rewrite !list_insert_insert_eq.
  do 5 (split; [reflexivity|]).
  split; [destruct Hk3 as (E3 & _); destruct Hkc as (Ec & _); congruence|].
  split; [destruct Hk3 as (_ & _ & E3); destruct Hkc as (_ & _ & Ec);
          congruence|].
  split; [exact Hw3|].
  split.
  { rewrite (keeps_selection_cached oc o3 ps Hk3).
    apply keeps_selection_cached. exact Hkc. }
  destruct (commit_peeks ps c1 r1 oc) as (P1 & P2 & P3). fold o3 in P1, P2, P3.
  split; [exact P1|]. split; [exact P2|].
  unfold dd_peek at 1. rewrite P3, Htimes. reflexivity.
Qed.

(** *** Calm processes *)

Lemma unmarked_not_blocked (x : Execution PS ExecId) :
  unmarked x -> blocked x = false.
Proof.
  intros Hu. unfold blocked. apply bool_decide_eq_false_2.
  intros (child & v & Hl & Hv). cbn in Hv. subst v.
  unfold dd_peek in Hl.
  destruct (_blocked_by x !! _current_problem_size x) as [inner|] eqn:E; cbn in Hl.
  - eapply Hu; eassumption.
  - rewrite lookup_empty in Hl. discriminate.
Qed.

Lemma unmarked_dd_get (x : Execution PS ExecId) key :
  unmarked x ->
  unmarked (set_blocked_by (dd_get ∅ key (_blocked_by x)).2 x).
Proof.
  intros Hu key' inner child. cbn. unfold dd_get.
  destruct (_blocked_by x !! key) eqn:E; cbn; [apply Hu|].
  destruct (decide (key = key')) as [->|Hne].
  - rewrite lookup_insert_eq. intros [= <-]. rewrite lookup_empty. discriminate.
  - rewrite lookup_insert_ne by exact Hne. apply Hu.
Qed.

Lemma calm_same_nodes self w w' o o' :
  calm self w ->
  _use_first_alternative w' = _use_first_alternative w ->
  nodes w' = nodes w ->
  instances w !! self = Some o ->
  instances w' !! self = Some o' ->
  _executions o' = _executions o ->
  calm self w'.
Proof.
  intros (Hu & Hroot & Hreg) Eu En Ho Ho' Ee. split; [congruence|]. split.
  - rewrite En. exact Hroot.
  - intros o2 eid n Ho2 He. rewrite Ho' in Ho2. injection Ho2 as <-.
    rewrite En. rewrite Ee in He. eapply Hreg; eassumption.
Qed.

Lemma calm_insert_node self w w' k x x' :
  calm self w ->
  _use_first_alternative w' = _use_first_alternative w ->
  instances w' = instances w ->
  nodes w !! k = Some x ->
  parent x' = parent x ->
  (unmarked x -> unmarked x') ->
  nodes w' = <[k := x']> (nodes w) ->
  calm self w'.
Proof.
  intros (Hu & (r & Hr & Hpr) & Hreg) Eu Ei Hk Hp Hm En.
  assert (Hlt : (k < length (nodes w))%nat) by (eapply lookup_lt_Some; eauto).
  split; [congruence|]. split.
  - rewrite En. destruct (decide (k = _root)) as [->|Hne].
    + rewrite list_lookup_insert_eq by exact Hlt. exists x'.
      split; [reflexivity|]. rewrite Hp. congruence.
    + rewrite list_lookup_insert_ne by exact Hne. eauto.
  - intros o eid n Ho He. rewrite Ei in Ho.
    destruct (Hreg o eid n Ho He) as (me & Hme & Hpm & Hum).
    rewrite En. destruct (decide (k = n)) as [->|Hne].
    + rewrite list_lookup_insert_eq by exact Hlt. exists x'.
      split; [reflexivity|]. assert (x = me) by congruence. subst x.
      split; [congruence | auto].
    + rewrite list_lookup_insert_ne by exact Hne. exists me. repeat split; auto.
Qed.

Lemma run_block_parent_top cur w me r :
  nodes w !! cur = Some me -> parent me = Some _root ->
  nodes w !! _root = Some r -> parent r = None ->
  block_parent cur w = (w, Return tt).
Proof.
  intros Hme Hp Hr Hpr. unfold block_parent.
  rewrite (run_bind_return _ _ _ _ _ (run_get_node _ _ _ Hme)).
  rewrite Hp. st_run. rewrite (run_get_node _ _ _ Hr).
  unfold _is_root. rewrite Hpr. reflexivity.
Qed.

(** Registration from outside every alternative keeps the process calm
    and gives the call a top node. *)
Lemma register_top self eid w o :
  calm self w -> _current_parents w = [] ->
  instances w !! self = Some o ->
  exists w1 cur ex,
    _register self eid w = (w1, Return cur) /\
    calm self w1 /\
    _current_parents w1 = [] /\
    stdout w1 = stdout w /\
    instances w1 = <[self := set_executions ex o]> (instances w) /\
    ex !! eid = Some cur.
Proof.
  intros Hcalm Hp Ho. pose proof Hcalm as (Hu & (r & Hr & Hpr) & Hreg).
  destruct (_executions o !! eid) as [n|] eqn:He.
  - exists w, n, (_executions o). rewrite set_executions_id.
    rewrite (list_insert_id _ _ _ Ho).
    split; [eapply register_known; eassumption|]. auto.
  - assert (Hroot : nodes w !! current_root w = Some r).
    { unfold current_root. rewrite Hp. exact Hr. }
    destruct (register_fresh self eid w o r Ho He Hroot)
      as (w1 & me & Hrun & Hi & Hu1 & Hp1 & Hs1 & Hpar & Hbb & Hn).
    unfold current_root in Hpar, Hn. rewrite Hp in Hpar, Hn. cbn in Hpar, Hn.
    assert (Hlt : (_root < length (nodes w))%nat)
      by (eapply lookup_lt_Some; eauto).
    exists w1, (length (nodes w)),
      (<[eid := length (nodes w)]> (_executions o)).
    split; [exact Hrun|]. split; [|split; [congruence|split; [exact Hs1|]]].
    + split; [congruence|]. split.
      * exists (set_children (children r ++ [length (nodes w)]) r).
        rewrite Hn. split; [|exact Hpr].
        rewrite lookup_app_l by (rewrite length_insert; exact Hlt).
        apply list_lookup_insert_eq. exact Hlt.
      * intros o1 eid' n Ho1 He1. rewrite Hi in Ho1.
        rewrite (lookup_insert_self _ _ _ _ Ho) in Ho1. injection Ho1 as <-.
        cbn in He1. rewrite Hn.
        destruct (decide (eid = eid')) as [<-|Hne].
        -- rewrite lookup_insert_eq in He1. injection He1 as <-.
           exists me. rewrite lookup_app_r by (rewrite length_insert; lia).
           rewrite length_insert, Nat.sub_diag. split; [reflexivity|].
           split; [exact Hpar|]. intros key inner child.
           rewrite Hbb, lookup_empty. discriminate.
        -- rewrite lookup_insert_ne in He1 by exact Hne.
           destruct (Hreg o eid' n Ho He1) as (me' & Hme' & Htop).
           exists me'. split; [|exact Htop].
           assert (n <> _root).
           { intros ->. destruct Htop as [Hp' _]. congruence. }
           rewrite lookup_app_l
             by (rewrite length_insert; eapply lookup_lt_Some; eauto).
           rewrite list_lookup_insert_ne by congruence. exact Hme'.
    + split; [exact Hi|]. apply lookup_insert_eq.
Qed.

Lemma read_best_executions ps o o' r :
  read_best ps o = (o', r) -> _executions o' = _executions o.
Proof.
  unfold read_best. destruct (bool_decide (stages o = 1));
    destruct (dd_get _ _ _); intros Hr; inversion Hr; subst; reflexivity.
Qed.

(** A call from outside every alternative, in a calm process, for a
    problem size without selection: it reaches the evaluation of the
    alternative under the cursor, prints the dispatch, and the alternative
    starts in a calm process with the call's node as the only parent. *)
Lemma before_evaluate_top self eid stage_arg args w o a c :
  calm self w -> _current_parents w = [] ->
  instances w !! self = Some o ->
  stages o = 1 ->
  cached o (get_problem_size o args) = None ->
  Py.index (alternatives o)
    (dd_peek 0 (get_problem_size o args) (_current_alternative o)) = Some a ->
  callable_of 1 a.2 0 = Return c ->
  exists w1 cur o1,
    before_alternative self eid stage_arg args w
      = (w1, Return (0, Evaluate cur (get_problem_size o args)
                          (dd_peek 0 (get_problem_size o args)
                             (_current_alternative o)) c)) /\
    calm self w1 /\
    _current_parents w1 = [cur] /\
    stdout w1 = stdout w ++
      [(0, dd_peek 0 (get_problem_size o args) (_current_alternative o),
        get_problem_size o args)] /\
    instances w1 !! self = Some o1 /\
    same_view o o1 /\
    _executions o1 !! eid = Some cur.
Proof.
  intros Hcalm Hp Ho Hst Hca Ha Hc.
  set (ps := get_problem_size o args) in *.
  destruct (register_top self eid w o Hcalm Hp Ho)
    as (wr & cur & ex & Hreg & Hcalmr & Hpr & Hsr & Hir & Hex).
  set (or := set_executions ex o) in *.
  assert (Hor : instances wr !! self = Some or).
  { rewrite Hir. eapply lookup_insert_self; exact Ho. }
  pose proof Hcalmr as (Hur & (r & Hr & Hrp) & Hnodes).
  destruct (Hnodes or eid cur Hor Hex) as (me & Hme & Hpar & Hunm).
  assert (Hne : cur <> _root) by (intros ->; congruence).
  (* set_problem_size *)
  pose proof (run_set_problem_size cur ps wr me Hme) as Hsps.
  set (me' := set_problem_sizes _ _) in Hsps.
  set (ws := set_nodes (<[cur := me']> (nodes wr)) wr) in *.
  assert (Hcalms : calm self ws).
  { eapply (calm_insert_node self wr ws cur me me'); try reflexivity; auto. }
  (* read_best *)
  destruct (read_best ps or) as [ob rb] eqn:Erb.
  assert (Hrb : rb = Return None).
  { pose proof (run_read_best_none ps or Hca) as Hn. rewrite Erb in Hn.
    exact Hn. }
  subst rb.
  set (wt := set_instances (<[self := ob]> (instances ws)) ws).
  assert (Hot : instances wt !! self = Some ob).
  { cbn. eapply lookup_insert_self; exact Hor. }
  assert (Hcalmt : calm self wt).
  { eapply (calm_same_nodes self ws wt or ob); try reflexivity; auto.
    eapply read_best_executions; exact Erb. }
  assert (Hlt : (cur < length (nodes wr))%nat) by (eapply lookup_lt_Some; eauto).
  assert (Hblock : block_parent cur wt = (wt, Return tt)).
  { eapply (run_block_parent_top cur wt me' r).
    - cbn. apply list_lookup_insert_eq. exact Hlt.
    - exact Hpar.
    - cbn. rewrite list_lookup_insert_ne by exact Hne. exact Hr.
    - exact Hrp. }
  (* read_current_alternative *)
  set (o1 := set_current_alternative
               (dd_get 0 ps (_current_alternative ob)).2 ob).
  assert (Hview : same_view o o1).
  { eapply same_view_trans; [apply (set_executions_view ex)|].
    eapply same_view_trans; [eapply read_best_view; exact Erb|].
    apply read_current_alternative_view. }
  assert (Hcur : dd_peek 0 ps (_current_alternative ob)
                 = dd_peek 0 ps (_current_alternative o)).
  { pose proof (same_view_trans _ _ _ (set_executions_view ex o)
                  (read_best_view ps _ _ _ Erb)) as (_ & _ & Hpk).
    apply (Hpk ps). }
  exists (set_stdout
            (stdout wt ++ [(0, dd_peek 0 ps (_current_alternative o), ps)])
            (set_current_parents (_current_parents wt ++ [cur])
               (set_instances (<[self := o1]> (instances wt)) wt))),
    cur, o1.
  split; [|split; [|split; [|split; [|split; [|split]]]]].
  - unfold before_alternative. rewrite (run_bind_return _ _ _ _ _ Hreg).
    rewrite (run_bind_return _ _ _ _ _ (run_get_self _ _ _ Hor)).
    cbn [stages alternatives get_problem_size or set_executions with_state].
    rewrite Hst. rewrite (bool_decide_eq_false_2 (1 < 1)) by lia.
    rewrite (bool_decide_eq_true_2 (0 < 1)) by lia. cbn [negb].
    st_run. rewrite Hur. fold ps. rewrite Hsps. fold ws.
    rewrite (run_on_self self _ ws or Hor), Erb. cbn [fst snd]. fold wt.
    rewrite Hblock. rewrite (run_on_self _ _ _ _ Hot).
    rewrite run_read_current_alternative. cbn [fst snd]. fold o1.
    rewrite Hcur, Ha. st_run. rewrite Hc. reflexivity.
  - eapply (calm_same_nodes self wt _ ob o1); try reflexivity; auto.
    cbn. eapply lookup_insert_self; exact Hot.
  - cbn. rewrite Hpr. reflexivity.
  - cbn. rewrite Hsr. reflexivity.
  - cbn. eapply lookup_insert_self; exact Hot.
  - exact Hview.
  - cbn. rewrite (read_best_executions _ _ _ _ Erb). exact Hex.
Qed.

Lemma callable_of_single (alts : list (string * Impl Callable)) i a :
  forallb (alternative_ok 1) alts = true ->
  alts !! i = Some a ->
  exists c, callable_of 1 a.2 0 = Return c.
Proof.
  intros Hall Ha. rewrite forallb_forall in Hall.
  assert (Hin : In a alts).
  { apply list_elem_of_In. eapply list_elem_of_lookup_2. exact Ha. }
  specialize (Hall a Hin). unfold alternative_ok in Hall.
  unfold callable_of. destruct a.2 as [m|ms]; cbn in *.
  - eauto.
  - rewrite bool_decide_eq_false_2 in Hall by congruence. discriminate.
Qed.

(** *** A decision that discards nothing *)

Lemma insert_sorted_Forall (P : Q -> Prop) x l :
  P x -> Forall P l -> Forall P (Float.insert_sorted x l).
Proof.
  intros Hx Hl. induction Hl as [|y l Hy Hl IH]; cbn.
  - repeat constructor. exact Hx.
  - destruct (Qle_bool x y); repeat constructor; auto.
Qed.

Lemma sort_Forall (P : Q -> Prop) l : Forall P l -> Forall P (Float.sort l).
Proof.
  induction 1 as [|x l Hx Hl IH]; [constructor|].
  cbn. apply insert_sorted_Forall; assumption.
Qed.

Lemma round_mono (x y : Q) :
  monotone_rounding -> (x <= y)%Q -> (Float.round x <= Float.round y)%Q.
Proof.
  intros Hm Hxy. unfold Float.round. apply Hm. rewrite !Qred_correct.
  exact Hxy.
Qed.

(** The rounded mean of two floats lies between them. *)
Lemma mean_between a b :
  monotone_rounding -> Float.is_float a -> Float.is_float b ->
  (a <= b)%Q ->
  (a <= Float.round (Float.round (a + b) / 2) <= b)%Q.
Proof.
  intros Hm [Ha Ha2] [Hb Hb2] Hab.
  assert (H1 : (2 * a <= Float.round (a + b))%Q).
  { rewrite <- Ha2. apply round_mono; [exact Hm|lra]. }
  assert (H2 : (Float.round (a + b) <= 2 * b)%Q).
  { rewrite <- Hb2. apply round_mono; [exact Hm|lra]. }
  split.
  - rewrite <- Ha at 1. apply round_mono; [exact Hm|].
    apply Qle_shift_div_l; [reflexivity|lra].
  - rewrite <- Hb at 2. apply round_mono; [exact Hm|].
    apply Qle_shift_div_r; [reflexivity|lra].
Qed.

(** The median of floats lies between two of them. *)
Lemma median_between l :
  monotone_rounding -> l <> [] -> Forall Float.is_float l ->
  exists m a b,
    Float.median l = Some m /\ a ∈ Float.sort l /\ b ∈ Float.sort l /\
    (a <= m <= b)%Q.
Proof.
  intros Hm Hne Hl. unfold Float.median.
  pose proof (sort_length l) as Hlen.
  pose proof (sort_Forall _ _ Hl) as Hs.
  rewrite Forall_lookup in Hs.
  destruct (length (Float.sort l)) as [|n] eqn:En.
  { destruct l; [congruence|discriminate]. }
  assert (Hdiv : (S n / 2 < S n)%nat) by (apply Nat.div_lt; lia).
  destruct (lookup_lt_is_Some_2 (Float.sort l) (S n / 2)%nat) as [b Hb];
    [lia|].
  destruct (lookup_lt_is_Some_2 (Float.sort l) (S n / 2 - 1)%nat) as [a Ha];
    [lia|].
  rewrite Ha, Hb. destruct (Nat.even (S n)).
  - destruct (Qlt_le_dec b a) as [Hba|Hab].
    + exists (Float.round (Float.round (a + b) / 2)), b, a.
      split; [reflexivity|].
      split; [eapply list_elem_of_lookup_2; exact Hb|].
      split; [eapply list_elem_of_lookup_2; exact Ha|].
      rewrite (round_eq (a + b) (b + a)) by ring.
      apply mean_between; [exact Hm|eapply Hs; eassumption..|lra].
    + exists (Float.round (Float.round (a + b) / 2)), a, b.
      split; [reflexivity|].
      split; [eapply list_elem_of_lookup_2; exact Ha|].
      split; [eapply list_elem_of_lookup_2; exact Hb|].
      apply mean_between; [exact Hm|eapply Hs; eassumption..|exact Hab].
  - exists b, b, b. split; [reflexivity|].
    split; [eapply list_elem_of_lookup_2; exact Hb|].
    split; [eapply list_elem_of_lookup_2; exact Hb|]. lra.
Qed.

(** The median of floats between [lo] and [hi] lies between them, and
    below one of the floats. *)
Lemma median_within lo hi l :
  monotone_rounding ->
  l <> [] -> Forall (fun t => within lo hi t /\ Float.is_float t) l ->
  exists m,
    Float.median l = Some m /\ within lo hi m /\
    exists b, (Float.round b == b)%Q /\ (m <= b <= hi)%Q.
Proof.
  intros Hm Hne Hl.
  assert (Hfl : Forall Float.is_float l).
  { eapply Forall_impl; [exact Hl|]. intros t [_ Ht]. exact Ht. }
  destruct (median_between l Hm Hne Hfl) as (m & a & b & Emed & Ia & Ib & Hab).
  pose proof (sort_Forall _ _ Hl) as Hs. rewrite Forall_forall in Hs.
  destruct (Hs a Ia) as [[Ha1 Ha2] _].
  destruct (Hs b Ib) as [[Hb1 Hb2] [Hfb _]].
  exists m. split; [exact Emed|]. unfold within. split; [lra|].
  exists b. split; [exact Hfb|lra].
Qed.

Lemma limit_covers lo hi m0 m s :
  monotone_rounding ->
  (0 < lo)%Q -> (hi <= lo * s)%Q -> within lo hi m0 ->
  (exists b, (Float.round b == b)%Q /\ (m <= b <= hi)%Q) ->
  Float.le (Some m) (Float.mul (Some m0) s) = true.
Proof.
  unfold within. intros Hmono Hlo Hhi Hm0 (b & Hfb & Hmb & Hbh). cbn.
  apply Qle_bool_iff.
  assert (Hs : (0 <= s)%Q).
  { destruct (Qlt_le_dec s 0) as [Hn|Hn]; [|exact Hn]. exfalso.
    assert (lo * s <= 0)%Q by nra. lra. }
  assert (lo * s <= m0 * s)%Q by (apply Qmult_le_compat_r; [lra|exact Hs]).
  apply Qle_trans with b; [exact Hmb|].
  rewrite <- Hfb. apply round_mono; [exact Hmono|lra].
Qed.

Lemma filter_all (f : Float.t -> bool) (l : list Float.t) :
  Forall (fun x => f x = true) l -> filter (fun x => f x = true) l = l.
Proof.
  induction 1 as [|x l Hx Hl IH]; [reflexivity|].
  rewrite filter_cons_True by exact Hx. rewrite IH. reflexivity.
Qed.

(** With two alternatives or more, every series holding samples between
    [lo] and [hi], and the round short of [rounds], [select_best] selects
    nothing and leaves the cursor at 0. *)
Lemma select_best_all_live ps r o ts lo hi :
  monotone_rounding ->
  _times o !! ps = Some ts ->
  (2 <= length ts)%nat ->
  Forall (fun s => s <> [] /\
                   Forall (fun t => within lo hi t /\ Float.is_float t) s)
         ts ->
  (0 < lo)%Q -> (hi <= lo * pruning_speedup o)%Q ->
  r <> total_rounds o ->
  select_best ps 0 r o = (o, Return (0, false)).
Proof.
  intros Hmono Hts Hlen Hall Hlo Hhi Hr.
  unfold select_best. st_red.
  destruct (bool_decide (0 = 0) && _); [|reflexivity].
  rewrite run_read_times, (dd_get_present _ _ _ _ Hts). cbn [fst snd].
  rewrite set_times_id.
  set (meds := Float.median <$> ts).
  assert (Hmeds : Forall (fun x =>
            exists m, x = Some m /\ within lo hi m /\
              exists b, (Float.round b == b)%Q /\ (m <= b <= hi)%Q) meds).
  { apply Forall_fmap. eapply Forall_impl; [exact Hall|].
    intros s [Hne Hs]. cbn. apply median_within; assumption. }
  assert (Hsome : Forall is_Some meds).
  { eapply Forall_impl; [exact Hmeds|]. intros x (m & -> & _). eauto. }
  assert (Hne : meds <> []).
  { unfold meds. destruct ts; [cbn in Hlen; lia|discriminate]. }
  destruct (min_spec meds Hsome Hne) as (m0 & Hmin & [[j Hj] _]).
  assert (Hm0 : within lo hi m0).
  { rewrite Forall_lookup in Hmeds.
    destruct (Hmeds j _ Hj) as (m & [= <-] & Hm & _). exact Hm. }
  rewrite Hmin. st_red.
  assert (Hlive : Forall (fun x => Float.le x
                     (Float.mul (Some m0) (pruning_speedup o)) = true) meds).
  { eapply Forall_impl; [exact Hmeds|]. intros x (m & -> & _ & Hb).
    eapply limit_covers; [exact Hmono|exact Hlo|exact Hhi|exact Hm0|exact Hb]. }
  rewrite (filter_all _ meds Hlive).
  rewrite (bool_decide_eq_false_2 _ Hr).
  rewrite bool_decide_eq_false_2
    by (unfold meds; rewrite length_fmap; lia).
  cbn [orb Z.to_nat drop].
  destruct meds as [|x meds']; [congruence|].
  inversion Hlive as [|? ? Hx _]; subst.
  change (Z.to_nat 0) with 0%nat. cbn [drop next_live].
  rewrite Hx. reflexivity.
Qed.

Lemma visits_pos K n i :
  (i < n)%nat -> Z.of_nat i < K -> (1 <= visits K n i)%nat.
Proof.
  intros Hi HK. unfold visits.
  assert (Hin : i ∈ filter (fun j => Z.of_nat j mod K = Z.of_nat i) (seq 0 n)).
  { apply list_elem_of_filter. split.
    - apply Z.mod_small. lia.
    - apply elem_of_seq. lia. }
  destruct (filter _ (seq 0 n)); [inversion Hin | cbn; lia].
Qed.

Lemma cycle_goes_on_pos P o n :
  0 <= n -> cycle_goes_on P o n ->
  0 < Z.of_nat (length (alternatives o)).
Proof. intros Hn [Hlt|(HK & _)]; [nia | lia]. Qed.

(** One call of the cycle. *)
Lemma call_step P self o ps n eid stage_arg args w :
  quiet invoke P self ->
  stages o = 1 ->
  forallb (alternative_ok 1) (alternatives o) = true ->
  sampling P self o ps n w ->
  get_problem_size o args = ps ->
  cycle_goes_on P o (Z.of_nat n + 1) ->
  exists w' out,
    call invoke self eid stage_arg args w = (w', Return out) /\
    sampling P self o ps (S n) w' /\
    stdout w' = stdout w ++
      [(0, Z.of_nat n mod Z.of_nat (length (alternatives o)), ps)].
Proof.
  intros Hq Hst Hok Hs Hps Hgo.
  assert (HK : 0 < Z.of_nat (length (alternatives o)))
    by (eapply cycle_goes_on_pos; [|exact Hgo]; lia).
  set (K := Z.of_nat (length (alternatives o))) in *.
  destruct Hs as (Hcalm & Hp & o' & Ho' & Hcfg & Hwf & Hcac & Hcur & Hrnd & Hts).
  fold K in Hcur, Hrnd, Hts.
  pose proof Hcfg as Hcfg'.
  injection Hcfg' as _ Ealt Egps Ernd Estg Eprune Espeed _.
  pose proof (Z.mod_pos_bound (Z.of_nat n) K HK) as Hbound.
  set (c0 := Z.of_nat n mod K) in *.
  (* the alternative under the cursor *)
  assert (Hlen : length (dd_peek (_times_arrays o') ps (_times o'))
                 = length (alternatives o)).
  { rewrite <- dd_get_peek, <- Ealt. apply dd_get_times_length. exact Hwf. }
  destruct (lookup_lt_is_Some_2 (alternatives o) (Z.to_nat c0)) as [a Ha];
    [unfold K in Hbound; lia|].
  destruct (callable_of_single _ _ _ Hok Ha) as [c Hc].
  assert (Hps' : get_problem_size o' args = ps) by (rewrite Egps; exact Hps).
  destruct (before_evaluate_top self eid stage_arg args w o' a c)
    as (w1 & cur & o1 & Hbefore & Hcalm1 & Hp1 & Hs1 & Ho1 & Hview & Hex1);
    try assumption.
  { rewrite Estg. exact Hst. }
  { rewrite Hps'. exact Hcac. }
  { rewrite Hps', Hcur, Ealt, Py_index_nonneg by lia. exact Ha. }
  rewrite Hps', Hcur in Hbefore, Hs1.
  (* the alternative *)
  destruct (Hq c args w1 Hcalm1)
    as (w2 & out & t & Hinv & Ht & Hcalm2 & Hp2 & Hs2 & Hi2).
  rewrite Ho1 in Hi2. rewrite Hp1 in Hp2.
  pose proof Hcalm2 as (Hu2 & _ & Hnodes2).
  destruct (Hnodes2 o1 eid cur Hi2 Hex1) as (me & Hme & Hpar & Hunm).
  (* what the instance shows *)
  destruct Hview as (Hcfg1 & Hwf1 & Hpeek).
  destruct (Hpeek ps) as (Hcac1 & Hcur1 & Hrnd1 & Hts1).
  pose proof (config_times_arrays _ _ Hcfg1) as Harr.
  pose proof Hcfg1 as Hcfg1'.
  injection Hcfg1' as _ Ealt1 _ _ Estg1 _ _ _.
  rewrite Hcur in Hcur1. rewrite Hrnd in Hrnd1. rewrite Hcac in Hcac1.
  destruct (lookup_lt_is_Some_2
              (dd_peek (_times_arrays o1) ps (_times o1)) (Z.to_nat c0))
    as [series Hser].
  { rewrite Harr, Hts1, Hlen. unfold K in Hbound. lia. }
  assert (HK1 : Z.of_nat (length (alternatives o1)) = K)
    by (rewrite Ealt1, Ealt; reflexivity).
  (* the samples after this one *)
  set (ts' := <[Z.to_nat c0 := series ++ [t]]>
                (dd_peek (_times_arrays o1) ps (_times o1))).
  assert (Hts' : forall i s, ts' !! i = Some s ->
                   length s = visits K (S n) i /\ Forall P s).
  { intros i s. unfold ts'. rewrite visits_succ. fold c0.
    destruct (decide (Z.to_nat c0 = i)) as [<-|Hne].
    - rewrite list_lookup_insert_eq by (eapply lookup_lt_Some; exact Hser).
      intros [= <-]. rewrite length_app. cbn.
      rewrite bool_decide_eq_true_2 by lia.
      rewrite Harr, Hts1 in Hser. destruct (Hts _ _ Hser) as [Hl HP].
      split; [f_equal; exact Hl|]. apply Forall_app. split; [exact HP|].
      repeat constructor. exact Ht.
    - rewrite list_lookup_insert_ne by exact Hne.
      rewrite bool_decide_eq_false_2 by lia.
      rewrite Nat.add_0_r, Harr, Hts1. apply Hts. }
  assert (Hlen' : length ts' = length (alternatives o)).
  { unfold ts'. rewrite length_insert, Harr, Hts1. exact Hlen. }
  set (c1 := (Z.of_nat n + 1) mod K).
  set (r1 := (Z.of_nat n + 1) / K).
  (* the decision, if one is due, changes nothing *)
  assert (Hcont : forall oc : BestOf',
             config oc = config o1 -> _times oc !! ps = Some ts' ->
             select_best ps c1 r1 oc = (oc, Return (c1, false))).
  { intros oc Hcfgc Htc.
    assert (Hcfgo : config oc = config o) by congruence.
    destruct (decide (c1 = 0)) as [Hc1|Hc1];
      [|apply select_best_not_due; intros [? _]; contradiction].
    destruct Hgo as [Hlt|(HK2 & Hlt & Hmono & lo & hi & Hlo & Hhi & HP)].
    - apply select_best_not_due. intros Hd.
      apply (decision_not_due o K n eq_refl HK Hlt).
      eapply decision_due_config; [exact Hcfgo|exact Hd].
    - rewrite Hc1.
      pose proof Hcfgo as Hcfgo'.
      injection Hcfgo' as _ _ _ Erc _ _ Esc _.
      apply (select_best_all_live ps r1 oc ts' lo hi Hmono Htc).
      + fold K in HK2. unfold K in HK2. lia.
      + apply Forall_lookup. intros i s Hi.
        destruct (Hts' i s Hi) as [Hl HPs]. split.
        * assert (Hin : (i < length (alternatives o))%nat).
          { rewrite <- Hlen'. eapply lookup_lt_Some. exact Hi. }
          assert (Hq1 : Z.of_nat n + 1 = K * r1).
          { pose proof (Z.div_mod (Z.of_nat n + 1) K ltac:(lia)) as Hdm.
            fold c1 r1 in Hdm. lia. }
          assert (Hvis : (1 <= visits K (S n) i)%nat).
          { apply visits_pos; [|unfold K; lia].
            assert (1 <= r1) by nia. unfold K in Hq1. nia. }
          intros ->. cbn [length] in Hl. lia.
        * eapply Forall_impl; [exact HPs|]. exact HP.
      + exact Hlo.
      + rewrite Esc. exact Hhi.
      + rewrite Erc. unfold r1. intros Heq.
        assert (Hub : (Z.of_nat n + 1) / K < total_rounds o).
        { apply Z.div_lt_upper_bound; [exact HK|]. exact Hlt. }
        lia. }
  destruct (after_recorded self cur ps 0 t w2 o1 me series)
    as (w3 & o3 & Hafter & Hn3 & Hp3 & Hs3 & Hu3 & Hi3 & Hcfg3 & Hex3
        & Hwf3 & Hcac3 & Hcur3 & Hrnd3 & Hts3); try assumption.
  { apply unmarked_not_blocked. exact Hunm. }
  { auto. }
  { congruence. }
  { rewrite Hcur1. lia. }
  { rewrite Hcur1. exact Hser. }
  { rewrite Hcur1, Hrnd1, HK1. unfold c0.
    rewrite (succ_mod K (Z.of_nat n)) by lia.
    rewrite <- (succ_div K (Z.of_nat n)) by lia.
    exact Hcont. }
  rewrite !Hcur1 in Hafter, Hcur3, Hrnd3, Hts3. rewrite Hrnd1 in Hrnd3.
  rewrite !HK1 in Hcur3, Hrnd3. unfold c0 in Hcur3, Hrnd3.
  rewrite (succ_mod K (Z.of_nat n)) in Hcur3, Hrnd3 by lia.
  rewrite <- (succ_div K (Z.of_nat n)) in Hrnd3 by lia.
  exists w3, out. split; [|split].
  - rewrite (call_evaluate _ _ _ _ _ _ _ _ _ _ _ _ _ _ Hbefore Hinv), Hafter.
    reflexivity.
  - split; [|split; [exact Hp3|]].
    + set (wI := set_nodes (nodes w3) w2).
      assert (HcalmI : calm self wI).
      { apply (calm_insert_node self w2 wI cur me
                 (set_blocked_by
                    (dd_get ∅ (_current_problem_size me) (_blocked_by me)).2
                    me)); try reflexivity.
        - exact Hcalm2.
        - exact Hme.
        - apply unmarked_dd_get.
        - cbn. exact Hn3. }
      eapply (calm_same_nodes self wI w3 o1 o3); auto.
      rewrite Hi3. eapply lookup_insert_self; exact Hi2.
    + exists o3. fold K.
      split; [rewrite Hi3; eapply lookup_insert_self; exact Hi2|].
      split; [congruence|]. split; [exact Hwf3|]. split; [congruence|].
      rewrite Nat2Z.inj_succ, <- Z.add_1_r.
      split; [exact Hcur3|]. split; [exact Hrnd3|].
      intros i series'.
      rewrite (config_times_arrays _ _ Hcfg3), Hts3.
      apply Hts'.
  - rewrite Hs3, Hs2, Hs1. reflexivity.
Qed.

Lemma cycle_goes_on_less P o n m :
  n <= m -> cycle_goes_on P o m -> cycle_goes_on P o n.
Proof.
  intros Hle [Hlt|(HK & Hlt & Hb)]; [left; lia|right].
  split; [exact HK|]. split; [lia|exact Hb].
Qed.

Lemma calls_cycle P self o ps (l : list (ExecId * Z * Args)) :
  quiet invoke P self ->
  stages o = 1 ->
  forallb (alternative_ok 1) (alternatives o) = true ->
  Forall (fun x => get_problem_size o x.2 = ps) l ->
  forall n w,
    sampling P self o ps n w ->
    (l <> [] -> cycle_goes_on P o (Z.of_nat (n + length l))) ->
    exists w' outs,
      calls invoke self l w = (w', Return outs) /\
      sampling P self o ps (n + length l) w' /\
      stdout w' = stdout w ++
        cycle_trace (Z.of_nat (length (alternatives o))) ps n (length l).
Proof.
  intros Hq Hst Hok Hl. induction Hl as [|[[eid st] args] l Hx Hl IH];
    intros n w Hs Hgo.
  - exists w, []. cbn. rewrite Nat.add_0_r, app_nil_r. auto.
  - cbn [length] in *. specialize (Hgo ltac:(discriminate)).
    destruct (call_step P self o ps n eid st args w Hq Hst Hok Hs Hx)
      as (w1 & out & Hcall & Hs1 & Hout1).
    { eapply cycle_goes_on_less; [|exact Hgo]. lia. }
    destruct (IH (S n) w1 Hs1) as (w2 & outs & Hcalls & Hs2 & Hout2).
    { intros _. replace (S n + length l)%nat with (n + S (length l))%nat
        by lia. exact Hgo. }
    exists w2, (out :: outs). split; [|split].
    + cbn [calls]. rewrite (run_bind_return _ _ _ _ _ Hcall).
      rewrite (run_bind_return _ _ _ _ _ Hcalls). reflexivity.
    + replace (n + S (length l))%nat with (S n + length l)%nat by lia.
      exact Hs2.
    + rewrite Hout2, Hout1, <- app_assoc. reflexivity.
Qed.

Lemma never_seen_sampling P self o ps w :
  calm self w -> _current_parents w = [] ->
  instances w !! self = Some o -> well_formed o ->
  never_seen o ps ->
  sampling P self o ps 0 w.
Proof.
  intros Hcalm Hp Ho Hwf (Hbm & Hbp & Hca & Hcr & Hts).
  split; [exact Hcalm|]. split; [exact Hp|]. exists o.
  split; [exact Ho|]. split; [reflexivity|]. split; [exact Hwf|].
  unfold cached, dd_peek. rewrite Hbm, Hbp, Hca, Hcr, Hts. cbn.
  split; [destruct (bool_decide _); reflexivity|].
  split; [rewrite Zmod_0_l; reflexivity|].
  split; [rewrite Zdiv_0_l; reflexivity|].
  intros i series Hi. unfold _times_arrays in Hi.
  apply lookup_replicate in Hi as [-> _]. split; [reflexivity|constructor].
Qed.

(** C4: a single-stage [BestOf] with K alternatives is called, from
    outside every tuned alternative and with callables that make no tuned
    call still evaluating, for a problem size it has never seen.  As long
    as the cycle goes on -- before the first round at which a decision is
    due, and beyond it, up to the exhaustion of [rounds], when the elapsed
    times are floats close enough for no decision to discard an
    alternative, however the medians and the limit are rounded --
    every call returns, the dispatches printed are the cycle
    0, 1, ..., K-1, 0, 1, ..., nothing is selected, after n calls the
    cursor is n mod K, the round is n / K and each alternative holds as
    many samples as the cycle has visited it; and the next call is
    dispatched to index n mod K. *)
Theorem round_robin_cycle
    (P : Q -> Prop) self o ps w (l : list (ExecId * Z * Args)) :
  quiet invoke P self ->
  calm self w -> _current_parents w = [] ->
  instances w !! self = Some o -> well_formed o ->
  stages o = 1 ->
  forallb (alternative_ok 1) (alternatives o) = true ->
  alternatives o <> [] ->
  never_seen o ps ->
  Forall (fun x => get_problem_size o x.2 = ps) l ->
  (l <> [] -> cycle_goes_on P o (Z.of_nat (length l))) ->
  let K := Z.of_nat (length (alternatives o)) in
  exists w' outs o',
    calls invoke self l w = (w', Return outs) /\
    stdout w' = stdout w ++ cycle_trace K ps 0 (length l) /\
    instances w' !! self = Some o' /\
    cached o' ps = None /\
    dd_peek 0 ps (_current_alternative o') = Z.of_nat (length l) mod K /\
    dd_peek 0 ps (_current_round o') = Z.of_nat (length l) / K /\
    (forall i series,
       dd_peek (_times_arrays o') ps (_times o') !! i = Some series ->
       length series = visits K (length l) i /\ Forall P series) /\
    (forall eid stage_arg args,
       get_problem_size o args = ps ->
       exists w1 cur c,
         before_alternative self eid stage_arg args w'
           = (w1, Return (0, Evaluate cur ps (Z.of_nat (length l) mod K) c)) /\
         stdout w1 = stdout w' ++ [(0, Z.of_nat (length l) mod K, ps)]).
Proof.
  intros Hq Hcalm Hp Ho Hwf Hst Hok Hne Hns Hl Hgo K.
  pose proof (never_seen_sampling P self o ps w Hcalm Hp Ho Hwf Hns) as Hs0.
  destruct (calls_cycle P self o ps l Hq Hst Hok Hl 0%nat w Hs0 Hgo)
    as (w' & outs & Hcalls & Hs & Hout).
  cbn [Nat.add] in Hs.
  pose proof Hs as (Hcalm' & Hp' & o' & Ho' & Hcfg & Hwf' & Hcac & Hcur & Hrnd
                    & Hts).
  exists w', outs, o'. fold K in Hcur, Hrnd, Hts, Hout.
  do 7 (split; [assumption|]).
  intros eid stage_arg args Hps.
  assert (HK : 0 < K).
  { unfold K. destruct (alternatives o); [congruence|cbn; lia]. }
  pose proof Hcfg as Hcfg'.
  injection Hcfg' as _ Ealt Egps _ Estg _ _ _.
  pose proof (Z.mod_pos_bound (Z.of_nat (length l)) K HK) as Hbound.
  set (c0 := Z.of_nat (length l) mod K) in *.
  destruct (lookup_lt_is_Some_2 (alternatives o) (Z.to_nat c0)) as [a Ha];
    [unfold K in Hbound; lia|].
  destruct (callable_of_single _ _ _ Hok Ha) as [c Hc].
  assert (Hps' : get_problem_size o' args = ps) by (rewrite Egps; exact Hps).
  destruct (before_evaluate_top self eid stage_arg args w' o' a c)
    as (w1 & cur & o1 & Hbefore & _ & _ & Hs1 & _); try assumption.
  { rewrite Estg. exact Hst. }
  { rewrite Hps'. exact Hcac. }
  { rewrite Hps', Hcur, Ealt, Py_index_nonneg by lia. exact Ha. }
  rewrite Hps', Hcur in Hbefore, Hs1.
  exists w1, cur, c. split; assumption.
Qed.

(** ** What a call shows before its alternative runs *)

Lemma views_kept_refl w : views_kept w w.
Proof. intros self o Ho. exists o. split; [exact Ho | apply same_view_refl]. Qed.

Lemma views_kept_trans w1 w2 w3 :
  views_kept w1 w2 -> views_kept w2 w3 -> views_kept w1 w3.
Proof.
  intros H12 H23 self o Ho.
  destruct (H12 self o Ho) as (o2 & Ho2 & Hv2).
  destruct (H23 self o2 Ho2) as (o3 & Ho3 & Hv3).
  exists o3. split; [exact Ho3 | eapply same_view_trans; eassumption].
Qed.

Lemma same_instances_views w w' : same_instances w w' -> views_kept w w'.
Proof. intros E self o Ho. exists o. rewrite E. split; [exact Ho | apply same_view_refl]. Qed.

Lemma on_self_views {A} self (m : St BestOf' A) :
  st_rel (S := BestOf') same_view m ->
  st_rel (S := World') views_kept (on_self self m).
Proof.
  intros Hm w w' r. unfold on_self.
  destruct (instances w !! self) as [o|] eqn:Ho.
  - destruct (m o) as [o' r'] eqn:E. intros Hr; inversion Hr; subst.
    intros self' o0 Ho0. cbn.
    destruct (decide (self = self')) as [<-|Hne].
    + exists o'. rewrite (lookup_insert_self _ _ _ _ Ho).
      split; [reflexivity|]. assert (o0 = o) by congruence. subst o0.
      eapply Hm. exact E.
    + exists o0. rewrite list_lookup_insert_ne by exact Hne.
      split; [exact Ho0 | apply same_view_refl].
  - intros Hr; inversion Hr; subst. apply views_kept_refl.
Qed.

Lemma read_current_alternative_rel ps :
  st_rel (S := BestOf') same_view (read_current_alternative ps).
Proof.
  intros o o' r. rewrite run_read_current_alternative.
  intros Hr; inversion Hr; subst. apply read_current_alternative_view.
Qed.

Lemma register_views self eid :
  st_rel (S := World') views_kept (_register self eid).
Proof.
  unfold _register.
  st_rel_core
    ltac:(first
      [ apply (st_rel_weaken _ _ _ same_instances_views);
        first [ apply get_self_same | apply new_execution_same ]
      | apply on_self_views ])
    views_kept_refl views_kept_trans.
  apply set_executions_view.
Qed.

(** Up to the call of the alternative, a call changes what no [BestOf]
    shows: construction parameters, selections, cursors, rounds and
    samples are as before. *)
Lemma before_alternative_views self eid stage_arg args :
  st_rel (S := World') views_kept (before_alternative self eid stage_arg args).
Proof.
  unfold before_alternative.
  st_rel_core
    ltac:(first
      [ apply register_views
      | apply (st_rel_weaken _ _ _ same_instances_views);
        first [ apply get_self_same | apply set_problem_size_same
              | apply block_parent_same ]
      | apply on_self_views;
        first [ apply read_best_view | apply read_current_alternative_rel ] ])
    views_kept_refl views_kept_trans;
    apply same_instances_views; reflexivity.
Qed.

(** C2: in a call that evaluates an alternative, when the alternative has
    returned and the call's node is then blocked by one of its children
    under its current problem size, the call returns the alternative's
    output and leaves every attribute of every [BestOf] as the alternative
    left it: no sample is appended, cursor and round are unchanged.  It
    only pops its node from the stack of parents.  Before the alternative
    ran, the call had changed nothing of what any [BestOf] shows of its
    selections, cursors, rounds and samples. *)
Theorem blocked_call_records_nothing
    self eid stage_arg args w w1 w2 stage cur ps ca c out t me :
  before_alternative self eid stage_arg args w
    = (w1, Return (stage, Evaluate cur ps ca c)) ->
  invoke c args w1 = (w2, Return (out, t)) ->
  _current_parents w2 <> [] ->
  nodes w2 !! cur = Some me ->
  blocked me = true ->
  exists w3,
    call invoke self eid stage_arg args w = (w3, Return out) /\
    views_kept w w1 /\
    instances w3 = instances w2 /\
    stdout w3 = stdout w2 /\
    _current_parents w3 = removelast (_current_parents w2).
Proof.
  intros Hb Hi Hne Hn Hbl.
  destruct (after_blocked self cur ps ca stage t w2 me Hne Hn Hbl)
    as (w3 & Ha & H1 & H2 & H3).
  exists w3. split; [|split; [|auto]].
  - rewrite (call_evaluate _ _ _ _ _ _ _ _ _ _ _ _ _ _ Hb Hi), Ha. reflexivity.
  - eapply before_alternative_views. exact Hb.
Qed.

(** ** The reports: medians and speedups *)

(** [medians] has an entry for exactly the problem sizes that have
    samples.  In a well-formed [BestOf] the entry holds one median for each
    alternative: NaN where the alternative has no sample, and otherwise a
    number which, the samples being floats and the rounding keeping the
    order, lies within any bounds that all the samples of the alternative
    are within. *)
Theorem medians_per_alternative o ps :
  well_formed o ->
  (medians o !! ps = None <-> _times o !! ps = None) /\
  forall ts,
    _times o !! ps = Some ts ->
    exists meds,
      medians o !! ps = Some meds /\
      length meds = length (alternatives o) /\
      forall i series,
        ts !! i = Some series ->
        (series = [] -> meds !! i = Some None) /\
        (series <> [] ->
         exists m,
           meds !! i = Some (Some m) /\
           (monotone_rounding -> Forall Float.is_float series ->
            forall lo hi, Forall (within lo hi) series -> within lo hi m)).
Proof.
  intros (_ & Hlen & _). unfold medians. rewrite lookup_fmap. split.
  - destruct (_times o !! ps); cbn; split; congruence.
  - intros ts Hts. rewrite Hts. cbn. eexists. split; [reflexivity|].
    split; [rewrite length_fmap; eapply Hlen; exact Hts|].
    intros i series Hi. rewrite list_lookup_fmap, Hi. cbn. split.
    + intros ->. reflexivity.
    + intros Hne. rewrite bool_decide_eq_true_2
        by (destruct series; [congruence|discriminate]).
      destruct (median_is_Some series Hne) as [m Hm]. exists m.
      split; [rewrite Hm; reflexivity|]. intros Hmono Hfl lo hi Hb.
      destruct (median_within lo hi series Hmono Hne)
        as (m' & Hm' & Hin & _); [|congruence].
      apply Forall_forall. intros t Ht. rewrite Forall_forall in Hb, Hfl.
      split; [apply Hb|apply Hfl]; exact Ht.
Qed.

Lemma set_best_idx_id o : set_best_idx (best_idx o) o = o.
Proof. destruct o; reflexivity. Qed.

Lemma run_read_best_idx ps o :
  read_best_idx ps o =
  (set_best_idx (dd_get (-1) ps (best_idx o)).2 o,
   Return (dd_get (-1) ps (best_idx o)).1).
Proof. unfold read_best_idx. destruct (dd_get _ _ _). reflexivity. Qed.

(** Binding -1 to a problem size without selection keeps the instance
    well formed. *)
Lemma set_best_idx_wf o ps :
  well_formed o -> well_formed (set_best_idx (<[ps := -1]> (best_idx o)) o).
Proof.
  intros (H1 & H2 & H3). split; [exact H1|]. split; [exact H2|].
  intros ps' i. cbn [best_idx set_best_idx with_state].
  destruct (decide (ps = ps')) as [<-|Hne].
  - rewrite lookup_insert_eq. intros [= <-] Hi. congruence.
  - rewrite lookup_insert_ne by exact Hne. intros Hi Hn.
    exact (H3 ps' i Hi Hn).
Qed.

Lemma max_is_Some (meds : list Float.t) :
  meds <> [] -> is_Some (Speedup.max_ meds).
Proof. destruct meds; [congruence|]. intros _. eexists. reflexivity. Qed.

Lemma speedup_at_is_Some o ps i ts :
  well_formed o -> _times o !! ps = Some ts ->
  best_idx o !! ps = Some i -> i <> -1 ->
  is_Some (speedup_at o ps i).
Proof.
  intros (_ & Hlen & Hsel) Hts Hi Hn.
  destruct (Hsel ps i Hi Hn) as (a & Hr & _).
  unfold speedup_at, medians. rewrite lookup_fmap, Hts. cbn.
  set (meds := _ <$> ts).
  assert (Hl : length meds = length (alternatives o)).
  { unfold meds. rewrite length_fmap. eapply Hlen. exact Hts. }
  destruct (max_is_Some meds) as [top ->].
  { destruct meds; [cbn in Hl; lia|discriminate]. }
  cbn. rewrite Py_index_nonneg by lia.
  destruct (lookup_lt_is_Some_2 meds (Z.to_nat i)) as [m ->]; [lia|].
  cbn. eexists. reflexivity.
Qed.

Lemma elem_of_cons_ne {A} `{EqDecision A} (x k : A) (l : list A) :
  x <> k -> bool_decide (x ∈ k :: l) = bool_decide (x ∈ l).
Proof.
  intros Hne. apply bool_decide_ext. rewrite elem_of_cons. tauto.
Qed.

(** The loop of [speedups] over problem sizes that all have samples. *)
Lemma speedups_loop_spec (keys : list PS) :
  forall o out,
    well_formed o ->
    NoDup keys ->
    (forall ps, ps ∈ keys -> is_Some (_times o !! ps)) ->
    exists bi out',
      speedups_loop (medians o) keys out o
        = (set_best_idx bi o, Return out') /\
      (forall ps,
         bi !! ps =
         match best_idx o !! ps with
         | Some i => Some i
         | None => if bool_decide (ps ∈ keys) then Some (-1) else None
         end) /\
      (forall ps,
         out' !! ps =
         if bool_decide (ps ∈ keys) then
           match best_idx o !! ps with
           | Some i => if bool_decide (i = -1) then out !! ps
                       else speedup_at o ps i
           | None => out !! ps
           end
         else out !! ps).
Proof.
  induction keys as [|k keys IH]; intros o out Hw Hnd Hin.
  - exists (best_idx o), out. rewrite set_best_idx_id.
    split; [reflexivity|]. split; intros ps.
    + destruct (best_idx o !! ps); reflexivity.
    + reflexivity.
  - apply NoDup_cons in Hnd as [Hk Hnd].
    destruct (Hin k ltac:(left)) as [ts Hts].
    assert (Hin' : forall ps, ps ∈ keys -> is_Some (_times o !! ps))
      by (intros ps Hps; apply Hin; right; exact Hps).
    cbn [speedups_loop]. rewrite run_bind, run_read_best_idx.
    cbn beta iota. unfold dd_get.
    destruct (best_idx o !! k) as [i|] eqn:Hi; cbn [fst snd].
    + rewrite set_best_idx_id. destruct (decide (i = -1)) as [->|Hn].
      * rewrite bool_decide_eq_false_2 by congruence.
        destruct (IH o out Hw Hnd Hin') as (bi & out' & Hrun & Hbi & Hout).
        exists bi, out'. split; [exact Hrun|]. split; intros ps.
        { rewrite Hbi. destruct (best_idx o !! ps) eqn:Hp; [reflexivity|].
          rewrite elem_of_cons_ne by congruence. reflexivity. }
        { rewrite Hout. destruct (decide (ps = k)) as [->|Hne].
          - rewrite (bool_decide_eq_false_2 (k ∈ keys)) by exact Hk.
            rewrite bool_decide_eq_true_2 by left. rewrite Hi.
            reflexivity.
          - rewrite elem_of_cons_ne by exact Hne. reflexivity. }
      * rewrite bool_decide_eq_true_2 by exact Hn.
        destruct (speedup_at_is_Some o k i ts Hw Hts Hi Hn) as [s Hs].
        pose proof Hs as Hs'. unfold speedup_at in Hs'.
        destruct (medians o !! k) as [meds|]; [|discriminate]. cbn in Hs'.
        destruct (Speedup.max_ meds) as [top|] eqn:Et; [|discriminate].
        cbn in Hs'.
        destruct (Py.index meds i) as [m|] eqn:Em; [|discriminate].
        cbn in Hs'. injection Hs' as <-.
        destruct (IH o (<[k := Speedup.div top m]> out) Hw Hnd Hin')
          as (bi & out' & Hrun & Hbi & Hout).
        st_run. rewrite Et. st_run. rewrite Em. st_run.
        exists bi, out'. split; [exact Hrun|].
        split; intros ps.
        { rewrite Hbi. destruct (best_idx o !! ps) eqn:Hp; [reflexivity|].
          rewrite elem_of_cons_ne by congruence. reflexivity. }
        { rewrite Hout. destruct (decide (ps = k)) as [->|Hne].
          - rewrite (bool_decide_eq_false_2 (k ∈ keys)) by exact Hk.
            rewrite bool_decide_eq_true_2 by left.
            rewrite Hi, bool_decide_eq_false_2 by exact Hn.
            rewrite lookup_insert_eq, Hs. reflexivity.
          - rewrite lookup_insert_ne by congruence.
            rewrite elem_of_cons_ne by exact Hne. reflexivity. }
    + rewrite bool_decide_eq_false_2 by congruence.
      set (o1 := set_best_idx (<[k := -1]> (best_idx o)) o).
      assert (Hw1 : well_formed o1) by (apply set_best_idx_wf; exact Hw).
      destruct (IH o1 out Hw1 Hnd Hin') as (bi & out' & Hrun & Hbi & Hout).
      exists bi, out'. split; [exact Hrun|].
      unfold o1 in Hbi, Hout.
      cbn [best_idx set_best_idx with_state] in Hbi, Hout.
      split; intros ps.
      { rewrite Hbi. destruct (decide (ps = k)) as [->|Hne].
        - rewrite lookup_insert_eq, Hi.
          rewrite bool_decide_eq_true_2 by left. reflexivity.
        - rewrite lookup_insert_ne by congruence.
          rewrite elem_of_cons_ne by exact Hne. reflexivity. }
      { rewrite Hout. destruct (decide (ps = k)) as [->|Hne].
        - rewrite (bool_decide_eq_false_2 (k ∈ keys)) by exact Hk.
          rewrite bool_decide_eq_true_2 by left. rewrite Hi. reflexivity.
        - rewrite lookup_insert_ne by congruence.
          rewrite elem_of_cons_ne by exact Hne. reflexivity. }
Qed.

Lemma elem_of_keys_times o ps :
  ps ∈ (map_to_list (_times o)).*1 <-> is_Some (_times o !! ps).
Proof.
  rewrite list_elem_of_fmap. split.
  - intros ([k ts] & -> & Hin). apply elem_of_map_to_list in Hin.
    cbn. eauto.
  - intros [ts Hts]. exists (ps, ts). split; [reflexivity|].
    apply elem_of_map_to_list. exact Hts.
Qed.

(** [speedups] on a well-formed instance. *)
Lemma speedups_run o :
  well_formed o ->
  exists bi out,
    speedups o = (set_best_idx bi o, Return out) /\
    (forall ps,
       bi !! ps =
       match best_idx o !! ps with
       | Some i => Some i
       | None => (fun _ => -1) <$> _times o !! ps
       end) /\
    (forall ps,
       out !! ps =
       match _times o !! ps, best_idx o !! ps with
       | Some _, Some i => if bool_decide (i = -1) then None
                           else speedup_at o ps i
       | _, _ => None
       end).
Proof.
  intros Hw.
  destruct (speedups_loop_spec (map_to_list (_times o)).*1 o ∅ Hw)
    as (bi & out & Hrun & Hbi & Hout).
  { apply NoDup_fst_map_to_list. }
  { intros ps. apply elem_of_keys_times. }
  exists bi, out. split; [exact Hrun|]. split; intros ps.
  - rewrite Hbi. destruct (best_idx o !! ps); [reflexivity|].
    destruct (_times o !! ps) as [ts|] eqn:Hts; cbn.
    + rewrite bool_decide_eq_true_2; [reflexivity|].
      apply elem_of_keys_times. eauto.
    + rewrite bool_decide_eq_false_2; [reflexivity|].
      rewrite elem_of_keys_times, Hts. intros [? ?]; discriminate.
  - rewrite Hout, lookup_empty.
    destruct (_times o !! ps) as [ts|] eqn:Hts.
    + rewrite bool_decide_eq_true_2 by (apply elem_of_keys_times; eauto).
      destruct (best_idx o !! ps) as [i|]; reflexivity.
    + rewrite bool_decide_eq_false_2; [reflexivity|].
      rewrite elem_of_keys_times, Hts. intros [? ?]; discriminate.
Qed.

(** [speedups] returns on a well-formed [BestOf].  Its result has a key
    for exactly the problem sizes that have samples and a selection
    ([best_idx] other than -1), with the largest median over the median of
    the selected alternative as value.  It changes one attribute,
    [best_idx], where every problem size that has samples and had no entry
    is now bound to -1. *)
Theorem speedups_of_selected o :
  well_formed o ->
  exists bi out,
    speedups o = (set_best_idx bi o, Return out) /\
    (forall ps,
       is_Some (out !! ps) <->
       is_Some (_times o !! ps) /\
       exists i, best_idx o !! ps = Some i /\ i <> -1) /\
    (forall ps i s,
       best_idx o !! ps = Some i -> out !! ps = Some s ->
       exists meds top m,
         medians o !! ps = Some meds /\
         Speedup.max_ meds = Some top /\
         meds !! Z.to_nat i = Some m /\
         s = Speedup.div top m) /\
    (forall ps,
       bi !! ps =
       match best_idx o !! ps with
       | Some i => Some i
       | None => (fun _ => -1) <$> _times o !! ps
       end).
Proof.
  intros Hw. destruct (speedups_run o Hw) as (bi & out & Hrun & Hbi & Hout).
  exists bi, out. split; [exact Hrun|]. split; [|split; [|exact Hbi]].
  - intros ps. rewrite Hout.
    destruct (_times o !! ps) as [ts|] eqn:Hts.
    + destruct (best_idx o !! ps) as [i|] eqn:Hi.
      * destruct (decide (i = -1)) as [->|Hn].
        { rewrite bool_decide_eq_true_2 by reflexivity. split.
          - intros [? ?]; discriminate.
          - intros (_ & i & [= <-] & Hi'). congruence. }
        { rewrite bool_decide_eq_false_2 by exact Hn. split.
          - intros _. split; [eauto|]. exists i. auto.
          - intros _. eapply speedup_at_is_Some; eassumption. }
      * split; [intros [? ?]; discriminate|].
        intros (_ & i & Hi' & _). discriminate.
    + split; [intros [? ?]; discriminate|].
      intros ([? ?] & _). discriminate.
  - intros ps i s Hi Hs. rewrite Hout, Hi in Hs.
    destruct (_times o !! ps) as [ts|] eqn:Hts; [|discriminate].
    destruct (bool_decide (i = -1)) eqn:Hn; [discriminate|].
    apply bool_decide_eq_false in Hn.
    destruct Hw as (_ & _ & Hsel).
    destruct (Hsel ps i Hi Hn) as (a & Hr & _).
    unfold speedup_at in Hs.
    destruct (medians o !! ps) as [meds|]; [|discriminate]. cbn in Hs.
    destruct (Speedup.max_ meds) as [top|] eqn:Et; [|discriminate].
    cbn in Hs. rewrite Py_index_nonneg in Hs by lia.
    destruct (meds !! Z.to_nat i) as [m|] eqn:Em; [|discriminate].
    cbn in Hs. injection Hs as <-. exists meds, top, m. auto.
Qed.

(** After [speedups] on a well-formed [BestOf],
    [best_method_has_been_found] is True for the arguments of every
    problem size that has samples, whether or not a selection exists for
    it: [speedups] changes no attribute but [best_idx] and the selection
    cached for each problem size is as before. *)
Theorem speedups_marks_sampled_sizes_found o args :
  well_formed o ->
  is_Some (_times o !! get_problem_size o args) ->
  exists o' out,
    speedups o = (o', Return out) /\
    best_method_has_been_found o' args = true /\
    o' = set_best_idx (best_idx o') o /\
    forall ps, cached o' ps = cached o ps.
Proof.
  intros Hw [ts Hts].
  destruct (speedups_run o Hw) as (bi & out & Hrun & Hbi & _).
  exists (set_best_idx bi o), out. split; [exact Hrun|].
  split; [|split; [reflexivity|intros ps; reflexivity]].
  unfold best_method_has_been_found.
  cbn [best_idx get_problem_size set_best_idx with_state].
  apply bool_decide_eq_true_2. rewrite Hbi.
  destruct (best_idx o !! get_problem_size o args); [eauto|].
  rewrite Hts. cbn. eauto.
Qed.

(** ** [best_method_has_been_found] under calls *)

Lemma keeps_settled_refl o : keeps_settled o o.
Proof. intros Hs; exact Hs. Qed.

Lemma keeps_settled_trans o1 o2 o3 :
  keeps_settled o1 o2 -> keeps_settled o2 o3 -> keeps_settled o1 o3.
Proof. unfold keeps_settled. auto. Qed.

Lemma keeps_all_settled_refl w : keeps_all_settled w w.
Proof. intros Hs; exact Hs. Qed.

Lemma keeps_all_settled_trans w1 w2 w3 :
  keeps_all_settled w1 w2 -> keeps_all_settled w2 w3 ->
  keeps_all_settled w1 w3.
Proof. unfold keeps_all_settled. auto. Qed.

Lemma st_rel_both {S A} (R1 R2 R : S -> S -> Prop) (m : St S A) :
  (forall s s', R1 s s' -> R2 s s' -> R s s') ->
  st_rel R1 m -> st_rel R2 m -> st_rel R m.
Proof. intros HR H1 H2 s s' r Hr. apply HR; [eapply H1|eapply H2]; exact Hr. Qed.

Lemma found_transfer o o' :
  best_idx o' = best_idx o -> (forall ps, cached o' ps = cached o ps) ->
  found_is_cached o -> found_is_cached o'.
Proof. intros Hb Hc Hf ps. rewrite Hb, Hc. apply Hf. Qed.

Lemma settled_of_keeps o o' :
  keeps_well_formed o o' -> keeps_selection o o' -> keeps_settled o o'.
Proof.
  intros Hw Hk [Hwf Hf]. split; [apply Hw; exact Hwf|].
  apply (found_transfer o o'); [|intros ps; eapply keeps_selection_cached;
                                 exact Hk|exact Hf].
  destruct Hk as (_ & Hs & _). injection Hs as -> _ _ _. reflexivity.
Qed.

Lemma read_best_settled ps :
  st_rel (S := BestOf') keeps_settled (read_best ps).
Proof.
  intros o o' r Hr [Hw Hf]. split; [eapply read_best_wf; eassumption|].
  revert Hr. unfold read_best, dd_get.
  destruct (bool_decide (stages o = 1)) eqn:Es.
  - destruct (best_method o !! ps) as [v|] eqn:Ev; intros Hr;
      inversion Hr; subst; apply (found_transfer o); try exact Hf;
      try reflexivity; intros ps'; unfold cached, dd_peek; cbn; rewrite Es.
    destruct (decide (ps = ps')) as [<-|Hne].
    + rewrite lookup_insert_eq, Ev. reflexivity.
    + rewrite lookup_insert_ne by exact Hne. reflexivity.
  - destruct (best_pipeline o !! ps) as [v|] eqn:Ev; intros Hr;
      inversion Hr; subst; apply (found_transfer o); try exact Hf;
      try reflexivity; intros ps'; unfold cached, dd_peek; cbn; rewrite Es.
    destruct (decide (ps = ps')) as [<-|Hne].
    + rewrite lookup_insert_eq, Ev. reflexivity.
    + rewrite lookup_insert_ne by exact Hne. reflexivity.
Qed.

Lemma read_current_alternative_settled ps :
  st_rel (S := BestOf') keeps_settled (read_current_alternative ps).
Proof.
  eapply st_rel_both; [exact settled_of_keeps|apply read_cursor_wf|
                       apply read_dd_keeps].
Qed.

Lemma record_sample_settled ps ca stage t :
  st_rel (S := BestOf') keeps_settled (record_sample ps ca stage t).
Proof.
  eapply st_rel_both; [exact settled_of_keeps|apply record_sample_wf|
                       apply record_sample_keeps].
Qed.

Lemma commit_settled ps ca r :
  st_rel (S := BestOf') keeps_settled (commit ps ca r).
Proof.
  eapply st_rel_both; [exact settled_of_keeps|apply commit_wf|
                       apply commit_keeps].
Qed.

Lemma select_best_settled ps ca r :
  st_rel (S := BestOf') keeps_settled (select_best ps ca r).
Proof.
  intros o o' res Hrun [Hw Hf].
  split; [eapply select_best_wf; eassumption|].
  unfold select_best in Hrun. st_red.
  destruct (bool_decide (ca = 0) && _); [|inversion Hrun; subst; exact Hf].
  rewrite run_read_times in Hrun. cbn beta iota in Hrun.
  pose proof (dd_get_times_length o ps Hw) as [Hlen Hd].
  set (o1 := set_times _ o) in *. set (ts := (dd_get _ _ _).1) in *.
  assert (Hf1 : found_is_cached o1) by exact Hf.
  destruct (Float.min_ (Float.median <$> ts)) as [min_time|];
    [|inversion Hrun; subst; exact Hf1].
  st_red.
  destruct (bool_decide (r = total_rounds o) || _);
    [|inversion Hrun; subst; exact Hf1].
  destruct (Float.index_of min_time (Float.median <$> ts)) as [idx|] eqn:Eidx;
    [|inversion Hrun; subst; exact Hf1].
  st_red.
  apply index_of_lt in Eidx. rewrite length_fmap, Hlen in Eidx.
  destruct (lookup_lt_is_Some_2 _ _ Eidx) as [a Ha].
  rewrite Py_index_of_nat, Ha in Hrun. st_red.
  assert (Hgoal : forall o2,
            best_idx o2 = <[ps := Z.of_nat idx]> (best_idx o) ->
            cached o2 ps = Some a.2 ->
            (forall ps', ps <> ps' -> cached o2 ps' = cached o ps') ->
            found_is_cached o2).
  { intros o2 E1 E2 E3 ps'. rewrite E1.
    destruct (decide (ps = ps')) as [<-|Hne].
    - rewrite lookup_insert_eq, E2. split; eauto.
    - rewrite lookup_insert_ne, (E3 _ Hne) by exact Hne. apply Hf. }
  destruct (bool_decide (stages o = 1)) eqn:Es;
    inversion Hrun; subst; apply Hgoal; try reflexivity;
    unfold cached, dd_peek; cbn; rewrite Es.
  - rewrite lookup_insert_eq. reflexivity.
  - intros ps' Hne. rewrite lookup_insert_ne by exact Hne. reflexivity.
  - rewrite lookup_insert_eq. reflexivity.
  - intros ps' Hne. rewrite lookup_insert_ne by exact Hne. reflexivity.
Qed.

Lemma same_instances_settled w w' :
  same_instances w w' -> keeps_all_settled w w'.
Proof. unfold same_instances, keeps_all_settled. intros ->. auto. Qed.

Lemma on_self_settled {A} self (m : St BestOf' A) :
  st_rel (S := BestOf') keeps_settled m ->
  st_rel (S := World') keeps_all_settled (on_self self m).
Proof.
  intros Hm w w' r. unfold on_self.
  destruct (instances w !! self) as [o|] eqn:Ho.
  - destruct (m o) as [o' r'] eqn:E. intros Hr; inversion Hr; subst.
    intros Hw. cbn. apply Forall_insert; [exact Hw|].
    eapply Hm; [exact E|]. eapply Forall_lookup_1; eassumption.
  - intros Hr; inversion Hr; subst. apply keeps_all_settled_refl.
Qed.

Lemma set_executions_settled ex o : keeps_settled o (set_executions ex o).
Proof.
  intros [Hw Hf]. split.
  - revert Hw. apply well_formed_transfer; try reflexivity.
    intros (_ & Hts & _). exact Hts.
  - exact Hf.
Qed.

Lemma register_settled self eid :
  st_rel (S := World') keeps_all_settled (_register self eid).
Proof.
  unfold _register.
  st_rel_core
    ltac:(first
      [ apply (st_rel_weaken _ _ _ same_instances_settled);
        first [ apply get_self_same | apply new_execution_same ]
      | apply on_self_settled, st_rel_modify; intros ?;
        apply set_executions_settled ])
    keeps_all_settled_refl keeps_all_settled_trans.
Qed.

Lemma before_alternative_settled self eid stage_arg args :
  st_rel (S := World') keeps_all_settled
    (before_alternative self eid stage_arg args).
Proof.
  unfold before_alternative.
  st_rel_core
    ltac:(first
      [ apply register_settled
      | apply (st_rel_weaken _ _ _ same_instances_settled);
        first [ apply get_self_same | apply set_problem_size_same
              | apply block_parent_same ]
      | apply on_self_settled;
        first [ apply read_best_settled
              | apply read_current_alternative_settled ] ])
    keeps_all_settled_refl keeps_all_settled_trans;
    intros Hw; exact Hw.
Qed.

Lemma after_alternative_settled self cur ps ca stage t :
  st_rel (S := World') keeps_all_settled
    (after_alternative self cur ps ca stage t).
Proof.
  unfold after_alternative.
  st_rel_core
    ltac:(first
      [ apply (st_rel_weaken _ _ _ same_instances_settled);
        first [ apply pop_parent_same | apply is_blocked_same
              | apply unblock_parent_same ]
      | apply on_self_settled;
        first [ apply record_sample_settled | apply select_best_settled
              | apply commit_settled ] ])
    keeps_all_settled_refl keeps_all_settled_trans.
Qed.

Lemma init_settled nm alts gps rounds speedup prune stg o :
  __init__ nm alts gps rounds speedup prune stg = Return o -> settled o.
Proof.
  intros Hi. split; [eapply init_well_formed; exact Hi|].
  revert Hi. unfold __init__.
  repeat match goal with |- context [if ?b then _ else _] => destruct b end;
    intros Hr; inversion Hr; subst.
  intros ps. unfold cached, dd_peek. cbn. rewrite !lookup_empty.
  destruct (bool_decide (stg = 1)); cbn; split; intros [? ?]; discriminate.
Qed.

(** Under calls alone [best_method_has_been_found] tells whether the fast
    path is taken.  [__init__] builds a [BestOf] whose [best_idx] has no
    entry, and a call keeps, in every [BestOf] of the process, the entries
    of [best_idx] on exactly the problem sizes with a cached selection,
    provided the callables do (they touch the engine through calls only).
    In such a [BestOf], [best_method_has_been_found(args)] is True exactly
    when a selection is cached for the problem size of [args]. *)
Theorem found_exactly_when_cached :
  (forall nm alts gps rounds speedup prune stg o,
     __init__ nm alts gps rounds speedup prune stg = Return o ->
     settled o) /\
  ((forall c a, st_rel (S := World') keeps_all_settled (invoke c a)) ->
   forall self eid stage_arg args w w' r,
     Forall settled (instances w) ->
     call invoke self eid stage_arg args w = (w', r) ->
     Forall settled (instances w')) /\
  (forall o args,
     settled o ->
     best_method_has_been_found o args = true <->
     is_Some (cached o (get_problem_size o args))).
Proof.
  split; [exact init_settled|]. split.
  - intros Hinv self eid stage_arg args w w' r Hw Hrun.
    assert (Hcall : st_rel (S := World') keeps_all_settled
                      (call invoke self eid stage_arg args)).
    { unfold call.
      st_rel_core
        ltac:(first [ apply before_alternative_settled | apply Hinv
                    | apply after_alternative_settled ])
        keeps_all_settled_refl keeps_all_settled_trans. }
    exact (Hcall _ _ _ Hrun Hw).
  - intros o args [_ Hf]. unfold best_method_has_been_found.
    rewrite bool_decide_eq_true. apply Hf.
Qed.

(** ** The speedup of a selection *)

Lemma max_fold_spec (l : list Q) (x : Q) :
  exists m,
    foldl (fun m y => if Float.lt m y then y else m) (Some x) (Some <$> l)
      = Some m /\
    (m = x \/ m ∈ l) /\ (x <= m)%Q /\ (forall y, y ∈ l -> (y <= m)%Q).
Proof.
  revert x. induction l as [|y l IH]; intros x.
  - exists x. cbn. split; [reflexivity|]. split; [auto|].
    split; [apply Qle_refl|]. intros y Hy. inversion Hy.
  - cbn. destruct (Qle_bool y x) eqn:E; cbn.
    + apply Qle_bool_iff in E.
      destruct (IH x) as (m & Hm & Hin & Hx & Hall).
      exists m. split; [exact Hm|]. split.
      * destruct Hin; [auto|right; right; assumption].
      * split; [exact Hx|]. intros z Hz. inversion Hz; subst; [|auto].
        eapply Qle_trans; eassumption.
    + assert (Hlt : (x < y)%Q).
      { apply Qnot_le_lt. intros Hle. apply Qle_bool_iff in Hle. congruence. }
      destruct (IH y) as (m & Hm & Hin & Hy & Hall).
      exists m. split; [exact Hm|]. split.
      * right. destruct Hin as [->|Hin]; [left|right; assumption].
      * split.
        -- eapply Qle_trans; [|exact Hy]. apply Qlt_le_weak. exact Hlt.
        -- intros z Hz. inversion Hz; subst; auto.
Qed.

Lemma max_spec (meds : list Float.t) :
  Forall is_Some meds -> meds <> [] ->
  exists m,
    Speedup.max_ meds = Some (Some m) /\
    (exists j, meds !! j = Some (Some m)) /\
    forall j mj, meds !! j = Some (Some mj) -> (mj <= m)%Q.
Proof.
  intros Hall Hne. destruct (all_Some_fmap _ Hall) as [l ->].
  destruct l as [|x l]; [exfalso; apply Hne; reflexivity|]. cbn.
  destruct (max_fold_spec l x) as (m & Hm & Hin & Hx & Hl).
  exists m. rewrite Hm. split; [reflexivity|]. split.
  - destruct Hin as [->|Hin]; [exists 0%nat; reflexivity|].
    apply list_elem_of_lookup in Hin as [j Hj]. exists (S j).
    apply (lookup_fmap_Some l j m). exact Hj.
  - intros [|j] mj.
    + intros [= <-]. exact Hx.
    + intros Hj. apply (lookup_fmap_Some l j mj) in Hj.
      apply Hl. eapply list_elem_of_lookup_2; eassumption.
Qed.

(** The medians of [medians] are those the decision computes. *)
Lemma medians_entry (ts : list (list Q)) :
  (fun s : list Q =>
     if bool_decide (length s ≠ 0%nat) then Float.median s else None) <$> ts
  = Float.median <$> ts.
Proof.
  apply list_fmap_ext. intros i s _.
  destruct s; [reflexivity|]. rewrite bool_decide_eq_true_2 by discriminate.
  reflexivity.
Qed.

(** What a decision that selects has done. *)
Lemma select_best_selected ps ca r o o' ca' ts :
  _times o !! ps = Some ts ->
  select_best ps ca r o = (o', Return (ca', true)) ->
  exists min_time idx,
    Float.min_ (Float.median <$> ts) = Some min_time /\
    Float.index_of min_time (Float.median <$> ts) = Some idx /\
    best_idx o' = <[ps := Z.of_nat idx]> (best_idx o) /\
    _times o' = _times o.
Proof.
  intros Hts. unfold select_best. st_red.
  destruct (bool_decide (ca = 0) && _); [|intros Hr; inversion Hr].
  rewrite run_read_times, (dd_get_present _ _ _ _ Hts). cbn [fst snd].
  rewrite set_times_id.
  destruct (Float.min_ (Float.median <$> ts)) as [min_time|] eqn:Emin;
    [|intros Hr; inversion Hr].
  st_red.
  destruct (bool_decide (r = total_rounds o) || _);
    [|intros Hr; inversion Hr].
  destruct (Float.index_of min_time (Float.median <$> ts)) as [idx|] eqn:Eidx;
    [|intros Hr; inversion Hr].
  st_red.
  destruct (Py.index (alternatives o) (Z.of_nat idx)) as [a|];
    [|intros Hr; inversion Hr].
  st_run. intros Hr. exists min_time, idx.
  split; [reflexivity|]. split; [exact Eidx|].
  destruct (bool_decide (stages o = 1)); inversion Hr; subst;
    split; reflexivity.
Qed.

Lemma medians_within lo hi (ts : list (list Q)) :
  monotone_rounding ->
  Forall (fun s => s <> [] /\
                   Forall (fun t => within lo hi t /\ Float.is_float t) s)
         ts ->
  Forall (fun x => exists m, x = Some m /\ within lo hi m)
    (Float.median <$> ts).
Proof.
  intros Hmono Hall. apply Forall_fmap. eapply Forall_impl; [exact Hall|].
  intros s [Hne Hs]. cbn.
  destruct (median_within lo hi s Hmono Hne Hs) as (m & Hm & Hin & _).
  eauto.
Qed.

(** With a rounding that keeps the order and leaves 1 as it is: when a
    decision selects for a problem size whose samples are floats that all
    lie between [lo > 0] and [hi], [speedups] then reports for that
    problem size a number between 1 and the float that [hi / lo] rounds
    to. *)
Theorem selected_speedup_bounds ps ca r o o' ca' ts lo hi :
  monotone_rounding ->
  (Float.round 1 == 1)%Q ->
  well_formed o ->
  _times o !! ps = Some ts ->
  Forall (fun s => s <> [] /\
                   Forall (fun t => within lo hi t /\ Float.is_float t) s)
         ts ->
  (0 < lo)%Q ->
  select_best ps ca r o = (o', Return (ca', true)) ->
  exists o'' out s,
    speedups o' = (o'', Return out) /\
    out !! ps = Some (Speedup.Fin s) /\
    (1 <= s <= Float.round (hi / lo))%Q.
Proof.
  intros Hmono Hone Hw Hts Hall Hlo Hsel.
  pose proof (select_best_wf _ _ _ _ _ _ Hsel Hw) as Hw'.
  destruct (select_best_selected _ _ _ _ _ _ _ Hts Hsel)
    as (min_time & idx & Hmin & Hidx & Hbi & Htimes).
  destruct (speedups_run o' Hw') as (bi & out & Hrun & _ & Hout).
  specialize (Hout ps). rewrite Htimes, Hts, Hbi, lookup_insert_eq in Hout.
  rewrite bool_decide_eq_false_2 in Hout by lia.
  unfold speedup_at, medians in Hout.
  rewrite lookup_fmap, Htimes, Hts in Hout. cbn in Hout.
  rewrite medians_entry in Hout.
  set (meds := Float.median <$> ts) in *.
  pose proof (medians_within lo hi ts Hmono Hall) as Hmeds.
  fold meds in Hmeds.
  assert (Hsome : Forall is_Some meds).
  { eapply Forall_impl; [exact Hmeds|]. intros x (m & -> & _). eauto. }
  assert (Hne : meds <> []).
  { intros E. rewrite E in Hmin. discriminate. }
  rewrite Forall_lookup in Hmeds.
  destruct (max_spec meds Hsome Hne) as (top & Htop & [jt Hjt] & Hmax).
  destruct (min_spec meds Hsome Hne) as (m0 & Hmin' & Hsm).
  rewrite Hmin in Hmin'. injection Hmin' as ->.
  destruct (index_of_spec m0 meds (proj1 Hsm))
    as (idx' & mi & Hidx' & Hmi & Heq & _).
  rewrite Hidx in Hidx'. injection Hidx' as <-.
  assert (Hpy : Py.index meds (Z.of_nat idx) = Some (Some mi))
    by (rewrite Py_index_of_nat; exact Hmi).
  rewrite Htop in Hout. cbn [mbind option_bind] in Hout.
  rewrite Hpy in Hout. cbn [mbind option_bind Speedup.div] in Hout.
  destruct (Hmeds _ _ Hjt) as (? & [= <-] & Htw).
  destruct (Hmeds _ _ Hmi) as (? & [= <-] & Hmw).
  pose proof (Hmax _ _ Hmi) as Hle.
  unfold within in Htw, Hmw.
  assert (Hpos : (0 < mi)%Q) by lra.
  assert (Hnz : Qeq_bool mi 0 = false).
  { destruct (Qeq_bool mi 0) eqn:E; [|reflexivity].
    apply Qeq_bool_iff in E. lra. }
  rewrite Hnz in Hout.
  exists (set_best_idx bi o'), out, (Float.round (top / mi)).
  split; [exact Hrun|]. split; [exact Hout|].
  split.
  - rewrite <- Hone at 1. apply round_mono; [exact Hmono|].
    apply Qle_shift_div_l; [exact Hpos|lra].
  - apply round_mono; [exact Hmono|].
    apply Qle_shift_div_l; [exact Hlo|].
    assert (Hs : (top / mi * mi == top)%Q).
    { rewrite Qmult_comm. apply Qmult_div_r. lra. }
    assert (Hq : (0 <= top / mi)%Q).
    { apply Qle_shift_div_l; [exact Hpos|lra]. }
    nra.
Qed.

(** ** The report of a node: [summary] *)

Lemma Py_index_denotes {A} (l : list A) (idx : Z) :
  - Z.of_nat (length l) <= idx < Z.of_nat (length l) ->
  exists k,
    (k < length l)%nat /\ denotes (length l) k idx /\
    Py.index l idx = l !! k /\
    (forall x, Py.set_index l idx x = Some (<[k := x]> l)) /\
    forall i, (i < length l)%nat -> denotes (length l) i idx -> i = k.
Proof.
  intros Hr. unfold Py.index, Py.set_index, denotes.
  destruct (decide (0 <= idx)) as [Hp|Hn].
  - exists (Z.to_nat idx).
    rewrite (bool_decide_eq_true_2 (0 <= idx)) by exact Hp.
    rewrite (bool_decide_eq_true_2 (_ <= idx < _)) by exact Hr.
    repeat split; try lia; auto; intros i Hi [Hd|Hd]; lia.
  - exists (Z.to_nat (Z.of_nat (length l) + idx)).
    rewrite (bool_decide_eq_false_2 (0 <= idx)) by exact Hn.
    rewrite (bool_decide_eq_true_2 (_ <= idx)) by lia.
    rewrite (bool_decide_eq_true_2 (_ <= idx < _)) by exact Hr.
    repeat split; try lia; auto; intros i Hi [Hd|Hd]; lia.
Qed.

Lemma total_of_insert (l : list Z) k c x :
  l !! k = Some c -> total_of (<[k := x]> l) = total_of l - c + x.
Proof.
  unfold total_of.
  revert k. induction l as [|y l IH]; intros [|k]; try discriminate.
  - intros [= ->]. cbn. lia.
  - intros Hk. specialize (IH k Hk).
    change (y + foldr Z.add 0 (<[k := x]> l) = y + foldr Z.add 0 l - c + x).
    lia.
Qed.

#[local] Instance denotes_dec len i idx : Decision (denotes len i idx).
Proof. unfold denotes. apply _. Defined.

(** The counting loop on indices that are all within [-len, len). *)
Lemma count_up_spec (idxs : list Z) :
  forall count,
    Forall (fun idx => - Z.of_nat (length count) <= idx
                       < Z.of_nat (length count)) idxs ->
    exists count',
      count_up count idxs = Some count' /\
      length count' = length count /\
      total_of count' = total_of count + Z.of_nat (length idxs) /\
      forall i c,
        count !! i = Some c ->
        count' !! i
        = Some (c + Z.of_nat
                      (length (filter (denotes (length count) i) idxs))).
Proof.
  induction idxs as [|idx idxs IH]; intros count Hall.
  - exists count. cbn. split; [reflexivity|]. split; [reflexivity|].
    split; [lia|]. intros i c Hi. rewrite Hi. f_equal. lia.
  - apply Forall_cons in Hall as [Hidx Hall].
    destruct (Py_index_denotes count idx Hidx)
      as (k & Hk & Hden & Hget & Hset & Huniq).
    destruct (lookup_lt_is_Some_2 count k Hk) as [c0 Hc0].
    cbn [count_up]. rewrite Hget, Hc0. cbn [mbind option_bind].
    rewrite Hset. cbn [mbind option_bind].
    set (count1 := <[k := c0 + 1]> count).
    assert (Hlen1 : length count1 = length count) by apply length_insert.
    destruct (IH count1) as (count' & Hrun & Hlen & Htot & Hpt).
    { rewrite Hlen1. exact Hall. }
    exists count'. split; [exact Hrun|]. split; [congruence|]. split.
    + rewrite Htot. unfold count1.
      rewrite (total_of_insert _ _ _ _ Hc0). cbn [length]. lia.
    + intros i c Hi. rewrite Hlen1 in Hpt.
      rewrite filter_cons. destruct (decide (i = k)) as [->|Hne].
      * rewrite Hi in Hc0. injection Hc0 as <-.
        rewrite (Hpt k (c + 1)) by (apply list_lookup_insert_eq; exact Hk).
        rewrite decide_True by exact Hden. cbn [length]. f_equal. lia.
      * rewrite (Hpt i c)
          by (unfold count1; rewrite list_lookup_insert_ne by congruence;
              exact Hi).
        rewrite decide_False; [reflexivity|].
        intros Hd. apply Hne. apply Huniq; [|exact Hd].
        eapply lookup_lt_Some. exact Hi.
Qed.

Lemma summary_best_idx_lookup (me : Execution PS ExecId) o ps :
  summary_best_idx me o !! ps =
  match problem_sizes me !! ps with
  | Some _ => best_idx o !! ps
  | None => None
  end.
Proof.
  unfold summary_best_idx. rewrite map_lookup_filter.
  destruct (best_idx o !! ps) as [i|]; cbn.
  - destruct (problem_sizes me !! ps) as [c|] eqn:E.
    + rewrite option_guard_True by eauto. reflexivity.
    + rewrite option_guard_False; [reflexivity|].
      intros [? ?]; discriminate.
  - destruct (problem_sizes me !! ps); reflexivity.
Qed.

(** On a well-formed [BestOf] with an alternative at least, the counts of
    [summary] are computed without an IndexError.  [total] is the number
    of problem sizes the node has seen that have an entry in [best_idx];
    there is one count for each alternative and the counts add up to
    [total]; the count of an alternative is the number of these entries
    that denote its position, an entry -1 counting for the last
    alternative. *)
Theorem summary_counts_selections (me : Execution PS ExecId) o :
  well_formed o -> alternatives o <> [] ->
  let K := length (alternatives o) in
  let idxs := (map_to_list (summary_best_idx me o)).*2 in
  exists count,
    summary_count me o = Some (count, Z.of_nat (length idxs)) /\
    (forall ps i,
       summary_best_idx me o !! ps = Some i <->
       is_Some (problem_sizes me !! ps) /\ best_idx o !! ps = Some i) /\
    length count = K /\
    total_of count = Z.of_nat (length idxs) /\
    forall i,
      (i < K)%nat ->
      count !! i = Some (Z.of_nat (length (filter (denotes K i) idxs))).
Proof.
  intros Hw Hne K idxs.
  assert (HK : (0 < K)%nat).
  { unfold K. destruct (alternatives o); [congruence|cbn; lia]. }
  set (count0 := Py.repeat_ 0 (Z.of_nat K)).
  assert (Hlen0 : length count0 = K).
  { unfold count0, Py.repeat_. rewrite length_replicate. lia. }
  destruct (count_up_spec idxs count0) as (count & Hrun & Hlen & Htot & Hpt).
  { rewrite Hlen0. apply Forall_forall. intros idx Hin.
    apply list_elem_of_fmap in Hin as ([ps i] & -> & Hin).
    apply elem_of_map_to_list in Hin. cbn.
    rewrite summary_best_idx_lookup in Hin.
    destruct (problem_sizes me !! ps); [|discriminate].
    destruct (decide (i = -1)) as [->|Hn]; [lia|].
    destruct Hw as (_ & _ & Hsel).
    destruct (Hsel ps i Hin Hn) as (a & Hr & _). fold K in Hr. lia. }
  exists count. split; [|split; [|split; [|split]]].
  - unfold summary_count. fold K count0 idxs. rewrite Hrun.
    cbn [mbind option_bind]. do 3 f_equal.
    unfold idxs. rewrite length_fmap, length_map_to_list. reflexivity.
  - intros ps i. rewrite summary_best_idx_lookup.
    destruct (problem_sizes me !! ps); split.
    + intros Hi. split; [eauto|exact Hi].
    + intros [_ Hi]. exact Hi.
    + discriminate.
    + intros [[? ?] _]. discriminate.
  - congruence.
  - rewrite Htot. assert (Hz : total_of count0 = 0); [|lia].
    unfold count0, Py.repeat_. generalize (Z.to_nat (Z.of_nat K)).
    induction n as [|n IH]; [reflexivity|]. cbn. unfold total_of in IH.
    rewrite IH. reflexivity.
  - intros i Hi. rewrite Hlen0 in Hpt. rewrite (Hpt i 0); [reflexivity|].
    unfold count0, Py.repeat_. apply lookup_replicate_2. lia.
Qed.

Lemma const_fmap_replicate {A B} (c : B) (l : list A) :
  (fun _ => c) <$> l = replicate (length l) c.
Proof. induction l as [|x l IH]; [reflexivity|]. cbn. rewrite IH. reflexivity. Qed.

Lemma filter_replicate_all {A} (P : A -> Prop) `{forall x, Decision (P x)}
    (c : A) n :
  P c -> filter P (replicate n c) = replicate n c.
Proof.
  intros Hc. induction n as [|n IH]; [reflexivity|]. cbn [replicate].
  rewrite filter_cons, decide_True by exact Hc. rewrite IH. reflexivity.
Qed.

Lemma filter_replicate_none {A} (P : A -> Prop) `{forall x, Decision (P x)}
    (c : A) n :
  ~ P c -> filter P (replicate n c) = [].
Proof.
  intros Hc. induction n as [|n IH]; [reflexivity|]. cbn [replicate].
  rewrite filter_cons, decide_False by exact Hc. exact IH.
Qed.

(** [summary] before and after [speedups].  Take a node whose problem
    sizes all have samples and no entry in [best_idx]: nothing is selected
    for them.  [summary] counts no size.  After [speedups] (which
    [max_speedup] calls) it counts every one of these problem sizes, all
    for the last alternative. *)
Theorem summary_after_speedups (me : Execution PS ExecId) o :
  well_formed o -> alternatives o <> [] ->
  (forall ps, is_Some (problem_sizes me !! ps) ->
              is_Some (_times o !! ps) /\ best_idx o !! ps = None) ->
  let K := length (alternatives o) in
  let n := Z.of_nat (size (problem_sizes me)) in
  summary_count me o = Some (replicate K 0, 0) /\
  exists o' out,
    speedups o = (o', Return out) /\
    summary_count me o' = Some (<[(K - 1)%nat := n]> (replicate K 0), n).
Proof.
  intros Hw Hne Hseen K n.
  assert (HK : (0 < K)%nat).
  { unfold K. destruct (alternatives o); [congruence|cbn; lia]. }
  split.
  - assert (He : summary_best_idx me o = ∅).
    { apply map_empty. intros ps. rewrite summary_best_idx_lookup.
      destruct (problem_sizes me !! ps) as [c|] eqn:E; [|reflexivity].
      apply Hseen. rewrite E. eauto. }
    unfold summary_count. rewrite He, map_to_list_empty, map_size_empty.
    cbn. unfold Py.repeat_. fold K. rewrite Nat2Z.id. reflexivity.
  - destruct (speedups_run o Hw) as (bi & out & Hrun & Hbi & _).
    exists (set_best_idx bi o), out. split; [exact Hrun|].
    assert (He : summary_best_idx me (set_best_idx bi o)
                 = (fun _ => -1) <$> problem_sizes me).
    { apply map_eq. intros ps.
      rewrite summary_best_idx_lookup, lookup_fmap.
      cbn [best_idx set_best_idx with_state]. rewrite Hbi.
      destruct (problem_sizes me !! ps) as [c|] eqn:E; [|reflexivity].
      destruct (Hseen ps) as [[ts Hts] Hnone]; [rewrite E; eauto|].
      rewrite Hnone, Hts. reflexivity. }
    unfold summary_count. rewrite He, map_size_fmap.
    cbn [alternatives set_best_idx with_state]. fold K n.
    rewrite map_to_list_fmap, <- list_fmap_compose.
    rewrite (const_fmap_replicate (-1) (map_to_list (problem_sizes me))).
    rewrite length_map_to_list.
    set (count0 := Py.repeat_ 0 (Z.of_nat K)).
    assert (Hc0 : count0 = replicate K 0).
    { unfold count0, Py.repeat_. rewrite Nat2Z.id. reflexivity. }
    destruct (count_up_spec (replicate (size (problem_sizes me)) (-1)) count0)
      as (count & Hcount & Hlen & _ & Hpt).
    { apply Forall_replicate. rewrite Hc0, length_replicate. lia. }
    rewrite Hcount. cbn [mbind option_bind]. do 2 f_equal.
    rewrite Hc0, length_replicate in Hlen, Hpt.
    apply list_eq. intros i.
    destruct (decide (i < K)%nat) as [Hi|Hi].
    + rewrite (Hpt i 0) by (apply lookup_replicate_2; exact Hi).
      destruct (decide (i = (K - 1)%nat)) as [->|Hne'].
      * rewrite list_lookup_insert_eq by (rewrite length_replicate; lia).
        rewrite filter_replicate_all by (right; lia).
        rewrite length_replicate. reflexivity.
      * rewrite list_lookup_insert_ne by congruence.
        rewrite lookup_replicate_2 by exact Hi.
        rewrite filter_replicate_none; [reflexivity|].
        intros [Hd|Hd]; lia.
    + rewrite !lookup_ge_None_2; [reflexivity| |lia].
      rewrite length_insert, length_replicate. lia.
Qed.

(** ** The assertions of [__init__] *)

(** [__init__] raises nothing but AssertionError, and returns exactly
    when [stages >= 1], [rounds >= 1], [pruning_speedup > 1] and every
    alternative has the shape of the mode: a function when [stages] is 1,
    a list of [stages] functions otherwise.  [prune_after_round] is not
    checked and the list of alternatives may be empty.  The instance it
    returns holds the parameters as passed, counts the alternatives, and
    has learned nothing. *)
Theorem init_accepts nm alts gps rounds speedup prune stg :
  (forall e,
     __init__ nm alts gps rounds speedup prune stg
       = (Raise e : Result BestOf') ->
     e = AssertionError) /\
  ((exists o, __init__ nm alts gps rounds speedup prune stg = Return o) <->
   1 <= stg /\ 1 <= rounds /\ (1 < speedup)%Q /\
   Forall (fun a : string * Impl Callable =>
             match a.2 with
             | Method _ => stg = 1
             | Pipeline ms => stg <> 1 /\ Z.of_nat (length ms) = stg
             end) alts) /\
  (forall o,
     __init__ nm alts gps rounds speedup prune stg = Return o ->
     config o = (nm, alts, gps, rounds, stg, prune, speedup,
                 Z.of_nat (length alts)) /\
     tuning o = (∅, ∅, ∅, ∅, ∅, ∅, ∅, ∅) /\
     _executions o = ∅).
Proof.
  assert (Hok : forallb (alternative_ok stg) alts = true <->
                Forall (fun a : string * Impl Callable =>
                          match a.2 with
                          | Method _ => stg = 1
                          | Pipeline ms =>
                              stg <> 1 /\ Z.of_nat (length ms) = stg
                          end) alts).
  { rewrite forallb_forall, Forall_forall. split; intros Hall a Ha.
    - apply list_elem_of_In in Ha. specialize (Hall a Ha).
      unfold alternative_ok in Hall. destruct a.2.
      + apply bool_decide_eq_true in Hall. exact Hall.
      + apply andb_true_iff in Hall as [H1 H2].
        apply bool_decide_eq_true in H1, H2. auto.
    - apply list_elem_of_In in Ha. specialize (Hall a Ha).
      unfold alternative_ok. destruct a.2.
      + apply bool_decide_eq_true_2. exact Hall.
      + destruct Hall as [H1 H2]. apply andb_true_iff.
        split; apply bool_decide_eq_true_2; assumption. }
  unfold __init__.
  destruct (bool_decide (1 <= stg)) eqn:E1; cbn [negb].
  2:{ apply bool_decide_eq_false in E1. split; [intros e [= <-]; reflexivity|].
      split; [|discriminate]. split; [intros [o Ho]; discriminate|].
      intros (Hs & _). contradiction. }
  destruct (bool_decide (1 <= rounds)) eqn:E2; cbn [negb].
  2:{ apply bool_decide_eq_false in E2. split; [intros e [= <-]; reflexivity|].
      split; [|discriminate]. split; [intros [o Ho]; discriminate|].
      intros (_ & Hs & _). contradiction. }
  destruct (Qle_bool speedup 1) eqn:E3.
  { apply Qle_bool_iff in E3. split; [intros e [= <-]; reflexivity|].
    split; [|discriminate]. split; [intros [o Ho]; discriminate|].
    intros (_ & _ & Hs & _). exfalso. eapply Qlt_not_le; eassumption. }
  assert (H3 : (1 < speedup)%Q).
  { apply Qnot_le_lt. intros Hle. apply Qle_bool_iff in Hle. congruence. }
  apply bool_decide_eq_true in E1, E2.
  destruct (forallb (alternative_ok stg) alts) eqn:E4; cbn [negb].
  - split; [discriminate|]. split.
    + split; [|eauto]. intros _. repeat split; try assumption.
      apply Hok. reflexivity.
    + intros o [= <-]. repeat split.
  - split; [intros e [= <-]; reflexivity|].
    split; [|discriminate]. split; [intros [o Ho]; discriminate|].
    intros (_ & _ & _ & Hs). apply Hok in Hs. congruence.
Qed.

(** ** The execution graph *)

Lemma same_shape_refl w : same_shape w w.
Proof. split; reflexivity. Qed.

Lemma same_shape_trans w1 w2 w3 :
  same_shape w1 w2 -> same_shape w2 w3 -> same_shape w1 w3.
Proof. intros [A1 B1] [A2 B2]. split; congruence. Qed.

Lemma keeps_tree_refl w : keeps_tree w w.
Proof. intros Ht; exact Ht. Qed.

Lemma keeps_tree_trans w1 w2 w3 :
  keeps_tree w1 w2 -> keeps_tree w2 w3 -> keeps_tree w1 w3.
Proof. unfold keeps_tree. auto. Qed.

Lemma same_shape_lookup_node w w' n x' :
  same_shape w w' -> nodes w' !! n = Some x' ->
  exists x, nodes w !! n = Some x /\ links x = links x'.
Proof.
  intros [Hn _] Hx.
  assert (Hl : (links <$> nodes w') !! n = Some (links x'))
    by (rewrite list_lookup_fmap, Hx; reflexivity).
  rewrite Hn, list_lookup_fmap in Hl.
  destruct (nodes w !! n) as [x|]; [|discriminate].
  exists x. split; [reflexivity|]. cbn in Hl. congruence.
Qed.

Lemma same_shape_lookup_instance w w' self o' :
  same_shape w w' -> instances w' !! self = Some o' ->
  exists o, instances w !! self = Some o /\ _executions o = _executions o'.
Proof.
  intros [_ Hi] Ho.
  assert (Hl : (_executions <$> instances w') !! self = Some (_executions o'))
    by (rewrite list_lookup_fmap, Ho; reflexivity).
  rewrite Hi, list_lookup_fmap in Hl.
  destruct (instances w !! self) as [o|]; [|discriminate].
  exists o. split; [reflexivity|]. cbn in Hl. congruence.
Qed.

Lemma same_shape_sym w w' : same_shape w w' -> same_shape w' w.
Proof. intros [A B]. split; congruence. Qed.

Lemma same_shape_keeps w w' : same_shape w w' -> keeps_tree w w'.
Proof.
  intros Hs (Hroot & Hpar & Hch & Hnd & Hex).
  pose proof (same_shape_sym _ _ Hs) as Hs'.
  assert (Hfw : forall n x, nodes w !! n = Some x ->
                  exists x', nodes w' !! n = Some x' /\ links x' = links x).
  { intros n x Hx. apply (same_shape_lookup_node w' w n x Hs' Hx). }
  assert (Hbw : forall n x', nodes w' !! n = Some x' ->
                  exists x, nodes w !! n = Some x /\ links x = links x').
  { intros n x' Hx. apply (same_shape_lookup_node w w' n x' Hs Hx). }
  split; [|split; [|split; [|split]]].
  - destruct Hroot as (r & Hr & Hp & Hb).
    destruct (Hfw _ _ Hr) as (r' & Hr' & Hl). exists r'.
    injection Hl as E1 _ E3 _. split; [exact Hr'|]. split; congruence.
  - intros n x' Hx' Hne. destruct (Hbw _ _ Hx') as (x & Hx & Hl).
    destruct (Hpar n x Hx Hne) as (p & px & Hp & Hlt & Hpx & Hin).
    destruct (Hfw _ _ Hpx) as (px' & Hpx' & Hl').
    injection Hl as E1 _ _ _. injection Hl' as _ E2 _ _.
    exists p, px'. repeat split; try assumption; congruence.
  - intros p px' c Hpx' Hin. destruct (Hbw _ _ Hpx') as (px & Hpx & Hl).
    injection Hl as _ E2 _ _. rewrite <- E2 in Hin.
    destruct (Hch p px c Hpx Hin) as (x & Hx & Hp).
    destruct (Hfw _ _ Hx) as (x' & Hx' & Hl').
    injection Hl' as E1 _ _ _. exists x'. split; [exact Hx'|congruence].
  - intros p px' Hpx'. destruct (Hbw _ _ Hpx') as (px & Hpx & Hl).
    injection Hl as _ E2 _ _. rewrite <- E2. eapply Hnd. exact Hpx.
  - intros self o' eid n Ho' He.
    destruct (same_shape_lookup_instance w w' self o' Hs Ho')
      as (o & Ho & Hee).
    rewrite <- Hee in He. destruct (Hex self o eid n Ho He) as (x & Hx & Hb & Hi).
    destruct (Hfw _ _ Hx) as (x' & Hx' & Hl').
    injection Hl' as _ _ E3 E4. exists x'. split; [exact Hx'|].
    split; congruence.
Qed.

Lemma same_shape_insert w k x x' :
  nodes w !! k = Some x -> links x' = links x ->
  same_shape w (set_nodes (<[k := x']> (nodes w)) w).
Proof.
  intros Hx Hl. split; [|reflexivity]. cbn.
  rewrite list_fmap_insert, Hl. apply list_insert_id.
  rewrite list_lookup_fmap, Hx. reflexivity.
Qed.

Lemma same_shape_instance w self o o' :
  instances w !! self = Some o -> same_executions o o' ->
  same_shape w (set_instances (<[self := o']> (instances w)) w).
Proof.
  intros Ho He. split; [reflexivity|]. cbn.
  rewrite list_fmap_insert, He. apply list_insert_id.
  rewrite list_lookup_fmap, Ho. reflexivity.
Qed.

(** The operations on the attributes of a node keep the shape. *)
Ltac shape_run :=
  intros w w' r; st_run;
  repeat ((match goal with
           | |- context [match ?x with _ => _ end] =>
               lazymatch x with
               | context [match _ with _ => _ end] => fail
               | _ => destruct x eqn:?
               end
           end); st_run);
  intros Hr; inversion Hr; subst;
  first [ apply same_shape_refl
        | split; reflexivity
        | eapply same_shape_insert; [eassumption | reflexivity] ].

Lemma set_problem_size_shape n ps :
  st_rel (S := World') same_shape (set_problem_size n ps).
Proof. unfold set_problem_size, get_node, put_node. shape_run. Qed.

Lemma block_parent_shape n :
  st_rel (S := World') same_shape (block_parent n).
Proof. unfold block_parent, get_node, put_node. shape_run. Qed.

Lemma unblock_parent_shape n :
  st_rel (S := World') same_shape (unblock_parent n).
Proof. unfold unblock_parent, get_node, put_node. shape_run. Qed.

Lemma is_blocked_shape n :
  st_rel (S := World') same_shape (is_blocked n).
Proof. unfold is_blocked, get_node, put_node. shape_run. Qed.

Lemma pop_parent_shape : st_rel (S := World') same_shape pop_parent.
Proof. unfold pop_parent. shape_run. Qed.

Lemma get_self_shape self : st_rel (S := World') same_shape (get_self self).
Proof. unfold get_self. shape_run. Qed.

Lemma same_executions_refl o : same_executions o o.
Proof. reflexivity. Qed.

Lemma same_executions_trans o1 o2 o3 :
  same_executions o1 o2 -> same_executions o2 o3 -> same_executions o1 o3.
Proof. unfold same_executions. congruence. Qed.

Ltac read_executions :=
  intros o o' r;
  unfold read_best, read_current_alternative, read_current_round,
    read_times, read_stages_times;
  repeat match goal with
         | |- context [if ?b then _ else _] => destruct b
         | |- context [dd_get ?d ?k ?m] => destruct (dd_get d k m)
         end;
  intros Hr; inversion Hr; subst; reflexivity.

Lemma read_executions_same ps :
  st_rel (S := BestOf') same_executions (read_best ps) /\
  st_rel (S := BestOf') same_executions (read_current_alternative ps) /\
  st_rel (S := BestOf') same_executions (read_current_round ps) /\
  st_rel (S := BestOf') same_executions (read_times ps) /\
  st_rel (S := BestOf') same_executions (read_stages_times ps).
Proof. repeat split; read_executions. Qed.

Ltac executions_steps :=
  st_rel_core
    ltac:(first [ apply read_executions_same ])
    same_executions_refl same_executions_trans;
  try reflexivity.

Lemma times_append_executions ps ca x :
  st_rel (S := BestOf') same_executions (times_append ps ca x).
Proof. unfold times_append. executions_steps. Qed.

Lemma stages_times_store_executions ps ca buf :
  st_rel (S := BestOf') same_executions (stages_times_store ps ca buf).
Proof. unfold stages_times_store. executions_steps. Qed.

Lemma stages_times_load_executions ps ca :
  st_rel (S := BestOf') same_executions (stages_times_load ps ca).
Proof. unfold stages_times_load. executions_steps. Qed.

Lemma record_sample_executions ps ca stage t :
  st_rel (S := BestOf') same_executions (record_sample ps ca stage t).
Proof.
  unfold record_sample.
  st_rel_core
    ltac:(first [ apply read_executions_same | apply times_append_executions
                | apply stages_times_store_executions
                | apply stages_times_load_executions ])
    same_executions_refl same_executions_trans.
Qed.

Lemma select_best_executions ps ca r :
  st_rel (S := BestOf') same_executions (select_best ps ca r).
Proof. unfold select_best. executions_steps. Qed.

Lemma commit_executions ps ca r :
  st_rel (S := BestOf') same_executions (commit ps ca r).
Proof. unfold commit. executions_steps. Qed.

Lemma on_self_shape {A} self (m : St BestOf' A) :
  st_rel (S := BestOf') same_executions m ->
  st_rel (S := World') same_shape (on_self self m).
Proof.
  intros Hm w w' r. unfold on_self.
  destruct (instances w !! self) as [o|] eqn:Ho.
  - destruct (m o) as [o' r'] eqn:E. intros Hr; inversion Hr; subst.
    eapply same_shape_instance; [exact Ho|]. eapply Hm. exact E.
  - intros Hr; inversion Hr; subst. apply same_shape_refl.
Qed.

(** A new node under [p] for a call path that has none. *)
Lemma tree_ok_new_node w self o eid p px me :
  tree_ok w ->
  instances w !! self = Some o -> _executions o !! eid = None ->
  nodes w !! p = Some px ->
  links me = (Some p, [], Some self, Some eid) ->
  tree_ok
    (set_instances
       (<[self := set_executions (<[eid := length (nodes w)]> (_executions o))
                    o]> (instances w))
       (set_nodes
          (<[p := set_children (children px ++ [length (nodes w)]) px]>
             (nodes w) ++ [me]) w)).
Proof.
  intros (Hroot & Hpar & Hch & Hnd & Hex) Ho He Hpx Hme.
  injection Hme as Mp Mc Mb Me.
  set (N := length (nodes w)).
  set (px' := set_children (children px ++ [N]) px).
  assert (HpN : (p < N)%nat) by (eapply lookup_lt_Some; exact Hpx).
  assert (Hnew : forall n x',
            (<[p := px']> (nodes w) ++ [me]) !! n = Some x' ->
            (n = N /\ x' = me) \/
            ((n < N)%nat /\ exists x, nodes w !! n = Some x /\
               parent x' = parent x /\ best_of x' = best_of x /\
               execution_id x' = execution_id x /\
               children x' = if decide (n = p) then children x ++ [N]
                             else children x)).
  { intros n x' Hx'. destruct (decide (n < N)%nat) as [Hlt|Hge].
    - right. split; [exact Hlt|].
      rewrite lookup_app_l in Hx' by (rewrite length_insert; exact Hlt).
      destruct (decide (n = p)) as [->|Hne].
      + rewrite list_lookup_insert_eq in Hx' by exact Hlt.
        injection Hx' as <-. exists px. repeat split. exact Hpx.
      + rewrite list_lookup_insert_ne in Hx' by congruence.
        exists x'. repeat split. exact Hx'.
    - left. rewrite lookup_app_r in Hx' by (rewrite length_insert; lia).
      rewrite length_insert in Hx'. fold N in Hx'.
      destruct (n - N)%nat as [|k] eqn:Ek; [|destruct k; discriminate].
      injection Hx' as <-. split; [lia|reflexivity]. }
  assert (Hold : forall n x,
            nodes w !! n = Some x ->
            exists x', (<[p := px']> (nodes w) ++ [me]) !! n = Some x' /\
               parent x' = parent x /\ best_of x' = best_of x /\
               execution_id x' = execution_id x /\
               children x' = if decide (n = p) then children x ++ [N]
                             else children x).
  { intros n x Hx.
    assert (Hlt : (n < N)%nat) by (eapply lookup_lt_Some; exact Hx).
    rewrite lookup_app_l by (rewrite length_insert; exact Hlt).
    destruct (decide (n = p)) as [->|Hne].
    - rewrite list_lookup_insert_eq by exact Hlt.
      exists px'. rewrite Hpx in Hx. injection Hx as <-. repeat split.
    - rewrite list_lookup_insert_ne by congruence.
      exists x. repeat split. exact Hx. }
  assert (HNew : (<[p := px']> (nodes w) ++ [me]) !! N = Some me).
  { rewrite lookup_app_r by (rewrite length_insert; fold N; lia).
    rewrite length_insert. fold N. rewrite Nat.sub_diag. reflexivity. }
  split; [|split; [|split; [|split]]]; cbn [nodes instances set_nodes
                                             set_instances].
  - destruct Hroot as (r & Hr & Hp & Hb).
    destruct (Hold _ _ Hr) as (r' & Hr' & E1 & E2 & _).
    exists r'. split; [exact Hr'|]. split; congruence.
  - intros n x' Hx' Hne.
    destruct (Hnew n x' Hx') as [[-> ->]|(Hlt & x & Hx & E1 & _)].
    + destruct (Hold _ _ Hpx) as (px2 & Hpx2 & _ & _ & _ & Ec).
      rewrite decide_True in Ec by reflexivity.
      exists p, px2. repeat split; try assumption.
      rewrite Ec. apply elem_of_app. right. left.
    + destruct (Hpar n x Hx Hne) as (q & qx & Hq & Hqlt & Hqx & Hin).
      destruct (Hold _ _ Hqx) as (qx' & Hqx' & _ & _ & _ & Ec).
      exists q, qx'. repeat split; try assumption; [congruence|].
      rewrite Ec. destruct (decide (q = p)); [|exact Hin].
      apply elem_of_app. left. exact Hin.
  - intros q qx' c Hqx' Hin.
    destruct (Hnew q qx' Hqx') as [[-> ->]|(Hlt & qx & Hqx & _ & _ & _ & Ec)].
    + rewrite Mc in Hin. inversion Hin.
    + rewrite Ec in Hin. destruct (decide (q = p)) as [->|Hne].
      * apply elem_of_app in Hin as [Hin|Hin].
        -- destruct (Hch p qx c Hqx Hin) as (x & Hx & Hp).
           destruct (Hold _ _ Hx) as (x' & Hx' & E1 & _).
           exists x'. split; [exact Hx'|congruence].
        -- apply list_elem_of_singleton in Hin as ->.
           exists me. split; [exact HNew|exact Mp].
      * destruct (Hch q qx c Hqx Hin) as (x & Hx & Hp).
        destruct (Hold _ _ Hx) as (x' & Hx' & E1 & _).
        exists x'. split; [exact Hx'|congruence].
  - intros q qx' Hqx'.
    destruct (Hnew q qx' Hqx') as [[-> ->]|(Hlt & qx & Hqx & _ & _ & _ & Ec)].
    + rewrite Mc. constructor.
    + rewrite Ec. destruct (decide (q = p)) as [->|Hne];
        [|eapply Hnd; exact Hqx].
      apply NoDup_app. split; [eapply Hnd; exact Hqx|].
      split; [|apply NoDup_singleton].
      intros c Hc Hc'. apply list_elem_of_singleton in Hc' as ->.
      destruct (Hch p qx N Hqx Hc) as (x & Hx & _).
      apply lookup_lt_Some in Hx. fold N in Hx. lia.
  - intros self' o' eid' n Ho' He'.
    destruct (decide (self' = self)) as [->|Hne].
    + rewrite (lookup_insert_self _ _ _ _ Ho) in Ho'. injection Ho' as <-.
      cbn in He'. destruct (decide (eid = eid')) as [<-|Hne'].
      * rewrite lookup_insert_eq in He'. injection He' as <-.
        exists me. split; [exact HNew|]. split; assumption.
      * rewrite lookup_insert_ne in He' by exact Hne'.
        destruct (Hex self o eid' n Ho He') as (x & Hx & Hb & Hi).
        destruct (Hold _ _ Hx) as (x' & Hx' & _ & E2 & E3 & _).
        exists x'. split; [exact Hx'|]. split; congruence.
    + rewrite list_lookup_insert_ne in Ho' by congruence.
      destruct (Hex self' o' eid' n Ho' He') as (x & Hx & Hb & Hi).
      destruct (Hold _ _ Hx) as (x' & Hx' & _ & E2 & E3 & _).
      exists x'. split; [exact Hx'|]. split; congruence.
Qed.

Lemma register_tree self eid :
  st_rel (S := World') keeps_tree (_register self eid).
Proof.
  intros w w' r. unfold _register, new_execution, get_self, get_node,
    put_node, on_self. st_run.
  destruct (instances w !! self) as [o|] eqn:Ho;
    [|intros Hr; inversion Hr; subst; apply keeps_tree_refl].
  st_run. destruct (_executions o !! eid) as [n|] eqn:He;
    [intros Hr; inversion Hr; subst; apply keeps_tree_refl|].
  st_run. cbn [instances set_names nodes].
  rewrite Ho. st_run. cbn [nodes set_names].
  destruct (nodes w !! default _root (last (_current_parents w)))
    as [px|] eqn:Hpx.
  - st_run. cbn [instances set_nodes set_names nodes]. rewrite Ho.
    intros Hr; inversion Hr; subst. intros Ht.
    pose proof (tree_ok_new_node w self o eid _ px
                  {| best_of := Some self; execution_id := Some eid;
                     parent := Some (default _root (last (_current_parents w)));
                     children := []; problem_sizes := ∅;
                     ex_name := name o +:+ " "
                                +:+ format_02d (dd_peek 0 (name o) (_names w) + 1);
                     _blocked_by := ∅; _current_problem_size := None |}
                  Ht Ho He Hpx eq_refl) as Ht'.
    destruct Ht' as (T1 & T2 & T3 & T4 & T5).
    split; [exact T1|]. split; [exact T2|]. split; [exact T3|].
    split; [exact T4|exact T5].
  - intros Hr; inversion Hr; subst.
    apply same_shape_keeps. split; reflexivity.
Qed.

Lemma before_alternative_tree self eid stage_arg args :
  st_rel (S := World') keeps_tree (before_alternative self eid stage_arg args).
Proof.
  unfold before_alternative.
  st_rel_core
    ltac:(first
      [ apply register_tree
      | apply (st_rel_weaken _ _ _ same_shape_keeps);
        first [ apply get_self_shape | apply set_problem_size_shape
              | apply block_parent_shape
              | apply on_self_shape; apply read_executions_same ] ])
    keeps_tree_refl keeps_tree_trans;
    apply same_shape_keeps; split; reflexivity.
Qed.

Lemma after_alternative_tree self cur ps ca stage t :
  st_rel (S := World') keeps_tree (after_alternative self cur ps ca stage t).
Proof.
  apply (st_rel_weaken _ _ _ same_shape_keeps).
  unfold after_alternative.
  st_rel_core
    ltac:(first
      [ apply pop_parent_shape | apply is_blocked_shape
      | apply unblock_parent_shape
      | apply on_self_shape;
        first [ apply record_sample_executions
              | apply select_best_executions | apply commit_executions ] ])
    same_shape_refl same_shape_trans.
Qed.

Lemma initial_world_tree : tree_ok (initial_world (PS := PS) (ExecId := ExecId)
                                      (Callable := Callable) (Args := Args)).
Proof.
  split; [|split; [|split; [|split]]].
  - eexists. split; [reflexivity|]. split; reflexivity.
  - intros [|n] x Hx Hne; [exfalso; apply Hne; reflexivity|].
    destruct n; discriminate.
  - intros [|[|p]] px c Hpx Hin; try discriminate.
    injection Hpx as <-. inversion Hin.
  - intros [|[|p]] px Hpx; try discriminate.
    injection Hpx as <-. constructor.
  - intros self o eid n Ho. destruct self; discriminate.
Qed.

Lemma new_BestOf_tree nm alts gps rounds speedup prune stg :
  st_rel (S := World') keeps_tree (new_BestOf nm alts gps rounds speedup prune stg).
Proof.
  intros w w' r. unfold new_BestOf. st_run.
  destruct (__init__ nm alts gps rounds speedup prune stg) as [o|e] eqn:Ei;
    [|intros Hr; inversion Hr; subst; apply keeps_tree_refl].
  st_run. intros Hr; inversion Hr; subst.
  intros (T1 & T2 & T3 & T4 & T5).
  split; [exact T1|]. split; [exact T2|]. split; [exact T3|].
  split; [exact T4|]. intros self o' eid n Ho' He'. cbn in Ho'.
  apply lookup_app_Some in Ho' as [Ho'|[_ Ho']].
  - eapply T5; eassumption.
  - destruct (self - length (instances w))%nat as [|k];
      [|destruct k; discriminate].
    injection Ho' as <-.
    destruct (init_accepts nm alts gps rounds speedup prune stg)
      as (_ & _ & Hf). destruct (Hf o Ei) as (_ & _ & Hex).
    rewrite Hex, lookup_empty in He'. discriminate.
Qed.

(** The execution graph is a tree, whatever is called.  It is one in a
    fresh process; [BestOf(...)] keeps it one, and so does every call,
    returning or raising, provided the callables do (they reach the graph
    through calls only): the root has no parent; every other node has a
    parent created before it that lists it once among its children; every
    child listed has the listing node as parent; and every entry of the
    [_executions] of a [BestOf] is a node of that [BestOf] with that
    execution id. *)
Theorem execution_graph_is_a_tree :
  tree_ok (initial_world (PS := PS) (ExecId := ExecId)
             (Callable := Callable) (Args := Args)) /\
  (forall nm alts gps rounds speedup prune stg w w' r,
     tree_ok w ->
     new_BestOf nm alts gps rounds speedup prune stg w = (w', r) ->
     tree_ok w') /\
  ((forall c a, st_rel (S := World') keeps_tree (invoke c a)) ->
   forall self eid stage_arg args w w' r,
     tree_ok w ->
     call invoke self eid stage_arg args w = (w', r) ->
     tree_ok w').
Proof.
  split; [exact initial_world_tree|]. split.
  - intros nm alts gps rounds speedup prune stg w w' r Ht Hr.
    exact (new_BestOf_tree _ _ _ _ _ _ _ _ _ _ Hr Ht).
  - intros Hinv self eid stage_arg args w w' r Ht Hrun.
    assert (Hcall : st_rel (S := World') keeps_tree
                      (call invoke self eid stage_arg args)).
    { unfold call.
      st_rel_core
        ltac:(first [ apply before_alternative_tree | apply Hinv
                    | apply after_alternative_tree ])
        keeps_tree_refl keeps_tree_trans. }
    exact (Hcall _ _ _ Hrun Ht).
Qed.

(** ** The stack of parents *)

Lemma same_stack_refl w : same_stack w w.
Proof. reflexivity. Qed.

Lemma same_stack_trans w1 w2 w3 :
  same_stack w1 w2 -> same_stack w2 w3 -> same_stack w1 w3.
Proof. unfold same_stack. congruence. Qed.

Lemma get_node_stack n : st_rel (S := World') same_stack (get_node n).
Proof.
  intros w w' r. unfold get_node. destruct (nodes w !! n);
    intros Hr; inversion Hr; subst; reflexivity.
Qed.

Lemma get_self_stack self : st_rel (S := World') same_stack (get_self self).
Proof.
  intros w w' r. unfold get_self. destruct (instances w !! self);
    intros Hr; inversion Hr; subst; reflexivity.
Qed.

Lemma on_self_stack {A} self (m : St BestOf' A) :
  st_rel (S := World') same_stack (on_self self m).
Proof.
  intros w w' r. unfold on_self. destruct (instances w !! self) as [o|].
  - destruct (m o). intros Hr; inversion Hr; subst; reflexivity.
  - intros Hr; inversion Hr; subst; reflexivity.
Qed.

Ltac stack_steps :=
  st_rel_core
    ltac:(first [ apply get_node_stack | apply get_self_stack
                | apply on_self_stack ])
    same_stack_refl same_stack_trans;
  try reflexivity.

Lemma set_problem_size_stack n ps :
  st_rel (S := World') same_stack (set_problem_size n ps).
Proof. unfold set_problem_size, put_node. stack_steps. Qed.

Lemma block_parent_stack n : st_rel (S := World') same_stack (block_parent n).
Proof. unfold block_parent, put_node. stack_steps. Qed.

Lemma unblock_parent_stack n :
  st_rel (S := World') same_stack (unblock_parent n).
Proof. unfold unblock_parent, put_node. stack_steps. Qed.

Lemma is_blocked_stack n : st_rel (S := World') same_stack (is_blocked n).
Proof. unfold is_blocked, put_node. stack_steps. Qed.

Lemma register_stack self eid :
  st_rel (S := World') same_stack (_register self eid).
Proof. unfold _register, new_execution, put_node. stack_steps. Qed.

(** Splits the run [H] of a sequence at its first computation. *)
Tactic Notation "st_step" hyp(H) "as" ident(s) ident(a) ident(E) :=
  rewrite run_bind in H;
  lazymatch type of H with
  | (let (_, _) := ?p in _) = _ => destruct p as [s [a|?]] eqn:E
  end.

(** What [__call__] has done to the stack of parents when it reaches its
    alternative, or raises before. *)
Lemma before_alternative_stack self eid stage_arg args w w1 r :
  before_alternative self eid stage_arg args w = (w1, r) ->
  match r with
  | Return (_, Direct _) => _current_parents w1 = _current_parents w
  | Return (_, Evaluate cur _ _ _) =>
      _current_parents w1 = _current_parents w ++ [cur]
  | Raise _ =>
      _current_parents w1 = _current_parents w \/
      exists cur, _current_parents w1 = _current_parents w ++ [cur]
  end.
Proof.
  intros Hrun. unfold before_alternative in Hrun.
  st_step Hrun as wr cur Hreg.
  2:{ inversion Hrun; subst. left. eapply register_stack; exact Hreg. }
  pose proof (register_stack _ _ _ _ _ Hreg) as S1.
  st_step Hrun as wo o Hself.
  2:{ inversion Hrun; subst. left.
      pose proof (get_self_stack _ _ _ _ Hself) as S2. congruence. }
  pose proof (get_self_stack _ _ _ _ Hself) as S2.
  destruct (negb _).
  { inversion Hrun; subst. left. congruence. }
  rewrite run_bind in Hrun. unfold get at 1 in Hrun. cbn beta iota in Hrun.
  destruct (_use_first_alternative _).
  { st_run. destruct (Py.index _ 0); [|inversion Hrun; subst; left; congruence].
    st_run. destruct (callable_of _ _ _);
      inversion Hrun; subst; [|left]; congruence. }
  st_step Hrun as ws u1 Hsps.
  2:{ inversion Hrun; subst. left.
      pose proof (set_problem_size_stack _ _ _ _ _ Hsps) as S3. congruence. }
  pose proof (set_problem_size_stack _ _ _ _ _ Hsps) as S3.
  st_step Hrun as wb best Hbest.
  2:{ inversion Hrun; subst. left.
      pose proof (on_self_stack _ _ _ _ _ Hbest) as S4. congruence. }
  pose proof (on_self_stack _ _ _ _ _ Hbest) as S4.
  match type of Hrun with
  | match ?b with _ => _ end _ = _ => destruct b as [impl|]
  end.
  { st_run. destruct (callable_of _ _ _);
      inversion Hrun; subst; [|left]; congruence. }
  st_step Hrun as wk u2 Hblock.
  2:{ inversion Hrun; subst. left.
      pose proof (block_parent_stack _ _ _ _ Hblock) as S5. congruence. }
  pose proof (block_parent_stack _ _ _ _ Hblock) as S5.
  st_step Hrun as wc ca Hcur.
  2:{ inversion Hrun; subst. left.
      pose proof (on_self_stack _ _ _ _ _ Hcur) as S6. congruence. }
  pose proof (on_self_stack _ _ _ _ _ Hcur) as S6.
  assert (Hst : _current_parents wc = _current_parents w)
    by (unfold same_stack in *; congruence).
  st_run. destruct (Py.index _ _).
  2:{ inversion Hrun; subst. right. eexists. cbn. rewrite Hst. reflexivity. }
  st_run. destruct (callable_of _ _ _).
  - inversion Hrun; subst. cbn. rewrite Hst. reflexivity.
  - inversion Hrun; subst. right. eexists. cbn. rewrite Hst. reflexivity.
Qed.

Lemma after_alternative_stack self cur ps ca stage t w w3 r :
  after_alternative self cur ps ca stage t w = (w3, r) ->
  _current_parents w <> [] ->
  _current_parents w3 = removelast (_current_parents w).
Proof.
  intros Hrun Hne. unfold after_alternative in Hrun.
  rewrite (run_bind_return _ _ _ _ _ (run_pop_parent w Hne)) in Hrun.
  assert (Hrest : st_rel (S := World') same_stack
            (b ← is_blocked cur;
             if (b : bool) then mret tt
             else
               '(current_alternative, current_round) ←
                 on_self self (record_sample ps ca stage t);
               '(current_alternative, selected) ←
                 on_self self
                   (select_best ps current_alternative current_round);
               (if (selected : bool) then unblock_parent cur else mret tt);;
               on_self self (commit ps current_alternative current_round))).
  { st_rel_core
      ltac:(first [ apply is_blocked_stack | apply on_self_stack
                  | apply unblock_parent_stack ])
      same_stack_refl same_stack_trans. }
  apply Hrest in Hrun. exact Hrun.
Qed.

Lemma removelast_snoc {A} (l : list A) (x : A) : removelast (l ++ [x]) = l.
Proof. apply removelast_last. Qed.

(** The stack of parents after a call, for callables that leave the stack
    as they found it.  A call that returns leaves the stack as it found
    it.  A call whose alternative under evaluation raises passes the
    exception on with its node still on the stack: the state is the one
    the alternative left, and the next call path to be registered, from
    wherever it is called, becomes a child of that node. *)
Theorem stack_of_parents_after_call self eid stage_arg args w w' r :
  (forall c a, st_rel (S := World') same_stack (invoke c a)) ->
  call invoke self eid stage_arg args w = (w', r) ->
  (forall out, r = Return out -> _current_parents w' = _current_parents w) /\
  (forall w1 stage cur ps ca c w2 e,
     before_alternative self eid stage_arg args w
       = (w1, Return (stage, Evaluate cur ps ca c)) ->
     invoke c args w1 = (w2, Raise e) ->
     w' = w2 /\ r = Raise e /\
     _current_parents w' = _current_parents w ++ [cur] /\
     current_root w' = cur).
Proof.
  intros Hinv Hrun. split.
  - intros out ->. unfold call in Hrun.
    st_step Hrun as w1 sd Hbefore; [|inversion Hrun].
    destruct sd as [stage d].
    pose proof (before_alternative_stack _ _ _ _ _ _ _ Hbefore) as Hs1.
    cbn beta iota in Hrun, Hs1. destruct d as [c|cur ps ca c].
    + st_step Hrun as w2 ot Hi; [|inversion Hrun]. destruct ot as [o1 t].
      inversion Hrun; subst. rewrite (Hinv _ _ _ _ _ Hi). exact Hs1.
    + st_step Hrun as w2 ot Hi; [|inversion Hrun]. destruct ot as [o1 t].
      cbn beta iota in Hrun.
      st_step Hrun as w3 u Ha; [|inversion Hrun].
      inversion Hrun; subst.
      pose proof (Hinv _ _ _ _ _ Hi) as Hs2. unfold same_stack in Hs2.
      rewrite (after_alternative_stack _ _ _ _ _ _ _ _ _ Ha)
        by (rewrite Hs2, Hs1; destruct (_current_parents w); discriminate).
      rewrite Hs2, Hs1. apply removelast_snoc.
  - intros w1 stage cur ps ca c w2 e Hbefore Hi.
    pose proof (before_alternative_stack _ _ _ _ _ _ _ Hbefore) as Hs1.
    cbn beta iota in Hs1.
    unfold call in Hrun. rewrite (run_bind_return _ _ _ _ _ Hbefore) in Hrun.
    cbn beta iota in Hrun. rewrite (run_bind_raise _ _ _ _ _ Hi) in Hrun.
    inversion Hrun; subst.
    pose proof (Hinv _ _ _ _ _ Hi) as Hs2. unfold same_stack in Hs2.
    split; [reflexivity|]. split; [reflexivity|].
    split; [congruence|].
    unfold current_root. rewrite Hs2, Hs1, last_snoc. reflexivity.
Qed.

(** ** A [BestOf] without alternatives *)

Lemma Py_index_nil {A} (i : Z) : Py.index (@nil A) i = None.
Proof.
  unfold Py.index. destruct (bool_decide (0 <= i)); [apply lookup_nil|].
  destruct (bool_decide _); [apply lookup_nil|reflexivity].
Qed.

Lemma run_block_parent cur w me p pn :
  nodes w !! cur = Some me -> parent me = Some p ->
  nodes w !! p = Some pn ->
  exists w', block_parent cur w = (w', Return tt).
Proof.
  intros Hme Hp Hpn. unfold block_parent.
  rewrite (run_bind_return _ _ _ _ _ (run_get_node _ _ _ Hme)).
  rewrite Hp. st_run.
  rewrite (run_get_node _ _ _ Hpn). cbn beta iota.
  destruct (_is_root pn); [eexists; reflexivity|].
  destruct (dd_get _ _ _). eexists. reflexivity.
Qed.

(** [__init__] accepts an empty list of alternatives, but no call of such
    a [BestOf] ever runs anything: a call with a stage below [stages]
    raises IndexError.  With the override off the call has by then pushed
    its node on the stack of parents, where it stays. *)
Theorem no_alternatives_raises self eid stage_arg args w o :
  instances w !! self = Some o ->
  alternatives o = [] ->
  is_Some (nodes w !! current_root w) ->
  (forall n, _executions o !! eid = Some n -> node_ok w n) ->
  stage_of o stage_arg < stages o ->
  cached o (get_problem_size o args) = None ->
  exists w1 w' cur,
    _register self eid w = (w1, Return cur) /\
    call invoke self eid stage_arg args w = (w', Raise IndexError) /\
    _current_parents w' =
      if _use_first_alternative w then _current_parents w
      else _current_parents w ++ [cur].
Proof.
  intros Ho Hnil Hroot Hreg Hst Hca.
  destruct (register_cases self eid w o Ho Hroot)
    as (w1 & n & ex & Hr & Hi & Hu1 & Hp1 & Hs1 & _ & Hok).
  destruct (Hok Hreg) as (me & p & pn & Hme & Hpar & Hpn).
  assert (Ho1 : instances w1 !! self = Some (set_executions ex o)).
  { rewrite Hi. eapply lookup_insert_self; eassumption. }
  exists w1.
  destruct (_use_first_alternative w) eqn:Hu.
  - exists w1, n. split; [exact Hr|]. split; [|exact Hp1].
    apply call_raise. unfold before_alternative.
    rewrite (run_bind_return _ _ _ _ _ Hr).
    rewrite (run_bind_return _ _ _ _ _ (run_get_self _ _ _ Ho1)).
    cbn [stages set_executions with_state alternatives].
    fold (stage_of o stage_arg).
    rewrite bool_decide_eq_true_2 by exact Hst. cbn [negb].
    st_red. rewrite Hu1. st_red. rewrite Hnil. reflexivity.
  - set (ps := get_problem_size o args) in *.
    pose proof (run_set_problem_size n ps w1 me Hme) as Hsps.
    set (me' := set_problem_sizes _ _) in Hsps.
    set (ws := set_nodes (<[n := me']> (nodes w1)) w1) in *.
    assert (Hos : instances ws !! self = Some (set_executions ex o))
      by exact Ho1.
    destruct (read_best ps (set_executions ex o)) as [ob rb] eqn:Erb.
    assert (Hrb : rb = Return None).
    { pose proof (run_read_best_none ps (set_executions ex o) Hca) as Hn.
      rewrite Erb in Hn. exact Hn. }
    subst rb.
    set (wt := set_instances (<[self := ob]> (instances ws)) ws).
    assert (Hlt : (n < length (nodes w1))%nat)
      by (eapply lookup_lt_Some; exact Hme).
    assert (Hmet : nodes wt !! n = Some me').
    { cbn. apply list_lookup_insert_eq. exact Hlt. }
    assert (Hpt : exists pn', nodes wt !! p = Some pn').
    { cbn. destruct (decide (n = p)) as [<-|Hne].
      - exists me'. apply list_lookup_insert_eq. exact Hlt.
      - exists pn. rewrite list_lookup_insert_ne by exact Hne. exact Hpn. }
    destruct Hpt as [pn' Hpn'].
    destruct (run_block_parent n wt me' p pn' Hmet Hpar Hpn') as [wb Hblock].
    pose proof (block_parent_marks _ _ _ Hblock) as (_ & Hib & Hpb & _).
    assert (Hob : instances wb !! self = Some ob).
    { rewrite Hib. cbn. eapply lookup_insert_self; exact Hos. }
    eexists _, n. split; [exact Hr|]. split.
    + apply call_raise. unfold before_alternative.
      rewrite (run_bind_return _ _ _ _ _ Hr).
      rewrite (run_bind_return _ _ _ _ _ (run_get_self _ _ _ Ho1)).
      cbn [stages set_executions with_state alternatives get_problem_size].
      fold (stage_of o stage_arg).
      rewrite bool_decide_eq_true_2 by exact Hst. cbn [negb].
      st_run. rewrite Hu1. fold ps. rewrite Hsps. fold ws.
      rewrite (run_on_self self _ ws _ Hos), Erb. cbn [fst snd]. fold wt.
      rewrite Hblock. rewrite (run_on_self _ _ _ _ Hob).
      rewrite run_read_current_alternative. cbn [fst snd].
      rewrite Hnil, Py_index_nil. reflexivity.
    + cbn. rewrite Hpb. cbn. rewrite Hp1. reflexivity.
Qed.

(** ** Every problem size gets its selection *)

Lemma next_live_range limit (l : list Float.t) :
  forall i dflt,
    next_live limit l i dflt = dflt \/
    i <= next_live limit l i dflt < i + Z.of_nat (length l).
Proof.
  induction l as [|x l IH]; intros i dflt; cbn [next_live length].
  - left. reflexivity.
  - destruct (Float.le x limit); [right; lia|].
    destruct (IH (i + 1) dflt) as [E|E]; [left; exact E|right; lia].
Qed.

(** The decision on samples that are in place: it returns; either it
    selects one of the alternatives, or it changes nothing and leaves a
    cursor that is a position of [alternatives], and then the round is not
    [rounds] if the cursor had wrapped. *)
Lemma select_best_progress ps c1 r1 (oc : BestOf') ts :
  well_formed oc -> alternatives oc <> [] ->
  _times oc !! ps = Some ts ->
  0 <= c1 < Z.of_nat (length (alternatives oc)) ->
  (decision_due oc c1 r1 -> Forall (fun s => s <> []) ts) ->
  exists os c2 sel,
    select_best ps c1 r1 oc = (os, Return (c2, sel)) /\
    (sel = true ->
     exists a, a ∈ alternatives oc /\ cached os ps = Some a.2) /\
    (sel = false ->
     os = oc /\ 0 <= c2 < Z.of_nat (length (alternatives oc)) /\
     (c1 <> 0 -> c2 = c1) /\ (c1 = 0 -> r1 <> total_rounds oc)).
Proof.
  intros Hw Hne Hts Hc1 Hdue.
  pose proof Hw as (_ & Hlen & _).
  specialize (Hlen ps ts Hts).
  destruct (decide (decision_due oc c1 r1)) as [Hd|Hnd].
  2:{ exists oc, c1, false.
      split; [apply select_best_not_due; exact Hnd|].
      split; [discriminate|]. intros _. split; [reflexivity|].
      split; [exact Hc1|]. split; [auto|].
      intros -> Hr. apply Hnd. split; [reflexivity|]. lia. }
  specialize (Hdue Hd). destruct Hd as [-> Hmin].
  set (meds := Float.median <$> ts).
  assert (Hsome : Forall is_Some meds) by (apply medians_defined; exact Hdue).
  assert (Hml : length meds = length (alternatives oc)).
  { unfold meds. rewrite length_fmap. exact Hlen. }
  assert (Hmeds : meds <> []).
  { destruct meds; [|discriminate]. cbn in Hml. lia. }
  destruct (min_spec meds Hsome Hmeds) as (m0 & Hm0 & Hsm).
  destruct (index_of_spec m0 meds (proj1 Hsm))
    as (idx & mi & Hidx & Hmi & _ & _).
  assert (Hlt : (idx < length (alternatives oc))%nat).
  { rewrite <- Hml. eapply lookup_lt_Some. exact Hmi. }
  destruct (lookup_lt_is_Some_2 _ _ Hlt) as [a Ha].
  unfold select_best. st_red.
  rewrite (bool_decide_eq_true_2 (0 = 0)) by reflexivity.
  rewrite (bool_decide_eq_true_2 _ Hmin). cbn [andb].
  rewrite run_read_times, (dd_get_present _ _ _ _ Hts). cbn [fst snd].
  rewrite set_times_id. fold meds. rewrite Hm0. st_red.
  destruct (bool_decide (r1 = total_rounds oc) || _) eqn:Ego.
  - rewrite Hidx. st_red. rewrite Py_index_of_nat, Ha. st_run.
    destruct (bool_decide (stages oc = 1)) eqn:Es;
      eexists _, 0, true; (split; [reflexivity|]);
      (split; [|discriminate]); intros _; exists a;
      (split; [eapply list_elem_of_lookup_2; exact Ha|]);
      unfold cached, dd_peek; cbn; rewrite Es, lookup_insert_eq; reflexivity.
  - apply orb_false_iff in Ego as [Er _].
    apply bool_decide_eq_false in Er.
    eexists oc, _, false. split; [reflexivity|]. split; [discriminate|].
    intros _. split; [reflexivity|].
    change (Z.to_nat 0) with 0%nat. rewrite drop_0.
    split; [|split; [congruence|intros _; exact Er]].
    destruct (next_live_range
                (Float.mul (Some m0) (pruning_speedup oc)) meds 0 0)
      as [E|E]; [rewrite E|]; lia.
Qed.

Lemma run_unblock_parent_top cur w me r :
  nodes w !! cur = Some me -> parent me = Some _root ->
  nodes w !! _root = Some r -> parent r = None ->
  unblock_parent cur w = (w, Return tt).
Proof.
  intros Hme Hp Hr Hpr. unfold unblock_parent.
  rewrite (run_bind_return _ _ _ _ _ (run_get_node _ _ _ Hme)).
  rewrite Hp. st_run. rewrite (run_get_node _ _ _ Hr).
  unfold _is_root. rewrite Hpr. reflexivity.
Qed.

(** After an alternative has returned to a node under the root that
    nothing blocks: the sample is recorded, the decision taken, cursor
    and round stored. *)
Lemma after_top self cur ps ca stage t w o me rt oc c1 r1 os c2 sel :
  _current_parents w = [cur] ->
  nodes w !! cur = Some me -> blocked me = false ->
  parent me = Some _root ->
  nodes w !! _root = Some rt -> parent rt = None ->
  instances w !! self = Some o ->
  record_sample ps ca stage t o = (oc, Return (c1, r1)) ->
  select_best ps c1 r1 oc = (os, Return (c2, sel)) ->
  exists w3,
    after_alternative self cur ps ca stage t w = (w3, Return tt) /\
    nodes w3 =
      <[cur := set_blocked_by
                 (dd_get ∅ (_current_problem_size me) (_blocked_by me)).2 me]>
        (nodes w) /\
    _current_parents w3 = [] /\
    stdout w3 = stdout w /\
    _use_first_alternative w3 = _use_first_alternative w /\
    instances w3 = <[self := (commit ps c2 r1 os).1]> (instances w).
Proof.
  intros Hp Hme Hbl Hpar Hrt Hprt Ho Hrec Hsel.
  assert (Hne : cur <> _root) by (intros ->; congruence).
  unfold after_alternative.
  rewrite (run_bind_return _ _ _ _ _
             (run_pop_parent w ltac:(rewrite Hp; discriminate))).
  rewrite Hp. cbn [removelast].
  set (wa := set_current_parents [] w).
  assert (Hmea : nodes wa !! cur = Some me) by exact Hme.
  rewrite (run_bind_return _ _ _ _ _ (run_is_blocked cur wa me Hmea)).
  rewrite Hbl.
  set (me' := set_blocked_by _ me).
  set (wb := set_nodes _ wa).
  assert (Hob : instances wb !! self = Some o) by exact Ho.
  rewrite run_bind, (run_on_self _ _ _ _ Hob), Hrec. cbn [fst snd].
  set (wc := set_instances _ wb).
  assert (Hoc : instances wc !! self = Some oc).
  { cbn. eapply lookup_insert_self; exact Hob. }
  rewrite run_bind, (run_on_self _ _ _ _ Hoc), Hsel. cbn [fst snd].
  set (wd := set_instances _ wc).
  assert (Hod : instances wd !! self = Some os).
  { cbn. eapply lookup_insert_self; exact Hoc. }
  assert (Hlt : (cur < length (nodes w))%nat)
    by (eapply lookup_lt_Some; exact Hme).
  assert (Hun : (if sel then unblock_parent cur else mret tt) wd
                = (wd, Return tt)).
  { destruct sel; [|reflexivity].
    apply (run_unblock_parent_top cur wd me' rt).
    - cbn. apply list_lookup_insert_eq. exact Hlt.
    - exact Hpar.
    - cbn. rewrite list_lookup_insert_ne by exact Hne. exact Hrt.
    - exact Hprt. }
  rewrite run_bind, Hun. rewrite (run_on_self _ _ _ _ Hod).
  eexists. split; [reflexivity|]. cbn.
  rewrite !list_insert_insert_eq. repeat split.
Qed.

Lemma before_cached_top self eid stage_arg args w o impl c :
  calm self w -> _current_parents w = [] ->
  instances w !! self = Some o ->
  stages o = 1 ->
  cached o (get_problem_size o args) = Some impl ->
  callable_of 1 impl 0 = Return c ->
  exists w1 o1,
    before_alternative self eid stage_arg args w
      = (w1, Return (0, Direct c)) /\
    calm self w1 /\ _current_parents w1 = [] /\
    stdout w1 = stdout w /\
    instances w1 !! self = Some o1 /\ same_view o o1.
Proof.
  intros Hcalm Hp Ho Hst Hca Hc.
  set (ps := get_problem_size o args) in *.
  destruct (register_top self eid w o Hcalm Hp Ho)
    as (wr & cur & ex & Hreg & Hcalmr & Hpr & Hsr & Hir & Hex).
  set (or := set_executions ex o) in *.
  assert (Hor : instances wr !! self = Some or).
  { rewrite Hir. eapply lookup_insert_self; exact Ho. }
  pose proof Hcalmr as (Hur & _ & Hnodes).
  destruct (Hnodes or eid cur Hor Hex) as (me & Hme & Hpar & Hunm).
  pose proof (run_set_problem_size cur ps wr me Hme) as Hsps.
  set (me' := set_problem_sizes _ _) in Hsps.
  set (ws := set_nodes (<[cur := me']> (nodes wr)) wr) in *.
  assert (Hcalms : calm self ws).
  { eapply (calm_insert_node self wr ws cur me me'); try reflexivity; auto. }
  assert (Hrb : read_best ps or = (or, Return (Some impl)))
    by (apply read_best_cached; exact Hca).
  exists (set_instances (<[self := or]> (instances ws)) ws), or.
  split; [|split; [|split; [|split; [|split]]]].
  - unfold before_alternative. rewrite (run_bind_return _ _ _ _ _ Hreg).
    rewrite (run_bind_return _ _ _ _ _ (run_get_self _ _ _ Hor)).
    cbn [stages alternatives get_problem_size or set_executions with_state].
    rewrite Hst. rewrite (bool_decide_eq_false_2 (1 < 1)) by lia.
    rewrite (bool_decide_eq_true_2 (0 < 1)) by lia. cbn [negb].
    st_run. rewrite Hur. fold ps. rewrite Hsps. fold ws.
    rewrite (run_on_self self _ ws or Hor), Hrb. cbn [fst snd].
    rewrite Hc. reflexivity.
  - eapply (calm_same_nodes self ws _ or or); try reflexivity; auto.
    cbn. eapply lookup_insert_self; exact Hor.
  - cbn. exact Hpr.
  - cbn. exact Hsr.
  - cbn. eapply lookup_insert_self; exact Hor.
  - apply set_executions_view.
Qed.

Lemma tuning_ok_view o o1 ps :
  same_view o o1 -> tuning_ok o ps -> tuning_ok o1 ps.
Proof.
  intros (Hcfg & _ & Hpk) Htun.
  destruct (Hpk ps) as (Hca & Hcu & Hrn & Hts).
  pose proof (config_times_arrays _ _ Hcfg) as Harr.
  pose proof Hcfg as Hcfg'. injection Hcfg' as _ Ealt _ Ernd _ _ _ _.
  destruct Htun as [(a & Ha & Hc)|(Hc & Hcr & Hrr & HJ)].
  - left. exists a. rewrite Ealt, Hca. auto.
  - right. rewrite Hca, Hcu, Hrn, Ealt, Ernd, Harr, Hts. auto.
Qed.

Lemma budget_view o o1 ps : same_view o o1 -> budget o1 ps = budget o ps.
Proof.
  intros (Hcfg & _ & Hpk). destruct (Hpk ps) as (Hca & Hcu & Hrn & _).
  injection Hcfg as _ Ealt _ Ernd _ _ _ _.
  unfold budget. rewrite Hca, Hcu, Hrn, Ealt, Ernd. reflexivity.
Qed.

(** One call of a problem size on its way to a selection. *)
Lemma call_converges self o ps b n eid stage_arg args w :
  quiet invoke (fun _ => True) self ->
  stages o = 1 ->
  forallb (alternative_ok 1) (alternatives o) = true ->
  converging self o ps b n w ->
  get_problem_size o args = ps ->
  exists w' out,
    call invoke self eid stage_arg args w = (w', Return out) /\
    converging self o ps (Z.max 0 (b - 1)) n w'.
Proof.
  intros Hq Hst Hok Hs Hps.
  destruct Hs as (Hcalm & Hp & o' & Ho' & Hcfg & Hwf & Htun & Hb & Hn).
  pose proof Hcfg as Hcfg'.
  injection Hcfg' as _ Ealt Egps Ernd Estg _ _ _.
  assert (Hps' : get_problem_size o' args = ps) by (rewrite Egps; exact Hps).
  assert (Hst' : stages o' = 1) by congruence.
  destruct Htun as [(a & Ha & Hc)|(Hc & Hcr & Hrr & HJ)].
  - (* a selection is cached *)
    rewrite Ealt in Ha. apply list_elem_of_lookup in Ha as [i Ha].
    destruct (callable_of_single _ _ _ Hok Ha) as [c Hcall].
    destruct (before_cached_top self eid stage_arg args w o' a.2 c)
      as (w1 & o1 & Hbefore & Hcalm1 & Hp1 & Hs1 & Ho1 & Hview);
      try assumption.
    { rewrite Hps'. exact Hc. }
    destruct (Hq c args w1 Hcalm1)
      as (w2 & out & t & Hinv & _ & Hcalm2 & Hp2 & Hs2 & Hi2).
    exists w2, out. split.
    + rewrite (call_direct _ _ _ _ _ _ _ _ Hbefore), Hinv. reflexivity.
    + split; [exact Hcalm2|]. split; [congruence|]. exists o1.
      split; [congruence|]. pose proof Hview as (Hcfg1 & Hwf1 & Hpk).
      split; [congruence|]. split; [auto|].
      split; [apply (tuning_ok_view o'); [exact Hview|];
              left; exists a; split;
              [rewrite Ealt; eapply list_elem_of_lookup_2; exact Ha
              |exact Hc]|].
      assert (Hbud : budget o1 ps = 0).
      { rewrite (budget_view o' o1) by exact Hview.
        unfold budget. rewrite Hc. reflexivity. }
      rewrite Hbud, Hs2, Hs1.
      unfold budget in Hn. rewrite Hc in Hn. lia.
  - (* no selection yet *)
    set (K := Z.of_nat (length (alternatives o))) in *.
    rewrite Ealt in Hcr. fold K in Hcr.
    set (cur0 := dd_peek 0 ps (_current_alternative o')) in *.
    set (rnd0 := dd_peek 0 ps (_current_round o')) in *.
    assert (Hbud0 : budget o' ps = (total_rounds o' - rnd0) * K - cur0).
    { unfold budget. rewrite Hc, Ealt. reflexivity. }
    rewrite Hbud0 in Hb, Hn.
    assert (Hlen : length (dd_peek (_times_arrays o') ps (_times o'))
                   = length (alternatives o)).
    { rewrite <- dd_get_peek, <- Ealt. apply dd_get_times_length. exact Hwf. }
    destruct (lookup_lt_is_Some_2 (alternatives o) (Z.to_nat cur0))
      as [a Ha]; [unfold K in Hcr; lia|].
    destruct (callable_of_single _ _ _ Hok Ha) as [c Hcall].
    destruct (before_evaluate_top self eid stage_arg args w o' a c)
      as (w1 & cur & o1 & Hbefore & Hcalm1 & Hp1 & Hs1 & Ho1 & Hview & Hex1);
      try assumption.
    { rewrite Hps'. exact Hc. }
    { rewrite Hps'. fold cur0. rewrite Ealt, Py_index_nonneg by lia.
      exact Ha. }
    rewrite Hps' in Hbefore, Hs1. fold cur0 in Hbefore, Hs1.
    destruct (Hq c args w1 Hcalm1)
      as (w2 & out & t & Hinv & _ & Hcalm2 & Hp2 & Hs2 & Hi2).
    rewrite Ho1 in Hi2. rewrite Hp1 in Hp2.
    pose proof Hcalm2 as (Hu2 & (rt & Hrt & Hprt) & Hnodes2).
    destruct (Hnodes2 o1 eid cur Hi2 Hex1) as (me & Hme & Hpar & Hunm).
    pose proof Hview as (Hcfg1 & Hwf1 & Hpeek).
    destruct (Hpeek ps) as (Hcac1 & Hcur1 & Hrnd1 & Hts1).
    pose proof (config_times_arrays _ _ Hcfg1) as Harr.
    pose proof Hcfg1 as Hcfg1'.
    injection Hcfg1' as _ Ealt1 _ Ernd1 Estg1 _ _ _.
    fold cur0 in Hcur1. fold rnd0 in Hrnd1. rewrite Hc in Hcac1.
    specialize (Hwf1 Hwf).
    destruct (lookup_lt_is_Some_2
                (dd_peek (_times_arrays o1) ps (_times o1)) (Z.to_nat cur0))
      as [series Hser].
    { rewrite Harr, Hts1, Hlen. unfold K in Hcr. lia. }
    assert (HK1 : Z.of_nat (length (alternatives o1)) = K)
      by (rewrite Ealt1, Ealt; reflexivity).
    (* the sample *)
    destruct (record_single ps cur0 0 t o1 series)
      as (oc & Hrec & Htimes); try assumption; [congruence|lia|].
    rewrite HK1, Hrnd1 in Hrec. rewrite Harr, Hts1 in Htimes, Hser.
    set (c1 := (cur0 + 1) mod K) in *.
    set (r1 := if bool_decide (c1 = 0) then rnd0 + 1 else rnd0) in *.
    set (ts := dd_peek (_times_arrays o') ps (_times o')) in *.
    set (ts' := <[Z.to_nat cur0 := series ++ [t]]> ts) in *.
    pose proof (Z.mod_pos_bound (cur0 + 1) K ltac:(lia)) as Hc1.
    fold c1 in Hc1.
    assert (Hwrap : c1 = 0 -> cur0 = K - 1).
    { unfold c1. intros E.
      destruct (decide (cur0 + 1 < K)) as [Hlt|Hge];
        [rewrite Z.mod_small in E by lia; lia|lia]. }
    assert (Hstep : c1 <> 0 -> c1 = cur0 + 1).
    { unfold c1. intros E.
      destruct (decide (cur0 + 1 < K)) as [Hlt|Hge];
        [apply Z.mod_small; lia|].
      exfalso. apply E. replace (cur0 + 1) with K by lia.
      apply Z_mod_same_full. }
    assert (Hts' : forall i s, ts' !! i = Some s ->
                     1 <= r1 \/ Z.of_nat i < (if decide (c1 = 0) then K else c1) ->
                     s <> []).
    { intros i s. unfold ts'.
      destruct (decide (Z.to_nat cur0 = i)) as [<-|Hne].
      - rewrite list_lookup_insert_eq by (eapply lookup_lt_Some; exact Hser).
        intros [= <-] _. destruct series; discriminate.
      - rewrite list_lookup_insert_ne by exact Hne. intros Hi Hcase.
        apply (HJ i s Hi).
        assert (Hil : (i < length ts)%nat) by (eapply lookup_lt_Some; exact Hi).
        destruct (decide (c1 = 0)) as [E|E].
        + right. specialize (Hwrap E). fold rnd0 cur0. unfold K. lia.
        + specialize (Hstep E). unfold r1 in Hcase.
          rewrite bool_decide_eq_false_2 in Hcase by exact E.
          fold rnd0 cur0. destruct Hcase; [left; assumption|right; lia]. }
    pose proof (record_sample_keeps _ _ _ _ _ _ _ Hrec) as Hkc.
    pose proof (record_sample_wf _ _ _ _ _ _ _ Hrec Hwf1) as Hwc.
    pose proof (keeps_selection_config _ _ Hkc) as Hcfgc.
    pose proof Hcfgc as Hcfgc'.
    injection Hcfgc' as _ Ealtc _ Erndc _ _ _ _.
    (* the decision *)
    destruct (select_best_progress ps c1 r1 oc ts')
      as (os & c2 & sel & Hsel & Hyes & Hno); try assumption.
    { rewrite Ealtc, Ealt1, Ealt. intros E. unfold K in Hcr.
      rewrite E in Hcr. cbn in Hcr. lia. }
    { rewrite Ealtc, HK1. exact Hc1. }
    { intros [E _]. apply Forall_lookup. intros i s Hi.
      apply (Hts' i s Hi). right. rewrite decide_True by exact E.
      apply lookup_lt_Some in Hi. unfold ts' in Hi.
      rewrite length_insert, Hlen in Hi. unfold K. lia. }
    destruct (after_top self cur ps cur0 0 t w2 o1 me rt oc c1 r1 os c2 sel)
      as (w3 & Hafter & Hn3 & Hp3 & Hs3 & Hu3 & Hi3); try assumption.
    { apply unmarked_not_blocked. exact Hunm. }
    set (o3 := (commit ps c2 r1 os).1) in *.
    pose proof (commit_keeps ps c2 r1 _ _ _ (run_commit ps c2 r1 os)) as Hk3.
    fold o3 in Hk3.
    pose proof (select_best_cached _ _ _ _ _ _ _ Hsel)
      as (Hcfgs & Hexs & _ & _).
    pose proof (select_best_wf _ _ _ _ _ _ Hsel Hwc) as Hws.
    pose proof (commit_wf ps c2 r1 _ _ _ (run_commit ps c2 r1 os) Hws) as Hw3.
    fold o3 in Hw3.
    destruct (commit_peeks ps c2 r1 os) as (P1 & P2 & P3).
    fold o3 in P1, P2, P3.
    assert (Hcfg3 : config o3 = config o).
    { destruct Hk3 as (E3 & _). congruence. }
    assert (Hex3 : _executions o3 = _executions o1).
    { destruct Hk3 as (_ & _ & E3). destruct Hkc as (_ & _ & Ec).
      congruence. }
    exists w3, out. split.
    { rewrite (call_evaluate _ _ _ _ _ _ _ _ _ _ _ _ _ _ Hbefore Hinv),
        Hafter. reflexivity. }
    split.
    { set (wI := set_nodes (nodes w3) w2).
      assert (HcalmI : calm self wI).
      { apply (calm_insert_node self w2 wI cur me
                 (set_blocked_by
                    (dd_get ∅ (_current_problem_size me) (_blocked_by me)).2
                    me)); try reflexivity.
        - exact Hcalm2.
        - exact Hme.
        - apply unmarked_dd_get.
        - cbn. exact Hn3. }
      eapply (calm_same_nodes self wI w3 o1 o3); auto.
      rewrite Hi3. eapply lookup_insert_self; exact Hi2. }
    split; [exact Hp3|]. exists o3.
    split; [rewrite Hi3; eapply lookup_insert_self; exact Hi2|].
    split; [exact Hcfg3|]. split; [exact Hw3|].
    pose proof Hcfg3 as Hcfg3'.
    injection Hcfg3' as _ Ealt3 _ Ernd3 _ _ _ _.
    change (alternatives os) with (alternatives o3) in Ealt3.
    change (total_rounds os) with (total_rounds o3) in Ernd3.
    assert (Hlo : Z.of_nat (length (stdout w3))
                  = Z.of_nat (length (stdout w)) + 1).
    { rewrite Hs3, Hs2, Hs1, length_app. cbn. lia. }
    assert (Hca3 : cached o3 ps = cached os ps)
      by (apply keeps_selection_cached; exact Hk3).
    assert (HT : total_rounds o' = total_rounds o) by exact Ernd.
    rewrite HT in Hrr, Hb, Hn.
    destruct sel.
    + (* selected *)
      destruct (Hyes eq_refl) as (a' & Ha' & Hca').
      split.
      { left. exists a'. rewrite Ealt3, <- Ealt, <- Ealt1, <- Ealtc, Hca3.
        auto. }
      assert (Hbud : budget o3 ps = 0)
        by (unfold budget; rewrite Hca3, Hca'; reflexivity).
      rewrite Hbud, Hlo. split; [lia|]. nia.
    + (* not selected *)
      destruct (Hno eq_refl) as (-> & Hc2 & Hsame & Hnot).
      rewrite Ealtc, HK1 in Hc2. rewrite Erndc, Ernd1, HT in Hnot.
      assert (Hca0 : cached o3 ps = None).
      { rewrite Hca3. rewrite (keeps_selection_cached o1 oc ps Hkc).
        exact Hcac1. }
      assert (Hr1 : 0 <= r1 < total_rounds o).
      { unfold r1 in *. destruct (decide (c1 = 0)) as [E|E].
        - rewrite bool_decide_eq_true_2 in * by exact E.
          specialize (Hnot E). lia.
        - rewrite bool_decide_eq_false_2 by exact E. exact Hrr. }
      assert (Hpk3 : dd_peek (_times_arrays o3) ps (_times o3) = ts').
      { unfold dd_peek. rewrite P3, Htimes. reflexivity. }
      split.
      { right. split; [exact Hca0|]. rewrite P1, P2, Ealt3, Ernd3, Hpk3.
        fold K. split; [exact Hc2|]. split; [exact Hr1|].
        intros i s Hi Hcase. apply (Hts' i s Hi).
        destruct Hcase as [Hcase|Hcase]; [left; exact Hcase|].
        destruct (decide (c1 = 0)) as [E|E].
        - right. lia.
        - right. rewrite (Hsame E) in Hcase. exact Hcase. }
      assert (Hbud : budget o3 ps = (total_rounds o - r1) * K - c2).
      { unfold budget. rewrite Hca0, P1, P2, Ealt3, Ernd3. reflexivity. }
      assert (Hdec : (total_rounds o - r1) * K - c2
                     <= (total_rounds o - rnd0) * K - cur0 - 1).
      { unfold r1. destruct (decide (c1 = 0)) as [E|E].
        - rewrite bool_decide_eq_true_2 by exact E.
          specialize (Hwrap E). nia.
        - rewrite bool_decide_eq_false_2 by exact E.
          rewrite (Hsame E), (Hstep E). lia. }
      rewrite Hbud, Hlo. split; lia.
Qed.

Lemma calls_converge self o ps n (l : list (ExecId * Z * Args)) :
  quiet invoke (fun _ => True) self ->
  stages o = 1 ->
  forallb (alternative_ok 1) (alternatives o) = true ->
  Forall (fun x => get_problem_size o x.2 = ps) l ->
  forall b w,
    converging self o ps b n w ->
    exists w' outs,
      calls invoke self l w = (w', Return outs) /\
      converging self o ps (Z.max 0 (b - Z.of_nat (length l))) n w'.
Proof.
  intros Hq Hst Hok Hl. induction Hl as [|[[eid st] args] l Hx Hl IH];
    intros b w Hs.
  - exists w, []. split; [reflexivity|].
    destruct Hs as (A & B & o' & C & D & E & F & G & I).
    split; [exact A|]. split; [exact B|]. exists o'.
    do 4 (split; [assumption|]). split; [|exact I]. cbn [length]. lia.
  - destruct (call_converges self o ps b n eid st args w Hq Hst Hok Hs Hx)
      as (w1 & out & Hcall & Hs1).
    destruct (IH _ w1 Hs1) as (w2 & outs & Hcalls & Hs2).
    exists w2, (out :: outs). split.
    + cbn [calls]. rewrite (run_bind_return _ _ _ _ _ Hcall).
      rewrite (run_bind_return _ _ _ _ _ Hcalls). reflexivity.
    + destruct Hs2 as (A & B & o' & C & D & E & F & G & I).
      split; [exact A|]. split; [exact B|]. exists o'.
      do 4 (split; [assumption|]). split; [|exact I]. cbn [length]. lia.
Qed.

(** A single-stage [BestOf] with K >= 1 alternatives is called, from
    outside every tuned alternative and with callables that make no tuned
    call still evaluating, for a problem size it has never seen.  Whatever
    the elapsed times, every call returns, at most K * rounds of the calls
    are dispatched for evaluation, and after K * rounds calls one of the
    alternatives is selected and cached for the problem size. *)
Theorem selection_within_rounds
    self o ps w (l : list (ExecId * Z * Args)) :
  quiet invoke (fun _ => True) self ->
  calm self w -> _current_parents w = [] ->
  instances w !! self = Some o -> well_formed o ->
  stages o = 1 ->
  forallb (alternative_ok 1) (alternatives o) = true ->
  alternatives o <> [] ->
  1 <= total_rounds o ->
  never_seen o ps ->
  Forall (fun x => get_problem_size o x.2 = ps) l ->
  let n := Z.of_nat (length (alternatives o)) * total_rounds o in
  exists w' outs o',
    calls invoke self l w = (w', Return outs) /\
    instances w' !! self = Some o' /\
    Z.of_nat (length (stdout w')) <= Z.of_nat (length (stdout w)) + n /\
    (n <= Z.of_nat (length l) ->
     exists a, a ∈ alternatives o /\ cached o' ps = Some a.2).
Proof.
  intros Hq Hcalm Hp Ho Hwf Hst Hok Hne HT (Hbm & Hbp & Hca & Hcr & Hts) Hl n.
  set (K := Z.of_nat (length (alternatives o))) in *.
  assert (HK : 1 <= K).
  { unfold K. destruct (alternatives o); [congruence|cbn; lia]. }
  assert (Hc0 : cached o ps = None).
  { unfold cached, dd_peek. rewrite Hbm, Hbp.
    destruct (bool_decide _); reflexivity. }
  assert (Hb0 : budget o ps = n).
  { unfold budget, dd_peek. rewrite Hc0, Hca, Hcr. cbn. fold K. unfold n.
    lia. }
  assert (Hs0 : converging self o ps n
                  (Z.of_nat (length (stdout w)) + n) w).
  { split; [exact Hcalm|]. split; [exact Hp|]. exists o.
    split; [exact Ho|]. split; [reflexivity|]. split; [exact Hwf|].
    split; [|rewrite Hb0; lia].
    right. split; [exact Hc0|]. unfold dd_peek. rewrite Hca, Hcr, Hts. cbn.
    fold K. split; [lia|]. split; [lia|].
    intros i series Hi [Hx|Hx]; lia. }
  destruct (calls_converge self o ps _ l Hq Hst Hok Hl n w Hs0)
    as (w' & outs & Hcalls & Hs).
  destruct Hs as (_ & _ & o' & Ho' & Hcfg & Hwf' & Htun & Hb & Hn).
  exists w', outs, o'. split; [exact Hcalls|]. split; [exact Ho'|].
  injection Hcfg as _ Ealt _ Ernd _ _ _ _.
  assert (Hnonneg : 0 <= budget o' ps).
  { unfold budget. destruct Htun as [(a & _ & ->)|(-> & Hcr' & Hrr' & _)];
      [lia|]. rewrite Ealt, Ernd in *. fold K in Hcr' |- *. nia. }
  split; [lia|]. intros Hlen.
  destruct Htun as [(a & Ha & Hc)|(Hc & Hcr' & Hrr' & _)].
  - exists a. rewrite <- Ealt. auto.
  - exfalso. unfold budget in Hb. rewrite Hc, Ealt, Ernd in Hb.
    rewrite Ealt in Hcr'. rewrite Ernd in Hrr'. fold K in Hb, Hcr'. nia.
Qed.

(** ** The override *)

Lemma frozen_refl w : frozen w w.
Proof. intros Hu. auto. Qed.

Lemma frozen_trans w1 w2 w3 : frozen w1 w2 -> frozen w2 w3 -> frozen w1 w3.
Proof.
  intros H1 H2 Hu. destruct (H1 Hu) as [Hu2 Ht2].
  destruct (H2 Hu2) as [Hu3 Ht3]. split; congruence.
Qed.

Lemma same_flag_instances_frozen w w' :
  _use_first_alternative w' = _use_first_alternative w ->
  tuning <$> instances w' = tuning <$> instances w ->
  frozen w w'.
Proof. intros Hu Ht Hw. split; congruence. Qed.

Lemma register_frozen self eid : st_rel (S := World') frozen (_register self eid).
Proof.
  intros w w' r. unfold _register, new_execution, get_self, get_node,
    put_node, on_self. st_run.
  destruct (instances w !! self) as [o|] eqn:Ho;
    [|intros Hr; inversion Hr; subst; apply frozen_refl].
  st_run. destruct (_executions o !! eid) as [n|] eqn:He;
    [intros Hr; inversion Hr; subst; apply frozen_refl|].
  st_run. cbn [instances set_names nodes].
  rewrite Ho. st_run. cbn [nodes set_names].
  destruct (nodes w !! default _root (last (_current_parents w)))
    as [px|] eqn:Hpx.
  - st_run. cbn [instances set_nodes set_names nodes]. rewrite Ho.
    intros Hr; inversion Hr; subst.
    apply same_flag_instances_frozen; [reflexivity|]. cbn.
    apply tuning_insert_executions. exact Ho.
  - intros Hr; inversion Hr; subst.
    apply same_flag_instances_frozen; reflexivity.
Qed.

(** With the override set, [__call__] reaches its alternative, or raises,
    without having learned anything, and it dispatches directly. *)
Lemma before_alternative_frozen self eid stage_arg args w w1 r :
  _use_first_alternative w = true ->
  before_alternative self eid stage_arg args w = (w1, r) ->
  _use_first_alternative w1 = true /\
  tuning <$> instances w1 = tuning <$> instances w /\
  forall stage d, r = Return (stage, d) -> exists c, d = Direct c.
Proof.
  intros Hu Hrun. unfold before_alternative in Hrun.
  st_step Hrun as wr cur Hreg.
  2:{ inversion Hrun; subst.
      destruct (register_frozen _ _ _ _ _ Hreg Hu) as [A B].
      split; [exact A|]. split; [exact B|]. discriminate. }
  destruct (register_frozen _ _ _ _ _ Hreg Hu) as [Hur Htr].
  rewrite run_bind in Hrun. unfold get_self at 1 in Hrun.
  destruct (instances wr !! self) as [o|].
  2:{ inversion Hrun; subst. split; [exact Hur|]. split; [exact Htr|].
      discriminate. }
  destruct (negb _).
  { inversion Hrun; subst. split; [exact Hur|]. split; [exact Htr|].
    discriminate. }
  rewrite run_bind in Hrun. unfold get at 1 in Hrun. cbn beta iota in Hrun.
  rewrite Hur in Hrun. st_run.
  destruct (Py.index _ 0).
  2:{ inversion Hrun; subst. split; [exact Hur|]. split; [exact Htr|].
      discriminate. }
  st_run. destruct (callable_of _ _ _); inversion Hrun; subst;
    (split; [exact Hur|]); (split; [exact Htr|]).
  - intros stage d [= <- <-]. eauto.
  - discriminate.
Qed.

(** Once [use_always_the_first_alternative] has set the override, nothing
    is learned any more and nothing unsets it: every call, returning or
    raising, leaves the override set and the cursors, rounds, samples,
    stage buffers and selections of every [BestOf] as they were, provided
    the callables do (they reach the engine through calls only). *)
Theorem override_freezes_tuning :
  (forall w w1 r,
     use_always_the_first_alternative w = (w1, r) ->
     r = Return tt /\ _use_first_alternative w1 = true /\
     instances w1 = instances w /\ nodes w1 = nodes w) /\
  ((forall c a, st_rel (S := World') frozen (invoke c a)) ->
   forall self eid stage_arg args w w' r,
     _use_first_alternative w = true ->
     call invoke self eid stage_arg args w = (w', r) ->
     _use_first_alternative w' = true /\
     tuning <$> instances w' = tuning <$> instances w).
Proof.
  split.
  - intros w w1 r Hr. inversion Hr; subst. repeat split.
  - intros Hinv self eid stage_arg args w w' r Hu Hrun.
    unfold call in Hrun.
    st_step Hrun as w1 sd Hbefore.
    2:{ inversion Hrun; subst.
        destruct (before_alternative_frozen _ _ _ _ _ _ _ Hu Hbefore)
          as (A & B & _). auto. }
    destruct sd as [stage d].
    destruct (before_alternative_frozen _ _ _ _ _ _ _ Hu Hbefore)
      as (Hu1 & Ht1 & Hd).
    destruct (Hd stage d eq_refl) as [c ->]. cbn beta iota in Hrun.
    rewrite run_bind in Hrun.
    destruct (invoke c args w1) as [w2 [[out t]|e]] eqn:Hi;
      inversion Hrun; subst;
      destruct (Hinv _ _ _ _ _ Hi Hu1) as [Hu2 Ht2]; split; congruence.
Qed.


(** ** The speedup of a node *)

Lemma counted_nonneg (pss : gmap PS Z) :
  (forall ps c, pss !! ps = Some c -> 0 <= c) ->
  0 <= map_fold (fun _ c acc => c + acc) 0 pss.
Proof.
  apply (map_fold_weak_ind
           (fun r (m : gmap PS Z) =>
              (forall ps c, m !! ps = Some c -> 0 <= c) -> 0 <= r)).
  - intros _. lia.
  - intros i x m r Hi IH Hpos.
    assert (0 <= x) by (apply (Hpos i); apply lookup_insert_eq).
    assert (0 <= r); [|lia].
    apply IH. intros ps c Hc. apply (Hpos ps).
    rewrite lookup_insert_ne by congruence. exact Hc.
Qed.

(** The counts of distinct problem sizes of a node add up to no more
    than all its counts. *)
Lemma counts_le (pss : gmap PS Z) (l : list (PS * Speedup.t)) :
  NoDup l.*1 ->
  Forall (fun kv => is_Some (pss !! kv.1)) l ->
  (forall ps c, pss !! ps = Some c -> 0 <= c) ->
  total_of ((fun kv => dd_peek 0 kv.1 pss) <$> l)
  <= map_fold (fun _ c acc => c + acc) 0 pss.
Proof.
  revert pss. induction l as [|[ps s] l IH]; intros pss Hnd Hin Hpos.
  - cbn. apply counted_nonneg. exact Hpos.
  - cbn [fmap list_fmap fst] in Hnd. apply NoDup_cons in Hnd as [Hps Hnd].
    apply Forall_cons in Hin as [[c Hc] Hin]. cbn [fst] in Hc.
    rewrite (map_fold_delete_L _ _ ps c pss); [|intros; lia|exact Hc].
    cbn [fmap list_fmap total_of foldr fst].
    unfold dd_peek at 1. rewrite Hc. cbn [default from_option].
    assert (Hl : (fun kv : PS * Speedup.t => dd_peek 0 kv.1 pss) <$> l
                 = (fun kv => dd_peek 0 kv.1 (delete ps pss)) <$> l).
    { apply Forall_fmap_ext_1, Forall_forall. intros [ps' s'] Hel.
      cbn [fst].
      unfold dd_peek. rewrite lookup_delete_ne; [reflexivity|].
      intros <-. apply Hps. apply list_elem_of_fmap. exists (ps, s').
      split; [reflexivity|exact Hel]. }
    fold (total_of ((fun kv : PS * Speedup.t => dd_peek 0 kv.1 pss) <$> l)).
    rewrite Hl.
    assert (total_of ((fun kv : PS * Speedup.t =>
                         dd_peek 0 kv.1 (delete ps pss)) <$> l)
            <= map_fold (fun _ c acc => c + acc) 0 (delete ps pss));
      [|unfold id; lia].
    apply IH; [exact Hnd| |].
    + apply Forall_forall. intros [ps' s'] Hel. cbn [fst].
      rewrite Forall_forall in Hin. specialize (Hin _ Hel). cbn [fst] in Hin.
      rewrite lookup_delete_ne; [exact Hin|].
      intros <-. apply Hps. apply list_elem_of_fmap. exists (ps, s').
      split; [reflexivity|exact Hel].
    + intros ps' c' Hc'. apply lookup_delete_Some in Hc' as [_ Hc'].
      eapply Hpos, Hc'.
Qed.

(** The sum and the total stay between the bounds, as long as the
    products of the bounds with the totals are floats. *)
Lemma weigh_fold_bounds (pss : gmap PS Z) (lo hi : Q) (N : Z) l a T :
  monotone_rounding ->
  (forall n, 0 <= n <= N ->
     (Float.round (inject_Z n) == inject_Z n)%Q /\
     (Float.round (lo * inject_Z n) == lo * inject_Z n)%Q /\
     (Float.round (hi * inject_Z n) == hi * inject_Z n)%Q) ->
  Forall (fun kv : PS * Speedup.t =>
            1 <= dd_peek 0 kv.1 pss /\
            exists q, kv.2 = Speedup.Fin q /\ (lo <= q <= hi)%Q) l ->
  0 <= T ->
  T + total_of ((fun kv => dd_peek 0 kv.1 pss) <$> l) <= N ->
  (lo * inject_Z T <= a <= hi * inject_Z T)%Q ->
  exists a' T',
    foldl (weigh pss) (Speedup.Fin a, T) l = (Speedup.Fin a', T') /\
    T + Z.of_nat (length l) <= T' <= N /\
    (lo * inject_Z T' <= a' <= hi * inject_Z T')%Q.
Proof.
  intros Hmono Hex Hall. revert a T.
  induction Hall as [|[ps s] l (Hc & q & Hs & Hq) Hall IH];
    intros a T HT HN Ha.
  - exists a, T. cbn in *. split; [reflexivity|]. split; [lia|exact Ha].
  - cbn in Hc, Hs. subst s. cbn [foldl length].
    cbn [fmap list_fmap total_of foldr fst] in HN.
    fold (total_of ((fun kv : PS * Speedup.t => dd_peek 0 kv.1 pss) <$> l))
      in HN.
    unfold weigh at 2. cbn [fst snd Speedup.add Speedup.scale].
    set (c := dd_peek 0 ps pss) in *.
    assert (Hrest : 0 <= total_of
              ((fun kv : PS * Speedup.t => dd_peek 0 kv.1 pss) <$> l)).
    { clear -Hall. induction Hall as [|kv l [Hk _] _ IHl]; cbn; [lia|].
      fold (total_of
              ((fun kv : PS * Speedup.t => dd_peek 0 kv.1 pss) <$> l)).
      lia. }
    destruct (Hex c ltac:(lia)) as (Ec & Elc & Ehc).
    destruct (Hex (T + c) ltac:(lia)) as (_ & Elt & Eht).
    assert (Hc' : (1 <= inject_Z c)%Q)
      by (change 1%Q with (inject_Z 1); rewrite <- Zle_Qle; exact Hc).
    assert (Hp : (lo * inject_Z c <= Float.round (q * Speedup.of_int c)
                  <= hi * inject_Z c)%Q).
    { unfold Speedup.of_int. split.
      - rewrite <- Elc. apply round_mono; [exact Hmono|]. rewrite Ec. nra.
      - rewrite <- Ehc. apply round_mono; [exact Hmono|]. rewrite Ec. nra. }
    destruct (IH (Float.round (a + Float.round (q * Speedup.of_int c)))
                 (T + c))
      as (a' & T' & Hrun & HT' & Hb); [lia|lia| |].
    { rewrite inject_Z_plus in Elt, Eht. rewrite inject_Z_plus. split.
      - rewrite <- Elt. apply round_mono; [exact Hmono|]. lra.
      - rewrite <- Eht. apply round_mono; [exact Hmono|]. lra. }
    exists a', T'. split; [exact Hrun|]. split; [lia|exact Hb].
Qed.

(** The mean of speedups between [lo] and [hi], in whatever order they
    are added. *)
Lemma mean_bounds (pss : gmap PS Z) (lo hi : Q) (N : Z) l :
  monotone_rounding ->
  (forall n, 0 <= n <= N ->
     (Float.round (inject_Z n) == inject_Z n)%Q /\
     (Float.round (lo * inject_Z n) == lo * inject_Z n)%Q /\
     (Float.round (hi * inject_Z n) == hi * inject_Z n)%Q) ->
  Forall (fun kv : PS * Speedup.t =>
            1 <= dd_peek 0 kv.1 pss /\
            exists q, kv.2 = Speedup.Fin q /\ (lo <= q <= hi)%Q) l ->
  l <> [] ->
  total_of ((fun kv => dd_peek 0 kv.1 pss) <$> l) <= N ->
  exists m, mean_in_order pss l = Speedup.Fin m /\ (lo <= m <= hi)%Q.
Proof.
  intros Hmono Hex Hall Hne Hsum.
  destruct (weigh_fold_bounds pss lo hi N l 0 0 Hmono Hex Hall)
    as (a & T & Hfold & HT & Hb); [lia|lia| |].
  { change (inject_Z 0) with 0%Q. split; lra. }
  assert (Hlen : (0 < length l)%nat) by (destruct l; [congruence|cbn; lia]).
  assert (HT1 : (1 <= inject_Z T)%Q)
    by (change 1%Q with (inject_Z 1); rewrite <- Zle_Qle; lia).
  unfold mean_in_order. rewrite Hfold. unfold Speedup.div_int.
  rewrite (bool_decide_eq_false_2 (T = 0)) by lia.
  eexists. split; [reflexivity|].
  destruct (Hex T ltac:(lia)) as (ET & _ & _).
  destruct (Hex 1 ltac:(lia)) as (_ & El & Eh).
  change (inject_Z 1) with 1%Q in El, Eh.
  rewrite (round_eq (lo * 1) lo) in El by ring.
  rewrite (round_eq (hi * 1) hi) in Eh by ring.
  rewrite Qmult_1_r in El, Eh.
  unfold Speedup.of_int. split.
  - rewrite <- El. apply round_mono; [exact Hmono|]. rewrite ET.
    apply Qle_shift_div_l; lra.
  - rewrite <- Eh. apply round_mono; [exact Hmono|]. rewrite ET.
    apply Qle_shift_div_r; lra.
Qed.

(** [max_speedup] of a node is a mean, not a maximum.  On a well-formed
    [BestOf] the property returns, and the instance is left as [speedups]
    leaves it.  The result is [None] when no problem size of the node has
    a speedup.  Otherwise the speedups are averaged with the counts as
    weights: when the node has counted each of its problem sizes once at
    least, the speedups of its problem sizes are numbers between [lo] and
    [hi], the rounding keeps the order and rounds no sum of the mean (the
    numbers [n], [lo * n] and [hi * n] are floats for every [n] up to the
    calls the node has counted), the result is a number between [lo] and
    [hi], and so is the mean in whatever order the speedups are added. *)
Theorem max_speedup_is_a_weighted_mean self w
    (me : Execution PS ExecId) r o o' out (lo hi : Q) :
  monotone_rounding ->
  (forall n, 0 <= n <= calls_counted me ->
     (Float.round (inject_Z n) == inject_Z n)%Q /\
     (Float.round (lo * inject_Z n) == lo * inject_Z n)%Q /\
     (Float.round (hi * inject_Z n) == hi * inject_Z n)%Q) ->
  nodes w !! self = Some me ->
  best_of me = Some r ->
  instances w !! r = Some o ->
  well_formed o ->
  speedups o = (o', Return out) ->
  (forall ps c, problem_sizes me !! ps = Some c -> 1 <= c) ->
  (forall ps s,
     is_Some (problem_sizes me !! ps) -> out !! ps = Some s ->
     exists q, s = Speedup.Fin q /\ (lo <= q <= hi)%Q) ->
  exists res,
    max_speedup self w =
      (set_instances (<[r := o']> (instances w)) w, Return res) /\
    ((forall ps, is_Some (problem_sizes me !! ps) -> out !! ps = None) ->
     res = None) /\
    ((exists ps, is_Some (problem_sizes me !! ps) /\ is_Some (out !! ps)) ->
     (exists m, res = Some (Speedup.Fin m) /\ (lo <= m <= hi)%Q) /\
     forall l,
       l ≡ₚ map_to_list
              (filter (fun kv : PS * Speedup.t =>
                         is_Some (problem_sizes me !! kv.1)) out) ->
       exists m,
         mean_in_order (problem_sizes me) l = Speedup.Fin m /\
         (lo <= m <= hi)%Q).
Proof.
  intros Hmono Hex Hme Hr Ho Hw Hrun Hcnt Hfin.
  set (sp := filter (fun kv : PS * Speedup.t =>
                       is_Some (problem_sizes me !! kv.1)) out).
  assert (Hsp : forall ps s,
            sp !! ps = Some s <->
            out !! ps = Some s /\ is_Some (problem_sizes me !! ps)).
  { intros ps s. unfold sp. rewrite map_lookup_filter_Some. reflexivity. }
  assert (Hall : Forall (fun kv : PS * Speedup.t =>
                   1 <= dd_peek 0 kv.1 (problem_sizes me) /\
                   exists q, kv.2 = Speedup.Fin q /\ (lo <= q <= hi)%Q)
                   (map_to_list sp)).
  { apply Forall_forall. intros [ps s] Hin.
    apply elem_of_map_to_list, Hsp in Hin as [Hout [c Hc]]. cbn. split.
    - unfold dd_peek. rewrite Hc. cbn. eapply Hcnt, Hc.
    - apply (Hfin ps); [rewrite Hc; eauto|exact Hout]. }
  assert (Hany : forall l,
            l ≡ₚ map_to_list sp -> l <> [] ->
            exists m,
              mean_in_order (problem_sizes me) l = Speedup.Fin m /\
              (lo <= m <= hi)%Q).
  { intros l Hl Hne.
    apply (mean_bounds (problem_sizes me) lo hi (calls_counted me));
      [exact Hmono|exact Hex| |exact Hne|].
    - rewrite Hl. exact Hall.
    - apply counts_le.
      + rewrite Hl. apply NoDup_fst_map_to_list.
      + rewrite Hl. apply Forall_forall. intros [ps s] Hin.
        apply elem_of_map_to_list, Hsp in Hin as [_ Hps]. exact Hps.
      + intros ps c Hc. specialize (Hcnt ps c Hc). lia. }
  assert (Hgo : max_speedup self w =
    (set_instances (<[r := o']> (instances w)) w,
     Return (if bool_decide (size sp = 0%nat) then None
             else Some (mean_in_order (problem_sizes me)
                          (map_to_list sp))))).
  { unfold max_speedup, get_node, mean_in_order. st_run.
    rewrite Hme, Hr. cbn.
    rewrite (run_on_self r speedups w o Ho), Hrun. cbn. fold sp.
    destruct (bool_decide (size sp = 0%nat)); [reflexivity|].
    destruct (foldl _ _ _). reflexivity. }
  eexists. split; [exact Hgo|]. split.
  - intros Hnone. rewrite bool_decide_eq_true_2; [reflexivity|].
    apply map_size_empty_iff, map_empty. intros ps.
    destruct (sp !! ps) as [s|] eqn:E; [|reflexivity].
    apply Hsp in E as [Hout Hps]. rewrite (Hnone ps Hps) in Hout.
    discriminate.
  - intros (ps & Hps & [s Hs]).
    assert (Hin : sp !! ps = Some s) by (apply Hsp; split; assumption).
    assert (Hlen : (0 < length (map_to_list sp))%nat).
    { apply elem_of_map_to_list in Hin.
      destruct (map_to_list sp); [inversion Hin|cbn; lia]. }
    rewrite bool_decide_eq_false_2.
    2:{ rewrite <- length_map_to_list. lia. }
    split.
    + destruct (Hany (map_to_list sp)) as (m & Em & Hm); [reflexivity| |].
      { intros E. rewrite E in Hlen. cbn in Hlen. lia. }
      exists m. rewrite Em. split; [reflexivity|exact Hm].
    + intros l Hl. apply Hany; [exact Hl|].
      intros ->. apply Permutation_nil_l in Hl.
      fold sp in Hl. rewrite <- Hl in Hlen. cbn in Hlen. lia.
Qed.


(** ** Reports and tuning *)

Lemma sim_ret {S A} (RS : S -> S -> Prop) (RA : A -> A -> Prop) a1 a2 :
  RA a1 a2 -> sim RS RA (mret a1) (mret a2).
Proof. intros Ha s1 s2 Hs. split; [exact Hs|exact Ha]. Qed.

Lemma sim_raise {S A} (RS : S -> S -> Prop) (RA : A -> A -> Prop) e :
  sim RS RA (raise e) (raise e).
Proof. intros s1 s2 Hs. split; [exact Hs|reflexivity]. Qed.

Lemma sim_bind {S A B} (RS : S -> S -> Prop) (RA : A -> A -> Prop)
    (RB : B -> B -> Prop) (m1 m2 : St S A) (k1 k2 : A -> St S B) :
  sim RS RA m1 m2 ->
  (forall a1 a2, RA a1 a2 -> sim RS RB (k1 a1) (k2 a2)) ->
  sim RS RB (m1 ≫= k1) (m2 ≫= k2).
Proof.
  intros Hm Hk s1 s2 Hs. rewrite !run_bind.
  destruct (Hm s1 s2 Hs) as [Hs' Hr].
  destruct (m1 s1) as [s1' [a1|e1]], (m2 s2) as [s2' [a2|e2]];
    cbn in Hs', Hr; try contradiction.
  - apply Hk; assumption.
  - split; assumption.
Qed.

Lemma sim_of_option {S A} (RS : S -> S -> Prop) (x : option A) e :
  sim RS eq (of_option x e) (of_option x e).
Proof.
  destruct x; [apply sim_ret; reflexivity | apply sim_raise].
Qed.

Lemma sim_of_result {S A} (RS : S -> S -> Prop) (r : Result A) :
  sim RS eq (of_result r) (of_result r).
Proof. intros s1 s2 Hs. split; [exact Hs|destruct r; reflexivity]. Qed.

Lemma sim_get {S} (RS : S -> S -> Prop) : sim RS RS get get.
Proof. intros s1 s2 Hs. split; exact Hs. Qed.

Lemma sim_modify {S} (RS : S -> S -> Prop) (f1 f2 : S -> S) :
  (forall s1 s2, RS s1 s2 -> RS (f1 s1) (f2 s2)) ->
  sim RS eq (modify f1) (modify f2).
Proof. intros Hf s1 s2 Hs. split; [apply Hf, Hs|reflexivity]. Qed.

Lemma alike_inv o1 o2 : alike o1 o2 -> o2 = set_best_idx (best_idx o2) o1.
Proof.
  unfold alike, forget. destruct o1, o2. cbn. intros E.
  injection E as -> -> -> -> -> -> -> -> -> -> -> -> -> -> -> ->.
  reflexivity.
Qed.

Lemma alike_set_best_idx b1 b2 o :
  alike (set_best_idx b1 o) (set_best_idx b2 o).
Proof. reflexivity. Qed.


Ltac alike_subst a1 a2 Ha :=
  let E := fresh "E" in
  let b := fresh "b" in
  pose proof (alike_inv _ _ Ha) as E;
  set (b := best_idx a2) in E; clearbody b; subst a2; clear Ha;
  cbn [name alternatives get_problem_size total_rounds stages
       prune_after_round pruning_speedup best_name best_method
       best_pipeline _current_round _current_alternative
       _total_alternatives _times _stages_times _executions
       set_best_idx with_state].

Ltac alike_leaf :=
  let o1 := fresh "o" in
  let o2 := fresh "o" in
  let E := fresh "E" in
  intros o1 o2 E; alike_subst o1 o2 E.

Ltac alike_modify :=
  apply sim_modify; alike_leaf; reflexivity.

Lemma sim_read_best ps : sim (S := BestOf') alike eq (read_best ps) (read_best ps).
Proof.
  alike_leaf. unfold read_best. cbn.
  destruct (bool_decide (stages o = 1)); destruct (dd_get _ _ _);
    split; reflexivity.
Qed.

Lemma sim_read_current_alternative ps :
  sim (S := BestOf') alike eq (read_current_alternative ps) (read_current_alternative ps).
Proof.
  alike_leaf. unfold read_current_alternative. cbn.
  destruct (dd_get _ _ _); split; reflexivity.
Qed.

Lemma sim_read_current_round ps :
  sim (S := BestOf') alike eq (read_current_round ps) (read_current_round ps).
Proof.
  alike_leaf. unfold read_current_round. cbn.
  destruct (dd_get _ _ _); split; reflexivity.
Qed.

Lemma sim_read_times ps : sim (S := BestOf') alike eq (read_times ps) (read_times ps).
Proof.
  alike_leaf. unfold read_times, _times_arrays. cbn.
  destruct (dd_get _ _ _); split; reflexivity.
Qed.

Lemma sim_read_stages_times ps :
  sim (S := BestOf') alike eq (read_stages_times ps) (read_stages_times ps).
Proof.
  alike_leaf. unfold read_stages_times, _stages_times_arrays. cbn.
  destruct (dd_get _ _ _); split; reflexivity.
Qed.

Ltac sim_leaf :=
  lazymatch goal with
  | |- sim _ _ (of_option _ _) _ => apply sim_of_option
  | |- sim _ _ (of_result _) _ => apply sim_of_result
  | |- sim _ _ (@get _) _ => apply sim_get
  | |- sim _ _ (raise _) _ => apply sim_raise
  | |- sim _ _ (modify _) _ => alike_modify
  | |- sim _ _ (read_best _) _ => apply sim_read_best
  | |- sim _ _ (read_current_alternative _) _ =>
      apply sim_read_current_alternative
  | |- sim _ _ (read_current_round _) _ => apply sim_read_current_round
  | |- sim _ _ (read_times _) _ => apply sim_read_times
  | |- sim _ _ (read_stages_times _) _ => apply sim_read_stages_times
  end.

Ltac sim_intro_as x :=
  let a2 := fresh "a" in
  let Ha := fresh "Ha" in
  intros x a2 Ha;
  first [ subst a2 | alike_subst x a2 Ha | idtac ].

Ltac sim_intro := let x := fresh "a" in sim_intro_as x.

Ltac sim_step := eapply sim_bind; [sim_leaf | sim_intro].

Tactic Notation "sim_step" "as" ident(x) :=
  eapply sim_bind; [sim_leaf | sim_intro_as x].

Tactic Notation "sim_with" constr(L) "as" ident(x) :=
  eapply sim_bind; [apply L | sim_intro_as x].

Lemma sim_times_append ps ca x :
  sim (S := BestOf') alike eq (times_append ps ca x) (times_append ps ca x).
Proof.
  unfold times_append. do 3 sim_step. alike_modify.
Qed.

Lemma sim_stages_times_store ps ca buf :
  sim (S := BestOf') alike eq
    (stages_times_store ps ca buf) (stages_times_store ps ca buf).
Proof.
  unfold stages_times_store. do 2 sim_step. alike_modify.
Qed.

Lemma sim_stages_times_load ps ca :
  sim (S := BestOf') alike eq
    (stages_times_load ps ca) (stages_times_load ps ca).
Proof.
  unfold stages_times_load. sim_step. apply sim_of_option.
Qed.

Lemma evolve_set_best_idx b o stage a r :
  evolve (set_best_idx b o) stage a r = evolve o stage a r.
Proof. reflexivity. Qed.

Lemma sim_record_sample ps ca stage t :
  sim (S := BestOf') alike eq
    (record_sample ps ca stage t) (record_sample ps ca stage t).
Proof.
  unfold record_sample. sim_step as cr. sim_step as o.
  rewrite evolve_set_best_idx.
  destruct (bool_decide (stages o = 1)).
  { sim_with sim_times_append as u. apply sim_of_result. }
  sim_with sim_stages_times_load as buf.
  sim_step as buf'.
  sim_with sim_stages_times_store as u.
  destruct (bool_decide (stage = stages o - 1));
    [|apply sim_ret; reflexivity].
  sim_with sim_stages_times_load as buf2.
  eapply (sim_bind _ eq).
  { destruct (negb (none_in buf2)); [|apply sim_ret; reflexivity].
    sim_with sim_times_append as u'. apply sim_of_result. }
  sim_intro_as p. destruct p as [ca' cr'].
  sim_with sim_stages_times_store as u'.
  apply sim_ret; reflexivity.
Qed.

Lemma sim_select_best ps ca cr :
  sim (S := BestOf') alike eq
    (select_best ps ca cr) (select_best ps ca cr).
Proof.
  unfold select_best. sim_step as o.
  destruct (_ && _); [|apply sim_ret; reflexivity].
  do 2 sim_step.
  destruct (_ || _); [|apply sim_ret; reflexivity].
  do 4 sim_step.
  eapply sim_bind.
  { destruct (bool_decide (stages o = 1)); alike_modify. }
  sim_intro. apply sim_ret; reflexivity.
Qed.

Lemma sim_commit ps ca cr :
  sim (S := BestOf') alike eq (commit ps ca cr) (commit ps ca cr).
Proof. unfold commit. sim_step. alike_modify. Qed.


Lemma same_but_best_idx_inv w1 w2 :
  same_but_best_idx w1 w2 ->
  w2 = set_instances (instances w2) w1 /\
  forget <$> instances w1 = forget <$> instances w2.
Proof.
  unfold same_but_best_idx. destruct w1, w2. cbn. intros E.
  injection E as -> -> -> -> Hi ->. split; [reflexivity|exact Hi].
Qed.

Lemma same_but_best_idx_lookup w1 w2 self :
  same_but_best_idx w1 w2 ->
  match instances w1 !! self, instances w2 !! self with
  | Some o1, Some o2 => alike o1 o2
  | None, None => True
  | _, _ => False
  end.
Proof.
  intros Hw. apply same_but_best_idx_inv in Hw as [_ Hi].
  apply (f_equal (fun l => l !! self)) in Hi.
  rewrite !list_lookup_fmap in Hi.
  destruct (instances w1 !! self), (instances w2 !! self);
    cbn in Hi; try discriminate; [|exact I].
  apply (inj Some) in Hi. exact Hi.
Qed.

Ltac world_subst w1 w2 Hw :=
  let E := fresh "E" in
  let Hi := fresh "Hi" in
  let i := fresh "i" in
  pose proof (same_but_best_idx_inv _ _ Hw) as [E Hi];
  set (i := instances w2) in E, Hi; clearbody i; subst w2;
  cbn [_use_first_alternative _current_parents _names nodes stdout
       set_instances].

Ltac world_leaf :=
  let w1 := fresh "w" in
  let w2 := fresh "w" in
  let Hw := fresh "Hw" in
  intros w1 w2 Hw; world_subst w1 w2 Hw.

Ltac same_solve :=
  unfold same_but_best_idx, set_instances, set_nodes, set_names,
    set_current_parents, set_stdout, set_use_first_alternative;
  cbn [_use_first_alternative _current_parents _names nodes stdout
       instances];
  first [ reflexivity | congruence | f_equal; assumption ].

Ltac world_modify := apply sim_modify; world_leaf; same_solve.

Lemma sim_get_node n :
  sim (S := World') same_but_best_idx eq (get_node n) (get_node n).
Proof.
  world_leaf. unfold get_node. cbn.
  destruct (nodes w !! n); split; first [exact Hw | reflexivity].
Qed.

Lemma sim_put_node n x :
  sim (S := World') same_but_best_idx eq (put_node n x) (put_node n x).
Proof. unfold put_node. world_modify. Qed.

Lemma sim_get_self self :
  sim (S := World') same_but_best_idx alike (get_self self) (get_self self).
Proof.
  intros w1 w2 Hw. pose proof (same_but_best_idx_lookup _ _ self Hw) as Hl.
  unfold get_self.
  destruct (instances w1 !! self), (instances w2 !! self);
    try contradiction; (split; [exact Hw|]); [exact Hl|reflexivity].
Qed.

Lemma sim_on_self {A} (RA : A -> A -> Prop) self (m1 m2 : St BestOf' A) :
  sim alike RA m1 m2 ->
  sim same_but_best_idx RA (on_self self m1) (on_self self m2).
Proof.
  intros Hm w1 w2 Hw.
  pose proof (same_but_best_idx_lookup _ _ self Hw) as Hl.
  unfold on_self.
  destruct (instances w1 !! self) as [o1|], (instances w2 !! self) as [o2|];
    try contradiction; [|split; [exact Hw|reflexivity]].
  destruct (Hm o1 o2 Hl) as [Hs Hr].
  destruct (m1 o1) as [o1' r1], (m2 o2) as [o2' r2]. cbn in Hs, Hr.
  split; [|exact Hr]. cbn [fst].
  world_subst w1 w2 Hw.
  unfold same_but_best_idx, set_instances.
  cbn [_use_first_alternative _current_parents _names nodes stdout
       instances].
  rewrite !list_fmap_insert.
  unfold alike in Hs. rewrite Hs, Hi. reflexivity.
Qed.


Ltac world_sim_leaf :=
  lazymatch goal with
  | |- sim _ _ (get_node _) _ => apply sim_get_node
  | |- sim _ _ (put_node _ _) _ => apply sim_put_node
  | |- sim _ _ (get_self _) _ => apply sim_get_self
  | |- sim _ _ (on_self _ (modify _)) _ => apply sim_on_self; alike_modify
  | |- sim _ _ (on_self _ (read_best _)) _ =>
      apply sim_on_self, sim_read_best
  | |- sim _ _ (on_self _ (read_current_alternative _)) _ =>
      apply sim_on_self, sim_read_current_alternative
  | |- sim _ _ (on_self _ (record_sample _ _ _ _)) _ =>
      apply sim_on_self, sim_record_sample
  | |- sim _ _ (on_self _ (select_best _ _ _)) _ =>
      apply sim_on_self, sim_select_best
  | |- sim _ _ (on_self _ (commit _ _ _)) _ =>
      apply sim_on_self, sim_commit
  | |- sim _ _ (modify _) _ => world_modify
  | |- sim _ _ (mret _) _ => apply sim_ret; reflexivity
  | |- _ => sim_leaf
  end.

Ltac world_intro_as x :=
  let a2 := fresh "a" in
  let Ha := fresh "Ha" in
  intros x a2 Ha;
  first [ subst a2 | alike_subst x a2 Ha | world_subst x a2 Ha | idtac ];
  cbv zeta.

Tactic Notation "world_step" "as" ident(x) :=
  cbv zeta; eapply sim_bind; [world_sim_leaf | world_intro_as x].

Tactic Notation "world_with" constr(L) "as" ident(x) :=
  cbv zeta; eapply sim_bind; [apply L | world_intro_as x].

Lemma sim_new_execution self eid p :
  sim (S := World') same_but_best_idx eq
    (new_execution self eid p) (new_execution self eid p).
Proof.
  unfold new_execution. world_step as o. world_step as w.
  world_step as u1. world_step as pn. world_step as u2. world_step as u3.
  world_sim_leaf.
Qed.

Lemma sim_register self eid :
  sim (S := World') same_but_best_idx eq
    (_register self eid) (_register self eid).
Proof.
  unfold _register. world_step as o.
  destruct (_executions o !! eid); [world_sim_leaf|].
  world_step as w. world_with sim_new_execution as n.
  world_step as u. world_sim_leaf.
Qed.

Lemma sim_block_parent n :
  sim (S := World') same_but_best_idx eq (block_parent n) (block_parent n).
Proof.
  unfold block_parent. world_step as me. world_step as p. world_step as pn.
  destruct (_is_root pn); [world_sim_leaf|].
  destruct (dd_get _ _ _). world_sim_leaf.
Qed.

Lemma sim_unblock_parent n :
  sim (S := World') same_but_best_idx eq
    (unblock_parent n) (unblock_parent n).
Proof.
  unfold unblock_parent. world_step as me. world_step as p.
  world_step as pn.
  destruct (_is_root pn); [world_sim_leaf|].
  destruct (dd_get _ _ _). world_sim_leaf.
Qed.

Lemma sim_is_blocked n :
  sim (S := World') same_but_best_idx eq (is_blocked n) (is_blocked n).
Proof.
  unfold is_blocked. world_step as me. destruct (dd_get _ _ _).
  world_step as u. world_sim_leaf.
Qed.

Lemma sim_set_problem_size n ps :
  sim (S := World') same_but_best_idx eq
    (set_problem_size n ps) (set_problem_size n ps).
Proof.
  unfold set_problem_size. world_step as me. destruct (dd_get _ _ _).
  world_sim_leaf.
Qed.

Lemma sim_pop_parent :
  sim (S := World') same_but_best_idx eq pop_parent pop_parent.
Proof.
  unfold pop_parent. world_step as w.
  destruct (_current_parents w); world_sim_leaf.
Qed.

Lemma sim_before_alternative self eid stage_arg (args : Args) :
  sim (S := World') same_but_best_idx eq
    (before_alternative self eid stage_arg args)
    (before_alternative self eid stage_arg args).
Proof.
  unfold before_alternative. world_with sim_register as n.
  world_step as o.
  destruct (negb _); [world_sim_leaf|].
  world_step as w.
  destruct (_use_first_alternative w).
  { world_step as alt. world_step as c. world_sim_leaf. }
  world_with sim_set_problem_size as u.
  world_step as best. destruct best as [impl|].
  { world_step as c. world_sim_leaf. }
  world_with sim_block_parent as u1.
  world_step as ca. world_step as u2. world_step as alt. world_step as c.
  world_step as u3. world_sim_leaf.
Qed.

Lemma sim_after_alternative self n ps ca stage t :
  sim (S := World') same_but_best_idx eq
    (after_alternative self n ps ca stage t)
    (after_alternative self n ps ca stage t).
Proof.
  unfold after_alternative. world_with sim_pop_parent as u.
  world_with sim_is_blocked as b.
  destruct b; [world_sim_leaf|].
  world_step as p. destruct p as [ca' cr'].
  world_step as q. destruct q as [ca'' selected].
  eapply (sim_bind _ eq).
  { destruct selected; [apply sim_unblock_parent|world_sim_leaf]. }
  world_intro_as u'. world_sim_leaf.
Qed.

Lemma sim_call self eid stage_arg args :
  (forall c a, ignores_best_idx (invoke c a)) ->
  ignores_best_idx (call invoke self eid stage_arg args).
Proof.
  intros Hinv. unfold ignores_best_idx, call.
  world_with sim_before_alternative as sd. destruct sd as [stage d].
  destruct d as [c|n ps ca c].
  - world_with (Hinv c args) as r. destruct r as [output t].
    world_sim_leaf.
  - world_with (Hinv c args) as r. destruct r as [output t].
    world_with sim_after_alternative as u. world_sim_leaf.
Qed.

Lemma sim_calls self l :
  (forall c a, ignores_best_idx (invoke c a)) ->
  ignores_best_idx (calls invoke self l).
Proof.
  intros Hinv. unfold ignores_best_idx.
  induction l as [|[[eid stage_arg] args] l IH]; cbn [calls].
  - world_sim_leaf.
  - world_with (sim_call self eid stage_arg args Hinv) as output.
    world_with IH as outputs. world_sim_leaf.
Qed.


Lemma speedups_loop_alike (meds : gmap PS (list Float.t)) keys out o :
  alike o (speedups_loop meds keys out o).1.
Proof.
  revert out o. induction keys as [|ps keys IH]; intros out o;
    cbn [speedups_loop]; [reflexivity|].
  rewrite run_bind. unfold read_best_idx at 1.
  destruct (dd_get (-1) ps (best_idx o)) as [v d].
  cbn beta iota.
  assert (Hd : forall out', alike o
            (speedups_loop meds keys out' (set_best_idx d o)).1).
  { intros out'. unfold alike.
    rewrite <- (IH out' (set_best_idx d o)). reflexivity. }
  destruct (bool_decide (v ≠ -1)); [|apply Hd].
  destruct (meds !! ps) as [m|]; st_run; [|reflexivity].
  destruct (Speedup.max_ m); st_run; [|reflexivity].
  destruct (Py.index m v); st_run; [|reflexivity]. apply Hd.
Qed.

Lemma speedups_alike o : alike o (speedups o).1.
Proof. apply speedups_loop_alike. Qed.

Lemma on_self_speedups_same r w :
  same_but_best_idx w (on_self r speedups w).1.
Proof.
  unfold on_self. destruct (instances w !! r) as [o|] eqn:Ho;
    [|reflexivity].
  pose proof (speedups_alike o) as Ha.
  destruct (speedups o) as [o' res]. cbn in Ha |- *.
  unfold same_but_best_idx, set_instances.
  cbn [_use_first_alternative _current_parents _names nodes stdout
       instances].
  rewrite list_fmap_insert. unfold alike in Ha. rewrite <- Ha.
  rewrite list_insert_id; [reflexivity|].
  rewrite list_lookup_fmap, Ho. reflexivity.
Qed.

(** The reports and the tuning do not meet.  [speedups] and [max_speedup]
    change nothing but [best_idx], and [summary] changes nothing.  The
    calls never read [best_idx]: run from two processes that differ in
    [best_idx] at most (as before and after a report), a sequence of calls
    gives the same outputs or the same exception and leaves two processes
    that differ in [best_idx] at most, provided the callables do (they
    reach the engine through calls only).  A report printed while an
    operation is being tuned does not change what the calls do or what is
    selected. *)
Theorem reports_do_not_disturb_tuning :
  ((forall r w, same_but_best_idx w (on_self r speedups w).1) /\
   (forall n w, same_but_best_idx w (max_speedup n w).1) /\
   (forall n w, (summary n w).1 = w)) /\
  ((forall c a, ignores_best_idx (invoke c a)) ->
   forall self l w1 w2,
     same_but_best_idx w1 w2 ->
     (calls invoke self l w1).2 = (calls invoke self l w2).2 /\
     same_but_best_idx (calls invoke self l w1).1 (calls invoke self l w2).1).
Proof.
  split; [split; [|split]|].
  - apply on_self_speedups_same.
  - intros n w. unfold max_speedup, get_node. st_run.
    destruct (nodes w !! n) as [me|]; [|reflexivity].
    destruct (best_of me) as [r|]; [|reflexivity]. cbn.
    pose proof (on_self_speedups_same r w) as Hs.
    destruct (on_self r speedups w) as [w' [out|e]]; cbn in Hs |- *;
      [|exact Hs].
    destruct (bool_decide _); [exact Hs|].
    destruct (foldl _ _ _). exact Hs.
  - intros n w. unfold summary, get_node, get_self. st_run.
    destruct (nodes w !! n) as [me|]; [|reflexivity].
    destruct (best_of me) as [r|]; [|reflexivity]. cbn.
    destruct (instances w !! r) as [o|]; [|reflexivity]. cbn.
    destruct (summary_count me o) as [[count total]|]; reflexivity.
  - intros Hinv self l w1 w2 Hw.
    destruct (sim_calls self l Hinv w1 w2 Hw) as [Hs Hr].
    split; [|exact Hs].
    destruct (calls invoke self l w1).2, (calls invoke self l w2).2;
      cbn in Hr; try contradiction; congruence.
Qed.


(** ** Pipelines *)

Lemma run_read_stages_times ps o :
  read_stages_times ps o =
  (set_stages_times
     (dd_get (_stages_times_arrays o) ps (_stages_times o)).2 o,
   Return (buffers o ps)).
Proof.
  unfold read_stages_times, buffers. rewrite <- dd_get_peek.
  destruct (dd_get _ _ _). reflexivity.
Qed.

Lemma insert_dd_get `{Countable K} {V} (dflt v : V) (k : K) (d : gmap K V) :
  <[k := v]> (dd_get dflt k d).2 = <[k := v]> d.
Proof.
  unfold dd_get. destruct (d !! k); cbn; [reflexivity|].
  apply insert_insert_eq.
Qed.

Lemma dd_peek_insert `{Countable K} {V} (dflt v : V) (k : K) (d : gmap K V) :
  dd_peek dflt k (<[k := v]> d) = v.
Proof. unfold dd_peek. rewrite lookup_insert_eq. reflexivity. Qed.

Lemma run_stages_times_load ps ca o buf :
  0 <= ca -> buffers o ps !! Z.to_nat ca = Some buf ->
  stages_times_load ps ca o =
  (set_stages_times
     (dd_get (_stages_times_arrays o) ps (_stages_times o)).2 o,
   Return buf).
Proof.
  intros Hca Hbuf. unfold stages_times_load.
  rewrite run_bind, run_read_stages_times. cbn beta iota.
  rewrite Py_index_nonneg by exact Hca. rewrite Hbuf. reflexivity.
Qed.

Lemma run_stages_times_store ps ca bufnew o buf :
  0 <= ca -> buffers o ps !! Z.to_nat ca = Some buf ->
  stages_times_store ps ca bufnew o =
  (set_stages_times
     (<[ps := <[Z.to_nat ca := bufnew]> (buffers o ps)]> (_stages_times o))
     o,
   Return tt).
Proof.
  intros Hca Hbuf. unfold stages_times_store.
  rewrite run_bind, run_read_stages_times. cbn beta iota. st_red.
  rewrite (Py_set_index_nonneg _ _ _ _ Hca Hbuf). st_red.
  cbn [_stages_times set_stages_times with_state].
  rewrite insert_dd_get. reflexivity.
Qed.

Lemma run_times_append ps ca x o series :
  0 <= ca -> samples o ps !! Z.to_nat ca = Some series ->
  times_append ps ca x o =
  (set_times
     (<[ps := <[Z.to_nat ca := series ++ [x]]> (samples o ps)]> (_times o))
     o,
   Return tt).
Proof.
  intros Hca Hser. unfold times_append.
  rewrite run_bind, run_read_times. cbn beta iota. rewrite dd_get_peek.
  fold (samples o ps). st_red.
  rewrite Py_index_nonneg by exact Hca. rewrite Hser. st_red.
  rewrite (Py_set_index_nonneg _ _ _ _ Hca Hser). st_red.
  cbn [_times set_times with_state].
  rewrite insert_dd_get. reflexivity.
Qed.

Lemma none_in_spec (buf : list (option Q)) :
  none_in buf = false <-> forall j x, buf !! j = Some x -> is_Some x.
Proof.
  unfold none_in. induction buf as [|y buf IH]; cbn [existsb].
  - split; [intros _ j x Hj; rewrite lookup_nil in Hj; discriminate|auto].
  - rewrite orb_false_iff, IH. split.
    + intros [Hy Hall] [|j] x; cbn.
      * intros [= <-]. destruct y; [eauto|discriminate].
      * apply Hall.
    + intros Hall. split.
      * destruct (Hall 0%nat y eq_refl) as [q ->]. reflexivity.
      * intros j x Hj. apply (Hall (S j) x Hj).
Qed.


Lemma run_bind_of_option {S A B} (x : option A) e (k : A -> St S B) s a :
  x = Some a -> (of_option x e ≫= k) s = k a s.
Proof. intros ->. reflexivity. Qed.

(** One call of a pipeline in tuning (lines 345-357): the timing goes to
    the stage buffer of the cursor; at the last stage, when the buffer is
    full, its sum is appended to the series of the cursor and the cursor
    steps on; and at the last stage the buffer of the cursor as it then is
    is reset. *)
Lemma record_pipeline ps ca stage t o buf series :
  well_formed o -> 1 < stages o -> 0 <= stage < stages o -> 0 <= ca ->
  buffers_ok o ps ->
  buffers o ps !! Z.to_nat ca = Some buf ->
  samples o ps !! Z.to_nat ca = Some series ->
  let K := Z.of_nat (length (alternatives o)) in
  let cr := dd_peek 0 ps (_current_round o) in
  let buf' := <[Z.to_nat stage := Some t]> buf in
  let last := bool_decide (stage = stages o - 1) in
  let full := last && negb (none_in buf') in
  let c1 := if full then (ca + 1) mod K else ca in
  let r1 := if full && bool_decide (c1 = 0) then cr + 1 else cr in
  exists d T X,
    record_sample ps ca stage t o =
      (with_state o (best_idx o) (best_name o) (best_method o)
         (best_pipeline o) d (_current_alternative o) T X (_executions o),
       Return (c1, r1)) /\
    (forall ps', dd_peek 0 ps' d = dd_peek 0 ps' (_current_round o)) /\
    dd_peek (_times_arrays o) ps T =
      (if full
       then <[Z.to_nat ca := series ++ [Float.sum (omap id buf')]]>
              (samples o ps)
       else samples o ps) /\
    dd_peek (_stages_times_arrays o) ps X =
      (if last
       then <[Z.to_nat c1 := Py.repeat_ None (stages o)]>
              (<[Z.to_nat ca := buf']> (buffers o ps))
       else <[Z.to_nat ca := buf']> (buffers o ps)).
Proof.
  intros Hw HS Hst Hca [Hbl Hbs] Hbuf Hser K cr buf' last full c1 r1.
  pose proof Hw as (Htot & _).
  assert (HcaK : (Z.to_nat ca < length (alternatives o))%nat).
  { rewrite <- Hbl. eapply lookup_lt_Some. exact Hbuf. }
  assert (HK : K <> 0) by (unfold K; lia).
  assert (Hlb : Z.of_nat (length buf) = stages o).
  { rewrite Forall_lookup in Hbs. apply (Hbs _ _ Hbuf). }
  destruct (lookup_lt_is_Some_2 buf (Z.to_nat stage)) as [x0 Hx0]; [lia|].
  unfold record_sample. rewrite run_bind, run_read_current_round.
  cbn beta iota.
  set (d := (dd_get 0 ps (_current_round o)).2).
  assert (Hd : forall ps', dd_peek 0 ps' d = dd_peek 0 ps' (_current_round o))
    by (intros ps'; apply dd_peek_get).
  set (oa := set_current_round d o).
  rewrite run_bind. change (get oa) with (oa, Return oa). cbn beta iota.
  change (stages oa) with (stages o).
  rewrite (bool_decide_eq_false_2 (stages o = 1)) by lia.
  assert (Hba : buffers oa ps !! Z.to_nat ca = Some buf) by exact Hbuf.
  rewrite run_bind, (run_stages_times_load ps ca oa buf Hca Hba).
  cbn beta iota.
  rewrite (run_bind_of_option _ _ _ _ _
             (Py_set_index_nonneg _ _ _ _ (proj1 Hst) Hx0)).
  fold buf'.
  set (ob := set_stages_times _ oa).
  assert (Hbb : buffers ob ps = buffers o ps).
  { unfold ob, buffers. cbn. apply dd_peek_get. }
  assert (Hbb' : buffers ob ps !! Z.to_nat ca = Some buf)
    by (rewrite Hbb; exact Hbuf).
  rewrite run_bind, (run_stages_times_store ps ca buf' ob buf Hca Hbb').
  cbn beta iota. rewrite Hbb.
  set (sts1 := <[Z.to_nat ca := buf']> (buffers o ps)).
  set (oc := set_stages_times _ ob).
  assert (Hbc : buffers oc ps = sts1).
  { unfold oc, buffers. cbn. apply dd_peek_insert. }
  fold last.
  destruct last eqn:Elast.
  2:{ (* not the last stage *)
      exists d, (_times o), (_stages_times oc).
      split; [reflexivity|]. split; [exact Hd|]. cbn [andb].
      split; [reflexivity|]. exact Hbc. }
  (* the last stage *)
  assert (Hl1 : sts1 !! Z.to_nat ca = Some buf').
  { unfold sts1. apply list_lookup_insert_eq.
    eapply lookup_lt_Some. exact Hbuf. }
  assert (Hbc' : buffers oc ps !! Z.to_nat ca = Some buf')
    by (rewrite Hbc; exact Hl1).
  rewrite run_bind, (run_stages_times_load ps ca oc buf' Hca Hbc').
  cbn beta iota.
  set (oe := set_stages_times _ oc).
  assert (Hbe : buffers oe ps = sts1).
  { unfold oe, buffers. cbn. rewrite dd_peek_get. exact Hbc. }
  cbn [andb] in full.
  rewrite run_bind.
  destruct (negb (none_in buf')) eqn:Efull.
  - (* a full buffer *)
    assert (Hse : samples oe ps !! Z.to_nat ca = Some series) by exact Hser.
    rewrite run_bind,
      (run_times_append ps ca (Float.sum (omap id buf')) oe series Hca Hse).
    cbn beta iota.
    unfold evolve, of_result. change (stages oa) with (stages o).
    change (_total_alternatives oa) with (_total_alternatives o).
    rewrite (bool_decide_eq_false_2 (stages o = 1)) by lia.
    rewrite (bool_decide_eq_true_2 (1 < stages o)) by lia.
    change (bool_decide (stage = stages o - 1)) with last.
    rewrite Elast. cbn [orb andb].
    unfold Py.mod_. rewrite Htot. fold K.
    rewrite (bool_decide_eq_false_2 (K = 0)) by exact HK.
    subst full. cbn [andb] in c1, r1. fold c1.
    set (of_ := set_times _ oe).
    assert (Hc1 : 0 <= c1 < K) by (apply Z.mod_pos_bound; lia).
    assert (Hbf : exists b1, buffers of_ ps !! Z.to_nat c1 = Some b1).
    { change (buffers of_ ps) with (buffers oe ps). rewrite Hbe.
      apply lookup_lt_is_Some_2. unfold sts1.
      rewrite length_insert, Hbl. unfold K in Hc1. lia. }
    destruct Hbf as [b1 Hb1].
    destruct (bool_decide (c1 = 0)) eqn:Ec1; cbn beta iota;
      rewrite run_bind,
        (run_stages_times_store ps c1 _ of_ b1 (proj1 Hc1) Hb1);
      cbn beta iota;
      (eexists d, _, _; split; [reflexivity|]; split; [exact Hd|];
       split;
       [cbn; apply dd_peek_insert
       |cbn; rewrite dd_peek_insert;
        change (buffers of_ ps) with (buffers oe ps); rewrite Hbe;
        reflexivity]).
  - (* a stage is missing *)
    subst full. cbn [andb] in c1, r1. subst c1 r1.
    change ((mret (ca, dd_peek 0 ps (_current_round o)) : St BestOf' _) oe)
      with (oe, Return (A := Z * Z) (ca, dd_peek 0 ps (_current_round o))).
    cbn beta iota.
    assert (Hbe' : buffers oe ps !! Z.to_nat ca = Some buf')
      by (rewrite Hbe; exact Hl1).
    rewrite run_bind, (run_stages_times_store ps ca _ oe buf' Hca Hbe').
    cbn beta iota.
    eexists d, _, _. split; [reflexivity|]. split; [exact Hd|].
    split; [reflexivity|]. cbn. rewrite dd_peek_insert, Hbe. reflexivity.
Qed.


Lemma read_best_stages_times ps o o' r :
  read_best ps o = (o', r) -> _stages_times o' = _stages_times o.
Proof.
  unfold read_best.
  destruct (bool_decide (stages o = 1)); destruct (dd_get _ _ _);
    intros [= <- _]; reflexivity.
Qed.

Lemma callable_of_pipeline (alts : list (string * Impl Callable)) S i a stage :
  forallb (alternative_ok S) alts = true ->
  1 < S -> 0 <= stage < S ->
  alts !! i = Some a ->
  exists c, callable_of S a.2 stage = Return c.
Proof.
  intros Hall HS Hst Ha. rewrite forallb_forall in Hall.
  assert (Hin : In a alts).
  { apply list_elem_of_In. eapply list_elem_of_lookup_2. exact Ha. }
  specialize (Hall a Hin). unfold alternative_ok in Hall.
  unfold callable_of. rewrite (bool_decide_eq_false_2 (S = 1)) by lia.
  destruct a.2 as [m|ms]; cbn in *.
  - rewrite bool_decide_eq_false_2 in Hall by lia. discriminate.
  - apply andb_true_iff in Hall as [_ Hlen].
    apply bool_decide_eq_true in Hlen.
    rewrite Py_index_nonneg by lia.
    destruct (lookup_lt_is_Some_2 ms (Z.to_nat stage)) as [c Hc]; [lia|].
    rewrite Hc. eauto.
Qed.

(** A call for a stage of a pipeline with a cached selection, from
    outside every alternative. *)
Lemma before_cached_stage self eid stage args w o impl c :
  calm self w -> _current_parents w = [] ->
  instances w !! self = Some o ->
  1 < stages o -> stage < stages o ->
  cached o (get_problem_size o args) = Some impl ->
  callable_of (stages o) impl stage = Return c ->
  exists w1 o1,
    before_alternative self eid stage args w
      = (w1, Return (stage, Direct c)) /\
    calm self w1 /\ _current_parents w1 = [] /\
    stdout w1 = stdout w /\
    instances w1 !! self = Some o1 /\ same_view o o1 /\
    _stages_times o1 = _stages_times o.
Proof.
  intros Hcalm Hp Ho HS Hst Hca Hc.
  set (ps := get_problem_size o args) in *.
  destruct (register_top self eid w o Hcalm Hp Ho)
    as (wr & cur & ex & Hreg & Hcalmr & Hpr & Hsr & Hir & Hex).
  set (or := set_executions ex o) in *.
  assert (Hor : instances wr !! self = Some or).
  { rewrite Hir. eapply lookup_insert_self; exact Ho. }
  pose proof Hcalmr as (Hur & _ & Hnodes).
  destruct (Hnodes or eid cur Hor Hex) as (me & Hme & Hpar & Hunm).
  pose proof (run_set_problem_size cur ps wr me Hme) as Hsps.
  set (me' := set_problem_sizes _ _) in Hsps.
  set (ws := set_nodes (<[cur := me']> (nodes wr)) wr) in *.
  assert (Hcalms : calm self ws).
  { eapply (calm_insert_node self wr ws cur me me'); try reflexivity; auto. }
  assert (Hrb : read_best ps or = (or, Return (Some impl)))
    by (apply read_best_cached; exact Hca).
  exists (set_instances (<[self := or]> (instances ws)) ws), or.
  split; [|split; [|split; [|split; [|split; [|split]]]]].
  - unfold before_alternative. rewrite (run_bind_return _ _ _ _ _ Hreg).
    rewrite (run_bind_return _ _ _ _ _ (run_get_self _ _ _ Hor)).
    cbn [stages alternatives get_problem_size or set_executions with_state].
    rewrite (bool_decide_eq_true_2 (1 < stages o)) by exact HS.
    rewrite (bool_decide_eq_true_2 (stage < stages o)) by exact Hst.
    cbn [negb].
    st_run. rewrite Hur. fold ps. rewrite Hsps. fold ws.
    rewrite (run_on_self self _ ws or Hor), Hrb. cbn [fst snd].
    rewrite Hc. reflexivity.
  - eapply (calm_same_nodes self ws _ or or); try reflexivity; auto.
    cbn. eapply lookup_insert_self; exact Hor.
  - cbn. exact Hpr.
  - cbn. exact Hsr.
  - cbn. eapply lookup_insert_self; exact Hor.
  - apply set_executions_view.
  - reflexivity.
Qed.

(** A call for a stage of a pipeline in tuning, from outside every
    alternative, up to its alternative. *)
Lemma before_evaluate_stage self eid stage args w o a c :
  calm self w -> _current_parents w = [] ->
  instances w !! self = Some o ->
  1 < stages o -> stage < stages o ->
  cached o (get_problem_size o args) = None ->
  Py.index (alternatives o)
    (dd_peek 0 (get_problem_size o args) (_current_alternative o)) = Some a ->
  callable_of (stages o) a.2 stage = Return c ->
  exists w1 cur o1,
    before_alternative self eid stage args w
      = (w1, Return (stage, Evaluate cur (get_problem_size o args)
                              (dd_peek 0 (get_problem_size o args)
                                 (_current_alternative o)) c)) /\
    calm self w1 /\
    _current_parents w1 = [cur] /\
    instances w1 !! self = Some o1 /\
    same_view o o1 /\
    _stages_times o1 = _stages_times o /\
    _executions o1 !! eid = Some cur.
Proof.
  intros Hcalm Hp Ho HS Hst Hca Ha Hc.
  set (ps := get_problem_size o args) in *.
  destruct (register_top self eid w o Hcalm Hp Ho)
    as (wr & cur & ex & Hreg & Hcalmr & Hpr & Hsr & Hir & Hex).
  set (or := set_executions ex o) in *.
  assert (Hor : instances wr !! self = Some or).
  { rewrite Hir. eapply lookup_insert_self; exact Ho. }
  pose proof Hcalmr as (Hur & (r & Hr & Hrp) & Hnodes).
  destruct (Hnodes or eid cur Hor Hex) as (me & Hme & Hpar & Hunm).
  assert (Hne : cur <> _root) by (intros ->; congruence).
  pose proof (run_set_problem_size cur ps wr me Hme) as Hsps.
  set (me' := set_problem_sizes _ _) in Hsps.
  set (ws := set_nodes (<[cur := me']> (nodes wr)) wr) in *.
  assert (Hcalms : calm self ws).
  { eapply (calm_insert_node self wr ws cur me me'); try reflexivity; auto. }
  destruct (read_best ps or) as [ob rb] eqn:Erb.
  assert (Hrb : rb = Return None).
  { pose proof (run_read_best_none ps or Hca) as Hn. rewrite Erb in Hn.
    exact Hn. }
  subst rb.
  set (wt := set_instances (<[self := ob]> (instances ws)) ws).
  assert (Hot : instances wt !! self = Some ob).
  { cbn. eapply lookup_insert_self; exact Hor. }
  assert (Hcalmt : calm self wt).
  { eapply (calm_same_nodes self ws wt or ob); try reflexivity; auto.
    eapply read_best_executions; exact Erb. }
  assert (Hlt : (cur < length (nodes wr))%nat)
    by (eapply lookup_lt_Some; eauto).
  assert (Hblock : block_parent cur wt = (wt, Return tt)).
  { eapply (run_block_parent_top cur wt me' r).
    - cbn. apply list_lookup_insert_eq. exact Hlt.
    - exact Hpar.
    - cbn. rewrite list_lookup_insert_ne by exact Hne. exact Hr.
    - exact Hrp. }
  set (o1 := set_current_alternative
               (dd_get 0 ps (_current_alternative ob)).2 ob).
  assert (Hview : same_view o o1).
  { eapply same_view_trans; [apply (set_executions_view ex)|].
    eapply same_view_trans; [eapply read_best_view; exact Erb|].
    apply read_current_alternative_view. }
  assert (Hcur : dd_peek 0 ps (_current_alternative ob)
                 = dd_peek 0 ps (_current_alternative o)).
  { pose proof (same_view_trans _ _ _ (set_executions_view ex o)
                  (read_best_view ps _ _ _ Erb)) as (_ & _ & Hpk).
    apply (Hpk ps). }
  exists (set_stdout
            (stdout wt ++ [(stage, dd_peek 0 ps (_current_alternative o), ps)])
            (set_current_parents (_current_parents wt ++ [cur])
               (set_instances (<[self := o1]> (instances wt)) wt))),
    cur, o1.
  split; [|split; [|split; [|split; [|split; [|split]]]]].
  - unfold before_alternative. rewrite (run_bind_return _ _ _ _ _ Hreg).
    rewrite (run_bind_return _ _ _ _ _ (run_get_self _ _ _ Hor)).
    cbn [stages alternatives get_problem_size or set_executions with_state].
    rewrite (bool_decide_eq_true_2 (1 < stages o)) by exact HS.
    rewrite (bool_decide_eq_true_2 (stage < stages o)) by exact Hst.
    cbn [negb].
    st_run. rewrite Hur. fold ps. rewrite Hsps. fold ws.
    rewrite (run_on_self self _ ws or Hor), Erb. cbn [fst snd]. fold wt.
    rewrite Hblock. rewrite (run_on_self _ _ _ _ Hot).
    rewrite run_read_current_alternative. cbn [fst snd]. fold o1.
    rewrite Hcur, Ha. st_run. rewrite Hc. reflexivity.
  - eapply (calm_same_nodes self wt _ ob o1); try reflexivity; auto.
    cbn. eapply lookup_insert_self; exact Hot.
  - cbn. rewrite Hpr. reflexivity.
  - cbn. eapply lookup_insert_self; exact Hot.
  - exact Hview.
  - cbn. rewrite (read_best_stages_times _ _ _ _ Erb). reflexivity.
  - cbn. rewrite (read_best_executions _ _ _ _ Erb). exact Hex.
Qed.


Lemma config_stages_times_arrays o o' :
  config o' = config o -> _stages_times_arrays o' = _stages_times_arrays o.
Proof.
  intros Hc. unfold _stages_times_arrays.
  injection Hc as _ _ _ _ -> _ _ ->. reflexivity.
Qed.

(** The decision from round 1 on, or none before: it returns; either it
    selects one of the alternatives, or it changes nothing and leaves a
    cursor that is a position of [alternatives]: the one it found unless
    that was 0 and the decision due. *)
Lemma decision_progress ps c1 r1 (oc : BestOf') :
  well_formed oc -> alternatives oc <> [] ->
  1 <= prune_after_round oc -> 1 <= total_rounds oc ->
  0 <= c1 < Z.of_nat (length (alternatives oc)) ->
  (1 <= r1 -> Forall (fun s => s <> []) (samples oc ps)) ->
  exists os c2 sel,
    select_best ps c1 r1 oc = (os, Return (c2, sel)) /\
    (sel = true ->
     exists a, a ∈ alternatives oc /\ cached os ps = Some a.2) /\
    (sel = false ->
     os = oc /\ 0 <= c2 < Z.of_nat (length (alternatives oc)) /\
     (c1 <> 0 \/ r1 < 1 -> c2 = c1) /\ (c1 = 0 -> r1 <> total_rounds oc)).
Proof.
  intros Hw Hne Hpar Hrnd Hc1 Hser.
  destruct (decide (decision_due oc c1 r1)) as [Hd|Hnd].
  - pose proof Hd as [E0 Hmin].
    assert (Hr1 : 1 <= r1) by lia.
    specialize (Hser Hr1).
    destruct (_times oc !! ps) as [ts|] eqn:Ets.
    2:{ exfalso. unfold samples, dd_peek in Hser. rewrite Ets in Hser.
        cbn in Hser. unfold _times_arrays in Hser.
        pose proof Hw as (Htot & _). rewrite Htot, Nat2Z.id in Hser.
        destruct (alternatives oc); [congruence|]. cbn in Hser.
        inversion Hser; subst. congruence. }
    assert (Hts : samples oc ps = ts)
      by (unfold samples, dd_peek; rewrite Ets; reflexivity).
    rewrite Hts in Hser.
    destruct (select_best_progress ps c1 r1 oc ts Hw Hne Ets Hc1
                (fun _ => Hser))
      as (os & c2 & sel & Hsel & Hyes & Hno).
    exists os, c2, sel. split; [exact Hsel|]. split; [exact Hyes|].
    intros Es. destruct (Hno Es) as (A & B & C & D).
    split; [exact A|]. split; [exact B|]. split; [|exact D].
    intros [E|E]; [auto|lia].
  - exists oc, c1, false.
    split; [apply select_best_not_due; exact Hnd|].
    split; [discriminate|]. intros _. split; [reflexivity|].
    split; [exact Hc1|]. split; [reflexivity|].
    intros -> Hr. apply Hnd. split; [reflexivity|]. lia.
Qed.


(** One call of a cycle of stages, on the way to a selection. *)
Lemma pipe_call self o ps s b eid args w :
  quiet invoke (fun _ => True) self ->
  1 < stages o ->
  forallb (alternative_ok (stages o)) (alternatives o) = true ->
  1 <= prune_after_round o -> 1 <= total_rounds o ->
  0 <= s < stages o ->
  piping self o ps s b w ->
  get_problem_size o args = ps ->
  exists w' out,
    call invoke self eid s args w = (w', Return out) /\
    piping self o ps
      (if bool_decide (s = stages o - 1) then 0 else s + 1)
      (if bool_decide (s = stages o - 1) then Z.max 0 (b - 1) else b) w'.
Proof.
  intros Hq HS Hok HPR HT Hs Hpipe Hps.
  destruct Hpipe as (Hcalm & Hp & o' & Ho' & Hcfg & Hwf & Htun & Hrest).
  pose proof Hcfg as Hcfg'.
  injection Hcfg' as _ Ealt Egps Ernd Estg Epar _ Etot.
  assert (Hps' : get_problem_size o' args = ps) by (rewrite Egps; exact Hps).
  set (s' := if bool_decide (s = stages o - 1) then 0 else s + 1).
  set (b' := if bool_decide (s = stages o - 1) then Z.max 0 (b - 1) else b).
  destruct Htun as [(a & Ha & Hc)|(Hc & Hcr & Hrr & HJ)].
  - (* a selection is cached *)
    rewrite Ealt in Ha. apply list_elem_of_lookup in Ha as [i Ha].
    destruct (callable_of_pipeline _ _ _ _ s Hok HS Hs Ha) as [c Hcall].
    destruct (before_cached_stage self eid s args w o' a.2 c)
      as (w1 & o1 & Hbefore & Hcalm1 & Hp1 & Hs1 & Ho1 & Hview & _);
      try assumption; try lia.
    { rewrite Hps'. exact Hc. }
    { rewrite Estg. exact Hcall. }
    destruct (Hq c args w1 Hcalm1)
      as (w2 & out & t & Hinv & _ & Hcalm2 & Hp2 & Hs2 & Hi2).
    exists w2, out. split.
    + rewrite (call_direct _ _ _ _ _ _ _ _ Hbefore), Hinv. reflexivity.
    + split; [exact Hcalm2|]. split; [congruence|]. exists o1.
      split; [congruence|]. pose proof Hview as (Hcfg1 & Hwf1 & Hpk).
      split; [congruence|]. split; [auto|]. split.
      * apply (tuning_ok_view o'); [exact Hview|].
        left. exists a. split; [|exact Hc].
        rewrite Ealt. eapply list_elem_of_lookup_2. exact Ha.
      * intros Hnone. destruct (Hpk ps) as (Hc1 & _).
        rewrite Hc1, Hc in Hnone. discriminate.
  - (* no selection yet *)
    destruct (Hrest Hc) as [[Hbl Hbs] Hprog].
    set (K := Z.of_nat (length (alternatives o))) in *.
    rewrite Ealt in Hcr. fold K in Hcr.
    set (cur0 := dd_peek 0 ps (_current_alternative o')) in *.
    set (rnd0 := dd_peek 0 ps (_current_round o')) in *.
    assert (Hbud0 : budget o' ps = (total_rounds o - rnd0) * K - cur0).
    { unfold budget. rewrite Hc, Ealt, Ernd. reflexivity. }
    rewrite Hbud0 in Hprog.
    assert (Hlen : length (samples o' ps) = length (alternatives o)).
    { unfold samples. rewrite <- dd_get_peek, <- Ealt.
      apply dd_get_times_length. exact Hwf. }
    destruct (lookup_lt_is_Some_2 (alternatives o) (Z.to_nat cur0))
      as [a Ha]; [unfold K in Hcr; lia|].
    destruct (callable_of_pipeline _ _ _ _ s Hok HS Hs Ha) as [c Hcall].
    destruct (before_evaluate_stage self eid s args w o' a c)
      as (w1 & cur & o1 & Hbefore & Hcalm1 & Hp1 & Ho1 & Hview & Hst1 & Hex1);
      try assumption; try lia.
    { rewrite Hps'. exact Hc. }
    { rewrite Hps'. fold cur0. rewrite Ealt, Py_index_nonneg by lia.
      exact Ha. }
    { rewrite Estg. exact Hcall. }
    rewrite Hps' in Hbefore. fold cur0 in Hbefore.
    destruct (Hq c args w1 Hcalm1)
      as (w2 & out & t & Hinv & _ & Hcalm2 & Hp2 & Hs2 & Hi2).
    rewrite Ho1 in Hi2. rewrite Hp1 in Hp2.
    pose proof Hcalm2 as (Hu2 & (rt & Hrt & Hprt) & Hnodes2).
    destruct (Hnodes2 o1 eid cur Hi2 Hex1) as (me & Hme & Hparent & Hunm).
    pose proof Hview as (Hcfg1 & Hwf1 & Hpeek).
    destruct (Hpeek ps) as (Hcac1 & Hcur1 & Hrnd1 & Hts1).
    pose proof (config_times_arrays _ _ Hcfg1) as Harr.
    pose proof (config_stages_times_arrays _ _ Hcfg1) as Harrs.
    pose proof Hcfg1 as Hcfg1'.
    injection Hcfg1' as _ Ealt1 _ Ernd1 Estg1 Epar1 _ Etot1.
    fold cur0 in Hcur1. fold rnd0 in Hrnd1. rewrite Hc in Hcac1.
    specialize (Hwf1 Hwf).
    assert (Hsam1 : samples o1 ps = samples o' ps).
    { unfold samples. rewrite Harr. exact Hts1. }
    assert (Hbuf1 : buffers o1 ps = buffers o' ps).
    { unfold buffers. rewrite Harrs, Hst1. reflexivity. }
    destruct (lookup_lt_is_Some_2 (samples o' ps) (Z.to_nat cur0))
      as [series Hser]; [rewrite Hlen; unfold K in Hcr; lia|].
    destruct (lookup_lt_is_Some_2 (buffers o' ps) (Z.to_nat cur0))
      as [buf Hbuf]; [rewrite Hbl, Ealt; unfold K in Hcr; lia|].
    assert (HK1 : Z.of_nat (length (alternatives o1)) = K)
      by (rewrite Ealt1, Ealt; reflexivity).
    assert (HS1 : stages o1 = stages o) by congruence.
    assert (Hlb : Z.of_nat (length buf) = stages o).
    { rewrite Forall_lookup in Hbs. rewrite (Hbs _ _ Hbuf). exact Estg. }
    (* the timing *)
    destruct (record_pipeline ps cur0 s t o1 buf series)
      as (d & T & X & Hrec & Hd & HT' & HX); try lia.
    { exact Hwf1. }
    { split; rewrite Hbuf1.
      - rewrite Ealt1. exact Hbl.
      - rewrite Estg1. exact Hbs. }
    { rewrite Hbuf1. exact Hbuf. }
    { rewrite Hsam1. exact Hser. }
    cbv zeta in Hrec, HT', HX.
    rewrite HK1, HS1, Hrnd1 in Hrec. rewrite HS1, Hsam1 in HT'.
    rewrite HK1, HS1, Hbuf1 in HX.
    set (buf' := <[Z.to_nat s := Some t]> buf) in *.
    set (last := bool_decide (s = stages o - 1)) in *.
    set (full := last && negb (none_in buf')) in *.
    set (c1 := if full then (cur0 + 1) mod K else cur0) in *.
    set (r1 := if full && bool_decide (c1 = 0) then rnd0 + 1 else rnd0) in *.
    set (oc := with_state o1 (best_idx o1) (best_name o1) (best_method o1)
                 (best_pipeline o1) d (_current_alternative o1) T X
                 (_executions o1)) in *.
    assert (Hsamc : samples oc ps =
                    if full
                    then <[Z.to_nat cur0 :=
                             series ++ [Float.sum (omap id buf')]]>
                           (samples o' ps)
                    else samples o' ps) by exact HT'.
    assert (Hbufc : buffers oc ps =
                    if last
                    then <[Z.to_nat c1 := Py.repeat_ None (stages o)]>
                           (<[Z.to_nat cur0 := buf']> (buffers o' ps))
                    else <[Z.to_nat cur0 := buf']> (buffers o' ps)).
    { unfold buffers. change (_stages_times_arrays oc)
        with (_stages_times_arrays o1). exact HX. }
    assert (Hc1 : 0 <= c1 < K).
    { unfold c1. destruct full; [apply Z.mod_pos_bound; lia|exact Hcr]. }
    assert (Hwrap : full = true -> c1 = 0 -> cur0 = K - 1).
    { unfold c1. intros -> E.
      destruct (decide (cur0 + 1 < K)) as [Hlt|Hge];
        [rewrite Z.mod_small in E by lia; lia|lia]. }
    assert (Hstep : full = true -> c1 <> 0 -> c1 = cur0 + 1).
    { unfold c1. intros -> E.
      destruct (decide (cur0 + 1 < K)) as [Hlt|Hge];
        [apply Z.mod_small; lia|].
      exfalso. apply E. replace (cur0 + 1) with K by lia.
      apply Z_mod_same_full. }
    assert (Hr1 : r1 = rnd0 \/ (full = true /\ c1 = 0 /\ r1 = rnd0 + 1)).
    { unfold r1. destruct full; cbn [andb]; [|left; reflexivity].
      destruct (bool_decide (c1 = 0)) eqn:E; [|left; reflexivity].
      apply bool_decide_eq_true in E. right. auto. }
    assert (Hsame : full = false -> c1 = cur0 /\ r1 = rnd0).
    { unfold c1, r1. intros ->. split; reflexivity. }
    assert (Hts' : forall i sr, samples oc ps !! i = Some sr ->
                     1 <= r1 \/ Z.of_nat i < (if decide (c1 = 0) then
                                               (if full then K else 0)
                                              else c1) ->
                     sr <> []).
    { intros i sr. rewrite Hsamc. destruct full eqn:Efull.
      - destruct (decide (Z.to_nat cur0 = i)) as [<-|Hne].
        + rewrite list_lookup_insert_eq
            by (eapply lookup_lt_Some; exact Hser).
          intros [= <-] _. destruct series; discriminate.
        + rewrite list_lookup_insert_ne by exact Hne. intros Hi Hcase.
          apply (HJ i sr Hi).
          assert (Hil : (i < length (samples o' ps))%nat)
            by (eapply lookup_lt_Some; exact Hi).
          destruct (decide (c1 = 0)) as [E|E].
          * right. specialize (Hwrap eq_refl E). fold rnd0 cur0.
            unfold K. lia.
          * specialize (Hstep eq_refl E). fold rnd0 cur0.
            destruct Hr1 as [Hr1|(_ & Hr1 & _)]; [|contradiction].
            destruct Hcase; [left; lia|right; lia].
      - destruct (Hsame eq_refl) as [E1 E2]. intros Hi Hcase.
        apply (HJ i sr Hi). fold rnd0 cur0. rewrite E1, E2 in Hcase.
        destruct (decide (cur0 = 0)); destruct Hcase; lia. }
    pose proof (record_sample_keeps _ _ _ _ _ _ _ Hrec) as Hkc.
    pose proof (record_sample_wf _ _ _ _ _ _ _ Hrec Hwf1) as Hwc.
    (* the decision *)
    destruct (decision_progress ps c1 r1 oc)
      as (os & c2 & sel & Hsel & Hyes & Hno).
    { exact Hwc. }
    { change (alternatives oc) with (alternatives o1).
      rewrite Ealt1, Ealt. intros E. unfold K in Hcr.
      rewrite E in Hcr. cbn in Hcr. lia. }
    { change (prune_after_round oc) with (prune_after_round o1). lia. }
    { change (total_rounds oc) with (total_rounds o1). lia. }
    { change (alternatives oc) with (alternatives o1). rewrite HK1.
      exact Hc1. }
    { intros Hge. apply Forall_lookup. intros i sr Hi.
      apply (Hts' i sr Hi). left. exact Hge. }
    change (alternatives oc) with (alternatives o1) in Hyes, Hno.
    change (total_rounds oc) with (total_rounds o1) in Hno.
    rewrite HK1 in Hno.
    destruct (after_top self cur ps cur0 s t w2 o1 me rt oc c1 r1 os c2 sel)
      as (w3 & Hafter & Hn3 & Hp3 & Hs3 & Hu3 & Hi3); try assumption.
    { apply unmarked_not_blocked. exact Hunm. }
    set (o3 := (commit ps c2 r1 os).1) in *.
    pose proof (commit_keeps ps c2 r1 _ _ _ (run_commit ps c2 r1 os)) as Hk3.
    fold o3 in Hk3.
    pose proof (select_best_cached _ _ _ _ _ _ _ Hsel)
      as (Hcfgs & Hexs & _ & _).
    pose proof (select_best_wf _ _ _ _ _ _ Hsel Hwc) as Hws.
    pose proof (commit_wf ps c2 r1 _ _ _ (run_commit ps c2 r1 os) Hws) as Hw3.
    fold o3 in Hw3.
    destruct (commit_peeks ps c2 r1 os) as (P1 & P2 & P3).
    fold o3 in P1, P2, P3.
    assert (Hcfg3 : config o3 = config o).
    { destruct Hk3 as (E3 & _). rewrite E3, Hcfgs.
      change (config oc) with (config o1). congruence. }
    assert (Hex3 : _executions o3 = _executions o1).
    { destruct Hk3 as (_ & _ & E3). rewrite E3, Hexs. reflexivity. }
    exists w3, out. split.
    { rewrite (call_evaluate _ _ _ _ _ _ _ _ _ _ _ _ _ _ Hbefore Hinv),
        Hafter. reflexivity. }
    split.
    { set (wI := set_nodes (nodes w3) w2).
      assert (HcalmI : calm self wI).
      { apply (calm_insert_node self w2 wI cur me
                 (set_blocked_by
                    (dd_get ∅ (_current_problem_size me) (_blocked_by me)).2
                    me)); try reflexivity.
        - exact Hcalm2.
        - exact Hme.
        - apply unmarked_dd_get.
        - cbn. exact Hn3. }
      eapply (calm_same_nodes self wI w3 o1 o3); auto.
      rewrite Hi3. eapply lookup_insert_self; exact Hi2. }
    split; [exact Hp3|]. exists o3.
    split; [rewrite Hi3; eapply lookup_insert_self; exact Hi2|].
    split; [exact Hcfg3|]. split; [exact Hw3|].
    pose proof Hcfg3 as Hcfg3'.
    injection Hcfg3' as _ Ealt3 _ Ernd3 Estg3 _ _ Etot3.
    change (alternatives os) with (alternatives o3) in Ealt3.
    change (total_rounds os) with (total_rounds o3) in Ernd3.
    change (stages os) with (stages o3) in Estg3.
    change (_total_alternatives os) with (_total_alternatives o3) in Etot3.
    assert (Hca3 : cached o3 ps = cached os ps)
      by (apply keeps_selection_cached; exact Hk3).
    assert (HTo : total_rounds o' = total_rounds o) by exact Ernd.
    rewrite HTo in Hrr.
    destruct sel.
    + (* selected *)
      destruct (Hyes eq_refl) as (a' & Ha' & Hca').
      split.
      { left. exists a'. rewrite Ealt3, <- Ealt, <- Ealt1, Hca3. auto. }
      intros Hnone. rewrite Hca3, Hca' in Hnone. discriminate.
    + (* not selected *)
      destruct (Hno eq_refl) as (-> & Hc2 & Hkeep & Hnot).
      rewrite Ernd1, HTo in Hnot.
      assert (Hca0 : cached o3 ps = None).
      { rewrite Hca3. rewrite (keeps_selection_cached o1 oc ps Hkc).
        exact Hcac1. }
      assert (Hr1' : 0 <= r1 < total_rounds o).
      { destruct Hr1 as [->|(_ & E0 & E1)]; [exact Hrr|].
        specialize (Hnot E0). lia. }
      assert (Hsam3 : samples o3 ps = samples oc ps).
      { unfold samples.
        change (_times_arrays o3) with (_times_arrays oc).
        rewrite P3. reflexivity. }
      assert (Hbuf3 : buffers o3 ps = buffers oc ps) by reflexivity.
      assert (Hc2' : c1 <= c2).
      { destruct (decide (c1 = 0)) as [E|E]; [lia|].
        rewrite (Hkeep (or_introl E)). lia. }
      split.
      { right. split; [exact Hca0|]. rewrite P1, P2, Ealt3, Ernd3.
        fold K. split; [exact Hc2|]. split; [exact Hr1'|].
        intros i sr Hi Hcase. fold (samples o3 ps) in Hi.
        rewrite Hsam3 in Hi. apply (Hts' i sr Hi).
        destruct Hcase as [Hcase|Hcase]; [left; exact Hcase|].
        destruct (decide (1 <= r1)) as [Hge|Hlt]; [left; exact Hge|].
        right. destruct (decide (c1 = 0)) as [E|E].
        - rewrite (Hkeep (or_intror ltac:(lia))) in Hcase. lia.
        - rewrite (Hkeep (or_introl E)) in Hcase. exact Hcase. }
      intros _.
      assert (Hbud : budget o3 ps = (total_rounds o - r1) * K - c2).
      { unfold budget. rewrite Hca0, P1, P2, Ealt3, Ernd3. reflexivity. }
      assert (Hmono : (total_rounds o - r1) * K - c2
                      <= (total_rounds o - rnd0) * K - cur0).
      { destruct Hr1 as [E|(Ef & E0 & E1)].
        - rewrite E. destruct full eqn:Efull.
          + destruct (decide (c1 = 0)) as [E0|E0].
            * exfalso. unfold r1 in E. cbn [andb] in E.
              rewrite bool_decide_eq_true_2 in E by exact E0. lia.
            * specialize (Hstep eq_refl E0). lia.
          + destruct (Hsame eq_refl) as [E1 _]. lia.
        - specialize (Hwrap Ef E0). rewrite E1. nia. }
      assert (Hdec : full = true ->
                     (total_rounds o - r1) * K - c2
                     <= (total_rounds o - rnd0) * K - cur0 - 1).
      { intros Ef. destruct (decide (c1 = 0)) as [E0|E0].
        - specialize (Hwrap Ef E0).
          destruct Hr1 as [E|(_ & _ & E1)].
          + exfalso. unfold r1 in E. rewrite Ef in E. cbn [andb] in E.
            rewrite bool_decide_eq_true_2 in E by exact E0. lia.
          + rewrite E1. nia.
        - specialize (Hstep Ef E0).
          destruct Hr1 as [E|(_ & E1 & _)]; [|contradiction].
          rewrite E. lia. }
      assert (Hlen_b : length (buffers o' ps) = length (alternatives o))
        by (rewrite Hbl, Ealt; reflexivity).
      split.
      { (* the buffers stay in shape *)
        unfold buffers_ok. rewrite Hbuf3, Hbufc, Ealt3, Estg3. split.
        - destruct last; rewrite ?length_insert; exact Hlen_b.
        - assert (Hb' : Z.of_nat (length buf') = stages o)
            by (unfold buf'; rewrite length_insert; exact Hlb).
          assert (Hrep : Z.of_nat (length (Py.repeat_ (None : option Q)
                                             (stages o))) = stages o).
          { unfold Py.repeat_. rewrite length_replicate. lia. }
          assert (Hbs' : Forall
                    (fun bf : list (option Q) =>
                       Z.of_nat (length bf) = stages o)
                    (buffers o' ps)).
          { eapply Forall_impl; [exact Hbs|]. intros bf Hbf. cbn in Hbf.
            rewrite Hbf. exact Estg. }
          destruct last; repeat apply Forall_insert; assumption. }
      rewrite Hbud. unfold s', b'. fold last.
      destruct last eqn:Elast.
      * (* the last stage: the cycle has made its step *)
        right. split; [|intros bf j _ Hj; lia].
        destruct full eqn:Efull.
        -- specialize (Hdec eq_refl).
           destruct Hprog as [Hprog|[Hprog _]]; lia.
        -- destruct Hprog as [Hprog|[_ Hfill]]; [lia|].
           exfalso. unfold full in Efull. cbn [andb] in Efull.
           apply negb_false_iff in Efull.
           assert (Hnone : none_in buf' = false).
           { apply none_in_spec. intros j x Hj.
             apply bool_decide_eq_true in Elast.
             destruct (decide (j = Z.to_nat s)) as [->|Hne].
             - unfold buf' in Hj.
               rewrite list_lookup_insert_eq in Hj
                 by (apply lookup_lt_Some in Hj;
                     rewrite length_insert in Hj; exact Hj).
               injection Hj as <-. eauto.
             - unfold buf' in Hj.
               rewrite list_lookup_insert_ne in Hj by congruence.
               assert (Hjl : (j < length buf)%nat)
                 by (eapply lookup_lt_Some; exact Hj).
               destruct (Hfill buf j Hbuf ltac:(lia)) as [tj Htj].
               rewrite Htj in Hj. injection Hj as <-. eauto. }
           congruence.
      * (* an earlier stage *)
        assert (Ef : full = false) by reflexivity.
        destruct (Hsame Ef) as [E1 E2].
        destruct (decide (c2 = cur0)) as [Ec|Ec].
        -- destruct Hprog as [Hprog|[Hprog Hfill]]; [left; lia|].
           right. split; [lia|].
           intros bf j Hbf Hj. rewrite P1, Ec, Hbuf3, Hbufc in Hbf.
           rewrite list_lookup_insert_eq in Hbf
             by (eapply lookup_lt_Some; exact Hbuf).
           injection Hbf as <-.
           destruct (decide (j = Z.to_nat s)) as [->|Hne].
           ++ exists t. unfold buf'. apply list_lookup_insert_eq. lia.
           ++ unfold buf'. rewrite list_lookup_insert_ne by congruence.
              apply (Hfill buf j Hbuf). lia.
        -- left.
           assert (cur0 < c2) by lia.
           destruct Hprog as [Hprog|[Hprog _]]; lia.
Qed.


Lemma piping_mono self o ps s b b2 w :
  b <= b2 -> piping self o ps s b w -> piping self o ps s b2 w.
Proof.
  intros Hb (A & B & o' & C & D & E & F & G).
  split; [exact A|]. split; [exact B|]. exists o'.
  do 4 (split; [assumption|]). intros Hc.
  destruct (G Hc) as [Hbuf [Hp|[Hp Hf]]]; (split; [exact Hbuf|]).
  - left. lia.
  - right. split; [lia|exact Hf].
Qed.

Lemma pipe_calls self o ps (l : list (ExecId * Z * Args)) :
  quiet invoke (fun _ => True) self ->
  1 < stages o ->
  forallb (alternative_ok (stages o)) (alternatives o) = true ->
  1 <= prune_after_round o -> 1 <= total_rounds o ->
  forall s b w,
    0 <= s < stages o ->
    in_stage_order o ps s l ->
    piping self o ps s b w ->
    exists w' outs,
      calls invoke self l w = (w', Return outs) /\
      piping self o ps ((s + Z.of_nat (length l)) mod stages o)
        (Z.max 0 (b - (s + Z.of_nat (length l)) / stages o)) w'.
Proof.
  intros Hq HS Hok HPR HT.
  induction l as [|[[eid st] args] l IH]; intros s b w Hs Hl Hpipe.
  - exists w, []. split; [reflexivity|]. cbn [length].
    rewrite Z.add_0_r, Z.mod_small, Z.div_small by lia.
    apply (piping_mono self o ps s b); [lia|exact Hpipe].
  - destruct (Hl 0%nat _ eq_refl) as [Est Hps]. cbn in Est, Hps.
    rewrite Z.add_0_r, Z.mod_small in Est by lia. subst st.
    destruct (pipe_call self o ps s b eid args w Hq HS Hok HPR HT Hs Hpipe Hps)
      as (w1 & out & Hcall & Hpipe1).
    set (n := Z.of_nat (length l)).
    assert (Hn : 0 <= n) by (unfold n; lia).
    assert (Hlen : Z.of_nat (length ((eid, s, args) :: l)) = 1 + n)
      by (cbn [length]; unfold n; lia).
    rewrite Hlen.
    destruct (decide (s = stages o - 1)) as [Elast|Elast].
    + rewrite !bool_decide_eq_true_2 in Hpipe1 by exact Elast.
      assert (Hl' : in_stage_order o ps 0 l).
      { intros i x Hi. destruct (Hl (S i) x Hi) as [E1 E2].
        split; [|exact E2]. rewrite E1.
        replace (s + Z.of_nat (S i)) with (Z.of_nat i + 1 * stages o) by lia.
        rewrite Z_mod_plus_full. reflexivity. }
      destruct (IH 0 _ w1 ltac:(lia) Hl' Hpipe1)
        as (w2 & outs & Hcalls & Hpipe2).
      exists w2, (out :: outs). split.
      * cbn [calls]. rewrite (run_bind_return _ _ _ _ _ Hcall).
        rewrite (run_bind_return _ _ _ _ _ Hcalls). reflexivity.
      * fold n in Hpipe2.
        replace (s + (1 + n)) with (0 + n + 1 * stages o) by lia.
        rewrite Z_mod_plus_full, Z_div_plus_full by lia.
        assert (Hq0 : 0 <= (0 + n) / stages o)
          by (apply Z.div_pos; lia).
        eapply piping_mono; [|exact Hpipe2]. lia.
    + rewrite !bool_decide_eq_false_2 in Hpipe1 by exact Elast.
      assert (Hl' : in_stage_order o ps (s + 1) l).
      { intros i x Hi. destruct (Hl (S i) x Hi) as [E1 E2].
        split; [|exact E2]. rewrite E1. f_equal. lia. }
      destruct (IH (s + 1) _ w1 ltac:(lia) Hl' Hpipe1)
        as (w2 & outs & Hcalls & Hpipe2).
      exists w2, (out :: outs). split.
      * cbn [calls]. rewrite (run_bind_return _ _ _ _ _ Hcall).
        rewrite (run_bind_return _ _ _ _ _ Hcalls). reflexivity.
      * fold n in Hpipe2.
        replace (s + (1 + n)) with (s + 1 + n) by lia. exact Hpipe2.
Qed.

(** Tuning a pipeline ends.  A [BestOf] with [stages > 1], K >= 1
    pipelines and [prune_after_round >= 1] is called, from outside every
    tuned alternative and with callables that make no tuned call still
    evaluating, for a problem size it has never seen, the calls coming in
    cycles of stages 0, 1, ..., [stages - 1].  Whatever the elapsed
    times, every call returns, and after K * rounds cycles one of the
    pipelines is selected and cached for the problem size.  (The stage
    buffer that the last stage resets is that of the next alternative;
    a cycle in order overwrites every entry before it sums them.) *)
Theorem pipeline_selection_within_cycles
    self o ps w (l : list (ExecId * Z * Args)) :
  quiet invoke (fun _ => True) self ->
  calm self w -> _current_parents w = [] ->
  instances w !! self = Some o -> well_formed o ->
  1 < stages o ->
  forallb (alternative_ok (stages o)) (alternatives o) = true ->
  alternatives o <> [] ->
  1 <= total_rounds o -> 1 <= prune_after_round o ->
  never_seen o ps -> _stages_times o !! ps = None ->
  in_stage_order o ps 0 l ->
  let n := Z.of_nat (length (alternatives o)) * total_rounds o * stages o in
  exists w' outs o',
    calls invoke self l w = (w', Return outs) /\
    instances w' !! self = Some o' /\
    (n <= Z.of_nat (length l) ->
     exists a, a ∈ alternatives o /\ cached o' ps = Some a.2).
Proof.
  intros Hq Hcalm Hp Ho Hwf HS Hok Hne HT HPR
    (Hbm & Hbp & Hca & Hcr & Hts) Hsts Hl n.
  set (K := Z.of_nat (length (alternatives o))) in *.
  assert (HK : 1 <= K).
  { unfold K. destruct (alternatives o); [congruence|cbn; lia]. }
  assert (Hc0 : cached o ps = None).
  { unfold cached, dd_peek. rewrite Hbm, Hbp.
    destruct (bool_decide _); reflexivity. }
  assert (Hb0 : budget o ps = K * total_rounds o).
  { unfold budget, dd_peek. rewrite Hc0, Hca, Hcr. cbn. fold K. lia. }
  pose proof Hwf as (Htot & _).
  assert (Hs0 : piping self o ps 0 (K * total_rounds o) w).
  { split; [exact Hcalm|]. split; [exact Hp|]. exists o.
    split; [exact Ho|]. split; [reflexivity|]. split; [exact Hwf|].
    split.
    - right. split; [exact Hc0|]. unfold dd_peek. rewrite Hca, Hcr, Hts.
      cbn. fold K. split; [lia|]. split; [lia|].
      intros i series Hi [Hx|Hx]; lia.
    - intros _. split; [|right; split; [lia|intros bf j _ Hj; lia]].
      unfold buffers_ok, buffers, dd_peek. rewrite Hsts. cbn.
      unfold _stages_times_arrays. split.
      + rewrite length_replicate, Htot. apply Nat2Z.id.
      + apply Forall_replicate. unfold Py.repeat_.
        rewrite length_replicate. lia. }
  destruct (pipe_calls self o ps l Hq HS Hok HPR HT 0 _ w ltac:(lia) Hl Hs0)
    as (w' & outs & Hcalls & Hs).
  destruct Hs as (_ & _ & o' & Ho' & Hcfg & Hwf' & Htun & Hrest).
  exists w', outs, o'. split; [exact Hcalls|]. split; [exact Ho'|].
  injection Hcfg as _ Ealt _ Ernd _ _ _ _.
  intros Hlen.
  destruct Htun as [(a & Ha & Hc)|(Hc & Hcr' & Hrr' & _)].
  - exists a. rewrite <- Ealt. auto.
  - exfalso. destruct (Hrest Hc) as [_ Hprog].
    assert (Hdiv : K * total_rounds o <= (0 + Z.of_nat (length l)) / stages o).
    { apply Z.div_le_lower_bound; [lia|]. unfold n in Hlen. lia. }
    unfold budget in Hprog. rewrite Hc, Ealt, Ernd in Hprog.
    rewrite Ealt in Hcr'. rewrite Ernd in Hrr'. fold K in Hprog, Hcr'.
    destruct Hprog as [Hprog|[Hprog _]]; nia.
Qed.


(** ** One problem size at a time *)

Lemma apart_refl ps o : apart ps o o.
Proof. split; reflexivity. Qed.

Lemma apart_trans ps o1 o2 o3 :
  apart ps o1 o2 -> apart ps o2 o3 -> apart ps o1 o3.
Proof.
  intros [C1 T1] [C2 T2]. split; [congruence|].
  intros ps' Hne. rewrite (T2 ps' Hne). apply T1, Hne.
Qed.

Lemma touches_only_refl self ps w : touches_only self ps w w.
Proof. intros r o Ho. exists o. split; [exact Ho|]. split; reflexivity. Qed.

Lemma touches_only_trans self ps w1 w2 w3 :
  touches_only self ps w1 w2 -> touches_only self ps w2 w3 ->
  touches_only self ps w1 w3.
Proof.
  intros H12 H23 r o Ho.
  destruct (H12 r o Ho) as (o2 & Ho2 & C2 & T2).
  destruct (H23 r o2 Ho2) as (o3 & Ho3 & C3 & T3).
  exists o3. split; [exact Ho3|]. split; [congruence|].
  intros ps' Hne. rewrite (T3 ps' Hne). apply T2, Hne.
Qed.

Lemma same_instances_touches self ps w w' :
  same_instances w w' -> touches_only self ps w w'.
Proof.
  intros E r o Ho. exists o. rewrite E. split; [exact Ho|].
  split; reflexivity.
Qed.

Lemma on_self_touches {A} self ps (m : St BestOf' A) :
  st_rel (S := BestOf') (apart ps) m ->
  st_rel (S := World') (touches_only self ps) (on_self self m).
Proof.
  intros Hm w w' r. unfold on_self.
  destruct (instances w !! self) as [o|] eqn:Ho.
  - destruct (m o) as [o' r'] eqn:E. intros Hr; inversion Hr; subst.
    intros r0 o0 Ho0. cbn.
    destruct (decide (self = r0)) as [<-|Hne].
    + exists o'. rewrite (lookup_insert_self _ _ _ _ Ho).
      split; [reflexivity|]. assert (o0 = o) by congruence. subst o0.
      destruct (Hm _ _ _ E) as [C T]. split; [exact C|].
      intros ps' [Hx|Hx]; [congruence|apply T, Hx].
    + exists o0. rewrite list_lookup_insert_ne by exact Hne.
      split; [exact Ho0|]. split; reflexivity.
  - intros Hr; inversion Hr; subst. apply touches_only_refl.
Qed.

Lemma dd_get_lookup_ne `{Countable K} {V} (dflt : V) (k k' : K)
    (d : gmap K V) :
  k' <> k -> (dd_get dflt k d).2 !! k' = d !! k'.
Proof.
  intros Hne. unfold dd_get. destruct (d !! k); cbn; [reflexivity|].
  apply lookup_insert_ne. congruence.
Qed.

Ltac apart_solve :=
  split; [reflexivity|];
  let ps' := fresh "ps'" in
  let Hne := fresh "Hne" in
  intros ps' Hne; unfold tuning_at;
  cbn [best_idx best_name best_method best_pipeline _current_round
       _current_alternative _times _stages_times set_best_idx set_best_name
       set_best_method set_best_pipeline set_current_round
       set_current_alternative set_times set_stages_times set_executions
       with_state];
  rewrite ?dd_get_lookup_ne by exact Hne;
  rewrite ?lookup_insert_ne by congruence;
  reflexivity.

Lemma read_dd_apart ps :
  st_rel (S := BestOf') (apart ps) (read_best ps) /\
  st_rel (S := BestOf') (apart ps) (read_current_round ps) /\
  st_rel (S := BestOf') (apart ps) (read_current_alternative ps) /\
  st_rel (S := BestOf') (apart ps) (read_times ps) /\
  st_rel (S := BestOf') (apart ps) (read_stages_times ps).
Proof.
  split; [|split; [|split; [|split]]]; intros o o' r.
  - unfold read_best. destruct (bool_decide (stages o = 1)).
    + pose proof (dd_get_lookup_ne (None : option (Impl Callable)) ps) as Hl.
      destruct (dd_get None ps (best_method o)) as [v d] eqn:E.
      intros Hr; inversion Hr; subst. split; [reflexivity|].
      intros ps' Hne. unfold tuning_at. cbn.
      specialize (Hl ps' (best_method o) Hne). rewrite E in Hl. cbn in Hl.
      rewrite Hl. reflexivity.
    + pose proof (dd_get_lookup_ne (None : option (Impl Callable)) ps) as Hl.
      destruct (dd_get None ps (best_pipeline o)) as [v d] eqn:E.
      intros Hr; inversion Hr; subst. split; [reflexivity|].
      intros ps' Hne. unfold tuning_at. cbn.
      specialize (Hl ps' (best_pipeline o) Hne). rewrite E in Hl. cbn in Hl.
      rewrite Hl. reflexivity.
  - rewrite run_read_current_round. intros Hr; inversion Hr; subst.
    apart_solve.
  - rewrite run_read_current_alternative. intros Hr; inversion Hr; subst.
    apart_solve.
  - rewrite run_read_times. intros Hr; inversion Hr; subst. apart_solve.
  - rewrite run_read_stages_times. intros Hr; inversion Hr; subst.
    apart_solve.
Qed.

Ltac apart_steps ps :=
  st_rel_core
    ltac:(first [ apply (proj1 (read_dd_apart ps))
                | apply (proj1 (proj2 (read_dd_apart ps)))
                | apply (proj1 (proj2 (proj2 (read_dd_apart ps))))
                | apply (proj1 (proj2 (proj2 (proj2 (read_dd_apart ps)))))
                | apply (proj2 (proj2 (proj2 (proj2 (read_dd_apart ps))))) ])
    (apart_refl ps) (apart_trans ps);
  try apart_solve.

Lemma times_append_apart ps ca x :
  st_rel (S := BestOf') (apart ps) (times_append ps ca x).
Proof. unfold times_append. apart_steps ps. Qed.

Lemma stages_times_store_apart ps ca buf :
  st_rel (S := BestOf') (apart ps) (stages_times_store ps ca buf).
Proof. unfold stages_times_store. apart_steps ps. Qed.

Lemma stages_times_load_apart ps ca :
  st_rel (S := BestOf') (apart ps) (stages_times_load ps ca).
Proof. unfold stages_times_load. apart_steps ps. Qed.

Lemma record_sample_apart ps ca stage t :
  st_rel (S := BestOf') (apart ps) (record_sample ps ca stage t).
Proof.
  unfold record_sample.
  st_rel_core
    ltac:(first [ apply (proj1 (proj2 (read_dd_apart ps)))
                | apply times_append_apart
                | apply stages_times_store_apart
                | apply stages_times_load_apart ])
    (apart_refl ps) (apart_trans ps).
Qed.

Lemma select_best_apart ps ca r :
  st_rel (S := BestOf') (apart ps) (select_best ps ca r).
Proof. unfold select_best. apart_steps ps. Qed.

Lemma commit_apart ps ca r :
  st_rel (S := BestOf') (apart ps) (commit ps ca r).
Proof. unfold commit. apart_steps ps. Qed.


Ltac touch_same self ps :=
  apply (st_rel_weaken _ _ _ (same_instances_touches self ps));
  first [ apply get_self_same | apply new_execution_same
        | apply set_problem_size_same | apply block_parent_same
        | apply unblock_parent_same | apply is_blocked_same
        | apply pop_parent_same ].

Lemma register_touches self ps eid :
  st_rel (S := World') (touches_only self ps) (_register self eid).
Proof.
  unfold _register.
  st_rel_core
    ltac:(first [ touch_same self ps | apply on_self_touches ])
    (touches_only_refl self ps) (touches_only_trans self ps).
  apart_solve.
Qed.

Lemma after_alternative_touches self cur ps ca stage t :
  st_rel (S := World') (touches_only self ps)
    (after_alternative self cur ps ca stage t).
Proof.
  unfold after_alternative.
  st_rel_core
    ltac:(first
      [ touch_same self ps
      | apply on_self_touches;
        first [ apply record_sample_apart | apply select_best_apart
              | apply commit_apart ] ])
    (touches_only_refl self ps) (touches_only_trans self ps).
Qed.

(** Up to its alternative, a call touches its own problem size only; and
    that is the problem size it goes on with. *)
Lemma before_alternative_touches self eid stage_arg args w w1 r o :
  instances w !! self = Some o ->
  before_alternative self eid stage_arg args w = (w1, r) ->
  touches_only self (get_problem_size o args) w w1 /\
  forall stage cur ps ca c,
    r = Return (stage, Evaluate cur ps ca c) -> ps = get_problem_size o args.
Proof.
  intros Ho Hrun. set (ps0 := get_problem_size o args).
  unfold before_alternative in Hrun.
  st_step Hrun as wr n Hreg.
  2:{ inversion Hrun; subst. split; [|discriminate].
      eapply register_touches; exact Hreg. }
  pose proof (register_touches self ps0 eid _ _ _ Hreg) as T1.
  destruct (T1 self o Ho) as (o1 & Ho1 & Hcfg1 & _).
  rewrite (run_bind_return _ _ _ _ _ (run_get_self _ _ _ Ho1)) in Hrun.
  assert (Hgps : get_problem_size o1 args = ps0).
  { unfold ps0. injection Hcfg1 as _ _ -> _ _ _ _ _. reflexivity. }
  rewrite Hgps in Hrun.
  destruct (negb _).
  { inversion Hrun; subst. split; [exact T1|discriminate]. }
  rewrite run_bind in Hrun. change (get wr) with (wr, Return wr) in Hrun.
  cbn beta iota in Hrun.
  destruct (_use_first_alternative wr).
  { destruct (Py.index (alternatives o1) 0) as [a|];
      [|inversion Hrun; subst; split; [exact T1|discriminate]].
    st_run. destruct (callable_of _ _ _); inversion Hrun; subst;
      (split; [exact T1|discriminate]). }
  st_step Hrun as ws u Hsps.
  2:{ inversion Hrun; subst. split; [|discriminate].
      eapply touches_only_trans; [exact T1|].
      apply same_instances_touches. eapply set_problem_size_same. exact Hsps. }
  assert (T2 : touches_only self ps0 wr ws).
  { apply same_instances_touches. eapply set_problem_size_same. exact Hsps. }
  st_step Hrun as wt best Hbest.
  2:{ inversion Hrun; subst. split; [|discriminate].
      eapply touches_only_trans; [exact T1|].
      eapply touches_only_trans; [exact T2|].
      eapply on_self_touches; [apply (proj1 (read_dd_apart ps0))|exact Hbest]. }
  assert (T3 : touches_only self ps0 ws wt).
  { eapply on_self_touches; [apply (proj1 (read_dd_apart ps0))|exact Hbest]. }
  assert (T13 : touches_only self ps0 w wt).
  { eapply touches_only_trans; [exact T1|].
    eapply touches_only_trans; [exact T2|exact T3]. }
  destruct best as [impl|].
  { st_run. destruct (callable_of _ _ _); inversion Hrun; subst;
      (split; [exact T13|discriminate]). }
  st_step Hrun as wb u2 Hblock.
  2:{ inversion Hrun; subst. split; [|discriminate].
      eapply touches_only_trans; [exact T13|].
      apply same_instances_touches. eapply block_parent_same. exact Hblock. }
  assert (T4 : touches_only self ps0 wt wb).
  { apply same_instances_touches. eapply block_parent_same. exact Hblock. }
  st_step Hrun as wc ca0 Hcur.
  2:{ inversion Hrun; subst. split; [|discriminate].
      eapply touches_only_trans; [exact T13|].
      eapply touches_only_trans; [exact T4|].
      eapply on_self_touches;
        [apply (proj1 (proj2 (proj2 (read_dd_apart ps0))))|exact Hcur]. }
  assert (T5 : touches_only self ps0 wb wc).
  { eapply on_self_touches;
      [apply (proj1 (proj2 (proj2 (read_dd_apart ps0))))|exact Hcur]. }
  assert (T15 : touches_only self ps0 w wc).
  { eapply touches_only_trans; [exact T13|].
    eapply touches_only_trans; [exact T4|exact T5]. }
  rewrite run_bind in Hrun. unfold modify at 1 in Hrun.
  cbn beta iota in Hrun.
  set (wd := set_current_parents _ wc) in Hrun.
  assert (T6 : touches_only self ps0 wc wd)
    by (apply same_instances_touches; reflexivity).
  assert (T16 : touches_only self ps0 w wd)
    by (eapply touches_only_trans; [exact T15|exact T6]).
  destruct (Py.index (alternatives o1) ca0) as [a|];
    [|inversion Hrun; subst; split; [exact T16|discriminate]].
  st_run.
  destruct (callable_of _ _ _) as [c|e];
    inversion Hrun; subst; (split; [|try discriminate]).
  - eapply touches_only_trans; [exact T16|].
    apply same_instances_touches. reflexivity.
  - intros stage cur ps ca c0 [= _ _ <- _ _]. reflexivity.
  - exact T16.
Qed.

(** A call touches one problem size of one [BestOf].  Whether it returns
    or raises, every other [BestOf] of the process, and the called one for
    every problem size but that of the arguments, hold the selection, the
    cursor, the round, the samples and the stage buffers they held,
    provided the callables leave them (they reach the engine through calls
    only).  Problem sizes are tuned apart. *)
Theorem call_touches_its_problem_size
    self eid stage_arg args w o w' r :
  instances w !! self = Some o ->
  (forall c a,
     st_rel (S := World') (touches_only self (get_problem_size o args))
       (invoke c a)) ->
  call invoke self eid stage_arg args w = (w', r) ->
  touches_only self (get_problem_size o args) w w'.
Proof.
  intros Ho Hinv Hrun. set (ps0 := get_problem_size o args) in *.
  unfold call in Hrun.
  st_step Hrun as w1 sd Hbefore.
  2:{ inversion Hrun; subst.
      apply (before_alternative_touches _ _ _ _ _ _ _ _ Ho Hbefore). }
  destruct (before_alternative_touches _ _ _ _ _ _ _ _ Ho Hbefore)
    as [T1 Hps].
  destruct sd as [stage d]. destruct d as [c|cur ps ca c].
  - cbn beta iota in Hrun. st_step Hrun as w2 x Hi.
    + destruct x as [out t]. inversion Hrun; subst.
      eapply touches_only_trans; [exact T1|]. eapply Hinv. exact Hi.
    + inversion Hrun; subst.
      eapply touches_only_trans; [exact T1|]. eapply Hinv. exact Hi.
  - rewrite (Hps _ _ _ _ _ eq_refl) in Hrun. fold ps0 in Hrun.
    cbn beta iota in Hrun. st_step Hrun as w2 x Hi.
    2:{ inversion Hrun; subst.
        eapply touches_only_trans; [exact T1|]. eapply Hinv. exact Hi. }
    destruct x as [out t]. cbn beta iota in Hrun.
    assert (T2 : touches_only self ps0 w w2).
    { eapply touches_only_trans; [exact T1|]. eapply Hinv. exact Hi. }
    st_step Hrun as w3 u Ha; inversion Hrun; subst;
      (eapply touches_only_trans; [exact T2|]);
      eapply after_alternative_touches; exact Ha.
Qed.

End Properties.

(** * The properties on the concrete registries *)

Module DemoFacts.
Import Demo.

#[local] Existing Instance binary64.

(** With the override set, instance 0 of [single_world] is called from a
    call path not seen before. *)
Lemma override_runs_first_alternative_witness :
  let w := override_world in
  exists o,
    instances w !! 0%nat = Some o /\
    exists w1 n,
      _register 0%nat 7%nat w = (w1, Return n) /\
      call kernel 0%nat 7%nat 0 3%nat w =
        ((kernel 0%nat 3%nat w1).1, output_of (kernel 0%nat 3%nat w1).2) /\
      tuning <$> instances w1 = tuning <$> instances w /\
      (is_Some (_executions o !! 7%nat) -> w1 = w) /\
      forall g,
        let wg := reclassified 0%nat g w1 in
        _register 0%nat 7%nat (reclassified 0%nat g w) = (wg, Return n) /\
        call kernel 0%nat 7%nat 0 3%nat (reclassified 0%nat g w) =
          ((kernel 0%nat 3%nat wg).1, output_of (kernel 0%nat 3%nat wg).2).
Proof.
  intros w. eexists. split; [reflexivity|].
  eapply (override_runs_first_alternative kernel 0%nat 7%nat 0 3%nat w).
  - reflexivity.
  - reflexivity.
  - eexists; reflexivity.
  - vm_compute; reflexivity.
  - reflexivity.
  - reflexivity.
Defined.

(** C9 as stated fails: with the override set, the first call from a new
    call path adds a node to the execution tree. *)
Lemma override_call_grows_tree :
  let w := override_world in
  _use_first_alternative w = true /\
  length (nodes w) = 1%nat /\
  length (nodes (call kernel 0%nat 7%nat 0 3%nat w).1) = 2%nat.
Proof. vm_compute. repeat split. Qed.

(** Stage 2 of a two-stage pipeline. *)
Lemma stage_too_large_raises_witness :
  exists o,
    instances pipeline_world !! 0%nat = Some o /\
    exists w1 n,
      _register 0%nat 7%nat pipeline_world = (w1, Return n) /\
      call kernel 0%nat 7%nat 2 3%nat pipeline_world
        = (w1, Raise AssertionError) /\
      tuning <$> instances w1 = tuning <$> instances pipeline_world /\
      (is_Some (_executions o !! 7%nat) -> w1 = pipeline_world).
Proof.
  eexists. split; [reflexivity|].
  eapply (stage_too_large_raises kernel 0%nat 7%nat 2 3%nat pipeline_world).
  - reflexivity.
  - eexists; reflexivity.
  - vm_compute; reflexivity.
  - vm_compute; discriminate.
Defined.

(** C8 as stated fails: stage -1 of a two-stage pipeline does not satisfy
    [0 <= stage < stages], yet the call returns (it runs the last stage of
    the alternative under evaluation) and the execution tree has grown. *)
Lemma negative_stage_returns :
  (call kernel 0%nat 7%nat (-1) 3%nat pipeline_world).2 = Return 11%nat /\
  length (nodes pipeline_world) = 1%nat /\
  length (nodes (call kernel 0%nat 7%nat (-1) 3%nat pipeline_world).1)
    = 2%nat.
Proof. vm_compute. repeat split. Qed.

(** A call of [cached_world] for the problem size it has selected A for. *)
Lemma cached_selection_is_fast_path_witness :
  exists w1,
    call kernel 0%nat 7%nat 0 3%nat cached_world =
      ((kernel 0%nat 3%nat w1).1, output_of (kernel 0%nat 3%nat w1).2) /\
    tuning <$> instances w1 = tuning <$> instances cached_world /\
    stdout w1 = stdout cached_world /\
    _current_parents w1 = _current_parents cached_world.
Proof.
  eapply (cached_selection_is_fast_path kernel 0%nat 7%nat 0 3%nat
            cached_world).
  - reflexivity.
  - reflexivity.
  - eexists; reflexivity.
  - intros n Hn. vm_compute in Hn. injection Hn as <-.
    eexists _, _, _. repeat split; reflexivity.
  - vm_compute; reflexivity.
  - reflexivity.
  - reflexivity.
Defined.

(** The first call of the outer operation of [nested_world]: its
    alternative calls the inner operation, which has not converged when it
    returns. *)
Lemma blocked_call_records_nothing_witness :
  exists w3,
    call nested 0%nat 7%nat 0 3%nat nested_world = (w3, Return 0%nat) /\
    views_kept nested_world inside_outer /\
    instances w3 = instances after_inner /\
    stdout w3 = stdout after_inner /\
    _current_parents w3 = removelast (_current_parents after_inner).
Proof.
  eapply (blocked_call_records_nothing nested 0%nat 7%nat 0 3%nat
            nested_world inside_outer after_inner 0 1%nat 3%nat 0 100%nat
            0%nat 7%Q).
  - vm_compute; reflexivity.
  - vm_compute; reflexivity.
  - vm_compute; discriminate.
  - reflexivity.
  - vm_compute; reflexivity.
Defined.

(** C7 as stated fails: when the inner call made by the outer alternative
    has returned (it evaluated an alternative and selected nothing), the
    outer node is still marked as blocked by the inner node. *)
Lemma block_outlives_call :
  let r := call kernel 1%nat 8%nat 0 3%nat inside_outer in
  r.2 = Return 0%nat /\
  stdout r.1 = stdout inside_outer ++ [(0, 0, 3%nat)] /\
  marks_parent r.1 2%nat = true.
Proof. vm_compute. repeat split. Qed.

(** The first call of the inner operation, made by the outer
    alternative. *)
Lemma block_is_kept_until_selection_witness :
  marks_parent inner_started 2%nat = true /\
  exists o3,
    instances inner_done !! 1%nat = Some o3 /\
    marks_parent inner_done 2%nat
      = negb (bool_decide (is_Some (cached o3 3%nat))).
Proof.
  eapply (block_is_kept_until_selection kernel 1%nat 8%nat 0 3%nat
            inside_outer inner_started inner_started inner_done
            0 2%nat 3%nat 0 0%nat 0%nat 1%Q).
  - vm_compute; reflexivity.
  - reflexivity.
  - vm_compute; reflexivity.
  - vm_compute; reflexivity.
  - vm_compute; reflexivity.
  - reflexivity.
  - vm_compute; reflexivity.
Defined.

(** The decision of the third call of [quick_world]: cursor 0, round 1,
    medians 1, 2 and 50, limit 3/2. *)
Lemma selection_takes_smallest_median_witness :
  exists o' idx a mi,
    select_best 3%nat 0 1 sampled_obj = (o', Return (0, true)) /\
    (Float.median <$> [[1%Q]; [2%Q]; [50%Q]]) !! idx = Some (Some mi) /\
    (forall j mj,
       (Float.median <$> [[1%Q]; [2%Q]; [50%Q]]) !! j = Some (Some mj) ->
       (mi <= mj)%Q) /\
    (forall j mj, (j < idx)%nat ->
       (Float.median <$> [[1%Q]; [2%Q]; [50%Q]]) !! j = Some (Some mj) ->
       (mi < mj)%Q) /\
    alternatives sampled_obj !! idx = Some a /\
    best_idx o' !! 3%nat = Some (Z.of_nat idx) /\
    best_name o' !! 3%nat = Some a.1 /\
    cached o' 3%nat = Some a.2.
Proof.
  assert (Hlim : forall x, within_limit sampled_obj 1 x ->
                   x <> Some 2%Q /\ x <> Some 50%Q).
  { intros x (q & -> & Hq).
    split; intros [= ->]; vm_compute in Hq; apply Hq; reflexivity. }
  apply (proj2 (selection_takes_smallest_median 3%nat 0 1 sampled_obj
                  [[1%Q]; [2%Q]; [50%Q]])).
  - split; [reflexivity | vm_compute; discriminate].
  - reflexivity.
  - discriminate.
  - repeat constructor; discriminate.
  - reflexivity.
  - right. exists 1%Q. split.
    + split; [exists 0%nat; reflexivity|].
      intros [|[|[|j]]] mj [= <-]; unfold Qle; cbn; lia.
    + exists 0%nat, (Some 1%Q). split; [reflexivity|]. split.
      * exists 1%Q. split; [reflexivity|]. vm_compute. discriminate.
      * intros [|[|[|j']]] x' Hj' Hx'; [reflexivity| | |discriminate];
          vm_compute in Hj'; injection Hj' as <-; destruct (Hlim _ Hx');
          congruence.
Defined.

(** [quick_world] through its first round: construction, two calls, and
    the third call, which selects A. *)
Lemma selection_cache_consistent_witness :
  Forall well_formed (instances cached_world) /\
  forall o, o ∈ instances cached_world -> selection_consistent o.
Proof.
  assert (Hk : forall c a,
             st_rel (S := W) keeps_all_well_formed (kernel c a)).
  { intros c a w w' r Hr. inversion Hr; subst. intros Hw; exact Hw. }
  assert (Hstep : forall w : W,
             Forall well_formed (instances w) ->
             Forall well_formed
               (instances (call kernel 0%nat 7%nat 0 3%nat w).1)).
  { intros w Hw.
    eapply (proj2 (selection_cache_consistent kernel) Hk);
      [exact Hw | apply surjective_pairing]. }
  assert (H0 : Forall well_formed (instances quick_world)).
  { constructor; [|constructor].
    apply (proj1 (selection_cache_consistent kernel)
             "quick" three classify 10 (3 # 2)%Q 1 1).
    reflexivity. }
  replace cached_world
    with (call kernel 0%nat 7%nat 0 3%nat
            (call kernel 0%nat 7%nat 0 3%nat
               (call kernel 0%nat 7%nat 0 3%nat quick_world).1).1).1
    by (vm_compute; reflexivity).
  eapply (proj2 (selection_cache_consistent kernel) Hk);
    [apply Hstep, Hstep, H0 | apply surjective_pairing].
Defined.

(** C1, the code at the failing input.  [single_world] has medians 1, 2
    and 50 and [pruning_speedup=5].  The third call completes round 1 and
    takes the decision: C (median 50) is beyond the limit 5, A and B are
    within it, so nothing is selected and the cursor stays on A.  The
    sixth call is nevertheless dispatched to C (index 2) and its sample is
    recorded. *)
Lemma discarded_alternative_is_sampled_again :
  learned (calls kernel 0%nat (same_call 3) single_world).1
    = Some (Some [[1%Q]; [2%Q]; [50%Q]], None, Some 0, Some 1, None) /\
  Float.le (Some 50%Q) (Float.mul (Some 1%Q) 5) = false /\
  stdout (calls kernel 0%nat (same_call 6) single_world).1
    = [(0, 0, 3%nat); (0, 1, 3%nat); (0, 2, 3%nat);
       (0, 0, 3%nat); (0, 1, 3%nat); (0, 2, 3%nat)] /\
  learned (calls kernel 0%nat (same_call 6) single_world).1
    = Some (Some [[1%Q; 1%Q]; [2%Q; 2%Q]; [50%Q; 50%Q]], None,
            Some 0, Some 2, None).
Proof. vm_compute. repeat split. Qed.

(** C6, the code at the failing input.  After stage 0 and stage 1 of
    pipeline A in [pipeline_world], the sample 50 is recorded and the
    cursor is on B, but the buffer of A still holds both stage timings:
    the reset of line 357 went to the buffer of B.  After three cycles the
    decision of round 1 moves the cursor to B, whose buffer still holds
    the timings of its last cycle; a call of stage 1 alone then records a
    second sample for B. *)
Lemma stage_buffer_reset_misses_alternative :
  learned (calls kernel 0%nat (cycles 1) pipeline_world).1
    = Some (Some [[50%Q]; []; []],
            Some [[Some 30%Q; Some 20%Q]; [None; None]; [None; None]],
            Some 1, Some 0, None) /\
  learned (calls kernel 0%nat (cycles 3) pipeline_world).1
    = Some (Some [[50%Q]; [2%Q]; [4%Q]],
            Some [[None; None]; [Some 1%Q; Some 1%Q];
                  [Some 2%Q; Some 2%Q]],
            Some 1, Some 1, None) /\
  learned (calls kernel 0%nat (cycles 3 ++ [(7%nat, 1, 3%nat)])
             pipeline_world).1
    = Some (Some [[50%Q]; [2%Q; 2%Q]; [4%Q]],
            Some [[None; None]; [Some 1%Q; Some 1%Q]; [None; None]],
            Some 2, Some 1, None).
Proof. vm_compute. repeat split. Qed.

(** Seven calls of [single_world] with the timings of [steady], the
    floats 1 and 2: the decisions of rounds 1 and 2 discard nothing and
    the cycle of the three alternatives goes on. *)
Lemma round_robin_cycle_witness :
  let K := Z.of_nat (length (alternatives single_obj)) in
  exists w' outs o',
    calls steady 0%nat (same_call 7) single_world = (w', Return outs) /\
    stdout w' = stdout single_world
                ++ cycle_trace K 3%nat 0 (length (same_call 7)) /\
    instances w' !! 0%nat = Some o' /\
    cached o' 3%nat = None /\
    dd_peek 0 3%nat (_current_alternative o')
      = Z.of_nat (length (same_call 7)) mod K /\
    dd_peek 0 3%nat (_current_round o')
      = Z.of_nat (length (same_call 7)) / K /\
    (forall i series,
       dd_peek (_times_arrays o') 3%nat (_times o') !! i = Some series ->
       length series = visits K (length (same_call 7)) i /\
       Forall (fun t => t = 1%Q \/ t = 2%Q) series) /\
    (forall eid stage_arg args,
       get_problem_size single_obj args = 3%nat ->
       exists w1 cur c,
         before_alternative 0%nat eid stage_arg args w'
           = (w1, Return (0, Evaluate cur 3%nat
                               (Z.of_nat (length (same_call 7)) mod K) c)) /\
         stdout w1 = stdout w'
                     ++ [(0, Z.of_nat (length (same_call 7)) mod K, 3%nat)]).
Proof.
  apply (round_robin_cycle steady (fun t => t = 1%Q \/ t = 2%Q) 0%nat
           single_obj 3%nat single_world (same_call 7)).
  - intros c a w Hc.
    exists w, c, (if bool_decide (c = 0%nat) then 1%Q else 2%Q).
    split; [reflexivity|]. split.
    + destruct (bool_decide (c = 0%nat)); [left|right]; reflexivity.
    + repeat split; apply Hc.
  - split; [reflexivity|]. split.
    + eexists. split; reflexivity.
    + intros o eid n Ho He. injection Ho as <-. cbn in He.
      rewrite lookup_empty in He. discriminate.
  - reflexivity.
  - reflexivity.
  - apply (init_well_formed "op" three classify 10 5 1 1). reflexivity.
  - reflexivity.
  - reflexivity.
  - discriminate.
  - repeat split.
  - repeat constructor.
  - intros _. right. split; [vm_compute; discriminate|].
    split; [reflexivity|].
    split; [exact Binary64Facts.round_monotone|]. exists 1%Q, 2%Q.
    split; [reflexivity|]. split; [discriminate|].
    intros t [-> | ->]; (split; [split; discriminate|]);
      split; vm_compute; reflexivity.
Defined.

(** ** The reports *)

Lemma sampled_obj_well_formed : well_formed sampled_obj.
Proof.
  split; [reflexivity|]. split.
  - intros ps ts Hl. cbn in Hl. apply lookup_singleton_Some in Hl as [<- <-].
    reflexivity.
  - intros ps i Hi. cbn in Hi. rewrite lookup_empty in Hi. discriminate.
Qed.

Lemma selected_obj_well_formed : well_formed selected_obj.
Proof.
  eapply select_best_wf;
    [apply surjective_pairing | apply sampled_obj_well_formed].
Qed.

(** The medians of [sampled_obj] for problem size 3. *)
Lemma medians_per_alternative_witness :
  (medians sampled_obj !! 3%nat = None
   <-> _times sampled_obj !! 3%nat = None) /\
  forall ts,
    _times sampled_obj !! 3%nat = Some ts ->
    exists meds,
      medians sampled_obj !! 3%nat = Some meds /\
      length meds = length (alternatives sampled_obj) /\
      forall i series,
        ts !! i = Some series ->
        (series = [] -> meds !! i = Some None) /\
        (series <> [] ->
         exists m,
           meds !! i = Some (Some m) /\
           (monotone_rounding -> Forall Float.is_float series ->
            forall lo hi, Forall (within lo hi) series -> within lo hi m)).
Proof.
  apply (medians_per_alternative sampled_obj 3%nat).
  apply sampled_obj_well_formed.
Defined.

(** [speedups] on [selected_obj]: problem size 3 has the speedup 50. *)
Lemma speedups_of_selected_witness :
  (speedups selected_obj).2 = Return {[3%nat := Speedup.Fin 50]} /\
  exists bi out,
    speedups selected_obj = (set_best_idx bi selected_obj, Return out) /\
    (forall ps,
       is_Some (out !! ps) <->
       is_Some (_times selected_obj !! ps) /\
       exists i, best_idx selected_obj !! ps = Some i /\ i <> -1) /\
    (forall ps i s,
       best_idx selected_obj !! ps = Some i -> out !! ps = Some s ->
       exists meds top m,
         medians selected_obj !! ps = Some meds /\
         Speedup.max_ meds = Some top /\
         meds !! Z.to_nat i = Some m /\
         s = Speedup.div top m) /\
    (forall ps,
       bi !! ps =
       match best_idx selected_obj !! ps with
       | Some i => Some i
       | None => (fun _ => -1) <$> _times selected_obj !! ps
       end).
Proof.
  split; [vm_compute; reflexivity|].
  apply (speedups_of_selected selected_obj).
  apply selected_obj_well_formed.
Defined.

(** [speedups] on [sampled_obj], where nothing is selected. *)
Lemma speedups_marks_sampled_sizes_found_witness :
  best_method_has_been_found sampled_obj 3%nat = false /\
  exists o' out,
    speedups sampled_obj = (o', Return out) /\
    best_method_has_been_found o' 3%nat = true /\
    o' = set_best_idx (best_idx o') sampled_obj /\
    forall ps, cached o' ps = cached sampled_obj ps.
Proof.
  split; [reflexivity|].
  apply (speedups_marks_sampled_sizes_found sampled_obj 3%nat).
  - apply sampled_obj_well_formed.
  - eexists. reflexivity.
Defined.

(** [quick_world] through its first round: construction, two calls, and
    the third call, which selects A; then the test on the arguments 3 and
    4. *)
Lemma found_exactly_when_cached_witness :
  Forall settled (instances cached_world) /\
  forall o,
    instances cached_world !! 0%nat = Some o ->
    (best_method_has_been_found o 3%nat = true <->
     is_Some (cached o (get_problem_size o 3%nat))) /\
    (best_method_has_been_found o 4%nat = true <->
     is_Some (cached o (get_problem_size o 4%nat))).
Proof.
  assert (Hk : forall c a, st_rel (S := W) keeps_all_settled (kernel c a)).
  { intros c a w w' r Hr. inversion Hr; subst. intros Hw; exact Hw. }
  assert (Hstep : forall w : W,
             Forall settled (instances w) ->
             Forall settled (instances (call kernel 0%nat 7%nat 0 3%nat w).1)).
  { intros w Hw.
    eapply (proj1 (proj2 (found_exactly_when_cached kernel)) Hk);
      [exact Hw | apply surjective_pairing]. }
  assert (H0 : Forall settled (instances quick_world)).
  { constructor; [|constructor].
    apply (proj1 (found_exactly_when_cached kernel)
             "quick" three classify 10 (3 # 2)%Q 1 1).
    reflexivity. }
  assert (Hc : Forall settled (instances cached_world)).
  { replace cached_world
      with (call kernel 0%nat 7%nat 0 3%nat
              (call kernel 0%nat 7%nat 0 3%nat
                 (call kernel 0%nat 7%nat 0 3%nat quick_world).1).1).1
      by (vm_compute; reflexivity).
    apply Hstep, Hstep, Hstep, H0. }
  split; [exact Hc|]. intros o Ho.
  assert (Hs : settled o) by (eapply Forall_lookup_1; eassumption).
  split; apply (proj2 (proj2 (found_exactly_when_cached kernel))); exact Hs.
Defined.

(** The decision of the third call of [quick_world], with the samples 1,
    2 and 50. *)
Lemma selected_speedup_bounds_witness :
  exists o'' out s,
    speedups selected_obj = (o'', Return out) /\
    out !! 3%nat = Some (Speedup.Fin s) /\
    (1 <= s <= Float.round (50 / 1))%Q.
Proof.
  apply (selected_speedup_bounds 3%nat 0 1 sampled_obj selected_obj 0
           [[1%Q]; [2%Q]; [50%Q]] 1 50).
  - exact Binary64Facts.round_monotone.
  - vm_compute. reflexivity.
  - apply sampled_obj_well_formed.
  - reflexivity.
  - repeat constructor; try discriminate; vm_compute; reflexivity.
  - reflexivity.
  - vm_compute. reflexivity.
Defined.

(** The counts of [caller] on [selected_obj]: one size, for A. *)
Lemma summary_counts_selections_witness :
  summary_count caller selected_obj = Some ([1; 0; 0], 1) /\
  let K := length (alternatives selected_obj) in
  let idxs := (map_to_list (summary_best_idx caller selected_obj)).*2 in
  exists count,
    summary_count caller selected_obj = Some (count, Z.of_nat (length idxs)) /\
    (forall ps i,
       summary_best_idx caller selected_obj !! ps = Some i <->
       is_Some (problem_sizes caller !! ps) /\
       best_idx selected_obj !! ps = Some i) /\
    length count = K /\
    total_of count = Z.of_nat (length idxs) /\
    forall i,
      (i < K)%nat ->
      count !! i = Some (Z.of_nat (length (filter (denotes K i) idxs))).
Proof.
  split; [vm_compute; reflexivity|].
  apply (summary_counts_selections caller selected_obj).
  - apply selected_obj_well_formed.
  - discriminate.
Defined.

(** The counts of [caller] on [sampled_obj], where nothing is selected,
    before and after [speedups]; and the texts of [summary]. *)
Lemma summary_after_speedups_witness :
  let K := length (alternatives sampled_obj) in
  let n := Z.of_nat (size (problem_sizes caller)) in
  (summary_count caller sampled_obj = Some (replicate K 0, 0) /\
   exists o' out,
     speedups sampled_obj = (o', Return out) /\
     summary_count caller o' = Some (<[(K - 1)%nat := n]> (replicate K 0), n)) /\
  summary_text sampled_obj [0; 0; 0] 0 = "A: --- B: --- C: --- of 0 sizes" /\
  summary_text sampled_obj [0; 0; 1] 1 = "A: 0% B: 0% C: 100% of 1 sizes".
Proof.
  intros K n. split; [|split; vm_compute; reflexivity].
  apply (summary_after_speedups caller sampled_obj).
  - apply sampled_obj_well_formed.
  - discriminate.
  - intros ps [c Hc]. cbn in Hc. apply lookup_singleton_Some in Hc as [<- _].
    split; [eexists; reflexivity | reflexivity].
Defined.

(** ** Construction and the execution graph *)

(** [BestOf("op", three, classify, rounds=10, pruning_speedup=5,
    prune_after_round=-3)] is accepted. *)
Lemma init_accepts_witness :
  exists o : BestOf nat nat nat nat,
    __init__ "op" three classify 10 5 (-3) 1 = Return o.
Proof.
  apply (proj2 (proj1 (proj2 (init_accepts "op" three classify 10 5 (-3) 1)))).
  split; [lia|]. split; [lia|]. split; [reflexivity|].
  repeat constructor.
Defined.

(** [single_world] and its first call. *)
Lemma execution_graph_is_a_tree_witness :
  tree_ok single_world /\
  tree_ok (call kernel 0%nat 7%nat 0 3%nat single_world).1.
Proof.
  assert (Hk : forall c a, st_rel (S := W) keeps_tree (kernel c a)).
  { intros c a w w' r Hr. inversion Hr; subst. intros Hw; exact Hw. }
  assert (H0 : tree_ok single_world).
  { eapply (proj1 (proj2 (execution_graph_is_a_tree kernel)));
      [exact (proj1 (execution_graph_is_a_tree kernel))
      | apply surjective_pairing]. }
  split; [exact H0|].
  eapply (proj2 (proj2 (execution_graph_is_a_tree kernel)) Hk);
    [exact H0 | apply surjective_pairing].
Defined.

(** ** The stack of parents *)

(** The first call of [single_world] with callables that raise: the node
    of the call, node 1, stays on the stack. *)
Lemma stack_of_parents_after_call_witness :
  let run := call failing 0%nat 7%nat 0 3%nat single_world in
  run.1 = first_started /\ run.2 = Raise AlternativeFailure /\
  _current_parents run.1 = _current_parents single_world ++ [1%nat] /\
  current_root run.1 = 1%nat.
Proof.
  intros run.
  assert (Hf : forall c a, st_rel (S := W) same_stack (failing c a)).
  { intros c a w w' r Hr. inversion Hr; subst. reflexivity. }
  apply (proj2 (stack_of_parents_after_call failing 0%nat 7%nat 0 3%nat
                  single_world run.1 run.2 Hf (surjective_pairing run))
           first_started 0 1%nat 3%nat 0 0%nat first_started
           AlternativeFailure).
  - vm_compute. reflexivity.
  - reflexivity.
Defined.

(** The first call of [empty_world]. *)
Lemma no_alternatives_raises_witness :
  exists w1 w' cur,
    _register 0%nat 7%nat empty_world = (w1, Return cur) /\
    call kernel 0%nat 7%nat 0 3%nat empty_world = (w', Raise IndexError) /\
    _current_parents w' =
      if _use_first_alternative empty_world
      then _current_parents empty_world
      else _current_parents empty_world ++ [cur].
Proof.
  apply (no_alternatives_raises kernel 0%nat 7%nat 0 3%nat empty_world
           empty_obj).
  - reflexivity.
  - reflexivity.
  - eexists. reflexivity.
  - intros n Hn. cbn in Hn. rewrite lookup_empty in Hn. discriminate.
  - reflexivity.
  - reflexivity.
Defined.

(** ** Every problem size gets its selection *)

(** Thirty calls of [single_world]: three alternatives, ten rounds. *)
Lemma selection_within_rounds_witness :
  let n := Z.of_nat (length (alternatives single_obj))
           * total_rounds single_obj in
  exists w' outs o',
    calls kernel 0%nat (same_call 30) single_world = (w', Return outs) /\
    instances w' !! 0%nat = Some o' /\
    Z.of_nat (length (stdout w'))
      <= Z.of_nat (length (stdout single_world)) + n /\
    (n <= Z.of_nat (length (same_call 30)) ->
     exists a, a ∈ alternatives single_obj /\ cached o' 3%nat = Some a.2).
Proof.
  apply (selection_within_rounds kernel 0%nat single_obj 3%nat single_world
           (same_call 30)).
  - intros c a w Hc. exists w, c, (timing c). repeat split; apply Hc.
  - split; [reflexivity|]. split.
    + eexists. split; reflexivity.
    + intros o eid n Ho He. injection Ho as <-. cbn in He.
      rewrite lookup_empty in He. discriminate.
  - reflexivity.
  - reflexivity.
  - apply (init_well_formed "op" three classify 10 5 1 1). reflexivity.
  - reflexivity.
  - reflexivity.
  - discriminate.
  - cbn. lia.
  - repeat split.
  - repeat constructor.
Defined.

(** ** The override *)

(** [override_world] and three calls of it. *)
Lemma override_freezes_tuning_witness :
  _use_first_alternative override_world = true /\
  let w' := (calls kernel 0%nat (same_call 3) override_world).1 in
  _use_first_alternative w' = true /\
  tuning <$> instances w' = tuning <$> instances override_world.
Proof.
  assert (Hk : forall c a, st_rel (S := W) frozen (kernel c a)).
  { intros c a w w' r Hr. inversion Hr; subst. apply frozen_refl. }
  assert (Hstep : forall w : W,
             _use_first_alternative w = true ->
             let w' := (call kernel 0%nat 7%nat 0 3%nat w).1 in
             _use_first_alternative w' = true /\
             tuning <$> instances w' = tuning <$> instances w).
  { intros w Hu.
    eapply (proj2 (override_freezes_tuning kernel) Hk);
      [exact Hu | apply surjective_pairing]. }
  assert (H0 : _use_first_alternative override_world = true).
  { apply (proj1 (override_freezes_tuning kernel) single_world
             override_world (Return tt)). reflexivity. }
  split; [exact H0|]. intros w'.
  replace w'
    with (call kernel 0%nat 7%nat 0 3%nat
            (call kernel 0%nat 7%nat 0 3%nat
               (call kernel 0%nat 7%nat 0 3%nat override_world).1).1).1
    by (vm_compute; reflexivity).
  destruct (Hstep _ H0) as [H1 T1]. destruct (Hstep _ H1) as [H2 T2].
  destruct (Hstep _ H2) as [H3 T3]. split; [exact H3|]. congruence.
Defined.

(** [max_speedup] of [caller] in [report_world]: the only problem size of
    the node, counted three times, has the speedup 50. *)
Lemma max_speedup_is_a_weighted_mean_witness :
  (max_speedup 1%nat report_world).2 = Return (Some (Speedup.Fin 50)) /\
  exists res,
    max_speedup 1%nat report_world =
      (set_instances (<[0%nat := (speedups selected_obj).1]>
                        (instances report_world)) report_world,
       Return res) /\
    ((forall ps, is_Some (problem_sizes caller !! ps) ->
                 ({[3%nat := Speedup.Fin 50]} : gmap nat Speedup.t) !! ps
                 = None) ->
     res = None) /\
    ((exists ps, is_Some (problem_sizes caller !! ps) /\
                 is_Some (({[3%nat := Speedup.Fin 50]}
                           : gmap nat Speedup.t) !! ps)) ->
     (exists m, res = Some (Speedup.Fin m) /\ (50 <= m <= 50)%Q) /\
     forall l,
       l ≡ₚ map_to_list
              (filter (fun kv : nat * Speedup.t =>
                         is_Some (problem_sizes caller !! kv.1))
                 ({[3%nat := Speedup.Fin 50]} : gmap nat Speedup.t)) ->
       exists m,
         mean_in_order (problem_sizes caller) l = Speedup.Fin m /\
         (50 <= m <= 50)%Q).
Proof.
  split; [vm_compute; reflexivity|].
  apply (max_speedup_is_a_weighted_mean 1%nat report_world caller 0%nat
           selected_obj (speedups selected_obj).1
           {[3%nat := Speedup.Fin 50]} 50 50).
  - exact Binary64Facts.round_monotone.
  - intros n Hn.
    replace (calls_counted caller) with 3 in Hn by (vm_compute; reflexivity).
    assert (Hc : n = 0 \/ n = 1 \/ n = 2 \/ n = 3) by lia.
    destruct Hc as [-> | [-> | [-> | ->]]];
      (split; [|split]); vm_compute; reflexivity.
  - reflexivity.
  - reflexivity.
  - reflexivity.
  - apply selected_obj_well_formed.
  - vm_compute; reflexivity.
  - intros ps c Hc. cbn in Hc. apply lookup_singleton_Some in Hc as [_ <-].
    lia.
  - intros ps s _ Hs. apply lookup_singleton_Some in Hs as [_ <-].
    exists 50%Q. split; [reflexivity|]. split; apply Qle_refl.
Defined.


(** ** Reports and tuning *)

(** [quick_world] after two calls of its first round; [max_speedup] of
    the node of the calls marks problem size 3 in [best_idx]; the third
    call selects A in both processes. *)
Lemma reports_do_not_disturb_tuning_witness :
  let w := (calls kernel 0%nat (same_call 2) quick_world).1 in
  let w' := (max_speedup 1%nat w).1 in
  best_idx <$> instances w = [∅] /\
  best_idx <$> instances w' = [{[3%nat := -1]}] /\
  (calls kernel 0%nat (same_call 1) w).2
  = (calls kernel 0%nat (same_call 1) w').2 /\
  same_but_best_idx (calls kernel 0%nat (same_call 1) w).1
    (calls kernel 0%nat (same_call 1) w').1 /\
  best_idx <$> instances (calls kernel 0%nat (same_call 1) w').1
  = [{[3%nat := 0]}].
Proof.
  intros w w'.
  assert (Hk : forall c a, ignores_best_idx (kernel c a)).
  { intros c a w1 w2 Hw. split; [exact Hw|reflexivity]. }
  split; [vm_compute; reflexivity|].
  split; [vm_compute; reflexivity|].
  assert (Hw : same_but_best_idx w w').
  { apply (proj1 (proj2 (proj1
             (reports_do_not_disturb_tuning (Output := nat) kernel)))). }
  destruct (proj2 (reports_do_not_disturb_tuning kernel) Hk 0%nat
              (same_call 1) w w' Hw) as [Hr Hs].
  split; [exact Hr|]. split; [exact Hs|]. vm_compute; reflexivity.
Defined.


(** ** Pipelines *)

Lemma cycles_in_stage_order n : in_stage_order pipeline_obj 3%nat 0 (cycles n).
Proof.
  induction n as [|n IH]; intros i x Hi.
  - cbn in Hi. rewrite lookup_nil in Hi. discriminate.
  - change (cycles (S n))
      with ((7%nat, 0, 3%nat) :: (7%nat, 1, 3%nat) :: cycles n) in Hi.
    destruct i as [|[|i]]; cbn in Hi.
    + injection Hi as <-. split; reflexivity.
    + injection Hi as <-. split; reflexivity.
    + destruct (IH i x Hi) as [E1 E2]. split; [|exact E2].
      rewrite E1. change (stages pipeline_obj) with 2.
      replace (0 + Z.of_nat (S (S i))) with (0 + Z.of_nat i + 1 * 2) by lia.
      rewrite Z_mod_plus_full. reflexivity.
Qed.

(** Thirty cycles of [pipeline_world]: K * rounds. *)
Lemma pipeline_selection_within_cycles_witness :
  let n := Z.of_nat (length (alternatives pipeline_obj))
           * total_rounds pipeline_obj * stages pipeline_obj in
  exists w' outs o',
    calls kernel 0%nat (cycles 30) pipeline_world = (w', Return outs) /\
    instances w' !! 0%nat = Some o' /\
    (n <= Z.of_nat (length (cycles 30)) ->
     exists a, a ∈ alternatives pipeline_obj /\ cached o' 3%nat = Some a.2).
Proof.
  apply (pipeline_selection_within_cycles kernel 0%nat pipeline_obj 3%nat
           pipeline_world (cycles 30)).
  - intros c a w Hc. exists w, c, (timing c). repeat split; apply Hc.
  - split; [reflexivity|]. split.
    + eexists. split; reflexivity.
    + intros o eid n Ho He. injection Ho as <-. cbn in He.
      rewrite lookup_empty in He. discriminate.
  - reflexivity.
  - reflexivity.
  - apply (init_well_formed "pipe" pipes classify 10 5 1 2). reflexivity.
  - reflexivity.
  - reflexivity.
  - discriminate.
  - cbn. lia.
  - cbn. lia.
  - repeat split.
  - reflexivity.
  - apply cycles_in_stage_order.
Defined.


(** ** One problem size at a time *)

(** A call of [cached_world], which has tuned problem size 3, for
    problem size 5. *)
Lemma call_touches_its_problem_size_witness :
  exists o,
    instances cached_world !! 0%nat = Some o /\
    get_problem_size o 5%nat = 5%nat /\
    touches_only 0%nat (get_problem_size o 5%nat) cached_world
      (call kernel 0%nat 9%nat 0 5%nat cached_world).1.
Proof.
  eexists. split; [reflexivity|]. split; [reflexivity|].
  eapply (call_touches_its_problem_size kernel 0%nat 9%nat 0 5%nat
            cached_world).
  - reflexivity.
  - intros c a w w' r Hr. inversion Hr; subst. apply touches_only_refl.
  - apply surjective_pairing.
Defined.


(** ** The arithmetic of the machine *)

(** What binary64 makes of the operations of the code: [0.1 * 3.0] and
    [0.1 + 0.2] are 0.30000000000000004, the median of 0.1 and 0.2 is
    0.15000000000000002, [np.sum] of ten times 0.1 is 1.0 (NumPy adds in
    pairs), [10.0 / 3.0] is 3.3333333333333335, [1.9 * 3] is
    5.699999999999999 and [(0 + 1.9 * 3) / 3] is 1.8999999999999997. *)
Lemma binary64_arithmetic :
  Float.mul (Some tenth) 3 = Some above_0_3 /\
  Float.add tenth fifth = above_0_3 /\
  Float.median [tenth; fifth] = Some above_0_15 /\
  Float.sum [tenth; fifth] = above_0_3 /\
  Float.sum (replicate 10 tenth) = 1%Q /\
  Float.sum (replicate 17 tenth) = (1914029841632461 # 1125899906842624)%Q /\
  Float.sum (replicate 130 tenth) = (7318349394477055 # 562949953421312)%Q /\
  Speedup.div (Some 10%Q) (Some 3%Q)
    = Speedup.Fin (7505999378950827 # 2251799813685248) /\
  Speedup.scale (Speedup.Fin near_1_9) 3
    = Speedup.Fin (1604407367250739 # 281474976710656) /\
  Speedup.div_int
    (Speedup.add (Speedup.Fin 0) (Speedup.scale (Speedup.Fin near_1_9) 3)) 3
    = Speedup.Fin (8556839292003941 # 4503599627370496).
Proof. vm_compute. repeat split. Qed.

(** With the medians 0.1 and 0.30000000000000004 and a pruning speedup of
    3 the limit, [0.1 * 3.0], is 0.30000000000000004: both alternatives
    are within it and the decision of round 1 selects nothing. *)
Lemma rounded_limit_keeps_both :
  select_best 3%nat 0 1 close_obj = (close_obj, Return (0, false)).
Proof. vm_compute. reflexivity. Qed.

(** The median of 0.1 and 0.2 is the float 0.15000000000000002: the
    medians of [tied_obj] are equal and the decision of the last round
    selects the first alternative. *)
Lemma rounded_medians_tie :
  Float.median <$> [[above_0_15]; [tenth; fifth]]
    = [Some above_0_15; Some above_0_15] /\
  exists o',
    select_best 3%nat 0 1 tied_obj = (o', Return (0, true)) /\
    best_idx o' !! 3%nat = Some 0 /\
    best_name o' !! 3%nat = Some "A".
Proof.
  split; [vm_compute; reflexivity|].
  eexists. split; [vm_compute; reflexivity|]. split; reflexivity.
Qed.

(** ** The override and the cache *)

(** C5 as stated fails: B is cached for problem size 3 and a call runs
    it (callable 0); once the override is set, the same call, with the
    same selection cached, runs A (callable 2). *)
Lemma override_bypasses_cache :
  let w := late_world in
  let w' := (use_always_the_first_alternative w).1 in
  (exists o, instances w !! 0%nat = Some o /\
             cached o 3%nat = Some (Method 0%nat)) /\
  (call kernel 0%nat 7%nat 0 3%nat w).2 = Return 0%nat /\
  (exists o, instances w' !! 0%nat = Some o /\
             cached o 3%nat = Some (Method 0%nat)) /\
  (call kernel 0%nat 7%nat 0 3%nat w').2 = Return 2%nat.
Proof.
  cbv zeta. split; [eexists; split; vm_compute; reflexivity|].
  split; [vm_compute; reflexivity|].
  split; [eexists; split; vm_compute; reflexivity|].
  vm_compute; reflexivity.
Qed.


End DemoFacts.
